(** * stralgo: string similarity metrics, embedded from the Go sources

    The development follows the layout of the repository: package
    [stralgo] (src/stralgo.go), package [bytewise] (src/bytewise/bytewise.go)
    and package [runewise] (src/runewise/runewise.go, with the Jaro family).

    Conventions of the embedding.
    - A Go [string] is the list of its bytes and a [[]rune] the list of its
      code points; a unit ([byte], [rune]) is its integer value in [Z].
    - Go [int] and [uint] values are in [Z].  Every counter of the metrics is
      bounded in absolute value by [255 * (len a + len b)], so the 64-bit
      wrap-around of Go never comes into play.
    - [float64] is IEEE 754 binary64, taken from [SpecFloat] with precision
      53 and maximal exponent 1024; every operation rounds to nearest even,
      one by one (no fused multiply-add, as the Go compiler for amd64).
    - A call either returns a value with a nil error ([Ok]), returns an
      error ([Err], Go returns the zero value next to it), or stops with a
      run-time panic ([Panic], here always an index out of range). *)

From Stdlib Require Import ZArith List Lia Bool String Ascii.
From Stdlib Require Import Floats.SpecFloat.
From stdpp Require Import base option list gmap sorting.

Local Open Scope Z_scope.
Set Warnings "-clear-no-such-hyp".

(** ** Results, errors and panics *)

Inductive error : Type :=
| LengthMismatch
| InvalidAlphabetSize
| InsufficientLength
| InsufficientContent.

Inductive result (A : Type) : Type :=
| Ok (v : A)
| Err (e : error)
| Panic.

Arguments Ok {A} v.
Arguments Err {A} e.
Arguments Panic {A}.

Definition bind {A B : Type} (m : result A) (k : A -> result B) : result B :=
  match m with
  | Ok v => k v
  | Err e => Err e
  | Panic => Panic
  end.

Notation "x <- m ;; k" := (bind m (fun x => k))
  (at level 100, m at next level, right associativity).

Definition returns {A : Type} (m : result A) : Prop := exists v, m = Ok v.

(** ** Slices and loops *)

Definition len {A : Type} (l : list A) : Z := Z.of_nat (length l).

(** [l[i]]: panics when [i] is out of range. *)
Definition index {A : Type} (l : list A) (i : Z) : result A :=
  if i <? 0 then Panic
  else match l !! Z.to_nat i with
       | Some x => Ok x
       | None => Panic
       end.

(** [l[i] = v]: panics when [i] is out of range. *)
Definition assign {A : Type} (l : list A) (i : Z) (v : A) : result (list A) :=
  if i <? 0 then Panic
  else if (Z.to_nat i <? length l)%nat then Ok (<[Z.to_nat i := v]> l)
  else Panic.

(** [make([]T, n)] with zero value [z]. *)
Definition make {A : Type} (z : A) (n : Z) : list A := replicate (Z.to_nat n) z.

(** [n] iterations of a body whose loop variable starts at [i] and is
    incremented once after each iteration. *)
Fixpoint for_range {S : Type} (n : nat) (i : Z) (body : Z -> S -> result S) (s : S)
  : result S :=
  match n with
  | O => Ok s
  | S n' => s' <- body i s ;; for_range n' (i + 1) body s'
  end.

(** [for i := lo; i < hi; i++ { body }], for a body that does not assign [i]. *)
Definition for_loop {S : Type} (lo hi : Z) (body : Z -> S -> result S) (s : S)
  : result S :=
  for_range (Z.to_nat (hi - lo)) lo body s.

(** A loop whose body may leave it early ([break], or [return] of the
    state). *)
Inductive flow (S : Type) : Type :=
| Continue (s : S)
| Break (s : S).

Arguments Continue {S} s.
Arguments Break {S} s.

Fixpoint for_range_brk {S : Type} (n : nat) (i : Z)
  (body : Z -> S -> result (flow S)) (s : S) : result S :=
  match n with
  | O => Ok s
  | S n' =>
      r <- body i s ;;
      match r with
      | Continue s' => for_range_brk n' (i + 1) body s'
      | Break s' => Ok s'
      end
  end.

Definition for_loop_brk {S : Type} (lo hi : Z)
  (body : Z -> S -> result (flow S)) (s : S) : result S :=
  for_range_brk (Z.to_nat (hi - lo)) lo body s.

(** A loop whose body assigns its own loop variable: the variable is part
    of the state, and [fuel] bounds the number of iterations. *)
Fixpoint while_loop {S : Type} (fuel : nat) (cond : S -> bool)
  (body : S -> result S) (s : S) : result S :=
  match fuel with
  | O => Ok s
  | S fuel' =>
      if cond s then s' <- body s ;; while_loop fuel' cond body s'
      else Ok s
  end.

(** [l[lo:hi]]: panics unless [0 <= lo <= hi <= len l]. *)
Definition slice {A : Type} (l : list A) (lo hi : Z) : result (list A) :=
  if (0 <=? lo) && (lo <=? hi) && (hi <=? len l)
  then Ok (take (Z.to_nat (hi - lo)) (drop (Z.to_nat lo) l))
  else Panic.

(** [m[k]] on a [map[K]bool]: [false] for an absent key. *)
Definition map_get `{Countable K} (m : gmap K bool) (k : K) : bool :=
  default false (m !! k).

(** [min] of the packages: the least of three ints. *)
Definition min3 (a b c : Z) : Z :=
  let m := a in
  let m := if b <? m then b else m in
  if c <? m then c else m.

(** Bytes of an ASCII literal, as a Go string or as [[]rune("...")]. *)
Definition bytes (s : string) : list Z :=
  map (fun c => Z.of_N (N_of_ascii c)) (list_ascii_of_string s).

(** ** float64 *)

Definition float64 : Type := spec_float.

Definition f64_of_int (n : Z) : float64 := binary_normalize 53 1024 n 0 false.
Definition f64_add : float64 -> float64 -> float64 := SFadd 53 1024.
Definition f64_sub : float64 -> float64 -> float64 := SFsub 53 1024.
Definition f64_mul : float64 -> float64 -> float64 := SFmul 53 1024.
Definition f64_div : float64 -> float64 -> float64 := SFdiv 53 1024.
Definition f64_ltb : float64 -> float64 -> bool := SFltb.

(** The value of a float64 as the exact quotient [num / den] of two
    integers, when it is finite. *)
Definition f64_ratio (x : float64) : option (Z * Z) :=
  match x with
  | S754_zero _ => Some (0, 1)
  | S754_finite s m e =>
      let n := if s then Z.neg m else Z.pos m in
      Some (if 0 <=? e then (n * 2 ^ e, 1) else (n, 2 ^ (- e)))
  | _ => None
  end.

(** ** Package stralgo (src/stralgo.go) *)

Module stralgo.

Definition HammingDistance (a b : list Z) : result Z :=
  let aLen := len a in
  let bLen := len b in
  if negb (aLen =? bLen) then Err LengthMismatch
  else
    for_loop 0 aLen (fun i d =>
      ai <- index a i ;;
      bi <- index b i ;;
      Ok (if negb (ai =? bi) then d + 1 else d)) 0.

Definition LeeDistance (a b : list Z) (q : Z) : result Z :=
  if q <? 2 then Err InvalidAlphabetSize
  else
    let aLen := len a in
    let bLen := len b in
    if negb (aLen =? bLen) then Err LengthMismatch
    else
      for_loop 0 aLen (fun i d =>
        ai <- index a i ;;
        bi <- index b i ;;
        let diff := ai - bi in
        let diff := if diff <? 0 then - diff else diff in
        let qDiff := q - diff in
        Ok (if diff <? qDiff then d + diff else d + qDiff)) 0.

End stralgo.

(** ** Package bytewise (src/bytewise/bytewise.go) *)

Module bytewise.

Record byteBigram : Type := mkByteBigram { bigram_a : Z; bigram_b : Z }.

(** [byteBigram{}] *)
Definition zeroBigram : byteBigram := mkByteBigram 0 0.

(** [==] on the struct: field by field. *)
Definition bigram_eqb (x y : byteBigram) : bool :=
  (bigram_a x =? bigram_a y) && (bigram_b x =? bigram_b y).

Definition HammingDistance (a b : list Z) : result Z :=
  let aLen := len a in
  let bLen := len b in
  if negb (aLen =? bLen) then Err LengthMismatch
  else
    for_loop 0 aLen (fun i d =>
      ai <- index a i ;;
      bi <- index b i ;;
      Ok (if negb (ai =? bi) then d + 1 else d)) 0.

Definition DiceCoefficient (a b : list Z) : result float64 :=
  let aLimit := len a - 1 in
  let bLimit := len b - 1 in
  if (aLimit <? 1) && (bLimit <? 1) then Err InsufficientLength
  else
    let aSet : gmap (list Z) bool := ∅ in
    let totalBigrams := f64_of_int 0 in
    st <- for_loop 0 aLimit (fun i '(aSet, totalBigrams) =>
            bigram <- slice a i (i + 2) ;;
            if negb (map_get aSet bigram)
            then Ok (<[bigram := true]> aSet, f64_add totalBigrams (f64_of_int 1))
            else Ok (aSet, totalBigrams)) (aSet, totalBigrams) ;;
    let '(aSet, totalBigrams) := st in
    let bSet : gmap (list Z) bool := ∅ in
    let sharedBigrams := f64_of_int 0 in
    st <- for_loop 0 bLimit (fun i '(bSet, totalBigrams, sharedBigrams) =>
            bigram <- slice b i (i + 2) ;;
            if negb (map_get bSet bigram)
            then
              let totalBigrams := f64_add totalBigrams (f64_of_int 1) in
              let bSet := <[bigram := true]> bSet in
              if map_get aSet bigram
              then Ok (bSet, totalBigrams, f64_add sharedBigrams (f64_of_int 1))
              else Ok (bSet, totalBigrams, sharedBigrams)
            else Ok (bSet, totalBigrams, sharedBigrams))
          (bSet, totalBigrams, sharedBigrams) ;;
    let '(_, totalBigrams, sharedBigrams) := st in
    Ok (f64_div (f64_mul (f64_of_int 2) sharedBigrams) totalBigrams).

Definition asciiUpperOrSpace (b : Z) : Z * bool :=
  if b <=? 127 then
    if (97 <=? b) && (b <=? 122) then (b - (97 - 65), false)
    else if (b =? 9) || (b =? 10) || (b =? 11) || (b =? 12) || (b =? 13)
            || (b =? 32) || (b =? 133) || (b =? 160)
    then (b, true)
    else (b, false)
  else (b, false).

Definition asciiUpperWordLetterPairs (s : list Z) : result (list byteBigram * Z) :=
  let limit := len s - 1 in
  if limit <? 1 then Ok (make zeroBigram 0, 0)
  else
    let bigrams := make zeroBigram limit in
    let numPairs := 0 in
    st <- while_loop (Z.to_nat limit)
            (fun '(i, _, _) => i <? limit)
            (fun '(i, numPairs, bigrams) =>
               si1 <- index s (i + 1) ;;
               let '(b, bIsSpace) := asciiUpperOrSpace si1 in
               if bIsSpace then Ok (i + 1 + 1, numPairs, bigrams)
               else
                 si <- index s i ;;
                 let '(a, aIsSpace) := asciiUpperOrSpace si in
                 if aIsSpace then Ok (i + 1, numPairs, bigrams)
                 else
                   bigrams <- assign bigrams numPairs (mkByteBigram a b) ;;
                   Ok (i + 1, numPairs + 1, bigrams))
            (0, numPairs, bigrams) ;;
    let '(_, numPairs, bigrams) := st in
    bigrams <- slice bigrams 0 numPairs ;;
    Ok (bigrams, numPairs).

Definition WhiteSimilarity (a b : list Z) : result float64 :=
  pa <- asciiUpperWordLetterPairs a ;;
  let '(aPairs, aLen) := pa in
  pb <- asciiUpperWordLetterPairs b ;;
  let '(bPairs, bLen) := pb in
  let union := aLen + bLen in
  if union =? 0 then Err InsufficientContent
  else
    let intersection := f64_of_int 0 in
    st <- for_loop 0 (len aPairs) (fun k '(intersection, bPairs) =>
            aBigram <- index aPairs k ;;
            for_loop_brk 0 (len bPairs) (fun j '(intersection, bPairs) =>
              bBigram <- index bPairs j ;;
              if bigram_eqb aBigram bBigram
              then
                bPairs <- assign bPairs j zeroBigram ;;
                Ok (Break (f64_add intersection (f64_of_int 1), bPairs))
              else Ok (Continue (intersection, bPairs)))
            (intersection, bPairs))
          (intersection, bPairs) ;;
    let '(intersection, _) := st in
    Ok (f64_div (f64_mul (f64_of_int 2) intersection) (f64_of_int union)).

Definition LevenshteinDistance (a b : list Z) : result Z :=
  let aLen := len a in
  let bLen := len b in
  if aLen =? 0 then Ok bLen
  else if bLen =? 0 then Ok aLen
  else if (aLen =? bLen) && bool_decide (a = b) then Ok 0
  else
    let rowLen := bLen + 1 in
    let prevRow := make 0 rowLen in
    let currRow := make 0 rowLen in
    prevRow <- for_loop 0 rowLen (fun h prevRow => assign prevRow h h) prevRow ;;
    st <- for_loop 0 aLen (fun i '(prevRow, currRow) =>
            currRow <- assign currRow 0 (i + 1) ;;
            currRow <- for_loop 0 bLen (fun j currRow =>
                         ai <- index a i ;;
                         bi <- index b i ;;
                         let cost := if ai =? bi then 0 else 1 in
                         cj <- index currRow j ;;
                         pj1 <- index prevRow (j + 1) ;;
                         pj <- index prevRow j ;;
                         assign currRow (j + 1)
                           (min3 (cj + 1) (pj1 + 1) (pj + cost))) currRow ;;
            Ok (currRow, prevRow))
          (prevRow, currRow) ;;
    let '(prevRow, _) := st in
    index prevRow bLen.

Definition DamerauLevenshteinDistance (a b : list Z) : result Z :=
  let aLen := len a in
  let bLen := len b in
  if aLen =? 0 then Ok bLen
  else if bLen =? 0 then Ok aLen
  else
    let '(a, aLen, b, bLen) :=
      if aLen >? bLen then (b, bLen, a, aLen) else (a, aLen, b, bLen) in
    let rowLen := aLen + 1 in
    let tranRow := make 0 rowLen in
    let prevRow := make 0 rowLen in
    let currRow := make 0 rowLen in
    prevRow <- for_loop 0 rowLen (fun h prevRow => assign prevRow h h) prevRow ;;
    let prevB := 0 in
    st <- for_loop 1 (bLen + 1) (fun i '(tranRow, prevRow, currRow, prevB) =>
            currB <- index b (i - 1) ;;
            currRow <- assign currRow 0 i ;;
            let start := i - bLen - 1 in
            let start := if start <? 1 then 1 else start in
            let end_ := i + bLen + 1 in
            let end_ := if end_ >? aLen then aLen else end_ in
            let prevA := 0 in
            st <- for_loop start (end_ + 1) (fun j '(currRow, prevA) =>
                    currA <- index a (j - 1) ;;
                    let cost := if currA =? currB then 0 else 1 in
                    cj1 <- index currRow (j - 1) ;;
                    pj <- index prevRow j ;;
                    pj1 <- index prevRow (j - 1) ;;
                    let entry := min3 (cj1 + 1) (pj + 1) (pj1 + cost) in
                    entry <- (if (currA =? prevB) && (currB =? prevA)
                              then
                                tj2 <- index tranRow (j - 2) ;;
                                let trans := tj2 + cost in
                                Ok (if trans <? entry then trans else entry)
                              else Ok entry) ;;
                    currRow <- assign currRow j entry ;;
                    Ok (currRow, currA))
                  (currRow, prevA) ;;
            let '(currRow, _) := st in
            Ok (prevRow, currRow, tranRow, currB))
          (tranRow, prevRow, currRow, prevB) ;;
    let '(_, prevRow, _, _) := st in
    index prevRow aLen.

End bytewise.

(** ** Package runewise (src/runewise/runewise.go) *)

Module runewise.

Record runeBigram : Type := mkRuneBigram { rA : Z; rB : Z }.

(** [runeBigram{}] *)
Definition zeroBigram : runeBigram := mkRuneBigram 0 0.

(** [==] on the struct: field by field. *)
Definition bigram_eqb (x y : runeBigram) : bool :=
  (rA x =? rA y) && (rB x =? rB y).

#[global] Instance runeBigram_eq_dec : EqDecision runeBigram.
Proof. solve_decision. Defined.

#[global] Instance runeBigram_countable : Countable runeBigram :=
  inj_countable' (fun x => (rA x, rB x)) (fun p => mkRuneBigram p.1 p.2)
    (fun x => match x with mkRuneBigram _ _ => eq_refl end).

Definition WinklerBoostThreshold : float64 := f64_div (f64_of_int 7) (f64_of_int 10).
Definition WinklerMaxPrefixLength : Z := 4.
Definition WinklerPrefixScale : float64 := f64_div (f64_of_int 1) (f64_of_int 10).

Definition HammingDistance (a b : list Z) : result Z :=
  let aLen := len a in
  let bLen := len b in
  if negb (aLen =? bLen) then Err LengthMismatch
  else
    for_loop 0 aLen (fun i d =>
      ai <- index a i ;;
      bi <- index b i ;;
      Ok (if negb (ai =? bi) then d + 1 else d)) 0.

Definition DiceCoefficient (a b : list Z) : result float64 :=
  let aLen := len a in
  let bLen := len b in
  let aLimit := aLen - 1 in
  let bLimit := bLen - 1 in
  if (aLimit <? 1) && (bLimit <? 1) then Err InsufficientLength
  else
    let aSet : gmap runeBigram bool := ∅ in
    let totalBigrams := f64_of_int 0 in
    st <- for_loop 0 aLimit (fun i '(aSet, totalBigrams) =>
            ai <- index a i ;;
            ai1 <- index a (i + 1) ;;
            let bigram := mkRuneBigram ai ai1 in
            if negb (map_get aSet bigram)
            then Ok (<[bigram := true]> aSet, f64_add totalBigrams (f64_of_int 1))
            else Ok (aSet, totalBigrams)) (aSet, totalBigrams) ;;
    let '(aSet, totalBigrams) := st in
    let bSet : gmap runeBigram bool := ∅ in
    let sharedBigrams := f64_of_int 0 in
    st <- for_loop 0 bLimit (fun i '(bSet, totalBigrams, sharedBigrams) =>
            bi <- index b i ;;
            bi1 <- index b (i + 1) ;;
            let bigram := mkRuneBigram bi bi1 in
            if negb (map_get bSet bigram)
            then
              let totalBigrams := f64_add totalBigrams (f64_of_int 1) in
              let bSet := <[bigram := true]> bSet in
              if map_get aSet bigram
              then Ok (bSet, totalBigrams, f64_add sharedBigrams (f64_of_int 1))
              else Ok (bSet, totalBigrams, sharedBigrams)
            else Ok (bSet, totalBigrams, sharedBigrams))
          (bSet, totalBigrams, sharedBigrams) ;;
    let '(_, totalBigrams, sharedBigrams) := st in
    Ok (f64_div (f64_mul (f64_of_int 2) sharedBigrams) totalBigrams).

Section unicode.

(** The two primitives of Go's [unicode] package that the package calls. *)
Variable IsSpace : Z -> bool.
Variable ToUpper : Z -> Z.

Definition upperWordLetterPairs (runes : list Z) : result (list runeBigram * Z) :=
  let limit := len runes - 1 in
  if limit <? 1 then Ok (make zeroBigram 0, 0)
  else
    let bigrams := make zeroBigram limit in
    let numPairs := 0 in
    st <- while_loop (Z.to_nat limit)
            (fun '(i, _, _) => i <? limit)
            (fun '(i, numPairs, bigrams) =>
               a <- index runes i ;;
               b <- index runes (i + 1) ;;
               if IsSpace b then Ok (i + 1 + 1, numPairs, bigrams)
               else if IsSpace a then Ok (i + 1, numPairs, bigrams)
               else
                 bigrams <- assign bigrams numPairs
                              (mkRuneBigram (ToUpper a) (ToUpper b)) ;;
                 Ok (i + 1, numPairs + 1, bigrams))
            (0, numPairs, bigrams) ;;
    let '(_, numPairs, bigrams) := st in
    bigrams <- slice bigrams 0 numPairs ;;
    Ok (bigrams, numPairs).

Definition WhiteSimilarity (a b : list Z) : result float64 :=
  pa <- upperWordLetterPairs a ;;
  let '(aPairs, aLen) := pa in
  pb <- upperWordLetterPairs b ;;
  let '(bPairs, bLen) := pb in
  let union := aLen + bLen in
  if union =? 0 then Err InsufficientContent
  else
    let intersection := f64_of_int 0 in
    st <- for_loop 0 (len aPairs) (fun k '(intersection, bPairs) =>
            aBigram <- index aPairs k ;;
            for_loop_brk 0 (len bPairs) (fun j '(intersection, bPairs) =>
              bBigram <- index bPairs j ;;
              if bigram_eqb aBigram bBigram
              then
                bPairs <- assign bPairs j zeroBigram ;;
                Ok (Break (f64_add intersection (f64_of_int 1), bPairs))
              else Ok (Continue (intersection, bPairs)))
            (intersection, bPairs))
          (intersection, bPairs) ;;
    let '(intersection, _) := st in
    Ok (f64_div (f64_mul (f64_of_int 2) intersection) (f64_of_int union)).

End unicode.

Definition LevenshteinDistance (a b : list Z) : result Z :=
  let aLen := len a in
  let bLen := len b in
  if aLen =? 0 then Ok bLen
  else if bLen =? 0 then Ok aLen
  else
    let rowLen := bLen + 1 in
    let prevRow := make 0 rowLen in
    let currRow := make 0 rowLen in
    prevRow <- for_loop 0 rowLen (fun h prevRow => assign prevRow h h) prevRow ;;
    st <- for_loop 0 aLen (fun i '(prevRow, currRow) =>
            currRow <- assign currRow 0 (i + 1) ;;
            currRow <- for_loop 0 bLen (fun j currRow =>
                         ai <- index a i ;;
                         bj <- index b j ;;
                         let cost := if ai =? bj then 0 else 1 in
                         cj <- index currRow j ;;
                         pj1 <- index prevRow (j + 1) ;;
                         pj <- index prevRow j ;;
                         assign currRow (j + 1)
                           (min3 (cj + 1) (pj1 + 1) (pj + cost))) currRow ;;
            Ok (currRow, prevRow))
          (prevRow, currRow) ;;
    let '(prevRow, _) := st in
    index prevRow bLen.

Definition DamerauLevenshteinDistance (a b : list Z) : result Z :=
  let aLen := len a in
  let bLen := len b in
  if aLen =? 0 then Ok bLen
  else if bLen =? 0 then Ok aLen
  else
    let '(a, aLen, b, bLen) :=
      if aLen >? bLen then (b, bLen, a, aLen) else (a, aLen, b, bLen) in
    let rowLen := aLen + 1 in
    let tranRow := make 0 rowLen in
    let prevRow := make 0 rowLen in
    let currRow := make 0 rowLen in
    prevRow <- for_loop 0 rowLen (fun h prevRow => assign prevRow h h) prevRow ;;
    let prevB := 0 in
    st <- for_loop 1 (bLen + 1) (fun i '(tranRow, prevRow, currRow, prevB) =>
            currB <- index b (i - 1) ;;
            currRow <- assign currRow 0 i ;;
            let start := i - bLen - 1 in
            let start := if start <? 1 then 1 else start in
            let end_ := i + bLen + 1 in
            let end_ := if end_ >? aLen then aLen else end_ in
            let prevA := 0 in
            st <- for_loop start (end_ + 1) (fun j '(currRow, prevA) =>
                    currA <- index a (j - 1) ;;
                    let cost := if currA =? currB then 0 else 1 in
                    cj1 <- index currRow (j - 1) ;;
                    pj <- index prevRow j ;;
                    pj1 <- index prevRow (j - 1) ;;
                    let entry := min3 (cj1 + 1) (pj + 1) (pj1 + cost) in
                    entry <- (if (currA =? prevB) && (currB =? prevA)
                              then
                                tj2 <- index tranRow (j - 2) ;;
                                let trans := tj2 + cost in
                                Ok (if trans <? entry then trans else entry)
                              else Ok entry) ;;
                    currRow <- assign currRow j entry ;;
                    Ok (currRow, currA))
                  (currRow, prevA) ;;
            let '(currRow, _) := st in
            Ok (prevRow, currRow, tranRow, currB))
          (tranRow, prevRow, currRow, prevB) ;;
    let '(_, prevRow, _, _) := st in
    index prevRow aLen.

(** [for s, _ := range bMatchedIndices { bIndices[c] = s; c++ }].  Go visits
    the keys of a map in an unspecified order; the keys are taken here in
    the order of [map_to_list].  Whether the loop panics depends on the
    number of keys only, and the slice is sorted right after the loop. *)
Definition fill_from_keys (m : gmap Z bool) (bIndices : list Z) : result (list Z) :=
  st <- for_loop 0 (len (map_to_list m)) (fun n '(bIndices, c) =>
          kv <- index (map_to_list m) n ;;
          let s := kv.1 in
          bIndices <- assign bIndices c s ;;
          Ok (bIndices, c + 1)) (bIndices, 0) ;;
  Ok st.1.

(** [sort.Ints] *)
Definition sort_Ints (l : list Z) : list Z := merge_sort Z.le l.

Definition jaroMatchesAndHalfTranspositions (a b : list Z) : result (Z * Z) :=
  let aLen := len a in
  let bLen := len b in
  if (aLen =? 0) || (bLen =? 0) then Ok (0, 0)
  else
    let '(a, aLen, b, bLen) :=
      if aLen <? bLen then (b, bLen, a, aLen) else (a, aLen, b, bLen) in
    let matchMax := Z.quot aLen 2 - 1 in
    let matchMax := if matchMax <? 0 then 0 else matchMax in
    let aCommon := make 0 aLen in
    let numAMatched := 0 in
    let bMatchedIndices : gmap Z bool := ∅ in
    st <- for_loop 0 (len a) (fun i '(aCommon, numAMatched, bMatchedIndices) =>
            aRune <- index a i ;;
            let from := i - matchMax in
            let from := if from <? 0 then 0 else from in
            let to := i + matchMax in
            let to := if to >=? bLen then bLen - 1 else to in
            let aMatched := false in
            st <- for_loop from (to + 1)
                    (fun j '(aCommon, numAMatched, bMatchedIndices, aMatched) =>
                       bj <- index b j ;;
                       if negb (aRune =? bj)
                       then Ok (aCommon, numAMatched, bMatchedIndices, aMatched)
                       else
                         st <- (if negb aMatched
                                then
                                  aCommon <- assign aCommon numAMatched aRune ;;
                                  Ok (aCommon, numAMatched + 1, true)
                                else Ok (aCommon, numAMatched, aMatched)) ;;
                         let '(aCommon, numAMatched, aMatched) := st in
                         let bMatchedIndices :=
                           match bMatchedIndices !! j with
                           | Some _ => bMatchedIndices
                           | None => <[j := true]> bMatchedIndices
                           end in
                         Ok (aCommon, numAMatched, bMatchedIndices, aMatched))
                    (aCommon, numAMatched, bMatchedIndices, aMatched) ;;
            let '(aCommon, numAMatched, bMatchedIndices, _) := st in
            Ok (aCommon, numAMatched, bMatchedIndices))
          (aCommon, numAMatched, bMatchedIndices) ;;
    let '(aCommon, numAMatched, bMatchedIndices) := st in
    let bIndices := make 0 numAMatched in
    bIndices <- fill_from_keys bMatchedIndices bIndices ;;
    let bIndices := sort_Ints bIndices in
    let transCount := 0 in
    transCount <- for_loop 0 numAMatched (fun k transCount =>
                    ak <- index aCommon k ;;
                    bk <- index bIndices k ;;
                    bbk <- index b bk ;;
                    Ok (if negb (ak =? bbk) then transCount + 1 else transCount))
                  transCount ;;
    Ok (numAMatched, transCount).

Definition JaroSimilarity (a b : list Z) : result float64 :=
  mt <- jaroMatchesAndHalfTranspositions a b ;;
  let '(matches, transpositions) := mt in
  if matches =? 0 then Ok (f64_of_int 0)
  else
    let matchFloat := f64_of_int matches in
    Ok (f64_mul (f64_div (f64_of_int 1) (f64_of_int 3))
          (f64_add
             (f64_add (f64_div matchFloat (f64_of_int (len a)))
                      (f64_div matchFloat (f64_of_int (len b))))
             (f64_div (f64_sub matchFloat (f64_of_int (Z.quot transpositions 2)))
                      matchFloat))).

Definition clampedSharedPrefixLength (a b : list Z) (maxPrefixLength : Z) : result Z :=
  let minLen := min3 (len a) (len b) maxPrefixLength in
  for_loop_brk 0 minLen (fun i _ =>
    ai <- index a i ;;
    bi <- index b i ;;
    if negb (ai =? bi) then Ok (Break i) else Ok (Continue (i + 1))) 0.

Definition JaroWinklerSimilarityParametric (a b : list Z) (prefixScale : float64)
  (maxPrefixLength : Z) (boostThreshold : float64) : result float64 :=
  j <- JaroSimilarity a b ;;
  if f64_ltb j boostThreshold then Ok j
  else
    c <- clampedSharedPrefixLength a b maxPrefixLength ;;
    Ok (f64_add j
          (f64_mul (f64_mul (f64_of_int c) prefixScale)
                   (f64_sub (f64_of_int 1) j))).

Definition JaroWinklerSimilarity (a b : list Z) : result float64 :=
  JaroWinklerSimilarityParametric a b
    WinklerPrefixScale WinklerMaxPrefixLength WinklerBoostThreshold.

End runewise.


(** ** The store: slices as headers over shared backing arrays

    For the claim that no metric writes to its inputs, the runewise package
    is embedded a second time, with every slice a header
    (array, offset, length, capacity) over a store of backing arrays, as in
    Go: [make] allocates a fresh array, [s[i] = v] writes to the array of
    [s], and two headers may share an array.  Maps stay values: no map of the
    package is reachable from a slice. *)

Module store.

Definition loc : Type := positive.

(** A cell of a backing array: a rune or an int, or a runeBigram. *)
Inductive cell : Type :=
| CInt (n : Z)
| CBigram (x : runewise.runeBigram).

Record slice : Type := mkSlice { base : loc; off : Z; slen : Z; scap : Z }.

Definition M (A : Type) : Type := gmap loc (list cell) -> result A * gmap loc (list cell).

Definition ret {A : Type} (v : A) : M A := fun h => (Ok v, h).

Definition lift {A : Type} (r : result A) : M A := fun h => (r, h).

Definition mbind {A B : Type} (m : M A) (k : A -> M B) : M B := fun h =>
  match m h with
  | (Ok v, h') => k v h'
  | (Err e, h') => (Err e, h')
  | (Panic, h') => (Panic, h')
  end.

Notation "x <~ m ;; k" := (mbind m (fun x => k))
  (at level 100, m at next level, right associativity).

(** [make([]T, n)]: a fresh array of [n] zero cells. *)
Definition make (zero : cell) (n : Z) : M slice := fun h =>
  if n <? 0 then (Panic, h)
  else
    let l := fresh (dom h) in
    (Ok (mkSlice l 0 n n), <[l := replicate (Z.to_nat n) zero]> h).

(** [s[i]] *)
Definition read (s : slice) (i : Z) : M cell := fun h =>
  if (0 <=? i) && (i <? slen s) then
    match h !! base s with
    | Some arr =>
        match arr !! Z.to_nat (off s + i) with
        | Some c => (Ok c, h)
        | None => (Panic, h)
        end
    | None => (Panic, h)
    end
  else (Panic, h).

(** [s[i] = c] *)
Definition write (s : slice) (i : Z) (c : cell) : M unit := fun h =>
  if (0 <=? i) && (i <? slen s) then
    match h !! base s with
    | Some arr =>
        if (Z.to_nat (off s + i) <? length arr)%nat
        then (Ok tt, <[base s := <[Z.to_nat (off s + i) := c]> arr]> h)
        else (Panic, h)
    | None => (Panic, h)
    end
  else (Panic, h).

(** [s[lo:hi]]: a header over the same array. *)
Definition reslice (s : slice) (lo hi : Z) : M slice :=
  if (0 <=? lo) && (lo <=? hi) && (hi <=? scap s)
  then ret (mkSlice (base s) (off s + lo) (hi - lo) (scap s - lo))
  else lift Panic.

Definition read_int (s : slice) (i : Z) : M Z :=
  c <~ read s i ;;
  match c with
  | CInt n => ret n
  | CBigram _ => lift Panic
  end.

Definition write_int (s : slice) (i : Z) (n : Z) : M unit := write s i (CInt n).

Definition read_bigram (s : slice) (i : Z) : M runewise.runeBigram :=
  c <~ read s i ;;
  match c with
  | CBigram x => ret x
  | CInt _ => lift Panic
  end.

Definition write_bigram (s : slice) (i : Z) (x : runewise.runeBigram) : M unit :=
  write s i (CBigram x).

Fixpoint for_range {S : Type} (n : nat) (i : Z) (body : Z -> S -> M S) (s : S) : M S :=
  match n with
  | O => ret s
  | S n' => s' <~ body i s ;; for_range n' (i + 1) body s'
  end.

Definition for_loop {S : Type} (lo hi : Z) (body : Z -> S -> M S) (s : S) : M S :=
  for_range (Z.to_nat (hi - lo)) lo body s.

Fixpoint for_range_brk {S : Type} (n : nat) (i : Z)
  (body : Z -> S -> M (flow S)) (s : S) : M S :=
  match n with
  | O => ret s
  | S n' =>
      r <~ body i s ;;
      match r with
      | Continue s' => for_range_brk n' (i + 1) body s'
      | Break s' => ret s'
      end
  end.

Definition for_loop_brk {S : Type} (lo hi : Z)
  (body : Z -> S -> M (flow S)) (s : S) : M S :=
  for_range_brk (Z.to_nat (hi - lo)) lo body s.

Fixpoint while_loop {S : Type} (fuel : nat) (cond : S -> bool)
  (body : S -> M S) (s : S) : M S :=
  match fuel with
  | O => ret s
  | S fuel' =>
      if cond s then s' <~ body s ;; while_loop fuel' cond body s'
      else ret s
  end.

(** The units of a slice, when its header lies within its array. *)
Definition units (h : gmap loc (list cell)) (s : slice) : option (list cell) :=
  match h !! base s with
  | Some arr =>
      if (0 <=? off s) && (0 <=? slen s)
         && (Z.to_nat (off s + slen s) <=? length arr)%nat
      then Some (take (Z.to_nat (slen s)) (drop (Z.to_nat (off s)) arr))
      else None
  | None => None
  end.

End store.

(** ** Package runewise over the store *)

Module runewise_store.

Import store.

Notation "x <~ m ;; k" := (mbind m (fun x => k))
  (at level 100, m at next level, right associativity).

Definition zeroRune : cell := CInt 0.
Definition zeroInt : cell := CInt 0.
Definition zeroBigram : cell := CBigram runewise.zeroBigram.

Definition HammingDistance (a b : slice) : M Z :=
  let aLen := slen a in
  let bLen := slen b in
  if negb (aLen =? bLen) then lift (Err LengthMismatch)
  else
    for_loop 0 aLen (fun i d =>
      ai <~ read_int a i ;;
      bi <~ read_int b i ;;
      ret (if negb (ai =? bi) then d + 1 else d)) 0.

Definition DiceCoefficient (a b : slice) : M float64 :=
  let aLen := slen a in
  let bLen := slen b in
  let aLimit := aLen - 1 in
  let bLimit := bLen - 1 in
  if (aLimit <? 1) && (bLimit <? 1) then lift (Err InsufficientLength)
  else
    let aSet : gmap runewise.runeBigram bool := ∅ in
    let totalBigrams := f64_of_int 0 in
    st <~ for_loop 0 aLimit (fun i '(aSet, totalBigrams) =>
            ai <~ read_int a i ;;
            ai1 <~ read_int a (i + 1) ;;
            let bigram := runewise.mkRuneBigram ai ai1 in
            if negb (map_get aSet bigram)
            then ret (<[bigram := true]> aSet, f64_add totalBigrams (f64_of_int 1))
            else ret (aSet, totalBigrams)) (aSet, totalBigrams) ;;
    let '(aSet, totalBigrams) := st in
    let bSet : gmap runewise.runeBigram bool := ∅ in
    let sharedBigrams := f64_of_int 0 in
    st <~ for_loop 0 bLimit (fun i '(bSet, totalBigrams, sharedBigrams) =>
            bi <~ read_int b i ;;
            bi1 <~ read_int b (i + 1) ;;
            let bigram := runewise.mkRuneBigram bi bi1 in
            if negb (map_get bSet bigram)
            then
              let totalBigrams := f64_add totalBigrams (f64_of_int 1) in
              let bSet := <[bigram := true]> bSet in
              if map_get aSet bigram
              then ret (bSet, totalBigrams, f64_add sharedBigrams (f64_of_int 1))
              else ret (bSet, totalBigrams, sharedBigrams)
            else ret (bSet, totalBigrams, sharedBigrams))
          (bSet, totalBigrams, sharedBigrams) ;;
    let '(_, totalBigrams, sharedBigrams) := st in
    ret (f64_div (f64_mul (f64_of_int 2) sharedBigrams) totalBigrams).

Section unicode.

Variable IsSpace : Z -> bool.
Variable ToUpper : Z -> Z.

Definition upperWordLetterPairs (runes : slice) : M (slice * Z) :=
  let limit := slen runes - 1 in
  if limit <? 1 then
    bigrams <~ make zeroBigram 0 ;;
    ret (bigrams, 0)
  else
    bigrams <~ make zeroBigram limit ;;
    let numPairs := 0 in
    st <~ while_loop (Z.to_nat limit)
            (fun '(i, _) => i <? limit)
            (fun '(i, numPairs) =>
               a <~ read_int runes i ;;
               b <~ read_int runes (i + 1) ;;
               if IsSpace b then ret (i + 1 + 1, numPairs)
               else if IsSpace a then ret (i + 1, numPairs)
               else
                 _ <~ write_bigram bigrams numPairs
                        (runewise.mkRuneBigram (ToUpper a) (ToUpper b)) ;;
                 ret (i + 1, numPairs + 1))
            (0, numPairs) ;;
    let '(_, numPairs) := st in
    bigrams <~ reslice bigrams 0 numPairs ;;
    ret (bigrams, numPairs).

Definition WhiteSimilarity (a b : slice) : M float64 :=
  pa <~ upperWordLetterPairs a ;;
  let '(aPairs, aLen) := pa in
  pb <~ upperWordLetterPairs b ;;
  let '(bPairs, bLen) := pb in
  let union := aLen + bLen in
  if union =? 0 then lift (Err InsufficientContent)
  else
    let intersection := f64_of_int 0 in
    intersection <~ for_loop 0 (slen aPairs) (fun k intersection =>
            aBigram <~ read_bigram aPairs k ;;
            for_loop_brk 0 (slen bPairs) (fun j intersection =>
              bBigram <~ read_bigram bPairs j ;;
              if runewise.bigram_eqb aBigram bBigram
              then
                _ <~ write_bigram bPairs j runewise.zeroBigram ;;
                ret (Break (f64_add intersection (f64_of_int 1)))
              else ret (Continue intersection))
            intersection)
          intersection ;;
    ret (f64_div (f64_mul (f64_of_int 2) intersection) (f64_of_int union)).

End unicode.

Definition LevenshteinDistance (a b : slice) : M Z :=
  let aLen := slen a in
  let bLen := slen b in
  if aLen =? 0 then ret bLen
  else if bLen =? 0 then ret aLen
  else
    let rowLen := bLen + 1 in
    prevRow <~ make zeroInt rowLen ;;
    currRow <~ make zeroInt rowLen ;;
    _ <~ for_loop 0 rowLen (fun h (_ : unit) => write_int prevRow h h) tt ;;
    st <~ for_loop 0 aLen (fun i '(prevRow, currRow) =>
            _ <~ write_int currRow 0 (i + 1) ;;
            _ <~ for_loop 0 bLen (fun j (_ : unit) =>
                   ai <~ read_int a i ;;
                   bj <~ read_int b j ;;
                   let cost := if ai =? bj then 0 else 1 in
                   cj <~ read_int currRow j ;;
                   pj1 <~ read_int prevRow (j + 1) ;;
                   pj <~ read_int prevRow j ;;
                   write_int currRow (j + 1)
                     (min3 (cj + 1) (pj1 + 1) (pj + cost))) tt ;;
            ret (currRow, prevRow))
          (prevRow, currRow) ;;
    let '(prevRow, _) := st in
    read_int prevRow bLen.

Definition DamerauLevenshteinDistance (a b : slice) : M Z :=
  let aLen := slen a in
  let bLen := slen b in
  if aLen =? 0 then ret bLen
  else if bLen =? 0 then ret aLen
  else
    let '(a, aLen, b, bLen) :=
      if aLen >? bLen then (b, bLen, a, aLen) else (a, aLen, b, bLen) in
    let rowLen := aLen + 1 in
    tranRow <~ make zeroInt rowLen ;;
    prevRow <~ make zeroInt rowLen ;;
    currRow <~ make zeroInt rowLen ;;
    _ <~ for_loop 0 rowLen (fun h (_ : unit) => write_int prevRow h h) tt ;;
    let prevB := 0 in
    st <~ for_loop 1 (bLen + 1) (fun i '(tranRow, prevRow, currRow, prevB) =>
            currB <~ read_int b (i - 1) ;;
            _ <~ write_int currRow 0 i ;;
            let start := i - bLen - 1 in
            let start := if start <? 1 then 1 else start in
            let end_ := i + bLen + 1 in
            let end_ := if end_ >? aLen then aLen else end_ in
            let prevA := 0 in
            _ <~ for_loop start (end_ + 1) (fun j prevA =>
                   currA <~ read_int a (j - 1) ;;
                   let cost := if currA =? currB then 0 else 1 in
                   cj1 <~ read_int currRow (j - 1) ;;
                   pj <~ read_int prevRow j ;;
                   pj1 <~ read_int prevRow (j - 1) ;;
                   let entry := min3 (cj1 + 1) (pj + 1) (pj1 + cost) in
                   entry <~ (if (currA =? prevB) && (currB =? prevA)
                             then
                               tj2 <~ read_int tranRow (j - 2) ;;
                               let trans := tj2 + cost in
                               ret (if trans <? entry then trans else entry)
                             else ret entry) ;;
                   _ <~ write_int currRow j entry ;;
                   ret currA)
                 prevA ;;
            ret (prevRow, currRow, tranRow, currB))
          (tranRow, prevRow, currRow, prevB) ;;
    let '(_, prevRow, _, _) := st in
    read_int prevRow aLen.

Definition fill_from_keys (m : gmap Z bool) (bIndices : slice) : M unit :=
  _ <~ for_loop 0 (len (map_to_list m)) (fun n c =>
         kv <~ lift (index (map_to_list m) n) ;;
         let s := kv.1 in
         _ <~ write_int bIndices c s ;;
         ret (c + 1)) 0 ;;
  ret tt.

(** [sort.Ints]: sorts the units of the slice in place. *)
Definition sort_Ints (s : slice) : M unit :=
  l <~ for_loop 0 (slen s) (fun k l => x <~ read_int s k ;; ret (l ++ [x])) [] ;;
  let sorted := merge_sort Z.le l in
  _ <~ for_loop 0 (slen s) (fun k (_ : unit) =>
         x <~ lift (index sorted k) ;;
         write_int s k x) tt ;;
  ret tt.

Definition jaroMatchesAndHalfTranspositions (a b : slice) : M (Z * Z) :=
  let aLen := slen a in
  let bLen := slen b in
  if (aLen =? 0) || (bLen =? 0) then ret (0, 0)
  else
    let '(a, aLen, b, bLen) :=
      if aLen <? bLen then (b, bLen, a, aLen) else (a, aLen, b, bLen) in
    let matchMax := Z.quot aLen 2 - 1 in
    let matchMax := if matchMax <? 0 then 0 else matchMax in
    aCommon <~ make zeroRune aLen ;;
    let numAMatched := 0 in
    let bMatchedIndices : gmap Z bool := ∅ in
    st <~ for_loop 0 (slen a) (fun i '(numAMatched, bMatchedIndices) =>
            aRune <~ read_int a i ;;
            let from := i - matchMax in
            let from := if from <? 0 then 0 else from in
            let to := i + matchMax in
            let to := if to >=? bLen then bLen - 1 else to in
            let aMatched := false in
            st <~ for_loop from (to + 1)
                    (fun j '(numAMatched, bMatchedIndices, aMatched) =>
                       bj <~ read_int b j ;;
                       if negb (aRune =? bj)
                       then ret (numAMatched, bMatchedIndices, aMatched)
                       else
                         st <~ (if negb aMatched
                                then
                                  _ <~ write_int aCommon numAMatched aRune ;;
                                  ret (numAMatched + 1, true)
                                else ret (numAMatched, aMatched)) ;;
                         let '(numAMatched, aMatched) := st in
                         let bMatchedIndices :=
                           match bMatchedIndices !! j with
                           | Some _ => bMatchedIndices
                           | None => <[j := true]> bMatchedIndices
                           end in
                         ret (numAMatched, bMatchedIndices, aMatched))
                    (numAMatched, bMatchedIndices, aMatched) ;;
            let '(numAMatched, bMatchedIndices, _) := st in
            ret (numAMatched, bMatchedIndices))
          (numAMatched, bMatchedIndices) ;;
    let '(numAMatched, bMatchedIndices) := st in
    bIndices <~ make zeroInt numAMatched ;;
    _ <~ fill_from_keys bMatchedIndices bIndices ;;
    _ <~ sort_Ints bIndices ;;
    let transCount := 0 in
    transCount <~ for_loop 0 numAMatched (fun k transCount =>
                    ak <~ read_int aCommon k ;;
                    bk <~ read_int bIndices k ;;
                    bbk <~ read_int b bk ;;
                    ret (if negb (ak =? bbk) then transCount + 1 else transCount))
                  transCount ;;
    ret (numAMatched, transCount).

Definition JaroSimilarity (a b : slice) : M float64 :=
  mt <~ jaroMatchesAndHalfTranspositions a b ;;
  let '(matches, transpositions) := mt in
  if matches =? 0 then ret (f64_of_int 0)
  else
    let matchFloat := f64_of_int matches in
    ret (f64_mul (f64_div (f64_of_int 1) (f64_of_int 3))
           (f64_add
              (f64_add (f64_div matchFloat (f64_of_int (slen a)))
                       (f64_div matchFloat (f64_of_int (slen b))))
              (f64_div (f64_sub matchFloat (f64_of_int (Z.quot transpositions 2)))
                       matchFloat))).

Definition clampedSharedPrefixLength (a b : slice) (maxPrefixLength : Z) : M Z :=
  let minLen := min3 (slen a) (slen b) maxPrefixLength in
  for_loop_brk 0 minLen (fun i _ =>
    ai <~ read_int a i ;;
    bi <~ read_int b i ;;
    if negb (ai =? bi) then ret (Break i) else ret (Continue (i + 1))) 0.

Definition JaroWinklerSimilarityParametric (a b : slice) (prefixScale : float64)
  (maxPrefixLength : Z) (boostThreshold : float64) : M float64 :=
  j <~ JaroSimilarity a b ;;
  if f64_ltb j boostThreshold then ret j
  else
    c <~ clampedSharedPrefixLength a b maxPrefixLength ;;
    ret (f64_add j
           (f64_mul (f64_mul (f64_of_int c) prefixScale)
                    (f64_sub (f64_of_int 1) j))).

Definition JaroWinklerSimilarity (a b : slice) : M float64 :=
  JaroWinklerSimilarityParametric a b
    runewise.WinklerPrefixScale runewise.WinklerMaxPrefixLength
    runewise.WinklerBoostThreshold.

(** A call on two fresh slices holding the given runes, for running the
    store embedding on literals. *)
Definition on_runes {A : Type} (f : slice -> slice -> M A) (a b : list Z) : result A :=
  (f (mkSlice 1%positive 0 (len a) (len a)) (mkSlice 2%positive 0 (len b) (len b))
     (<[2%positive := CInt <$> b]> (<[1%positive := CInt <$> a]> ∅))).1.

End runewise_store.

(** ** Frame conditions on the store *)

(** A slice is local with respect to the store [h0] of the caller when its
    array is not one of [h0]. *)
Definition local (h0 : gmap store.loc (list store.cell)) (s : store.slice) : Prop :=
  h0 !! store.base s = None.

(** [keeps h0 m Q]: run from any store that extends [h0], [m] leaves a store
    that still extends [h0], whatever its outcome, and a value it returns
    satisfies [Q]. *)
Definition keeps {A : Type} (h0 : gmap store.loc (list store.cell))
  (m : store.M A) (Q : A -> Prop) : Prop :=
  forall h, h0 ⊆ h -> h0 ⊆ (m h).2 /\ forall v, (m h).1 = Ok v -> Q v.

(** ** Refinement of the embedding over values by the embedding over the store *)

(** [sim h m p Q]: run from the store [h], [m] has the outcome of [p]: both
    panic, both fail with the same error, or both return, with values and a
    final store related by [Q]. *)
Definition sim {A B : Type} (h : gmap store.loc (list store.cell))
  (m : store.M A) (p : result B)
  (Q : A -> B -> gmap store.loc (list store.cell) -> Prop) : Prop :=
  match m h, p with
  | (Ok v, h'), Ok w => Q v w h'
  | (Err e, _), Err e' => e = e'
  | (Panic, _), Panic => True
  | _, _ => False
  end.

(** [owns h0 h G]: the store [h] extends the store [h0] of the caller, and
    the slices of [G] lie over distinct arrays made since, each holding the
    cells listed with it. *)
Definition owns (h0 h : gmap store.loc (list store.cell))
  (G : list (store.slice * list store.cell)) : Prop :=
  h0 ⊆ h /\
  NoDup (store.base <$> G.*1) /\
  Forall (fun sc : store.slice * list store.cell =>
            store.units h sc.1 = Some sc.2 /\ h0 !! store.base sc.1 = None) G.

(** ** Reference definitions of the statements *)

(** The indices at which two sequences differ. *)
Definition differing_indices (a b : list Z) : list nat :=
  filter (fun i => a !! i ≠ b !! i) (seq 0 (length a)).

(** Substitution cost of the units at positions [i] of [a] and [j] of [b]. *)
Definition subst_cost (a b : list Z) (i j : nat) : Z :=
  match a !! i, b !! j with
  | Some x, Some y => if x =? y then 0 else 1
  | _, _ => 1
  end.

(** [lev_dp a b i j] is the entry [dp[i][j]] of the classic recurrence:
    the number of edits that turn the first [i] units of [a] into the first
    [j] units of [b]. *)
Fixpoint lev_dp (a b : list Z) (i : nat) : nat -> Z :=
  match i with
  | O => fun j => Z.of_nat j
  | S i' =>
      fix row (j : nat) : Z :=
        match j with
        | O => Z.of_nat (S i')
        | S j' =>
            min3 (row j' + 1)
                 (lev_dp a b i' (S j') + 1)
                 (lev_dp a b i' j' + subst_cost a b i' j')
        end
  end.

Definition levenshtein (a b : list Z) : Z := lev_dp a b (length a) (length b).

(** Length of the longest common leading run of two sequences. *)
Fixpoint commonPrefixLength (a b : list Z) : Z :=
  match a, b with
  | x :: a', y :: b' => if x =? y then 1 + commonPrefixLength a' b' else 0
  | _, _ => 0
  end.

(** Greedy one-to-one matching with an explicit consumed flag per slot:
    each element of the first list takes the first unconsumed equal slot of
    the second. *)
Fixpoint consume_first {A : Type} (eqb : A -> A -> bool) (x : A)
  (slots : list (A * bool)) : option (list (A * bool)) :=
  match slots with
  | [] => None
  | (y, used) :: slots' =>
      if negb used && eqb x y then Some ((y, true) :: slots')
      else cons (y, used) <$> consume_first eqb x slots'
  end.

Fixpoint greedy_matches {A : Type} (eqb : A -> A -> bool) (xs : list A)
  (slots : list (A * bool)) : Z :=
  match xs with
  | [] => 0
  | x :: xs' =>
      match consume_first eqb x slots with
      | Some slots' => 1 + greedy_matches eqb xs' slots'
      | None => greedy_matches eqb xs' slots
      end
  end.

Definition greedy_intersection {A : Type} (eqb : A -> A -> bool) (xs ys : list A) : Z :=
  greedy_matches eqb xs (map (fun y => (y, false)) ys).

(** The inner loop of WhiteSimilarity read on lists: the first slot equal
    to [x] is overwritten with the zero bigram [zero]. *)
Fixpoint mark_first {B : Type} (eqb : B -> B -> bool) (zero : B) (x : B)
  (slots : list B) : option (list B) :=
  match slots with
  | [] => None
  | y :: slots' =>
      if eqb x y then Some (zero :: slots')
      else cons y <$> mark_first eqb zero x slots'
  end.

(** The number of bigrams of [xs] that the loops of WhiteSimilarity match. *)
Fixpoint sentinel_matches {B : Type} (eqb : B -> B -> bool) (zero : B)
  (xs slots : list B) : nat :=
  match xs with
  | [] => O
  | x :: xs' =>
      match mark_first eqb zero x slots with
      | Some slots' => S (sentinel_matches eqb zero xs' slots')
      | None => sentinel_matches eqb zero xs' slots
      end
  end.

(** A float64 counter after [k] increments from [0.0]. *)
Definition f64_count (k : nat) : float64 :=
  Nat.iter k (fun c => f64_add c (f64_of_int 1)) (f64_of_int 0).

(** The Jaro-Winkler value as the documentation of the package words it:
    [j] below the threshold is returned unchanged, otherwise the prefix
    bonus [Min(commonPrefix, maxPrefixLength) * prefixScale * (1 - j)] is
    added. *)
Definition JaroWinkler_formula (j : float64) (commonPrefix : Z)
  (prefixScale : float64) (maxPrefixLength : Z) (boostThreshold : float64) : float64 :=
  if f64_ltb j boostThreshold then j
  else
    f64_add j
      (f64_mul (f64_mul (f64_of_int (Z.min commonPrefix maxPrefixLength)) prefixScale)
               (f64_sub (f64_of_int 1) j)).

(** [unicode.IsSpace] and [unicode.ToUpper] on the code points below 0x80,
    where they are the ASCII white space and the ASCII letter case; used to
    run the runewise functions on ASCII inputs. *)
Definition ascii_IsSpace (r : Z) : bool :=
  (r =? 9) || (r =? 10) || (r =? 11) || (r =? 12) || (r =? 13) || (r =? 32).

Definition ascii_ToUpper (r : Z) : Z :=
  if (97 <=? r) && (r <=? 122) then r - 32 else r.

(** The upper-casing of asciiUpperOrSpace. *)
Definition asciiUpper (b : Z) : Z := (bytewise.asciiUpperOrSpace b).1.

(** The bigrams of the adjacent units of [s], in order, without those that
    hold a white-space unit; [mk] builds the bigram of two units. *)
Fixpoint word_pairs {B : Type} (isSpace : Z -> bool) (mk : Z -> Z -> B)
  (s : list Z) : list B :=
  match s with
  | x :: (y :: _) as t =>
      if isSpace x || isSpace y then word_pairs isSpace mk t
      else mk x y :: word_pairs isSpace mk t
  | _ => []
  end.

(** The bigram lists of the two packages, read off the inputs. *)
Definition ascii_word_pairs (s : list Z) : list bytewise.byteBigram :=
  word_pairs (fun b => (bytewise.asciiUpperOrSpace b).2)
    (fun x y => bytewise.mkByteBigram (bytewise.asciiUpperOrSpace x).1
                                      (bytewise.asciiUpperOrSpace y).1) s.

Definition upper_word_pairs (IsSpace : Z -> bool) (ToUpper : Z -> Z) (s : list Z)
  : list runewise.runeBigram :=
  word_pairs IsSpace (fun x y => runewise.mkRuneBigram (ToUpper x) (ToUpper y)) s.

(** The bigrams of the adjacent units of an input, as DiceCoefficient keys
    them: a struct of two runes, or a string of two bytes. *)
Definition rune_bigrams (a : list Z) : list runewise.runeBigram :=
  zip_with runewise.mkRuneBigram a (tail a).

Definition byte_bigrams (a : list Z) : list (list Z) :=
  zip_with (fun x y => [x; y]) a (tail a).

(** The Sorensen-Dice ratio of two finite sets, computed as the package
    does: the counts of distinct bigrams are float64 counters. *)
Definition dice_ratio `{Countable K} (A B : gset K) : float64 :=
  f64_div (f64_mul (f64_of_int 2) (f64_count (size (A ∩ B))))
          (f64_count (size A + size B)).

(** The keys that a [map[K]bool] of the program holds as [true]. *)
Definition holds `{Countable K} (m : gmap K bool) (X : gset K) : Prop :=
  forall k, map_get m k = true <-> k ∈ X.

(** ** The matches of the Jaro formula

    jaroMatchesAndHalfTranspositions, stated on the longer input [a] and
    the shorter input [b].  The unit at position [i] of [a] is compared
    with the positions [i - matchMax .. i + matchMax] of [b], cut to the
    positions that [b] has, where [matchMax] is [len a / 2 - 1], or 0. *)
Definition jaro_window (aLen bLen i : Z) : list Z :=
  let matchMax := Z.max (Z.quot aLen 2 - 1) 0 in
  let from := Z.max (i - matchMax) 0 in
  let to := Z.min (i + matchMax) (bLen - 1) in
  seqZ from (to + 1 - from).

(** The positions of [b], in the window of position [i] of [a], that hold
    the unit of [a] at [i]. *)
Definition jaro_hits (a b : list Z) (i : nat) : list Z :=
  match a !! i with
  | Some x =>
      filter (fun j => b !! Z.to_nat j = Some x)
             (jaro_window (len a) (len b) (Z.of_nat i))
  | None => []
  end.

(** The units of [a], among its first [n], that have a hit, in order: the
    contents of [aCommon]. *)
Definition jaro_matched_units (a b : list Z) (n : nat) : list Z :=
  omap (fun i => if decide (jaro_hits a b i = []) then None else a !! i) (seq 0 n).

(** The positions of [b] hit by one of the first [n] units of [a]: the keys
    of [bMatchedIndices]. *)
Definition jaro_matched_positions (a b : list Z) (n : nat) : gset Z :=
  list_to_set (seq 0 n ≫= jaro_hits a b).

(** [bIndices] after [sort.Ints]: the matched positions of [b] in
    increasing order, after one 0 for each slot of the slice that the keys
    did not fill. *)
Definition jaro_indices (a b : list Z) : list Z :=
  let m := length (jaro_matched_units a b (length a)) in
  let P := jaro_matched_positions a b (length a) in
  replicate (m - size P) 0 ++ merge_sort Z.le (elements P).

(** The matched units of [a] that differ from the unit of [b] at the
    position of the same rank. *)
Definition jaro_half_transpositions (a b : list Z) : Z :=
  len (filter (fun p : Z * Z => b !! Z.to_nat p.2 <> Some p.1)
              (zip (jaro_matched_units a b (length a)) (jaro_indices a b))).

(** ** The helper of the tests

    [EqualWithin] of the test files (src/unnamed/part_003 and the other
    test files): [math.Abs(a-b) > delta] fails the test, and [assert.Fail]
    returns [false].  The message handed to the test is not modelled. *)
Definition EqualWithin (a b delta : float64) : bool :=
  if f64_ltb delta (SFabs (f64_sub a b)) then false else true.

(** ** Package stralgo with DiceCoefficient (src/stralgo.go, second form)

    The form of the root package that has HammingDistance and
    DiceCoefficient, both over the bytes of two strings. *)

Module stralgo_dice.

Definition HammingDistance (a b : list Z) : result Z :=
  let aLen := len a in
  let bLen := len b in
  if negb (aLen =? bLen) then Err LengthMismatch
  else
    for_loop 0 aLen (fun i d =>
      ai <- index a i ;;
      bi <- index b i ;;
      Ok (if negb (ai =? bi) then d + 1 else d)) 0.

Definition DiceCoefficient (a b : list Z) : result float64 :=
  let aLimit := len a - 1 in
  let bLimit := len b - 1 in
  if (aLimit <? 1) && (bLimit <? 1) then Err InsufficientLength
  else
    let aSet : gmap (list Z) bool := ∅ in
    let totalBigrams := f64_of_int 0 in
    st <- for_loop 0 aLimit (fun i '(aSet, totalBigrams) =>
            bigram <- slice a i (i + 2) ;;
            if negb (map_get aSet bigram)
            then Ok (<[bigram := true]> aSet, f64_add totalBigrams (f64_of_int 1))
            else Ok (aSet, totalBigrams)) (aSet, totalBigrams) ;;
    let '(aSet, totalBigrams) := st in
    let bSet : gmap (list Z) bool := ∅ in
    let sharedBigrams := f64_of_int 0 in
    st <- for_loop 0 bLimit (fun i '(bSet, totalBigrams, sharedBigrams) =>
            bigram <- slice b i (i + 2) ;;
            if negb (map_get bSet bigram)
            then
              let totalBigrams := f64_add totalBigrams (f64_of_int 1) in
              let bSet := <[bigram := true]> bSet in
              if map_get aSet bigram
              then Ok (bSet, totalBigrams, f64_add sharedBigrams (f64_of_int 1))
              else Ok (bSet, totalBigrams, sharedBigrams)
            else Ok (bSet, totalBigrams, sharedBigrams))
          (bSet, totalBigrams, sharedBigrams) ;;
    let '(_, totalBigrams, sharedBigrams) := st in
    Ok (f64_div (f64_mul (f64_of_int 2) sharedBigrams) totalBigrams).

End stralgo_dice.

(** ** Package runewise over strings (src/runewise/runewise.go, second form)

    The form of the package whose functions take strings and turn them
    into runes with [runeSlice].  The struct [runeBigram] is the one of
    the form over [[]rune]. *)

Module runewise_string.

Section strings.

(** [range_runes s] stands for the runes that [for _, r := range s]
    yields, the UTF-8 decoding of the bytes of [s]; [strings_ToUpper] and
    [IsSpace] stand for strings.ToUpper and unicode.IsSpace. *)
Variable range_runes : list Z -> list Z.
Variable strings_ToUpper : list Z -> list Z.
Variable IsSpace : Z -> bool.

Definition runeSlice (s : list Z) : result (list Z * Z) :=
  let n := 0 in
  let runes := make 0 (len s) in
  st <- for_loop 0 (len (range_runes s)) (fun k '(runes, n) =>
          r <- index (range_runes s) k ;;
          runes <- assign runes n r ;;
          Ok (runes, n + 1)) (runes, n) ;;
  let '(runes, n) := st in
  runes <- slice runes 0 n ;;
  Ok (runes, n).

Definition HammingDistance (a b : list Z) : result Z :=
  ra <- runeSlice a ;;
  let '(aRunes, aLen) := ra in
  rb <- runeSlice b ;;
  let '(bRunes, bLen) := rb in
  if negb (aLen =? bLen) then Err LengthMismatch
  else
    for_loop 0 aLen (fun i d =>
      ai <- index aRunes i ;;
      bi <- index bRunes i ;;
      Ok (if negb (ai =? bi) then d + 1 else d)) 0.

Definition DiceCoefficient (a b : list Z) : result float64 :=
  ra <- runeSlice a ;;
  let '(aRunes, aLen) := ra in
  rb <- runeSlice b ;;
  let '(bRunes, bLen) := rb in
  let aLimit := aLen - 1 in
  let bLimit := bLen - 1 in
  if (aLimit <? 1) && (bLimit <? 1) then Err InsufficientLength
  else
    let aSet : gmap runewise.runeBigram bool := ∅ in
    let totalBigrams := f64_of_int 0 in
    st <- for_loop 0 aLimit (fun i '(aSet, totalBigrams) =>
            ai <- index aRunes i ;;
            ai1 <- index aRunes (i + 1) ;;
            let bigram := runewise.mkRuneBigram ai ai1 in
            if negb (map_get aSet bigram)
            then Ok (<[bigram := true]> aSet, f64_add totalBigrams (f64_of_int 1))
            else Ok (aSet, totalBigrams)) (aSet, totalBigrams) ;;
    let '(aSet, totalBigrams) := st in
    let bSet : gmap runewise.runeBigram bool := ∅ in
    let sharedBigrams := f64_of_int 0 in
    st <- for_loop 0 bLimit (fun i '(bSet, totalBigrams, sharedBigrams) =>
            bi <- index bRunes i ;;
            bi1 <- index bRunes (i + 1) ;;
            let bigram := runewise.mkRuneBigram bi bi1 in
            if negb (map_get bSet bigram)
            then
              let totalBigrams := f64_add totalBigrams (f64_of_int 1) in
              let bSet := <[bigram := true]> bSet in
              if map_get aSet bigram
              then Ok (bSet, totalBigrams, f64_add sharedBigrams (f64_of_int 1))
              else Ok (bSet, totalBigrams, sharedBigrams)
            else Ok (bSet, totalBigrams, sharedBigrams))
          (bSet, totalBigrams, sharedBigrams) ;;
    let '(_, totalBigrams, sharedBigrams) := st in
    Ok (f64_div (f64_mul (f64_of_int 2) sharedBigrams) totalBigrams).

Definition wordLetterPairs (s : list Z) : result (list runewise.runeBigram * Z) :=
  rs <- runeSlice s ;;
  let '(runes, n) := rs in
  let limit := n - 1 in
  if limit <? 1 then Ok (make runewise.zeroBigram 0, 0)
  else
    let bigrams := make runewise.zeroBigram limit in
    let numPairs := 0 in
    st <- while_loop (Z.to_nat limit)
            (fun '(i, _, _) => i <? limit)
            (fun '(i, numPairs, bigrams) =>
               a <- index runes i ;;
               b <- index runes (i + 1) ;;
               if IsSpace b then Ok (i + 1 + 1, numPairs, bigrams)
               else if IsSpace a then Ok (i + 1, numPairs, bigrams)
               else
                 bigrams <- assign bigrams numPairs (runewise.mkRuneBigram a b) ;;
                 Ok (i + 1, numPairs + 1, bigrams))
            (0, numPairs, bigrams) ;;
    let '(_, numPairs, bigrams) := st in
    bigrams <- slice bigrams 0 numPairs ;;
    Ok (bigrams, numPairs).

Definition WhiteSimilarity (a b : list Z) : result float64 :=
  pa <- wordLetterPairs (strings_ToUpper a) ;;
  let '(aPairs, aLen) := pa in
  pb <- wordLetterPairs (strings_ToUpper b) ;;
  let '(bPairs, bLen) := pb in
  let union := aLen + bLen in
  if union =? 0 then Err InsufficientContent
  else
    let intersection := f64_of_int 0 in
    st <- for_loop 0 (len aPairs) (fun k '(intersection, bPairs) =>
            aBigram <- index aPairs k ;;
            for_loop_brk 0 (len bPairs) (fun j '(intersection, bPairs) =>
              bBigram <- index bPairs j ;;
              if runewise.bigram_eqb aBigram bBigram
              then
                bPairs <- assign bPairs j runewise.zeroBigram ;;
                Ok (Break (f64_add intersection (f64_of_int 1), bPairs))
              else Ok (Continue (intersection, bPairs)))
            (intersection, bPairs))
          (intersection, bPairs) ;;
    let '(intersection, _) := st in
    Ok (f64_div (f64_mul (f64_of_int 2) intersection) (f64_of_int union)).

Definition LevenshteinDistance (a b : list Z) : result Z :=
  ra <- runeSlice a ;;
  let '(aRunes, aLen) := ra in
  rb <- runeSlice b ;;
  let '(bRunes, bLen) := rb in
  if aLen =? 0 then Ok bLen
  else if bLen =? 0 then Ok aLen
  else if (aLen =? bLen) && bool_decide (a = b) then Ok 0
  else
    let rowLen := bLen + 1 in
    let prevRow := make 0 rowLen in
    let currRow := make 0 rowLen in
    prevRow <- for_loop 0 rowLen (fun h prevRow => assign prevRow h h) prevRow ;;
    st <- for_loop 0 aLen (fun i '(prevRow, currRow) =>
            currRow <- assign currRow 0 (i + 1) ;;
            currRow <- for_loop 0 bLen (fun j currRow =>
                         ai <- index aRunes i ;;
                         bj <- index bRunes j ;;
                         let cost := if ai =? bj then 0 else 1 in
                         cj <- index currRow j ;;
                         pj1 <- index prevRow (j + 1) ;;
                         pj <- index prevRow j ;;
                         assign currRow (j + 1)
                           (min3 (cj + 1) (pj1 + 1) (pj + cost))) currRow ;;
            Ok (currRow, prevRow))
          (prevRow, currRow) ;;
    let '(prevRow, _) := st in
    index prevRow bLen.

End strings.

End runewise_string.

(** The bigram list of WhiteSimilarity over bytes, stated with the ASCII
    white space and the ASCII upper-casing of package unicode: the
    adjacent pairs of which neither unit is white space, in upper case. *)
Definition ascii_upper_pairs (s : list Z) : list bytewise.byteBigram :=
  word_pairs ascii_IsSpace
    (fun x y => bytewise.mkByteBigram (ascii_ToUpper x) (ascii_ToUpper y)) s.

(** The value that WhiteSimilarity computes from the two bigram lists:
    twice the number of matches over the sum of the lengths, and the error
    when both lists are empty. *)
Definition white_ratio {B : Type} (eqb : B -> B -> bool) (zero : B)
  (aPairs bPairs : list B) : result float64 :=
  if len aPairs + len bPairs =? 0 then Err InsufficientContent
  else Ok (f64_div
             (f64_mul (f64_of_int 2)
                (f64_count (sentinel_matches eqb zero aPairs bPairs)))
             (f64_of_int (len aPairs + len bPairs))).

(** ** Slices and loops: basic facts *)

Lemma index_lookup {A : Type} (l : list A) (i : nat) (x : A) :
  l !! i = Some x -> index l (Z.of_nat i) = Ok x.
Proof.
  intros H. unfold index.
  destruct (Z.ltb_spec (Z.of_nat i) 0); [lia|].
  now rewrite Nat2Z.id, H.
Qed.

Lemma index_in_range {A : Type} (l : list A) (i : Z) :
  0 <= i < len l -> exists x, l !! Z.to_nat i = Some x /\ index l i = Ok x.
Proof.
  unfold len. intros H.
  destruct (lookup_lt_is_Some_2 l (Z.to_nat i)) as [x Hx]; [lia|].
  exists x. split; [done|].
  rewrite <- (Z2Nat.id i) by lia. now apply index_lookup.
Qed.

Lemma index_out_of_range {A : Type} (l : list A) (i : Z) :
  i < 0 \/ len l <= i -> index l i = Panic.
Proof.
  unfold len, index. intros H.
  destruct (Z.ltb_spec i 0); [done|].
  rewrite lookup_ge_None_2; [done|lia].
Qed.

Lemma assign_in_range {A : Type} (l : list A) (i : nat) (v : A) :
  (i < length l)%nat -> assign l (Z.of_nat i) v = Ok (<[i := v]> l).
Proof.
  intros H. unfold assign.
  destruct (Z.ltb_spec (Z.of_nat i) 0); [lia|].
  rewrite Nat2Z.id.
  destruct (Nat.ltb_spec i (length l)); [done|lia].
Qed.

(** ** HammingDistance *)

Lemma hamming_loop (a b : list Z) (n i : nat) (d : Z) :
  (i + n <= length a)%nat -> length a = length b ->
  for_range n (Z.of_nat i)
    (fun i d =>
       ai <- index a i ;;
       bi <- index b i ;;
       Ok (if negb (ai =? bi) then d + 1 else d)) d =
  Ok (d + Z.of_nat (length (filter (fun k => a !! k ≠ b !! k) (seq i n)))).
Proof.
  revert i d. induction n as [|n IH]; intros i d Hi Hlen; simpl.
  - f_equal. lia.
  - destruct (lookup_lt_is_Some_2 a i) as [x Hx]; [lia|].
    destruct (lookup_lt_is_Some_2 b i) as [y Hy]; [lia|].
    rewrite (index_lookup _ _ _ Hx), (index_lookup _ _ _ Hy). simpl.
    replace (Z.of_nat i + 1) with (Z.of_nat (S i)) by lia.
    rewrite IH by lia. f_equal.
    rewrite filter_cons, Hx, Hy.
    destruct (Z.eqb_spec x y) as [->|Hne]; simpl.
    + rewrite decide_False by (intros H; now apply H). lia.
    + rewrite decide_True by congruence. simpl. lia.
Qed.

Lemma hamming_count (a b : list Z) :
  stralgo.HammingDistance a b =
  if decide (length a = length b)
  then Ok (Z.of_nat (length (differing_indices a b)))
  else Err LengthMismatch.
Proof.
  unfold stralgo.HammingDistance, len.
  destruct (decide (length a = length b)) as [Hlen|Hlen].
  - rewrite Hlen, Z.eqb_refl. simpl.
    unfold for_loop. rewrite Z.sub_0_r, Nat2Z.id, <- Hlen.
    change 0 with (Z.of_nat 0) at 1.
    rewrite hamming_loop by (done || lia).
    reflexivity.
  - destruct (Z.eqb_spec (Z.of_nat (length a)) (Z.of_nat (length b))); [lia|done].
Qed.

Lemma differing_indices_self (a : list Z) : differing_indices a a = [].
Proof.
  unfold differing_indices. induction (seq 0 (length a)) as [|i l IH]; [done|].
  rewrite filter_cons, decide_False by (intros H; now apply H). exact IH.
Qed.

Lemma differing_indices_sym (a b : list Z) :
  length a = length b -> differing_indices a b = differing_indices b a.
Proof.
  intros H. unfold differing_indices. rewrite H.
  induction (seq 0 (length b)) as [|i l IH]; [done|].
  rewrite !filter_cons, IH.
  destruct (decide (a !! i = b !! i)) as [E|E].
  - rewrite !decide_False by (intros H'; apply H'; congruence). done.
  - rewrite !decide_True by congruence. done.
Qed.

(** C8.  HammingDistance (root package and bytewise) fails with
    LengthMismatch on inputs of unequal length and otherwise returns the
    number of indices at which the inputs differ; it is 0 on equal inputs
    and symmetric in its arguments. *)
Theorem HammingDistance_count_zero_symmetric (a b : list Z) :
  (stralgo.HammingDistance a b =
     if decide (length a = length b)
     then Ok (Z.of_nat (length (differing_indices a b)))
     else Err LengthMismatch) /\
  (bytewise.HammingDistance a b =
     if decide (length a = length b)
     then Ok (Z.of_nat (length (differing_indices a b)))
     else Err LengthMismatch) /\
  stralgo.HammingDistance a a = Ok 0 /\
  bytewise.HammingDistance a a = Ok 0 /\
  stralgo.HammingDistance a b = stralgo.HammingDistance b a /\
  bytewise.HammingDistance a b = bytewise.HammingDistance b a.
Proof.
  change bytewise.HammingDistance with stralgo.HammingDistance.
  assert (Hself : stralgo.HammingDistance a a = Ok 0).
  { rewrite hamming_count, decide_True by done.
    now rewrite differing_indices_self. }
  assert (Hsym : stralgo.HammingDistance a b = stralgo.HammingDistance b a).
  { rewrite !hamming_count.
    destruct (decide (length a = length b)) as [H|H].
    - rewrite decide_True by done. now rewrite differing_indices_sym.
    - rewrite decide_False by congruence. done. }
  repeat split; auto using hamming_count.
Qed.

(** ** LeeDistance *)

Lemma lee_loop_binary (a b : list Z) (n i : nat) (d : Z) :
  (i + n <= length a)%nat -> length a = length b ->
  (forall k x y, a !! k = Some x -> b !! k = Some y -> Z.abs (x - y) <= 1) ->
  for_range n (Z.of_nat i)
    (fun i d =>
       ai <- index a i ;;
       bi <- index b i ;;
       let diff := ai - bi in
       let diff := if diff <? 0 then - diff else diff in
       let qDiff := 2 - diff in
       Ok (if diff <? qDiff then d + diff else d + qDiff)) d =
  for_range n (Z.of_nat i)
    (fun i d =>
       ai <- index a i ;;
       bi <- index b i ;;
       Ok (if negb (ai =? bi) then d + 1 else d)) d.
Proof.
  revert i d. induction n as [|n IH]; intros i d Hi Hlen Hclose; simpl; [done|].
  destruct (lookup_lt_is_Some_2 a i) as [x Hx]; [lia|].
  destruct (lookup_lt_is_Some_2 b i) as [y Hy]; [lia|].
  rewrite (index_lookup _ _ _ Hx), (index_lookup _ _ _ Hy). simpl.
  specialize (Hclose i x y Hx Hy) as Hxy.
  replace (Z.of_nat i + 1) with (Z.of_nat (S i)) by lia.
  assert (Hstep :
    (if (if x - y <? 0 then - (x - y) else x - y) <?
        2 - (if x - y <? 0 then - (x - y) else x - y)
     then d + (if x - y <? 0 then - (x - y) else x - y)
     else d + (2 - (if x - y <? 0 then - (x - y) else x - y))) =
    (if negb (x =? y) then d + 1 else d)).
  { destruct (Z.ltb_spec (x - y) 0), (Z.eqb_spec x y); simpl;
      repeat match goal with
             | |- context [?u <? ?v] => destruct (Z.ltb_spec u v)
             end; lia. }
  rewrite Hstep. apply IH; (done || lia).
Qed.

(** C3, counterexample.  With q = 2 the bytes 'a' and 'c' are at circular
    distance [2 - 2 = 0], while they differ for Hamming. *)
Lemma LeeDistance_binary_differs_from_Hamming :
  length [97] = length [99] /\
  stralgo.LeeDistance [97] [99] 2 = Ok 0 /\
  stralgo.HammingDistance [97] [99] = Ok 1 /\
  stralgo.LeeDistance [97] [99] 2 <> stralgo.HammingDistance [97] [99].
Proof. repeat split. intros H. discriminate H. Qed.

(** C3, amended.  LeeDistance fails with InvalidAlphabetSize for every
    q < 2; for q = 2 it returns the value of HammingDistance on every pair of
    equal-length strings whose bytes at the same index differ by at most 1,
    as do the strings over the alphabet of the two byte values 0 and 1. *)
Theorem LeeDistance_alphabet_size_and_binary_case (a b : list Z) (q : Z) :
  (q < 2 -> stralgo.LeeDistance a b q = Err InvalidAlphabetSize) /\
  (length a = length b ->
   (forall k x y, a !! k = Some x -> b !! k = Some y -> Z.abs (x - y) <= 1) ->
   stralgo.LeeDistance a b 2 = stralgo.HammingDistance a b).
Proof.
  split.
  - intros Hq. unfold stralgo.LeeDistance.
    destruct (Z.ltb_spec q 2); [done|lia].
  - intros Hlen Hclose. unfold stralgo.LeeDistance, stralgo.HammingDistance.
    simpl (2 <? 2). cbv iota.
    destruct (negb (len a =? len b)); [done|].
    unfold for_loop, len. rewrite Z.sub_0_r, Nat2Z.id.
    change 0 with (Z.of_nat 0) at 1 3.
    apply lee_loop_binary; (done || lia).
Qed.

Lemma LeeDistance_alphabet_size_and_binary_case_witness :
  stralgo.LeeDistance [0; 1; 1; 0] [1; 1; 0; 0] 1 = Err InvalidAlphabetSize /\
  stralgo.LeeDistance [0; 1; 1; 0] [1; 1; 0; 0] 2 =
  stralgo.HammingDistance [0; 1; 1; 0] [1; 1; 0; 0].
Proof.
  split.
  - apply (proj1 (LeeDistance_alphabet_size_and_binary_case
                    [0; 1; 1; 0] [1; 1; 0; 0] 1)). lia.
  - apply (proj2 (LeeDistance_alphabet_size_and_binary_case
                    [0; 1; 1; 0] [1; 1; 0; 0] 2)); [reflexivity|].
    intros k x y Hx Hy.
    destruct k as [|[|[|[|k]]]]; simpl in Hx, Hy;
      try discriminate; injection Hx as <-; injection Hy as <-; lia.
Defined.

(** ** Loops that return *)

Lemma returns_Ok {A : Type} (v : A) : returns (Ok v).
Proof. now exists v. Qed.

Lemma returns_bind {A B : Type} (m : result A) (k : A -> result B) :
  returns m -> (forall v, m = Ok v -> returns (k v)) -> returns (x <- m ;; k x).
Proof. intros [v ->] Hk. simpl. now apply Hk. Qed.

Lemma for_range_returns {S : Type} (n : nat) (i : Z) (body : Z -> S -> result S)
  (s : S) :
  (forall k s', i <= k < i + Z.of_nat n -> returns (body k s')) ->
  returns (for_range n i body s).
Proof.
  revert i s. induction n as [|n IH]; intros i s Hbody; simpl.
  - apply returns_Ok.
  - apply returns_bind; [apply Hbody; lia|].
    intros s' _. apply IH. intros k s'' Hk. apply Hbody. lia.
Qed.

Lemma for_loop_returns {S : Type} (lo hi : Z) (body : Z -> S -> result S) (s : S) :
  (forall k s', lo <= k < hi -> returns (body k s')) ->
  returns (for_loop lo hi body s).
Proof.
  intros Hbody. apply for_range_returns. intros k s' Hk. apply Hbody. lia.
Qed.

Lemma index_returns {A : Type} (l : list A) (i : Z) :
  0 <= i < len l -> returns (index l i).
Proof. intros H. destruct (index_in_range l i H) as (x & _ & ->). apply returns_Ok. Qed.

Lemma slice_returns {A : Type} (l : list A) (lo hi : Z) :
  0 <= lo <= hi -> hi <= len l -> returns (slice l lo hi).
Proof.
  intros H1 H2. unfold slice.
  destruct (Z.leb_spec 0 lo), (Z.leb_spec lo hi), (Z.leb_spec hi (len l));
    try lia. apply returns_Ok.
Qed.

(** ** DiceCoefficient *)

Lemma bytewise_Dice_returns (a b : list Z) :
  2 <= len a \/ 2 <= len b -> returns (bytewise.DiceCoefficient a b).
Proof.
  intros H. unfold bytewise.DiceCoefficient.
  replace ((len a - 1 <? 1) && (len b - 1 <? 1)) with false
    by (symmetry; apply andb_false_iff; rewrite !Z.ltb_ge; lia).
  apply returns_bind.
  { apply for_loop_returns. intros k [aSet total] Hk.
    apply returns_bind; [apply slice_returns; lia|].
    intros bigram _. destruct (negb _); apply returns_Ok. }
  intros [aSet total] _.
  apply returns_bind.
  { apply for_loop_returns. intros k [[bSet total'] shared] Hk.
    apply returns_bind; [apply slice_returns; lia|].
    intros bigram _. destruct (negb _); [destruct (map_get _ _)|]; apply returns_Ok. }
  intros [[bSet total'] shared] _. apply returns_Ok.
Qed.

Lemma runewise_Dice_returns (a b : list Z) :
  2 <= len a \/ 2 <= len b -> returns (runewise.DiceCoefficient a b).
Proof.
  intros H. unfold runewise.DiceCoefficient.
  replace ((len a - 1 <? 1) && (len b - 1 <? 1)) with false
    by (symmetry; apply andb_false_iff; rewrite !Z.ltb_ge; lia).
  apply returns_bind.
  { apply for_loop_returns. intros k [aSet total] Hk.
    apply returns_bind; [apply index_returns; lia|]. intros x _.
    apply returns_bind; [apply index_returns; lia|]. intros y _.
    destruct (negb _); apply returns_Ok. }
  intros [aSet total] _.
  apply returns_bind.
  { apply for_loop_returns. intros k [[bSet total'] shared] Hk.
    apply returns_bind; [apply index_returns; lia|]. intros x _.
    apply returns_bind; [apply index_returns; lia|]. intros y _.
    destruct (negb _); [destruct (map_get _ _)|]; apply returns_Ok. }
  intros [[bSet total'] shared] _. apply returns_Ok.
Qed.

Lemma Dice_short_left (a b : list Z) :
  len a <= 1 ->
  bytewise.DiceCoefficient a b = bytewise.DiceCoefficient [] b /\
  runewise.DiceCoefficient a b = runewise.DiceCoefficient [] b.
Proof.
  unfold len. intros H.
  destruct a as [|x [|y a]]; simpl in H; [done| |lia].
  split; reflexivity.
Qed.

Lemma Dice_short_right (a b : list Z) :
  len b <= 1 ->
  bytewise.DiceCoefficient a b = bytewise.DiceCoefficient a [] /\
  runewise.DiceCoefficient a b = runewise.DiceCoefficient a [].
Proof.
  unfold len. intros H.
  destruct b as [|x [|y b]]; simpl in H; [done| |lia].
  split; reflexivity.
Qed.

(** C7.  DiceCoefficient (bytewise and runewise) returns an error exactly
    when both inputs have at most one unit, and the error is
    InsufficientLength; when one input has two units or more it returns a
    ratio and no error.  An input of at most one unit contributes no bigram:
    the call gives what it gives on the empty input in its place. *)
Theorem DiceCoefficient_error_iff_both_short (a b : list Z) :
  ((exists e, bytewise.DiceCoefficient a b = Err e) <-> len a <= 1 /\ len b <= 1) /\
  ((exists e, runewise.DiceCoefficient a b = Err e) <-> len a <= 1 /\ len b <= 1) /\
  (len a <= 1 /\ len b <= 1 ->
   bytewise.DiceCoefficient a b = Err InsufficientLength /\
   runewise.DiceCoefficient a b = Err InsufficientLength) /\
  (2 <= len a \/ 2 <= len b ->
   returns (bytewise.DiceCoefficient a b) /\
   returns (runewise.DiceCoefficient a b)) /\
  (len a <= 1 ->
   bytewise.DiceCoefficient a b = bytewise.DiceCoefficient [] b /\
   runewise.DiceCoefficient a b = runewise.DiceCoefficient [] b) /\
  (len b <= 1 ->
   bytewise.DiceCoefficient a b = bytewise.DiceCoefficient a [] /\
   runewise.DiceCoefficient a b = runewise.DiceCoefficient a []).
Proof.
  assert (Hshort : len a <= 1 /\ len b <= 1 ->
    bytewise.DiceCoefficient a b = Err InsufficientLength /\
    runewise.DiceCoefficient a b = Err InsufficientLength).
  { intros [Ha Hb]. unfold bytewise.DiceCoefficient, runewise.DiceCoefficient.
    replace ((len a - 1 <? 1) && (len b - 1 <? 1)) with true; [done|].
    symmetry. apply andb_true_iff. rewrite !Z.ltb_lt. lia. }
  assert (Hlong : 2 <= len a \/ 2 <= len b ->
    returns (bytewise.DiceCoefficient a b) /\
    returns (runewise.DiceCoefficient a b)).
  { intros H. split; [apply bytewise_Dice_returns|apply runewise_Dice_returns]; done. }
  split; [|split; [|split; [|split; [|split]]]].
  - split.
    + intros [e He].
      destruct (decide (len a <= 1 /\ len b <= 1)) as [H|H]; [done|].
      destruct Hlong as [[v Hv] _]; [lia|congruence].
    + intros H. exists InsufficientLength. now apply Hshort.
  - split.
    + intros [e He].
      destruct (decide (len a <= 1 /\ len b <= 1)) as [H|H]; [done|].
      destruct Hlong as [_ [v Hv]]; [lia|congruence].
    + intros H. exists InsufficientLength. now apply Hshort.
  - exact Hshort.
  - exact Hlong.
  - apply Dice_short_left.
  - apply Dice_short_right.
Qed.

Lemma DiceCoefficient_error_iff_both_short_witness :
  (bytewise.DiceCoefficient (bytes "a") (bytes "b") = Err InsufficientLength /\
   runewise.DiceCoefficient (bytes "a") (bytes "b") = Err InsufficientLength) /\
  (returns (bytewise.DiceCoefficient (bytes "a") (bytes "GG")) /\
   returns (runewise.DiceCoefficient (bytes "a") (bytes "GG"))) /\
  (bytewise.DiceCoefficient (bytes "a") (bytes "GG") =
   bytewise.DiceCoefficient [] (bytes "GG") /\
   runewise.DiceCoefficient (bytes "a") (bytes "GG") =
   runewise.DiceCoefficient [] (bytes "GG")) /\
  (bytewise.DiceCoefficient (bytes "GG") (bytes "a") =
   bytewise.DiceCoefficient (bytes "GG") [] /\
   runewise.DiceCoefficient (bytes "GG") (bytes "a") =
   runewise.DiceCoefficient (bytes "GG") []).
Proof.
  destruct (DiceCoefficient_error_iff_both_short (bytes "a") (bytes "b"))
    as (_ & _ & Hshort & _).
  destruct (DiceCoefficient_error_iff_both_short (bytes "a") (bytes "GG"))
    as (_ & _ & _ & Hlong & Hleft & _).
  destruct (DiceCoefficient_error_iff_both_short (bytes "GG") (bytes "a"))
    as (_ & _ & _ & _ & _ & Hright).
  split; [|split; [|split]].
  - apply Hshort. split; vm_compute; discriminate.
  - apply Hlong. right. vm_compute. discriminate.
  - apply Hleft. vm_compute. discriminate.
  - apply Hright. vm_compute. discriminate.
Defined.

(** ** Loop invariants *)

Lemma for_range_inv {S : Type} (I : nat -> S -> Prop) (n : nat) (i0 : Z)
  (body : Z -> S -> result S) (s : S) :
  I O s ->
  (forall k s, (k < n)%nat -> I k s ->
     exists s', body (i0 + Z.of_nat k) s = Ok s' /\ I (Datatypes.S k) s') ->
  exists s', for_range n i0 body s = Ok s' /\ I n s'.
Proof.
  revert I i0 s. induction n as [|n IH]; intros I i0 s H0 Hstep; simpl.
  - now exists s.
  - destruct (Hstep O s) as (s1 & Hb & H1); [lia|done|].
    rewrite Z.add_0_r in Hb. rewrite Hb. simpl.
    apply (IH (fun k => I (Datatypes.S k))); [done|].
    intros k s2 Hk Hs2.
    destruct (Hstep (Datatypes.S k) s2) as (s3 & Hb3 & H3); [lia|done|].
    exists s3. split; [|done]. rewrite <- Hb3. f_equal. lia.
Qed.

Lemma index_at {A : Type} (l : list A) (z : Z) (k : nat) (x : A) :
  z = Z.of_nat k -> l !! k = Some x -> index l z = Ok x.
Proof. intros ->. apply index_lookup. Qed.

Lemma assign_at {A : Type} (l : list A) (z : Z) (k : nat) (v : A) :
  z = Z.of_nat k -> (k < length l)%nat -> assign l z v = Ok (<[k := v]> l).
Proof. intros ->. apply assign_in_range. Qed.

(** [for h := 0; h < rowLen; h++ { prevRow[h] = h }] *)
Lemma init_row (n : nat) :
  exists row,
    for_loop 0 (Z.of_nat n) (fun h prevRow => assign prevRow h h)
      (make 0 (Z.of_nat n)) = Ok row /\
    length row = n /\
    forall k, (k < n)%nat -> row !! k = Some (Z.of_nat k).
Proof.
  unfold for_loop, make. rewrite Z.sub_0_r, Nat2Z.id.
  destruct (for_range_inv
    (fun j (row : list Z) => length row = n /\
       forall k, (k < j)%nat -> row !! k = Some (Z.of_nat k))
    n 0 (fun h prevRow => assign prevRow h h) (replicate n 0))
    as (row & Hrow & Hlen & Hrow').
  - split; [apply length_replicate|lia].
  - intros j row Hj [Hlen Hrow].
    exists (<[j := Z.of_nat j]> row). split; [|split].
    + now apply assign_at; [lia|rewrite Hlen].
    + now rewrite length_insert.
    + intros k Hk. destruct (decide (k = j)) as [->|Hne].
      * apply list_lookup_insert_eq. lia.
      * rewrite list_lookup_insert_ne by done. apply Hrow. lia.
  - exists row. auto.
Qed.

(** ** LevenshteinDistance, runewise: the two-row program computes the
    classic recurrence *)

Lemma lev_dp_S_S (a b : list Z) (i j : nat) :
  lev_dp a b (S i) (S j) =
  min3 (lev_dp a b (S i) j + 1) (lev_dp a b i (S j) + 1)
       (lev_dp a b i j + subst_cost a b i j).
Proof. reflexivity. Qed.

Lemma lev_inner_loop (a b : list Z) (i : nat) (x : Z) (prevRow currRow : list Z) :
  a !! i = Some x ->
  length prevRow = S (length b) ->
  (forall k, (k <= length b)%nat -> prevRow !! k = Some (lev_dp a b i k)) ->
  length currRow = S (length b) ->
  currRow !! O = Some (Z.of_nat (S i)) ->
  exists row,
    for_loop 0 (len b) (fun j currRow =>
      ai <- index a (Z.of_nat i) ;;
      bj <- index b j ;;
      let cost := if ai =? bj then 0 else 1 in
      cj <- index currRow j ;;
      pj1 <- index prevRow (j + 1) ;;
      pj <- index prevRow j ;;
      assign currRow (j + 1) (min3 (cj + 1) (pj1 + 1) (pj + cost))) currRow
    = Ok row /\
    length row = S (length b) /\
    forall k, (k <= length b)%nat -> row !! k = Some (lev_dp a b (S i) k).
Proof.
  intros Hx Hplen Hprev Hclen Hc0.
  unfold for_loop, len. rewrite Z.sub_0_r, Nat2Z.id.
  match goal with
  | |- exists row, for_range _ _ ?body _ = _ /\ _ =>
      destruct (for_range_inv
        (fun j (row : list Z) => length row = S (length b) /\
           forall k, (k <= j)%nat -> row !! k = Some (lev_dp a b (S i) k))
        (length b) 0 body currRow) as (row & Hrow & Hlen & Hrow')
  end.
  - split; [done|]. intros k Hk. replace k with O by lia. exact Hc0.
  - intros j row Hj [Hlen Hrow].
    destruct (lookup_lt_is_Some_2 b j) as [y Hy]; [lia|].
    exists (<[S j := lev_dp a b (S i) (S j)]> row). split; [|split].
    + rewrite (index_at a _ i x), (index_at b _ j y) by (done || lia).
      cbn [bind].
      rewrite (index_at row _ j (lev_dp a b (S i) j)) by (lia || apply Hrow; lia).
      rewrite (index_at prevRow _ (S j) (lev_dp a b i (S j)))
        by (lia || apply Hprev; lia).
      rewrite (index_at prevRow _ j (lev_dp a b i j)) by (lia || apply Hprev; lia).
      cbn [bind]. rewrite lev_dp_S_S. unfold subst_cost. rewrite Hx, Hy.
      apply assign_at; lia.
    + now rewrite length_insert.
    + intros k Hk. destruct (decide (k = S j)) as [->|Hne].
      * apply list_lookup_insert_eq. lia.
      * rewrite list_lookup_insert_ne by done. apply Hrow. lia.
  - exists row. auto.
Qed.

Lemma len_eqb_0 {A : Type} (l : list A) : l <> [] -> (len l =? 0) = false.
Proof. intros H. apply Z.eqb_neq. unfold len. destruct l; [done|simpl; lia]. Qed.

Lemma runewise_Levenshtein_is_dp (a b : list Z) :
  runewise.LevenshteinDistance a b = Ok (levenshtein a b).
Proof.
  unfold runewise.LevenshteinDistance, levenshtein.
  destruct (decide (a = [])) as [->|Ha]; [done|].
  rewrite (len_eqb_0 a Ha).
  destruct (decide (b = [])) as [->|Hb].
  { simpl. f_equal. unfold len. now destruct (length a). }
  rewrite (len_eqb_0 b Hb). unfold len.
  replace (Z.of_nat (length b) + 1) with (Z.of_nat (S (length b))) by lia.
  destruct (init_row (S (length b))) as (row0 & -> & Hlen0 & Hrow0). cbn [bind].
  unfold for_loop at 1. rewrite Z.sub_0_r, Nat2Z.id.
  match goal with
  | |- bind (for_range _ _ ?body ?s0) _ = _ =>
      destruct (for_range_inv
        (fun i (st : list Z * list Z) =>
           length st.1 = S (length b) /\ length st.2 = S (length b) /\
           forall k, (k <= length b)%nat -> st.1 !! k = Some (lev_dp a b i k))
        (length a) 0 body s0) as ([prevRow currRow] & -> & Hplen & Hclen & Hprev)
  end.
  - cbn [fst snd]. split; [done|].
    split; [unfold make; rewrite length_replicate; lia|].
    intros k Hk. apply Hrow0. lia.
  - intros i [prevRow currRow] Hi (Hplen & Hclen & Hprev). cbn [fst snd] in *.
    destruct (lookup_lt_is_Some_2 a i) as [x Hx]; [done|].
    rewrite Z.add_0_l. replace (Z.of_nat i + 1) with (Z.of_nat (S i)) by lia.
    rewrite (assign_at currRow _ O (Z.of_nat (S i))) by lia. cbn [bind].
    destruct (lev_inner_loop a b i x prevRow (<[O := Z.of_nat (S i)]> currRow))
      as (row & Hrow & Hlen & Hrow'); try done.
    { now rewrite length_insert. }
    { apply list_lookup_insert_eq. lia. }
    unfold len in Hrow. rewrite Hrow. cbn [bind].
    exists (row, prevRow). auto.
  - cbn [bind fst snd] in *.
    apply index_at with (k := length b); [done|]. apply Hprev. lia.
Qed.

Lemma min3_Zmin (x y z : Z) : min3 x y z = Z.min (Z.min x y) z.
Proof.
  unfold min3. destruct (Z.ltb_spec y x).
  - destruct (Z.ltb_spec z y); lia.
  - destruct (Z.ltb_spec z x); lia.
Qed.

Lemma lev_dp_sym (a b : list Z) (i j : nat) : lev_dp a b i j = lev_dp b a j i.
Proof.
  revert j. induction i as [|i IHi]; intros j.
  - destruct j; reflexivity.
  - induction j as [|j IHj]; [reflexivity|].
    assert (Hc : subst_cost a b i j = subst_cost b a j i).
    { unfold subst_cost. destruct (a !! i), (b !! j); try done.
      now rewrite Z.eqb_sym. }
    rewrite (lev_dp_S_S a b), (lev_dp_S_S b a), IHj, (IHi (S j)), (IHi j), Hc.
    rewrite !min3_Zmin. lia.
Qed.

Lemma levenshtein_sym (a b : list Z) : levenshtein a b = levenshtein b a.
Proof. apply lev_dp_sym. Qed.

Lemma levenshtein_nil_r (a : list Z) : levenshtein a [] = len a.
Proof. unfold levenshtein, len. now destruct (length a). Qed.

(** C1.  The runewise LevenshteinDistance returns the entry
    [dp[len a][len b]] of the classic recurrence for every pair of inputs,
    hence is symmetric and gives [len s] against the empty sequence, and
    both forms give 3 on "kitten" and "sitting".  The bytewise form compares
    [a[i]] with [b[i]] instead of [b[j]]: it returns 3 on "abc" and "bcd",
    whose distance is 2, and it panics on "ab" and "a" while it returns 1
    on "a" and "ab". *)
Theorem LevenshteinDistance_runewise_dp_bytewise_row_cost :
  (forall a b, runewise.LevenshteinDistance a b = Ok (levenshtein a b)) /\
  (forall a b, runewise.LevenshteinDistance a b = runewise.LevenshteinDistance b a) /\
  (forall s, runewise.LevenshteinDistance s [] = Ok (len s)) /\
  (forall s, bytewise.LevenshteinDistance s [] = Ok (len s)) /\
  runewise.LevenshteinDistance (bytes "kitten") (bytes "sitting") = Ok 3 /\
  bytewise.LevenshteinDistance (bytes "kitten") (bytes "sitting") = Ok 3 /\
  levenshtein (bytes "abc") (bytes "bcd") = 2 /\
  bytewise.LevenshteinDistance (bytes "abc") (bytes "bcd") = Ok 3 /\
  bytewise.LevenshteinDistance (bytes "a") (bytes "ab") = Ok 1 /\
  bytewise.LevenshteinDistance (bytes "ab") (bytes "a") = Panic.
Proof.
  split; [exact runewise_Levenshtein_is_dp|].
  split; [intros a b; rewrite !runewise_Levenshtein_is_dp;
          f_equal; apply levenshtein_sym|].
  split; [intros s; rewrite runewise_Levenshtein_is_dp;
          f_equal; apply levenshtein_nil_r|].
  split.
  { intros s. unfold bytewise.LevenshteinDistance.
    destruct (decide (s = [])) as [->|Hs]; [done|].
    now rewrite (len_eqb_0 s Hs). }
  repeat apply conj; vm_compute; reflexivity.
Qed.

(** ** JaroWinklerSimilarity *)

Lemma commonPrefixLength_nonneg (a b : list Z) : 0 <= commonPrefixLength a b.
Proof.
  revert b. induction a as [|x a IH]; intros [|y b]; simpl; try lia.
  destruct (x =? y); [specialize (IH b)|]; lia.
Qed.

Lemma commonPrefixLength_le (a b : list Z) :
  commonPrefixLength a b <= len a /\ commonPrefixLength a b <= len b.
Proof.
  unfold len. revert b. induction a as [|x a IH]; intros [|y b]; simpl length;
    cbn [commonPrefixLength]; try lia.
  destruct (x =? y); [specialize (IH b)|]; lia.
Qed.

Lemma commonPrefixLength_drop (a b : list Z) (k : nat) (x y : Z) :
  a !! k = Some x -> b !! k = Some y ->
  commonPrefixLength (drop k a) (drop k b) =
  if x =? y then 1 + commonPrefixLength (drop (S k) a) (drop (S k) b) else 0.
Proof.
  intros Hx Hy.
  rewrite (drop_S a x k Hx), (drop_S b y k Hy). reflexivity.
Qed.

(** [commonPrefixLength] is the length of the longest common leading run:
    the two sequences agree on their first [k] units exactly when [k] is at
    most [commonPrefixLength]. *)
Lemma commonPrefixLength_longest (a b : list Z) (k : nat) :
  Z.of_nat k <= commonPrefixLength a b <->
  (k <= length a)%nat /\ (k <= length b)%nat /\ take k a = take k b.
Proof.
  revert b k. induction a as [|x a IH]; intros b k.
  - cbn [commonPrefixLength length]. destruct k; [|split; [lia|intros [H _]; lia]].
    split; [|lia]. intros _. rewrite !take_0. repeat split; lia.
  - destruct b as [|y b].
    + cbn [commonPrefixLength length]. destruct k; [|split; [lia|intros (_ & H & _); lia]].
      split; [|lia]. intros _. rewrite !take_0. repeat split; lia.
    + cbn [commonPrefixLength length]. destruct k as [|k].
      * rewrite !take_0. pose proof (commonPrefixLength_nonneg a b).
        destruct (x =? y); split; try lia; intros _; repeat split; lia.
      * cbn [take]. destruct (Z.eqb_spec x y) as [->|Hne].
        -- specialize (IH b k). split.
           ++ intros H. destruct IH as [IH _]. destruct IH as (H1 & H2 & H3); [lia|].
              repeat split; try lia. now rewrite H3.
           ++ intros (H1 & H2 & H3). injection H3 as H3.
              destruct IH as [_ IH]. specialize (IH ltac:(repeat split; (lia || done))).
              lia.
        -- split; [lia|]. intros (_ & _ & H). injection H as H _. done.
Qed.

Lemma prefix_loop (a b : list Z) (n k : nat) :
  (k + n <= length a)%nat -> (k + n <= length b)%nat ->
  for_range_brk n (Z.of_nat k)
    (fun i (_ : Z) =>
       ai <- index a i ;;
       bi <- index b i ;;
       if negb (ai =? bi) then Ok (Break i) else Ok (Continue (i + 1)))
    (Z.of_nat k) =
  Ok (Z.of_nat k +
      Z.min (commonPrefixLength (drop k a) (drop k b)) (Z.of_nat n)).
Proof.
  revert k. induction n as [|n IH]; intros k Ha Hb; cbn [for_range_brk].
  - f_equal. pose proof (commonPrefixLength_nonneg (drop k a) (drop k b)). lia.
  - destruct (lookup_lt_is_Some_2 a k) as [x Hx]; [lia|].
    destruct (lookup_lt_is_Some_2 b k) as [y Hy]; [lia|].
    rewrite (index_lookup _ _ _ Hx), (index_lookup _ _ _ Hy). cbn [bind].
    rewrite (commonPrefixLength_drop a b k x y Hx Hy).
    destruct (x =? y); cbn [negb bind].
    + replace (Z.of_nat k + 1) with (Z.of_nat (S k)) by lia.
      rewrite IH by lia. f_equal. lia.
    + f_equal. lia.
Qed.

Lemma clampedSharedPrefixLength_min (a b : list Z) (maxPrefixLength : Z) :
  runewise.clampedSharedPrefixLength a b maxPrefixLength =
  Ok (Z.min (commonPrefixLength a b) (Z.max maxPrefixLength 0)).
Proof.
  unfold runewise.clampedSharedPrefixLength, for_loop_brk.
  rewrite Z.sub_0_r, min3_Zmin.
  pose proof (commonPrefixLength_le a b) as [Hla Hlb].
  pose proof (commonPrefixLength_nonneg a b) as H0.
  unfold len in *.
  pose proof (prefix_loop a b
    (Z.to_nat (Z.min (Z.min (Z.of_nat (length a)) (Z.of_nat (length b)))
                 maxPrefixLength)) 0) as Hloop.
  rewrite !drop_0 in Hloop. change (Z.of_nat 0) with 0 in Hloop.
  rewrite Hloop by lia. f_equal. lia.
Qed.

(** ** WhiteSimilarity: case *)

Lemma while_loop_ext {S : Type} (fuel : nat) (cond : S -> bool)
  (body1 body2 : S -> result S) (s : S) :
  (forall s', body1 s' = body2 s') ->
  while_loop fuel cond body1 s = while_loop fuel cond body2 s.
Proof.
  intros Hext. revert s. induction fuel as [|fuel IH]; intros s; simpl; [done|].
  destruct (cond s); [|done]. rewrite Hext.
  destruct (body2 s); simpl; auto.
Qed.

Lemma index_map {A B : Type} (f : A -> B) (l : list A) (i : Z) :
  index (map f l) i = (x <- index l i ;; Ok (f x)).
Proof.
  unfold index. destruct (i <? 0); [done|].
  change (map f l) with (f <$> l). rewrite list_lookup_fmap.
  now destruct (l !! Z.to_nat i).
Qed.

Lemma len_map {A B : Type} (f : A -> B) (l : list A) : len (map f l) = len l.
Proof. unfold len. now rewrite length_map. Qed.

Lemma asciiUpperOrSpace_upper (x : Z) :
  bytewise.asciiUpperOrSpace (asciiUpper x) = bytewise.asciiUpperOrSpace x.
Proof.
  unfold asciiUpper.
  destruct (decide (97 <= x <= 122)) as [Hr|Hr].
  - assert (E : bytewise.asciiUpperOrSpace x = (x - 32, false)).
    { unfold bytewise.asciiUpperOrSpace.
      destruct (Z.leb_spec x 127); [|lia].
      destruct (Z.leb_spec 97 x), (Z.leb_spec x 122); try lia. reflexivity. }
    rewrite E. cbn [fst]. unfold bytewise.asciiUpperOrSpace.
    destruct (Z.leb_spec (x - 32) 127); [|lia].
    destruct (Z.leb_spec 97 (x - 32)); [lia|]. cbn [andb].
    repeat match goal with
           | |- context [?u =? ?v] => destruct (Z.eqb_spec u v); [lia|]
           end.
    reflexivity.
  - assert (E : (bytewise.asciiUpperOrSpace x).1 = x).
    { unfold bytewise.asciiUpperOrSpace.
      destruct (x <=? 127); [|done].
      destruct (Z.leb_spec 97 x), (Z.leb_spec x 122); try lia; cbn [andb];
        match goal with |- context [if ?c then (x, true) else _] => destruct c end;
        reflexivity. }
    now rewrite E.
Qed.

Lemma asciiUpperWordLetterPairs_upper (s : list Z) :
  bytewise.asciiUpperWordLetterPairs (map asciiUpper s) =
  bytewise.asciiUpperWordLetterPairs s.
Proof.
  unfold bytewise.asciiUpperWordLetterPairs. rewrite len_map.
  destruct (len s - 1 <? 1); [done|].
  f_equal. apply while_loop_ext. intros [[i numPairs] bigrams].
  rewrite !index_map.
  destruct (index s (i + 1)) as [y| |]; cbn [bind]; try done.
  rewrite asciiUpperOrSpace_upper.
  destruct (bytewise.asciiUpperOrSpace y) as [b [|]]; [done|].
  destruct (index s i) as [x| |]; cbn [bind]; try done.
  now rewrite asciiUpperOrSpace_upper.
Qed.

Lemma upperWordLetterPairs_upper (IsSpace : Z -> bool) (ToUpper : Z -> Z)
  (s : list Z) :
  (forall r, IsSpace (ToUpper r) = IsSpace r) ->
  (forall r, ToUpper (ToUpper r) = ToUpper r) ->
  runewise.upperWordLetterPairs IsSpace ToUpper (map ToUpper s) =
  runewise.upperWordLetterPairs IsSpace ToUpper s.
Proof.
  intros Hsp Hup.
  unfold runewise.upperWordLetterPairs. rewrite len_map.
  destruct (len s - 1 <? 1); [done|].
  f_equal. apply while_loop_ext. intros [[i numPairs] bigrams].
  rewrite !index_map.
  destruct (index s i) as [x| |]; cbn [bind]; try done.
  destruct (index s (i + 1)) as [y| |]; cbn [bind]; try done.
  now rewrite !Hsp, !Hup.
Qed.

Lemma ascii_IsSpace_ToUpper (r : Z) : ascii_IsSpace (ascii_ToUpper r) = ascii_IsSpace r.
Proof.
  unfold ascii_IsSpace, ascii_ToUpper.
  destruct (Z.leb_spec 97 r), (Z.leb_spec r 122); cbn [andb]; try reflexivity.
  repeat match goal with
         | |- context [?u =? ?v] => destruct (Z.eqb_spec u v); try lia
         end; reflexivity.
Qed.

Lemma ascii_ToUpper_idempotent (r : Z) : ascii_ToUpper (ascii_ToUpper r) = ascii_ToUpper r.
Proof.
  unfold ascii_ToUpper.
  destruct (Z.leb_spec 97 r), (Z.leb_spec r 122); cbn [andb];
    destruct (Z.leb_spec 97 r), (Z.leb_spec r 122); cbn [andb]; try lia.
  destruct (Z.leb_spec 97 (r - 32)); [lia|reflexivity].
Qed.

(** ** The fuel of the bigram loops is enough *)

Lemma while_loop_enough_fuel {S : Type} (mu : S -> nat) (cond : S -> bool)
  (body : S -> result S) :
  (forall s, cond s = true -> (0 < mu s)%nat) ->
  (forall s s', cond s = true -> body s = Ok s' -> (mu s' < mu s)%nat) ->
  forall fuel1 fuel2 s, (mu s <= fuel1)%nat -> (mu s <= fuel2)%nat ->
    while_loop fuel1 cond body s = while_loop fuel2 cond body s.
Proof.
  intros Hpos Hdec fuel1.
  induction fuel1 as [|fuel1 IH]; intros fuel2 s H1 H2.
  - destruct fuel2 as [|fuel2]; [done|]. simpl.
    destruct (cond s) eqn:Hc; [|done]. specialize (Hpos s Hc). lia.
  - destruct fuel2 as [|fuel2]; simpl.
    + destruct (cond s) eqn:Hc; [|done]. specialize (Hpos s Hc). lia.
    + destruct (cond s) eqn:Hc; [|done].
      destruct (body s) as [s'| |] eqn:Hb; simpl; try done.
      specialize (Hdec s s' Hc Hb). apply IH; lia.
Qed.

(** With more iterations allowed than the [limit] given as fuel, the loop
    of asciiUpperWordLetterPairs gives the same state: it has left by its
    own condition. *)
Lemma asciiUpperWordLetterPairs_fuel (s : list Z) (limit : Z) (extra : nat)
  (bigrams : list bytewise.byteBigram) :
  while_loop (Z.to_nat limit + extra)
    (fun '(i, _, _) => i <? limit)
    (fun '(i, numPairs, bigrams) =>
       si1 <- index s (i + 1) ;;
       let '(b, bIsSpace) := bytewise.asciiUpperOrSpace si1 in
       if bIsSpace then Ok (i + 1 + 1, numPairs, bigrams)
       else
         si <- index s i ;;
         let '(a, aIsSpace) := bytewise.asciiUpperOrSpace si in
         if aIsSpace then Ok (i + 1, numPairs, bigrams)
         else
           bigrams <- assign bigrams numPairs (bytewise.mkByteBigram a b) ;;
           Ok (i + 1, numPairs + 1, bigrams))
    (0, 0, bigrams) =
  while_loop (Z.to_nat limit)
    (fun '(i, _, _) => i <? limit)
    (fun '(i, numPairs, bigrams) =>
       si1 <- index s (i + 1) ;;
       let '(b, bIsSpace) := bytewise.asciiUpperOrSpace si1 in
       if bIsSpace then Ok (i + 1 + 1, numPairs, bigrams)
       else
         si <- index s i ;;
         let '(a, aIsSpace) := bytewise.asciiUpperOrSpace si in
         if aIsSpace then Ok (i + 1, numPairs, bigrams)
         else
           bigrams <- assign bigrams numPairs (bytewise.mkByteBigram a b) ;;
           Ok (i + 1, numPairs + 1, bigrams))
    (0, 0, bigrams).
Proof.
  apply (while_loop_enough_fuel
           (fun st : Z * Z * list bytewise.byteBigram => Z.to_nat (limit - st.1.1))).
  - intros [[i n] bg] Hc. cbn [fst] in *. apply Z.ltb_lt in Hc. lia.
  - intros [[i n] bg] [[i' n'] bg'] Hc Hb. cbn [fst] in *. apply Z.ltb_lt in Hc.
    destruct (index s (i + 1)) as [y| |]; cbn [bind] in Hb; try done.
    destruct (bytewise.asciiUpperOrSpace y) as [b [|]].
    { injection Hb as <- _ _. lia. }
    destruct (index s i) as [x| |]; cbn [bind] in Hb; try done.
    destruct (bytewise.asciiUpperOrSpace x) as [a [|]].
    { injection Hb as <- _ _. lia. }
    destruct (assign bg n _); cbn [bind] in Hb; try done.
    injection Hb as <- _ _. lia.
  - cbn [fst]. lia.
  - cbn [fst]. lia.
Qed.

Lemma upperWordLetterPairs_fuel (IsSpace : Z -> bool) (ToUpper : Z -> Z)
  (runes : list Z) (limit : Z) (extra : nat) (bigrams : list runewise.runeBigram) :
  while_loop (Z.to_nat limit + extra)
    (fun '(i, _, _) => i <? limit)
    (fun '(i, numPairs, bigrams) =>
       a <- index runes i ;;
       b <- index runes (i + 1) ;;
       if IsSpace b then Ok (i + 1 + 1, numPairs, bigrams)
       else if IsSpace a then Ok (i + 1, numPairs, bigrams)
       else
         bigrams <- assign bigrams numPairs
                      (runewise.mkRuneBigram (ToUpper a) (ToUpper b)) ;;
         Ok (i + 1, numPairs + 1, bigrams))
    (0, 0, bigrams) =
  while_loop (Z.to_nat limit)
    (fun '(i, _, _) => i <? limit)
    (fun '(i, numPairs, bigrams) =>
       a <- index runes i ;;
       b <- index runes (i + 1) ;;
       if IsSpace b then Ok (i + 1 + 1, numPairs, bigrams)
       else if IsSpace a then Ok (i + 1, numPairs, bigrams)
       else
         bigrams <- assign bigrams numPairs
                      (runewise.mkRuneBigram (ToUpper a) (ToUpper b)) ;;
         Ok (i + 1, numPairs + 1, bigrams))
    (0, 0, bigrams).
Proof.
  apply (while_loop_enough_fuel
           (fun st : Z * Z * list runewise.runeBigram => Z.to_nat (limit - st.1.1))).
  - intros [[i n] bg] Hc. cbn [fst] in *. apply Z.ltb_lt in Hc. lia.
  - intros [[i n] bg] [[i' n'] bg'] Hc Hb. cbn [fst] in *. apply Z.ltb_lt in Hc.
    destruct (index runes i) as [x| |]; cbn [bind] in Hb; try done.
    destruct (index runes (i + 1)) as [y| |]; cbn [bind] in Hb; try done.
    destruct (IsSpace y).
    { injection Hb as <- _ _. lia. }
    destruct (IsSpace x).
    { injection Hb as <- _ _. lia. }
    destruct (assign bg n _); cbn [bind] in Hb; try done.
    injection Hb as <- _ _. lia.
  - cbn [fst]. lia.
  - cbn [fst]. lia.
Qed.

(** ** The metrics leave the arrays of the caller alone *)

Section frame.

Import store.

Variable h0 : gmap loc (list cell).

Lemma keeps_ret {A : Type} (v : A) (Q : A -> Prop) : Q v -> keeps h0 (ret v) Q.
Proof. intros HQ h Hh. split; [done|]. intros v' Hv. now injection Hv as <-. Qed.

Lemma keeps_lift {A : Type} (r : result A) (Q : A -> Prop) :
  (forall v, r = Ok v -> Q v) -> keeps h0 (lift r) Q.
Proof. intros HQ h Hh. split; [done|]. exact HQ. Qed.

Lemma keeps_weaken {A : Type} (m : M A) (P Q : A -> Prop) :
  keeps h0 m P -> (forall v, P v -> Q v) -> keeps h0 m Q.
Proof. intros Hm HPQ h Hh. destruct (Hm h Hh) as [Hsub HP]. split; auto. Qed.

Lemma keeps_bind {A B : Type} (m : M A) (k : A -> M B) (P : A -> Prop)
  (Q : B -> Prop) :
  keeps h0 m P -> (forall v, P v -> keeps h0 (k v) Q) -> keeps h0 (mbind m k) Q.
Proof.
  intros Hm Hk h Hh. unfold mbind.
  destruct (Hm h Hh) as [Hsub HP].
  destruct (m h) as [[v|e|] h']; cbn [fst snd] in *.
  - apply Hk; auto.
  - split; [done|]. intros v Hv. discriminate Hv.
  - split; [done|]. intros v Hv. discriminate Hv.
Qed.

Lemma keeps_make (zero : cell) (n : Z) : keeps h0 (make zero n) (local h0).
Proof.
  intros h Hh. unfold make.
  assert (Hfresh : h0 !! fresh (dom h) = None).
  { apply not_elem_of_dom. intros Hin.
    apply (is_fresh (dom h)). revert Hin. apply subseteq_dom, Hh. }
  destruct (n <? 0); cbn [fst snd].
  - split; [done|]. intros v Hv. discriminate Hv.
  - split; [now apply insert_subseteq_r|].
    intros v Hv. injection Hv as <-. exact Hfresh.
Qed.

Lemma keeps_read (s : slice) (i : Z) : keeps h0 (read s i) (fun _ => True).
Proof.
  intros h Hh. unfold read.
  destruct ((0 <=? i) && (i <? slen s)); [|done].
  destruct (h !! base s) as [arr|]; [|done].
  destruct (arr !! Z.to_nat (off s + i)); done.
Qed.

Lemma keeps_write (s : slice) (i : Z) (c : cell) :
  local h0 s -> keeps h0 (write s i c) (fun _ => True).
Proof.
  intros Hloc h Hh. unfold write.
  destruct ((0 <=? i) && (i <? slen s)); [|done].
  destruct (h !! base s) as [arr|]; [|done].
  destruct (Z.to_nat (off s + i) <? length arr)%nat; [|done].
  cbn [fst snd]. split; [now apply insert_subseteq_r|done].
Qed.

Lemma keeps_reslice (s : slice) (lo hi : Z) :
  local h0 s -> keeps h0 (reslice s lo hi) (local h0).
Proof.
  intros Hloc. unfold reslice.
  destruct ((0 <=? lo) && (lo <=? hi) && (hi <=? scap s)).
  - now apply keeps_ret.
  - apply keeps_lift. intros v Hv. discriminate Hv.
Qed.

Lemma keeps_read_int (s : slice) (i : Z) : keeps h0 (read_int s i) (fun _ => True).
Proof.
  unfold read_int. eapply keeps_bind; [apply keeps_read|].
  intros [n|x] _; [now apply keeps_ret|].
  apply keeps_lift. intros v Hv. discriminate Hv.
Qed.

Lemma keeps_read_bigram (s : slice) (i : Z) :
  keeps h0 (read_bigram s i) (fun _ => True).
Proof.
  unfold read_bigram. eapply keeps_bind; [apply keeps_read|].
  intros [n|x] _; [|now apply keeps_ret].
  apply keeps_lift. intros v Hv. discriminate Hv.
Qed.

Lemma keeps_write_int (s : slice) (i n : Z) :
  local h0 s -> keeps h0 (write_int s i n) (fun _ => True).
Proof. apply keeps_write. Qed.

Lemma keeps_write_bigram (s : slice) (i : Z) (x : runewise.runeBigram) :
  local h0 s -> keeps h0 (write_bigram s i x) (fun _ => True).
Proof. apply keeps_write. Qed.

Lemma keeps_for_range {S : Type} (I : S -> Prop) (body : Z -> S -> M S) :
  (forall i s, I s -> keeps h0 (body i s) I) ->
  forall n i s, I s -> keeps h0 (for_range n i body s) I.
Proof.
  intros Hbody n. induction n as [|n IH]; intros i s Hs; cbn [for_range].
  - now apply keeps_ret.
  - eapply keeps_bind; [now apply Hbody|]. intros s' Hs'. now apply IH.
Qed.

Lemma keeps_for_loop {S : Type} (I : S -> Prop) (lo hi : Z)
  (body : Z -> S -> M S) (s : S) :
  (forall i s, I s -> keeps h0 (body i s) I) -> I s ->
  keeps h0 (for_loop lo hi body s) I.
Proof. intros Hbody Hs. now apply keeps_for_range. Qed.

Lemma keeps_for_loop_brk {S : Type} (I : S -> Prop) (lo hi : Z)
  (body : Z -> S -> M (flow S)) (s : S) :
  (forall i s, I s ->
     keeps h0 (body i s) (fun r => match r with Continue s' | Break s' => I s' end)) ->
  I s -> keeps h0 (for_loop_brk lo hi body s) I.
Proof.
  intros Hbody. unfold for_loop_brk.
  generalize (Z.to_nat (hi - lo)) as n. intros n. revert lo s.
  induction n as [|n IH]; intros lo s Hs; cbn [for_range_brk].
  - now apply keeps_ret.
  - eapply keeps_bind; [now apply Hbody|].
    intros [s'|s'] Hs'; [now apply IH|now apply keeps_ret].
Qed.

Lemma keeps_while_loop {S : Type} (I : S -> Prop) (fuel : nat) (cond : S -> bool)
  (body : S -> M S) (s : S) :
  (forall s, I s -> keeps h0 (body s) I) -> I s ->
  keeps h0 (while_loop fuel cond body s) I.
Proof.
  intros Hbody. revert s. induction fuel as [|fuel IH]; intros s Hs;
    cbn [while_loop].
  - now apply keeps_ret.
  - destruct (cond s); [|now apply keeps_ret].
    eapply keeps_bind; [now apply Hbody|]. intros s' Hs'. now apply IH.
Qed.

End frame.

Ltac keeps_step :=
  first
    [ apply keeps_ret; try exact I
    | apply keeps_lift; intros ? ?; try exact I
    | apply keeps_read_int
    | apply keeps_read_bigram
    | apply keeps_write_int; assumption
    | apply keeps_write_bigram; assumption
    | match goal with
      | |- keeps _ (store.mbind (store.make _ _) _) _ =>
          eapply keeps_bind; [apply keeps_make|intros ? ?]
      | |- keeps _ (store.for_loop _ _ _ _) (fun _ => True) =>
          apply (keeps_for_loop _ (fun _ => True)); [intros ? ? _; cbv beta|exact I]
      | |- keeps _ (store.for_loop_brk _ _ _ _) (fun _ => True) =>
          apply (keeps_for_loop_brk _ (fun _ => True));
          [intros ? ? _; cbv beta;
           apply keeps_weaken with (P := fun _ => True);
           [|intros [?|?] _; exact I]
          |exact I]
      | |- keeps _ (store.while_loop _ _ _ _) (fun _ => True) =>
          apply (keeps_while_loop _ (fun _ => True)); [intros ? _; cbv beta|exact I]
      | |- keeps _ (if ?c then _ else _) _ => destruct c
      | |- keeps _ (let '(_, _) := ?x in _) _ => destruct x
      | |- keeps _ (store.mbind _ _) _ =>
          eapply keeps_bind with (P := fun _ => True); [|intros ? _]
      end ].

Ltac keeps_auto := repeat keeps_step.

Section frame_metrics.

Import store.

Variable h0 : gmap loc (list cell).

Lemma HammingDistance_keeps (a b : slice) :
  keeps h0 (runewise_store.HammingDistance a b) (fun _ => True).
Proof. unfold runewise_store.HammingDistance. keeps_auto. Qed.

Lemma DiceCoefficient_keeps (a b : slice) :
  keeps h0 (runewise_store.DiceCoefficient a b) (fun _ => True).
Proof. unfold runewise_store.DiceCoefficient. keeps_auto. Qed.

Lemma upperWordLetterPairs_keeps (IsSpace : Z -> bool) (ToUpper : Z -> Z)
  (runes : slice) :
  keeps h0 (runewise_store.upperWordLetterPairs IsSpace ToUpper runes)
    (fun p => local h0 p.1).
Proof.
  unfold runewise_store.upperWordLetterPairs.
  destruct (slen runes - 1 <? 1).
  - eapply keeps_bind; [apply keeps_make|]. intros bigrams Hloc.
    now apply keeps_ret.
  - eapply keeps_bind; [apply keeps_make|]. intros bigrams Hloc.
    eapply keeps_bind with (P := fun _ => True); [keeps_auto|].
    intros [i numPairs] _.
    eapply keeps_bind; [now apply keeps_reslice|].
    intros bigrams' Hloc'. now apply keeps_ret.
Qed.

Lemma WhiteSimilarity_keeps (IsSpace : Z -> bool) (ToUpper : Z -> Z) (a b : slice) :
  keeps h0 (runewise_store.WhiteSimilarity IsSpace ToUpper a b) (fun _ => True).
Proof.
  unfold runewise_store.WhiteSimilarity.
  eapply keeps_bind; [apply upperWordLetterPairs_keeps|].
  intros [aPairs aLen] Ha. cbn [fst] in Ha.
  eapply keeps_bind; [apply upperWordLetterPairs_keeps|].
  intros [bPairs bLen] Hb. cbn [fst] in Hb.
  keeps_auto.
Qed.

Lemma LevenshteinDistance_keeps (a b : slice) :
  keeps h0 (runewise_store.LevenshteinDistance a b) (fun _ => True).
Proof.
  unfold runewise_store.LevenshteinDistance.
  destruct (slen a =? 0); [keeps_auto|].
  destruct (slen b =? 0); [keeps_auto|].
  eapply keeps_bind; [apply keeps_make|]. intros prevRow Hprev.
  eapply keeps_bind; [apply keeps_make|]. intros currRow Hcurr.
  eapply keeps_bind with (P := fun _ => True); [keeps_auto|]. intros _ _.
  eapply keeps_bind with (P := fun st => local h0 st.1 /\ local h0 st.2).
  - apply keeps_for_loop; [|done].
    intros i [prev curr] [Hp Hc]. cbn [fst snd] in *.
    eapply keeps_bind with (P := fun _ => True); [keeps_auto|]. intros _ _.
    eapply keeps_bind with (P := fun _ => True); [keeps_auto|]. intros _ _.
    now apply keeps_ret.
  - intros [prev curr] [Hp Hc]. keeps_auto.
Qed.

Lemma DamerauLevenshteinDistance_keeps (a b : slice) :
  keeps h0 (runewise_store.DamerauLevenshteinDistance a b) (fun _ => True).
Proof.
  unfold runewise_store.DamerauLevenshteinDistance.
  destruct (slen a =? 0); [keeps_auto|].
  destruct (slen b =? 0); [keeps_auto|].
  destruct (if slen a >? slen b then (b, slen b, a, slen a)
            else (a, slen a, b, slen b)) as [[[a' aLen] b'] bLen].
  eapply keeps_bind; [apply keeps_make|]. intros tranRow Htran.
  eapply keeps_bind; [apply keeps_make|]. intros prevRow Hprev.
  eapply keeps_bind; [apply keeps_make|]. intros currRow Hcurr.
  eapply keeps_bind with (P := fun _ => True); [keeps_auto|]. intros _ _.
  eapply keeps_bind
    with (P := fun st : slice * slice * slice * Z =>
                 local h0 st.1.1.1 /\ local h0 st.1.1.2 /\ local h0 st.1.2).
  - apply keeps_for_loop; [|done].
    intros i [[[tran prev] curr] prevB] (Ht & Hp & Hc). cbn [fst snd] in *.
    eapply keeps_bind with (P := fun _ => True); [keeps_auto|]. intros currB _.
    eapply keeps_bind with (P := fun _ => True); [keeps_auto|]. intros _ _.
    eapply keeps_bind with (P := fun _ => True); [keeps_auto|]. intros _ _.
    now apply keeps_ret.
  - intros [[[tran prev] curr] prevB] (Ht & Hp & Hc). keeps_auto.
Qed.

Lemma fill_from_keys_keeps (m : gmap Z bool) (bIndices : slice) :
  local h0 bIndices ->
  keeps h0 (runewise_store.fill_from_keys m bIndices) (fun _ => True).
Proof. intros Hloc. unfold runewise_store.fill_from_keys. keeps_auto. Qed.

Lemma sort_Ints_keeps (s : slice) :
  local h0 s -> keeps h0 (runewise_store.sort_Ints s) (fun _ => True).
Proof. intros Hloc. unfold runewise_store.sort_Ints. keeps_auto. Qed.

Lemma jaroMatchesAndHalfTranspositions_keeps (a b : slice) :
  keeps h0 (runewise_store.jaroMatchesAndHalfTranspositions a b) (fun _ => True).
Proof.
  unfold runewise_store.jaroMatchesAndHalfTranspositions.
  destruct ((slen a =? 0) || (slen b =? 0)); [keeps_auto|].
  destruct (if slen a <? slen b then (b, slen b, a, slen a)
            else (a, slen a, b, slen b)) as [[[a' aLen] b'] bLen].
  eapply keeps_bind; [apply keeps_make|]. intros aCommon Hcommon.
  eapply keeps_bind with (P := fun _ => True); [keeps_auto|].
  intros [numAMatched bMatchedIndices] _.
  eapply keeps_bind; [apply keeps_make|]. intros bIndices Hind.
  eapply keeps_bind; [now apply fill_from_keys_keeps|]. intros _ _.
  eapply keeps_bind; [now apply sort_Ints_keeps|]. intros _ _.
  keeps_auto.
Qed.

Lemma JaroSimilarity_keeps (a b : slice) :
  keeps h0 (runewise_store.JaroSimilarity a b) (fun _ => True).
Proof.
  unfold runewise_store.JaroSimilarity.
  eapply keeps_bind; [apply jaroMatchesAndHalfTranspositions_keeps|].
  intros [matches transpositions] _. keeps_auto.
Qed.

Lemma clampedSharedPrefixLength_keeps (a b : slice) (maxPrefixLength : Z) :
  keeps h0 (runewise_store.clampedSharedPrefixLength a b maxPrefixLength)
    (fun _ => True).
Proof. unfold runewise_store.clampedSharedPrefixLength. keeps_auto. Qed.

Lemma JaroWinklerSimilarityParametric_keeps (a b : slice) (prefixScale : float64)
  (maxPrefixLength : Z) (boostThreshold : float64) :
  keeps h0 (runewise_store.JaroWinklerSimilarityParametric a b prefixScale
              maxPrefixLength boostThreshold) (fun _ => True).
Proof.
  unfold runewise_store.JaroWinklerSimilarityParametric.
  eapply keeps_bind; [apply JaroSimilarity_keeps|]. intros j _.
  destruct (f64_ltb j boostThreshold); [keeps_auto|].
  eapply keeps_bind; [apply clampedSharedPrefixLength_keeps|]. intros c _.
  keeps_auto.
Qed.

End frame_metrics.

Lemma keeps_subseteq {A : Type} (h : gmap store.loc (list store.cell))
  (m : store.M A) (Q : A -> Prop) : keeps h m Q -> h ⊆ (m h).2.
Proof. intros Hm. now apply Hm. Qed.

Lemma units_kept (h h' : gmap store.loc (list store.cell)) (s : store.slice)
  (u : list store.cell) :
  h ⊆ h' -> store.units h s = Some u -> store.units h' s = Some u.
Proof.
  intros Hsub. unfold store.units.
  destruct (h !! store.base s) as [arr|] eqn:E; [|done].
  now rewrite (lookup_weaken _ _ _ _ E Hsub).
Qed.

(** C10.  Every metric of the runewise package, run on two slices [a] and
    [b] over any store (the slices may share an array or overlap), ends with
    a store that extends the one it started from: each array present before
    the call, so each array of an input slice, holds the same units after
    the call, whether the call returns, fails or panics.  The writes of the
    metrics go to arrays they made. *)
Theorem metrics_keep_caller_arrays (h : gmap store.loc (list store.cell))
  (a b : store.slice) (IsSpace : Z -> bool) (ToUpper : Z -> Z)
  (prefixScale : float64) (maxPrefixLength : Z) (boostThreshold : float64) :
  h ⊆ (runewise_store.HammingDistance a b h).2 /\
  h ⊆ (runewise_store.DiceCoefficient a b h).2 /\
  h ⊆ (runewise_store.WhiteSimilarity IsSpace ToUpper a b h).2 /\
  h ⊆ (runewise_store.LevenshteinDistance a b h).2 /\
  h ⊆ (runewise_store.DamerauLevenshteinDistance a b h).2 /\
  h ⊆ (runewise_store.jaroMatchesAndHalfTranspositions a b h).2 /\
  h ⊆ (runewise_store.JaroSimilarity a b h).2 /\
  h ⊆ (runewise_store.JaroWinklerSimilarityParametric a b prefixScale
         maxPrefixLength boostThreshold h).2 /\
  h ⊆ (runewise_store.JaroWinklerSimilarity a b h).2.
Proof.
  repeat split; eapply keeps_subseteq.
  - apply HammingDistance_keeps.
  - apply DiceCoefficient_keeps.
  - apply WhiteSimilarity_keeps.
  - apply LevenshteinDistance_keeps.
  - apply DamerauLevenshteinDistance_keeps.
  - apply jaroMatchesAndHalfTranspositions_keeps.
  - apply JaroSimilarity_keeps.
  - apply JaroWinklerSimilarityParametric_keeps.
  - apply JaroWinklerSimilarityParametric_keeps.
Qed.

(** ** float64: quotient of a finite number by itself, conversion of a length *)

Lemma f64_div_self (s : bool) (m : positive) (e : Z) :
  f64_div (S754_finite s m e) (S754_finite s m e) = f64_of_int 1.
Proof.
  unfold f64_div, SFdiv, SFdiv_core_binary.
  rewrite !Z.sub_diag.
  change (Z.min (fexp 53 1024 0) 0) with (-53).
  change (0 - -53) with 53.
  cbv iota.
  assert (H : Z.div_eucl (Z.shiftl (Z.pos m) 53) (Z.pos m) = (2 ^ 53, 0)).
  { rewrite Z.shiftl_mul_pow2 by lia.
    pose proof (Z.div_eucl_eq (Z.pos m * 2 ^ 53) (Z.pos m)) as Heq.
    pose proof (Z.mod_pos_bound (Z.pos m * 2 ^ 53) (Z.pos m)) as Hb.
    unfold Z.modulo in Hb.
    destruct (Z.div_eucl (Z.pos m * 2 ^ 53) (Z.pos m)) as [q r].
    specialize (Heq ltac:(lia)). specialize (Hb ltac:(lia)).
    assert (q = 2 ^ 53) by nia. subst q. f_equal. lia. }
  rewrite H.
  replace (xorb s s) with false by (now destruct s).
  assert (Hloc : new_location (Z.pos m) 0 = loc_Exact).
  { unfold new_location. now destruct (Z.even (Z.pos m)). }
  rewrite Hloc. vm_compute. reflexivity.
Qed.

Lemma digits2_pos_lower (p : positive) :
  2 ^ (Z.pos (digits2_pos p) - 1) <= Z.pos p < 2 ^ Z.pos (digits2_pos p).
Proof.
  induction p as [p IH|p IH|]; cbn [digits2_pos].
  - rewrite Pos2Z.inj_succ, Pos2Z.inj_xI.
    set (d := Z.pos (digits2_pos p)) in *.
    assert (H1 : 2 ^ (Z.succ d - 1) = 2 * 2 ^ (d - 1))
      by (rewrite <- Z.pow_succ_r by lia; f_equal; lia).
    assert (H2 : 2 ^ Z.succ d = 2 * 2 ^ d) by (apply Z.pow_succ_r; lia).
    rewrite H1, H2. lia.
  - rewrite Pos2Z.inj_succ. change (Z.pos p~0) with (2 * Z.pos p).
    set (d := Z.pos (digits2_pos p)) in *.
    assert (H1 : 2 ^ (Z.succ d - 1) = 2 * 2 ^ (d - 1))
      by (rewrite <- Z.pow_succ_r by lia; f_equal; lia).
    assert (H2 : 2 ^ Z.succ d = 2 * 2 ^ d) by (apply Z.pow_succ_r; lia).
    rewrite H1, H2. lia.
  - simpl. lia.
Qed.

Lemma digits2_pos_iter_xO (p : positive) (k : positive) :
  Z.pos (digits2_pos (Pos.iter xO p k)) = Z.pos (digits2_pos p) + Z.pos k.
Proof.
  revert p. induction k as [|k IH] using Pos.peano_ind; intros p.
  - cbn [Pos.iter digits2_pos]. lia.
  - rewrite Pos.iter_succ. cbn [digits2_pos]. rewrite Pos2Z.inj_succ, IH. lia.
Qed.

Lemma f64_of_int_finite (n : Z) :
  0 < n < 2 ^ 53 -> exists m e, f64_of_int n = S754_finite false m e.
Proof.
  intros Hn. destruct n as [|p|p]; try lia.
  unfold f64_of_int, binary_normalize, binary_round.
  pose proof (digits2_pos_lower p) as Hd.
  set (d := Z.pos (digits2_pos p)) in *.
  assert (Hd53 : d <= 53).
  { destruct (Z.le_gt_cases d 53) as [|Hgt]; [done|].
    assert (2 ^ 53 <= 2 ^ (d - 1)) by (apply Z.pow_le_mono_r; lia). lia. }
  assert (Hfexp : fexp 53 1024 (d + 0) = d - 53).
  { unfold fexp, emin. lia. }
  rewrite Hfexp. unfold shl_align.
  destruct (d - 53 - 0) as [|q|q] eqn:Hq; try lia.
  - (* d = 53 *)
    unfold binary_round_aux, shr_fexp. cbn [Zdigits2]. fold d.
    rewrite Hfexp. replace (d - 53 - 0) with 0 by lia.
    cbn [shr shr_record_of_loc shr_m loc_of_shr_record round_nearest_even].
    cbn [Zdigits2]. fold d. rewrite Hfexp. replace (d - 53 - 0) with 0 by lia.
    cbn [shr shr_record_of_loc shr_m]. cbv zeta. cbv iota beta. eauto.
  - unfold binary_round_aux, shr_fexp. cbn [Zdigits2].
    rewrite digits2_pos_iter_xO. fold d.
    assert (Hfexp' : fexp 53 1024 (d + Z.pos q + (d - 53)) = d - 53).
    { unfold fexp, emin. lia. }
    rewrite Hfexp'. rewrite Z.sub_diag.
    cbn [shr shr_record_of_loc shr_m loc_of_shr_record round_nearest_even].
    cbn [Zdigits2]. rewrite digits2_pos_iter_xO. fold d. rewrite Hfexp', Z.sub_diag.
    cbn [shr shr_record_of_loc shr_m].
    destruct (Z.leb_spec (d - 53) (1024 - 53)); [eauto|lia].
Qed.


(** ** JaroSimilarity of a sequence with itself *)

Lemma jaro_inner_self (a : list Z) (i : nat) (x : Z) (matchMax : Z)
  (aCommon : list Z) (bM : gmap Z bool) :
  a !! i = Some x -> 0 <= matchMax -> length aCommon = length a ->
  let from := if Z.of_nat i - matchMax <? 0 then 0 else Z.of_nat i - matchMax in
  let to := if Z.of_nat i + matchMax >=? len a then len a - 1
            else Z.of_nat i + matchMax in
  exists bM',
    for_loop from (to + 1)
      (fun j '(aCommon, numAMatched, bMatchedIndices, aMatched) =>
         bj <- index a j ;;
         if negb (x =? bj)
         then Ok (aCommon, numAMatched, bMatchedIndices, aMatched)
         else
           st <- (if negb aMatched
                  then
                    aCommon <- assign aCommon numAMatched x ;;
                    Ok (aCommon, numAMatched + 1, true)
                  else Ok (aCommon, numAMatched, aMatched)) ;;
           let '(aCommon, numAMatched, aMatched) := st in
           let bMatchedIndices :=
             match bMatchedIndices !! j with
             | Some _ => bMatchedIndices
             | None => <[j := true]> bMatchedIndices
             end in
           Ok (aCommon, numAMatched, bMatchedIndices, aMatched))
      (aCommon, Z.of_nat i, bM, false) =
    Ok (<[i := x]> aCommon, Z.of_nat i + 1, bM', true) /\
    (forall j, is_Some (bM' !! j) -> is_Some (bM !! j) \/ 0 <= j < len a) /\
    (forall j, is_Some (bM !! j) -> is_Some (bM' !! j)) /\
    is_Some (bM' !! Z.of_nat i).
Proof.
  intros Hx HM Hlen from to.
  assert (Hi : (i < length a)%nat) by (apply lookup_lt_Some in Hx; lia).
  assert (Hfrom : 0 <= from <= Z.of_nat i).
  { subst from. destruct (Z.ltb_spec (Z.of_nat i - matchMax) 0); lia. }
  assert (Hto : Z.of_nat i <= to < len a).
  { subst to. unfold len.
    destruct (Z.geb_spec (Z.of_nat i + matchMax) (Z.of_nat (length a))); lia. }
  unfold for_loop.
  match goal with
  | |- exists bM', for_range ?n ?i0 ?body ?s0 = _ /\ _ =>
      destruct (for_range_inv
        (fun k (st : list Z * Z * gmap Z bool * bool) =>
           let '(ac, num, bm, am) := st in
           (am = false -> ac = aCommon /\ num = Z.of_nat i /\
                          from + Z.of_nat k <= Z.of_nat i) /\
           (am = true -> ac = <[i := x]> aCommon /\ num = Z.of_nat i + 1) /\
           (forall j, is_Some (bm !! j) -> is_Some (bM !! j) \/ 0 <= j < len a) /\
           (forall j, is_Some (bM !! j) -> is_Some (bm !! j)) /\
           (Z.of_nat i < from + Z.of_nat k -> is_Some (bm !! Z.of_nat i)))
        n i0 body s0) as ([[[ac num] bm] am] & Hrun & Hinv)
  end.
  - repeat split; try done; try lia. intros j Hj. now left.
  - intros k [[[ac num] bm] am] Hk (Hf & Ht & Hsub & Hsup & Hi').
    set (j := from + Z.of_nat k).
    assert (Hj : 0 <= j < len a) by lia.
    destruct (index_in_range a j Hj) as (y & Hy & ->). cbn [bind].
    destruct (Z.eqb_spec x y) as [<-|Hne]; cbn [negb].
    + (* the unit at j matches *)
      assert (Hbm : forall bm' : gmap Z bool,
        bm' = match bm !! j with Some _ => bm | None => <[j := true]> bm end ->
        (forall j', is_Some (bm' !! j') -> is_Some (bM !! j') \/ 0 <= j' < len a) /\
        (forall j', is_Some (bm !! j') -> is_Some (bm' !! j')) /\
        is_Some (bm' !! j)).
      { intros bm' ->. destruct (bm !! j) eqn:Ebm.
        - split; [auto|]. split; [auto|]. rewrite Ebm. eauto.
        - split; [|split].
          + intros j' Hj'. destruct (decide (j = j')) as [<-|Hjj]; [now right|].
            rewrite lookup_insert_ne in Hj' by done. auto.
          + intros j' Hj'. destruct (decide (j = j')) as [<-|Hjj].
            * rewrite lookup_insert_eq. eauto.
            * rewrite lookup_insert_ne by done. auto.
          + rewrite lookup_insert_eq. eauto. }
      destruct (Hbm _ eq_refl) as (Hb1 & Hb2 & Hb3).
      assert (Hi'' : Z.of_nat i < from + Z.of_nat (S k) ->
                     is_Some ((match bm !! j with
                               | Some _ => bm
                               | None => <[j := true]> bm
                               end) !! Z.of_nat i)).
      { intros Hlt. destruct (decide (j = Z.of_nat i)) as [Hji|Hji].
        - rewrite <- Hji. exact Hb3.
        - apply Hb2, Hi'. lia. }
      destruct am; cbn [negb bind].
      * destruct (Ht eq_refl) as [-> ->].
        eexists. split; [reflexivity|].
        split; [done|]. split; [done|]. split; [exact Hb1|].
        split; [|exact Hi'']. intros j' Hj'. apply Hb2, Hsup, Hj'.
      * destruct (Hf eq_refl) as (-> & -> & Hle).
        rewrite (assign_at aCommon _ i x) by (lia || congruence). cbn [bind].
        eexists. split; [reflexivity|].
        split; [done|]. split; [done|]. split; [exact Hb1|].
        split; [|exact Hi'']. intros j' Hj'. apply Hb2, Hsup, Hj'.
    + (* the unit at j differs: j is not i *)
      assert (Hji : j <> Z.of_nat i).
      { intros Hji. rewrite Hji, Nat2Z.id, Hx in Hy. congruence. }
      eexists. split; [reflexivity|].
      split; [|split; [done|split; [done|split; [done|]]]].
      * intros ->. destruct (Hf eq_refl) as (-> & -> & Hle).
        repeat split; try done. lia.
      * intros Hlt. apply Hi'. lia.
  - destruct Hinv as (Hf & Ht & Hsub & Hsup & Hi').
    exists bm. rewrite Hrun.
    destruct am.
    + destruct (Ht eq_refl) as [-> ->].
      split; [done|]. split; [done|]. split; [done|]. apply Hi'. lia.
    + destruct (Hf eq_refl) as (_ & _ & Hle). lia.
Qed.

Lemma fill_from_keys_exact (m : gmap Z bool) (n : Z) :
  len (map_to_list m) = n ->
  runewise.fill_from_keys m (make 0 n) = Ok ((map_to_list m).*1).
Proof.
  intros Hn. unfold runewise.fill_from_keys, for_loop, len in *.
  rewrite Z.sub_0_r, Nat2Z.id.
  set (kl := map_to_list m) in *.
  match goal with
  | |- bind (for_range ?N ?i0 ?body ?s0) _ = _ =>
      destruct (for_range_inv
        (fun c (st : list Z * Z) =>
           st.2 = Z.of_nat c /\ length st.1 = length kl /\
           forall k, (k < c)%nat -> st.1 !! k = kl.*1 !! k)
        N i0 body s0) as ([bI cnt] & Hrun & Hcnt & Hlen & Hbi)
  end.
  - cbn [fst snd]. split; [done|]. split; [|lia].
    unfold make. rewrite length_replicate. lia.
  - intros c [bI cnt] Hc (Hcnt & Hlen & Hbi). cbn [fst snd] in *. subst cnt.
    destruct (lookup_lt_is_Some_2 kl c) as [kv Hkv]; [done|].
    rewrite (index_at kl _ c kv) by (done || lia). cbn [bind].
    rewrite (assign_at bI _ c kv.1) by (done || lia). cbn [bind].
    eexists. split; [reflexivity|]. cbn [fst snd].
    split; [lia|]. split; [now rewrite length_insert|].
    intros k Hk. destruct (decide (k = c)) as [->|Hne].
    + rewrite list_lookup_insert_eq by lia.
      now rewrite list_lookup_fmap, Hkv.
    + rewrite list_lookup_insert_ne by done. apply Hbi. lia.
  - rewrite Hrun. cbn [bind fst snd] in *. f_equal.
    apply list_eq_same_length with (length kl); try done.
    + now rewrite length_fmap.
    + intros k x y Hk Hx Hy. rewrite Hbi in Hx by done. congruence.
Qed.

Lemma Sorted_seqZ (i n : nat) : Sorted Z.le (Z.of_nat <$> seq i n).
Proof.
  revert i. induction n as [|n IH]; intros i; cbn [seq fmap list_fmap].
  - constructor.
  - constructor; [apply IH|].
    destruct n; cbn [seq fmap list_fmap]; constructor. lia.
Qed.

Lemma sort_keys_range (keys : list Z) (n : nat) :
  NoDup keys ->
  (forall z, z ∈ keys <-> 0 <= z < Z.of_nat n) ->
  runewise.sort_Ints keys = Z.of_nat <$> seq 0 n.
Proof.
  intros Hnd Hkeys. unfold runewise.sort_Ints.
  apply (Sorted_unique Z.le).
  - apply Sorted_merge_sort. intros x y. lia.
  - apply Sorted_seqZ.
  - rewrite merge_sort_Permutation.
    apply NoDup_Permutation; [done| |].
    + apply NoDup_fmap; [intros x y; lia|apply NoDup_seq].
    + intros z. rewrite Hkeys, list_elem_of_fmap. split.
      * intros Hz. exists (Z.to_nat z). split; [lia|].
        apply elem_of_seq. lia.
      * intros (k & -> & Hk). apply elem_of_seq in Hk. lia.
Qed.

Lemma jaro_trans_loop_self (a : list Z) :
  for_loop 0 (len a) (fun k transCount =>
    ak <- index a k ;;
    bk <- index (Z.of_nat <$> seq 0 (length a)) k ;;
    bbk <- index a bk ;;
    Ok (if negb (ak =? bbk) then transCount + 1 else transCount)) 0 = Ok 0.
Proof.
  unfold for_loop, len. rewrite Z.sub_0_r, Nat2Z.id.
  match goal with
  | |- for_range ?N ?i0 ?body ?s0 = _ =>
      destruct (for_range_inv (fun _ (c : Z) => c = 0) N i0 body s0)
        as (c & -> & ->); [done| |done]
  end.
  intros k c Hk ->.
  destruct (lookup_lt_is_Some_2 a k) as [x Hx]; [done|].
  rewrite (index_at a _ k x) by (done || lia). cbn [bind].
  rewrite (index_at _ _ k (Z.of_nat k)); [|lia|].
  2:{ rewrite list_lookup_fmap, lookup_seq_lt by done. reflexivity. }
  cbn [bind]. rewrite (index_at a _ k x) by (done || lia). cbn [bind].
  rewrite Z.eqb_refl. eauto.
Qed.

Lemma jaroMatches_self (a : list Z) :
  a <> [] -> runewise.jaroMatchesAndHalfTranspositions a a = Ok (len a, 0).
Proof.
  intros Ha. unfold runewise.jaroMatchesAndHalfTranspositions.
  rewrite (len_eqb_0 a Ha). cbn [orb]. rewrite Z.ltb_irrefl.
  set (matchMax := if Z.quot (len a) 2 - 1 <? 0 then 0 else Z.quot (len a) 2 - 1).
  assert (HM : 0 <= matchMax).
  { subst matchMax. destruct (Z.ltb_spec (Z.quot (len a) 2 - 1) 0); lia. }
  unfold for_loop at 1. rewrite Z.sub_0_r. unfold len at 1. rewrite Nat2Z.id.
  match goal with
  | |- bind (for_range ?N ?i0 ?body ?s0) _ = _ =>
      destruct (for_range_inv
        (fun i (st : list Z * Z * gmap Z bool) =>
           let '(ac, num, bm) := st in
           length ac = length a /\ num = Z.of_nat i /\
           (forall k, (k < i)%nat -> ac !! k = a !! k) /\
           (forall j, is_Some (bm !! j) -> 0 <= j < len a) /\
           (forall j, 0 <= j < Z.of_nat i -> is_Some (bm !! j)))
        N i0 body s0) as ([[ac num] bm] & Hrun & Hlen & Hnum & Hac & Hsub & Hsup)
  end.
  - split; [|split; [done|split; [lia|split]]].
    + unfold make, len. rewrite length_replicate. lia.
    + intros j [v Hv]. now rewrite lookup_empty in Hv.
    + lia.
  - intros i [[ac num] bm] Hi (Hlen & -> & Hac & Hsub & Hsup).
    destruct (lookup_lt_is_Some_2 a i) as [x Hx]; [done|].
    rewrite Z.add_0_l.
    rewrite (index_at a _ i x) by (done || lia). cbn [bind].
    destruct (jaro_inner_self a i x matchMax ac bm Hx HM Hlen)
      as (bm' & Hinner & Hb1 & Hb2 & Hb3).
    cbv zeta in Hinner. rewrite Hinner. cbn [bind].
    eexists. split; [reflexivity|].
    split; [now rewrite length_insert|]. split; [lia|]. split; [|split].
    + intros k Hk. destruct (decide (k = i)) as [->|Hne].
      * rewrite list_lookup_insert_eq by lia. done.
      * rewrite list_lookup_insert_ne by done. apply Hac. lia.
    + intros j Hj. destruct (Hb1 j Hj) as [H|H]; auto.
    + intros j Hj. destruct (decide (j = Z.of_nat i)) as [->|Hne]; [done|].
      apply Hb2, Hsup. lia.
  - rewrite Hrun. cbn [bind]. subst num.
    assert (Hac' : ac = a).
    { apply list_eq_same_length with (length a); try done.
      intros k x y Hk Hx Hy. rewrite Hac in Hx by done. congruence. }
    subst ac.
    assert (Hkeys : forall z, z ∈ (map_to_list bm).*1 <-> 0 <= z < Z.of_nat (length a)).
    { intros z. rewrite list_elem_of_fmap. split.
      - intros ([k v] & -> & Hkv). apply elem_of_map_to_list in Hkv.
        apply Hsub. cbn [fst]. eauto.
      - intros Hz. destruct (Hsup z Hz) as [v Hv].
        exists (z, v). split; [done|]. now apply elem_of_map_to_list. }
    assert (Hnd : NoDup (map_to_list bm).*1) by apply NoDup_fst_map_to_list.
    assert (Hperm : (map_to_list bm).*1 ≡ₚ Z.of_nat <$> seq 0 (length a)).
    { apply NoDup_Permutation; [done| |].
      - apply NoDup_fmap; [intros x y; lia|apply NoDup_seq].
      - intros z. rewrite Hkeys, list_elem_of_fmap. split.
        + intros Hz. exists (Z.to_nat z). split; [lia|]. apply elem_of_seq. lia.
        + intros (k & -> & Hk). apply elem_of_seq in Hk. lia. }
    assert (Hsize : len (map_to_list bm) = Z.of_nat (length a)).
    { unfold len. f_equal.
      rewrite <- (length_fmap fst (map_to_list bm)), Hperm.
      now rewrite length_fmap, length_seq. }
    rewrite (fill_from_keys_exact bm _ Hsize). cbn [bind].
    rewrite (sort_keys_range _ (length a) Hnd Hkeys).
    fold (len a). rewrite jaro_trans_loop_self. reflexivity.
Qed.

Lemma JaroSimilarity_self (a : list Z) :
  a <> [] -> len a < 2 ^ 53 -> runewise.JaroSimilarity a a = Ok (f64_of_int 1).
Proof.
  intros Ha Hlen. unfold runewise.JaroSimilarity.
  rewrite (jaroMatches_self a Ha). cbn [bind].
  rewrite (len_eqb_0 a Ha).
  destruct (f64_of_int_finite (len a)) as (m & e & ->).
  { split; [|done]. unfold len. destruct a; [done|]. simpl length. lia. }
  change (f64_of_int (Z.quot 0 2)) with (S754_zero false).
  change (f64_sub (S754_finite false m e) (S754_zero false))
    with (S754_finite false m e).
  rewrite f64_div_self. vm_compute. reflexivity.
Qed.

(** C6.  JaroSimilarity returns 0.0 when either input is empty, and 1.0 on
    every non-empty sequence (of a length below 2^53, as every Go slice)
    compared with itself.  It does not return on every input: on "abcd" and
    "aaxx" the unit 'a' of the first input marks the positions 0 and 1 of the
    second as matched while one match is counted, and writing the second
    key to [bIndices], of length 1, panics. *)
Theorem JaroSimilarity_empty_self_and_repeated_match :
  (forall a b, a = [] \/ b = [] -> runewise.JaroSimilarity a b = Ok (f64_of_int 0)) /\
  (forall a, a <> [] -> len a < 2 ^ 53 ->
     runewise.JaroSimilarity a a = Ok (f64_of_int 1)) /\
  runewise.jaroMatchesAndHalfTranspositions (bytes "abcd") (bytes "aaxx") = Panic /\
  runewise.JaroSimilarity (bytes "abcd") (bytes "aaxx") = Panic.
Proof.
  split; [|split; [exact JaroSimilarity_self|split; vm_compute; reflexivity]].
  intros a b [-> | ->]; [done|].
  unfold runewise.JaroSimilarity, runewise.jaroMatchesAndHalfTranspositions.
  cbn [len length Z.of_nat]. now rewrite orb_true_r.
Qed.

Lemma JaroSimilarity_empty_self_and_repeated_match_witness :
  runewise.JaroSimilarity [] (bytes "a") = Ok (f64_of_int 0) /\
  runewise.JaroSimilarity (bytes "martha") (bytes "martha") = Ok (f64_of_int 1).
Proof.
  destruct JaroSimilarity_empty_self_and_repeated_match as (Hempty & Hself & _).
  split.
  - apply Hempty. now left.
  - apply Hself; [discriminate|vm_compute; reflexivity].
Defined.

(** ** DamerauLevenshteinDistance without NUL units *)

Lemma assign_returns {A : Type} (l : list A) (i : Z) (v : A) :
  0 <= i < len l -> exists l', assign l i v = Ok l' /\ length l' = length l.
Proof.
  unfold len. intros H. exists (<[Z.to_nat i := v]> l). split.
  - apply assign_at; lia.
  - apply length_insert.
Qed.

Lemma DamerauLevenshtein_swap (a b : list Z) :
  a <> [] -> b <> [] -> len a > len b ->
  runewise.DamerauLevenshteinDistance a b = runewise.DamerauLevenshteinDistance b a.
Proof.
  intros Ha Hb Hlen. unfold runewise.DamerauLevenshteinDistance.
  rewrite (len_eqb_0 a Ha), (len_eqb_0 b Hb).
  destruct (Z.gtb_spec (len a) (len b)); [|lia].
  destruct (Z.gtb_spec (len b) (len a)); [lia|].
  reflexivity.
Qed.

Lemma DamerauLevenshtein_returns_le (a b : list Z) :
  a <> [] -> b <> [] -> len a <= len b -> 0 ∉ b ->
  returns (runewise.DamerauLevenshteinDistance a b).
Proof.
  intros Ha Hb Hlen Hnul. unfold runewise.DamerauLevenshteinDistance.
  rewrite (len_eqb_0 a Ha), (len_eqb_0 b Hb).
  destruct (Z.gtb_spec (len a) (len b)); [lia|].
  unfold len in *.
  replace (Z.of_nat (length a) + 1) with (Z.of_nat (S (length a))) by lia.
  destruct (init_row (S (length a))) as (row0 & -> & Hlen0 & _). cbn [bind].
  unfold for_loop at 1.
  match goal with
  | |- returns (bind (for_range ?N ?i0 ?body ?s0) _) =>
      destruct (for_range_inv
        (fun _ (st : list Z * list Z * list Z * Z) =>
           length st.1.1.1 = S (length a) /\ length st.1.1.2 = S (length a) /\
           length st.1.2 = S (length a))
        N i0 body s0) as ([[[tran prev] curr] prevB] & -> & Ht & Hp & Hc)
  end.
  - cbn [fst snd]. unfold make. rewrite !length_replicate. lia.
  - intros k [[[tran prev] curr] prevB] Hk (Ht & Hp & Hc). cbn [fst snd] in *.
    set (i := 1 + Z.of_nat k).
    assert (Hi : 1 <= i <= Z.of_nat (length b)) by lia.
    destruct (index_in_range b (i - 1)) as (currB & HcurrB & ->);
      [unfold len; lia|]. cbn [bind].
    assert (HcurrB0 : currB <> 0).
    { intros ->. apply Hnul. eapply list_elem_of_lookup_2. exact HcurrB. }
    destruct (assign_returns curr 0 i) as (curr0 & -> & Hc0); [unfold len; lia|].
    cbn [bind].
    replace (if i - Z.of_nat (length b) - 1 <? 1 then 1
             else i - Z.of_nat (length b) - 1) with 1
      by (destruct (Z.ltb_spec (i - Z.of_nat (length b) - 1) 1); lia).
    replace (if i + Z.of_nat (length b) + 1 >? Z.of_nat (length a)
             then Z.of_nat (length a) else i + Z.of_nat (length b) + 1)
      with (Z.of_nat (length a))
      by (destruct (Z.gtb_spec (i + Z.of_nat (length b) + 1) (Z.of_nat (length a))); lia).
    unfold for_loop.
    match goal with
    | |- exists s', bind (for_range ?N ?i0 ?body ?s0) _ = _ /\ _ =>
        destruct (for_range_inv
          (fun j (st : list Z * Z) =>
             length st.1 = S (length a) /\ (j = O -> st.2 = 0))
          N i0 body s0) as ([curr1 prevA] & -> & Hc1 & _)
    end.
    + cbn [fst snd]. split; [lia|done].
    + intros j' [curr1 prevA] Hj' (Hc1 & HprevA). cbn [fst snd] in *.
      set (j := 1 + Z.of_nat j').
      assert (Hj : 1 <= j <= Z.of_nat (length a)) by lia.
      destruct (index_in_range a (j - 1)) as (currA & _ & ->); [unfold len; lia|].
      cbn [bind].
      destruct (index_in_range curr1 (j - 1)) as (cj1 & _ & ->); [unfold len; lia|].
      destruct (index_in_range prev j) as (pj & _ & ->); [unfold len; lia|].
      destruct (index_in_range prev (j - 1)) as (pj1 & _ & ->); [unfold len; lia|].
      cbn [bind].
      assert (Hentry : exists entry,
        (if (currA =? prevB) && (currB =? prevA)
         then
           tj2 <- index tran (j - 2) ;;
           Ok (if tj2 + (if currA =? currB then 0 else 1) <?
                  min3 (cj1 + 1) (pj + 1) (pj1 + (if currA =? currB then 0 else 1))
               then tj2 + (if currA =? currB then 0 else 1)
               else min3 (cj1 + 1) (pj + 1)
                      (pj1 + (if currA =? currB then 0 else 1)))
         else Ok (min3 (cj1 + 1) (pj + 1)
                    (pj1 + (if currA =? currB then 0 else 1)))) = Ok entry).
      { destruct ((currA =? prevB) && (currB =? prevA)) eqn:Hcond; [|eauto].
        apply andb_true_iff in Hcond as [_ Hcp]. apply Z.eqb_eq in Hcp.
        destruct (decide (j' = O)) as [->|Hj0].
        - rewrite HprevA in Hcp by done. congruence.
        - destruct (index_in_range tran (j - 2)) as (tj2 & _ & ->);
            [unfold len; lia|]. cbn [bind]. eauto. }
      destruct Hentry as (entry & ->). cbn [bind].
      destruct (assign_returns curr1 j entry) as (curr2 & -> & Hc2); [unfold len; lia|].
      cbn [bind]. eexists. split; [reflexivity|]. cbn [fst snd].
      split; [lia|]. intros Habs. discriminate Habs.
    + cbn [bind fst snd] in *. eexists. split; [reflexivity|]. cbn [fst snd]. lia.
  - cbn [bind fst snd] in *. apply index_returns. unfold len. lia.
Qed.

Lemma DamerauLevenshtein_returns_without_NUL (a b : list Z) :
  0 ∉ a -> 0 ∉ b ->
  returns (runewise.DamerauLevenshteinDistance a b) /\
  returns (bytewise.DamerauLevenshteinDistance a b).
Proof.
  intros Ha0 Hb0.
  change bytewise.DamerauLevenshteinDistance with runewise.DamerauLevenshteinDistance.
  assert (H : returns (runewise.DamerauLevenshteinDistance a b)); [|done].
  destruct (decide (a = [])) as [->|Ha]; [apply returns_Ok|].
  destruct (decide (b = [])) as [->|Hb].
  { unfold runewise.DamerauLevenshteinDistance. rewrite (len_eqb_0 a Ha).
    apply returns_Ok. }
  destruct (Z.le_gt_cases (len a) (len b)) as [Hle|Hgt].
  - now apply DamerauLevenshtein_returns_le.
  - rewrite DamerauLevenshtein_swap by (done || lia).
    apply DamerauLevenshtein_returns_le; (done || lia).
Qed.

(** C4.  DamerauLevenshteinDistance returns on every pair of inputs without
    NUL units: there each index is in range, and [tranRow[j-2]] is read for
    [j >= 2] only.  With NUL units it stops with an index out of range:
    [prevA] and [prevB] start as the zero unit, so on two sequences that
    begin with NUL, and on "x" against "x" followed by NUL, the transposition
    test succeeds at [j = 1] and reads [tranRow[-1]]. *)
Theorem DamerauLevenshteinDistance_panics_on_NUL :
  (forall a b : list Z, 0 ∉ a -> 0 ∉ b ->
     returns (runewise.DamerauLevenshteinDistance a b) /\
     returns (bytewise.DamerauLevenshteinDistance a b)) /\
  runewise.DamerauLevenshteinDistance [0] [0] = Panic /\
  bytewise.DamerauLevenshteinDistance [0] [0] = Panic /\
  runewise.DamerauLevenshteinDistance [120] [120; 0] = Panic /\
  bytewise.DamerauLevenshteinDistance [120] [120; 0] = Panic /\
  runewise.DamerauLevenshteinDistance [120; 0] [120] = Panic /\
  runewise.DamerauLevenshteinDistance [0; 97; 98] [0; 98; 97] = Panic.
Proof.
  split; [exact DamerauLevenshtein_returns_without_NUL|].
  repeat apply conj; vm_compute; reflexivity.
Qed.

Lemma DamerauLevenshteinDistance_panics_on_NUL_witness :
  returns (runewise.DamerauLevenshteinDistance (bytes "ab") (bytes "ba")) /\
  returns (bytewise.DamerauLevenshteinDistance (bytes "ab") (bytes "ba")).
Proof.
  apply (proj1 DamerauLevenshteinDistance_panics_on_NUL).
  - intros H. vm_compute in H. apply list_elem_of_In in H. simpl in H.
    destruct H as [H|[H|[]]]; discriminate H.
  - intros H. vm_compute in H. apply list_elem_of_In in H. simpl in H.
    destruct H as [H|[H|[]]]; discriminate H.
Defined.

(** ** WhiteSimilarity: the matching loops on lists *)

Section matching.

Context {B : Type} (eqb : B -> B -> bool) (zero : B).

Lemma white_inner_loop (x : B) (pre suf : list B) (c : float64) :
  for_range_brk (length suf) (Z.of_nat (length pre))
    (fun j '(intersection, bPairs) =>
       bBigram <- index bPairs j ;;
       if eqb x bBigram
       then
         bPairs <- assign bPairs j zero ;;
         Ok (Break (f64_add intersection (f64_of_int 1), bPairs))
       else Ok (Continue (intersection, bPairs)))
    (c, pre ++ suf) =
  Ok (match mark_first eqb zero x suf with
      | Some suf' => (f64_add c (f64_of_int 1), pre ++ suf')
      | None => (c, pre ++ suf)
      end).
Proof.
  revert pre. induction suf as [|y suf IH]; intros pre; cbn [length for_range_brk].
  - reflexivity.
  - rewrite (index_at (pre ++ y :: suf) _ (length pre) y);
      [|done|now rewrite lookup_app_r, Nat.sub_diag by lia].
    cbn [bind mark_first]. destruct (eqb x y).
    + rewrite (assign_at (pre ++ y :: suf) _ (length pre) zero);
        [|done|rewrite length_app; cbn [length]; lia].
      cbn [bind]. do 2 f_equal.
      rewrite insert_app_r_alt, Nat.sub_diag by lia. reflexivity.
    + cbn [bind].
      specialize (IH (pre ++ [y])).
      rewrite length_app in IH. cbn [length] in IH.
      replace (Z.of_nat (length pre) + 1) with (Z.of_nat (length pre + 1)) by lia.
      rewrite <- !app_assoc in IH. cbn [app] in IH. rewrite IH.
      destruct (mark_first eqb zero x suf) as [suf'|]; cbn [fmap option_fmap option_map].
      * now rewrite <- app_assoc.
      * reflexivity.
Qed.

Lemma white_inner (x : B) (slots : list B) (c : float64) :
  for_loop_brk 0 (len slots)
    (fun j '(intersection, bPairs) =>
       bBigram <- index bPairs j ;;
       if eqb x bBigram
       then
         bPairs <- assign bPairs j zero ;;
         Ok (Break (f64_add intersection (f64_of_int 1), bPairs))
       else Ok (Continue (intersection, bPairs)))
    (c, slots) =
  Ok (match mark_first eqb zero x slots with
      | Some slots' => (f64_add c (f64_of_int 1), slots')
      | None => (c, slots)
      end).
Proof.
  unfold for_loop_brk, len. rewrite Z.sub_0_r, Nat2Z.id.
  exact (white_inner_loop x [] slots c).
Qed.

Lemma mark_first_length (x : B) (slots slots' : list B) :
  mark_first eqb zero x slots = Some slots' -> length slots' = length slots.
Proof.
  revert slots'. induction slots as [|y slots IH]; intros slots'; cbn [mark_first].
  - discriminate.
  - destruct (eqb x y).
    + intros H. injection H as <-. reflexivity.
    + destruct (mark_first eqb zero x slots) as [s|]; cbn; [|discriminate].
      intros H. injection H as <-. cbn [length]. now rewrite (IH s).
Qed.

Lemma white_outer_loop (pre suf : list B) (slots : list B) (c : float64) :
  exists slots',
    for_range (length suf) (Z.of_nat (length pre))
      (fun k '(intersection, bPairs) =>
         aBigram <- index (pre ++ suf) k ;;
         for_loop_brk 0 (len bPairs) (fun j '(intersection, bPairs) =>
           bBigram <- index bPairs j ;;
           if eqb aBigram bBigram
           then
             bPairs <- assign bPairs j zero ;;
             Ok (Break (f64_add intersection (f64_of_int 1), bPairs))
           else Ok (Continue (intersection, bPairs)))
         (intersection, bPairs))
      (c, slots) =
    Ok (Nat.iter (sentinel_matches eqb zero suf slots)
          (fun c => f64_add c (f64_of_int 1)) c, slots').
Proof.
  revert pre slots c. induction suf as [|x suf IH]; intros pre slots c;
    cbn [length for_range sentinel_matches].
  - now exists slots.
  - rewrite (index_at (pre ++ x :: suf) _ (length pre) x);
      [|done|now rewrite lookup_app_r, Nat.sub_diag by lia].
    cbn [bind]. rewrite white_inner. cbn [bind].
    replace (Z.of_nat (length pre) + 1) with (Z.of_nat (length (pre ++ [x])))
      by (rewrite length_app; cbn [length]; lia).
    replace (pre ++ x :: suf) with ((pre ++ [x]) ++ suf)
      by (now rewrite <- app_assoc).
    destruct (mark_first eqb zero x slots) as [slots1|].
    + destruct (IH (pre ++ [x]) slots1 (f64_add c (f64_of_int 1))) as (slots' & ->).
      exists slots'. now rewrite Nat.iter_succ_r.
    + apply IH.
Qed.

(** Without the zero bigram among the bigrams of the first list, a slot
    overwritten with it is out of play, as a slot flagged as consumed. *)
Lemma sentinel_matches_greedy (xs : list B) (slots : list (B * bool)) :
  (forall x y, eqb x y = true <-> x = y) ->
  zero ∉ xs ->
  Z.of_nat (sentinel_matches eqb zero xs
              (map (fun s : B * bool => if s.2 then zero else s.1) slots)) =
  greedy_matches eqb xs slots.
Proof.
  intros Heqb Hzero. revert slots.
  induction xs as [|x xs IH]; intros slots; cbn [sentinel_matches greedy_matches];
    [done|].
  assert (Hx : x <> zero) by (intros ->; apply Hzero; left).
  assert (Hxs : zero ∉ xs) by (intros H; apply Hzero; now right).
  assert (Hstep :
    mark_first eqb zero x (map (fun s : B * bool => if s.2 then zero else s.1) slots) =
    map (fun s : B * bool => if s.2 then zero else s.1) <$> consume_first eqb x slots).
  { induction slots as [|[y used] slots IHs]; cbn [map mark_first consume_first fst snd];
      [done|].
    destruct used; cbn [negb andb].
    - assert (E : eqb x zero = false).
      { destruct (eqb x zero) eqn:E; [|done]. now apply Heqb in E. }
      rewrite E, IHs. now destruct (consume_first eqb x slots).
    - destruct (eqb x y); [done|].
      rewrite IHs. now destruct (consume_first eqb x slots). }
  rewrite Hstep. destruct (consume_first eqb x slots) as [slots'|];
    cbn [fmap option_fmap option_map].
  - rewrite Nat2Z.inj_succ, IH by done. lia.
  - now apply IH.
Qed.

Lemma consume_first_unused (x : B) (slots slots' : list (B * bool)) :
  consume_first eqb x slots = Some slots' ->
  length slots' = length slots /\
  (length (filter (fun s : B * bool => s.2 = false) slots) =
   S (length (filter (fun s : B * bool => s.2 = false) slots')))%nat.
Proof.
  revert slots'. induction slots as [|[y used] slots IH]; intros slots';
    cbn [consume_first]; [discriminate|].
  destruct (negb used && eqb x y) eqn:E.
  - intros H. injection H as <-. split; [done|].
    apply andb_true_iff in E as [E _]. destruct used; [done|].
    rewrite !filter_cons. cbn [snd].
    rewrite decide_True by done. rewrite decide_False by done. reflexivity.
  - destruct (consume_first eqb x slots) as [s|]; cbn; [|discriminate].
    intros H. injection H as <-. destruct (IH s eq_refl) as [Hl Hf].
    split; [cbn [length]; lia|].
    rewrite !filter_cons. cbn [snd].
    destruct (decide (used = false)); cbn [length]; [f_equal|]; exact Hf.
Qed.

Lemma greedy_matches_bounds (xs : list B) (slots : list (B * bool)) :
  0 <= greedy_matches eqb xs slots <= len xs /\
  greedy_matches eqb xs slots <=
    Z.of_nat (length (filter (fun s : B * bool => s.2 = false) slots)).
Proof.
  unfold len. revert slots. induction xs as [|x xs IH]; intros slots;
    cbn [greedy_matches length].
  - lia.
  - destruct (consume_first eqb x slots) as [slots'|] eqn:E.
    + destruct (consume_first_unused x slots slots' E) as [_ Hf].
      specialize (IH slots'). lia.
    + specialize (IH slots). lia.
Qed.

Lemma greedy_intersection_bounds (xs ys : list B) :
  0 <= greedy_intersection eqb xs ys /\
  greedy_intersection eqb xs ys <= len xs /\
  greedy_intersection eqb xs ys <= len ys /\
  2 * greedy_intersection eqb xs ys <= len xs + len ys.
Proof.
  unfold greedy_intersection.
  assert (Hf : length (filter (fun s : B * bool => s.2 = false)
                         (map (fun y => (y, false)) ys)) = length ys).
  { induction ys as [|y ys IHy]; [done|]. cbn [map]. rewrite filter_cons.
    rewrite decide_True by reflexivity. cbn [length]. now rewrite IHy. }
  pose proof (greedy_matches_bounds xs (map (fun y => (y, false)) ys)) as [H1 H2].
  rewrite Hf in H2. unfold len in *. lia.
Qed.

End matching.

Lemma while_loop_inv {S : Type} (I : S -> Prop) (fuel : nat) (cond : S -> bool)
  (body : S -> result S) (s : S) :
  I s ->
  (forall s, I s -> cond s = true -> exists s', body s = Ok s' /\ I s') ->
  exists s', while_loop fuel cond body s = Ok s' /\ I s'.
Proof.
  intros Hs Hbody. revert s Hs.
  induction fuel as [|fuel IH]; intros s Hs; cbn [while_loop]; [eauto|].
  destruct (cond s) eqn:Hc; [|eauto].
  destruct (Hbody s Hs Hc) as (s' & -> & Hs'). cbn [bind]. now apply IH.
Qed.

Lemma slice_prefix {A : Type} (l : list A) (n : Z) :
  0 <= n <= len l -> slice l 0 n = Ok (take (Z.to_nat n) l) /\
                     len (take (Z.to_nat n) l) = n.
Proof.
  unfold len. intros H. unfold slice, len.
  destruct (Z.leb_spec 0 0), (Z.leb_spec 0 n), (Z.leb_spec n (Z.of_nat (length l)));
    try lia. cbn [andb]. rewrite Z.sub_0_r, drop_0. split; [done|].
  rewrite length_take. lia.
Qed.

Lemma asciiUpperWordLetterPairs_returns (s : list Z) :
  exists pairs, bytewise.asciiUpperWordLetterPairs s = Ok (pairs, len pairs).
Proof.
  unfold bytewise.asciiUpperWordLetterPairs.
  destruct (Z.ltb_spec (len s - 1) 1) as [Hl|Hl]; [now exists []|].
  set (limit := len s - 1) in *.
  match goal with
  | |- exists pairs, bind (while_loop ?fuel ?cond ?body ?s0) _ = _ =>
      destruct (while_loop_inv
        (fun st : Z * Z * list bytewise.byteBigram =>
           0 <= st.1.2 <= st.1.1 /\ st.1.2 <= limit /\ len st.2 = limit)
        fuel cond body s0) as ([[i n] bg] & -> & Hn & Hn' & Hbg)
  end.
  - cbn [fst snd]. unfold make, len. rewrite length_replicate. lia.
  - intros [[i n] bg] (Hn & Hn' & Hbg) Hc. cbn [fst snd] in *.
    apply Z.ltb_lt in Hc.
    destruct (index_in_range s (i + 1)) as (y & _ & ->); [lia|]. cbn [bind].
    destruct (bytewise.asciiUpperOrSpace y) as [b [|]];
      [eexists; split; [reflexivity|]; cbn [fst snd]; lia|].
    destruct (index_in_range s i) as (x & _ & ->); [lia|]. cbn [bind].
    destruct (bytewise.asciiUpperOrSpace x) as [a [|]];
      [eexists; split; [reflexivity|]; cbn [fst snd]; lia|].
    destruct (assign_returns bg n (bytewise.mkByteBigram a b)) as (bg' & -> & Hbg');
      [lia|]. cbn [bind].
    eexists; split; [reflexivity|]. cbn [fst snd]. unfold len in *. lia.
  - cbn [fst snd bind] in *.
    destruct (slice_prefix bg n) as [-> Hlen]; [lia|]. cbn [bind].
    eexists. now rewrite Hlen.
Qed.

Lemma upperWordLetterPairs_returns (IsSpace : Z -> bool) (ToUpper : Z -> Z)
  (s : list Z) :
  exists pairs, runewise.upperWordLetterPairs IsSpace ToUpper s = Ok (pairs, len pairs).
Proof.
  unfold runewise.upperWordLetterPairs.
  destruct (Z.ltb_spec (len s - 1) 1) as [Hl|Hl]; [now exists []|].
  set (limit := len s - 1) in *.
  match goal with
  | |- exists pairs, bind (while_loop ?fuel ?cond ?body ?s0) _ = _ =>
      destruct (while_loop_inv
        (fun st : Z * Z * list runewise.runeBigram =>
           0 <= st.1.2 <= st.1.1 /\ st.1.2 <= limit /\ len st.2 = limit)
        fuel cond body s0) as ([[i n] bg] & -> & Hn & Hn' & Hbg)
  end.
  - cbn [fst snd]. unfold make, len. rewrite length_replicate. lia.
  - intros [[i n] bg] (Hn & Hn' & Hbg) Hc. cbn [fst snd] in *.
    apply Z.ltb_lt in Hc.
    destruct (index_in_range s i) as (x & _ & ->); [lia|]. cbn [bind].
    destruct (index_in_range s (i + 1)) as (y & _ & ->); [lia|]. cbn [bind].
    destruct (IsSpace y);
      [eexists; split; [reflexivity|]; cbn [fst snd]; lia|].
    destruct (IsSpace x);
      [eexists; split; [reflexivity|]; cbn [fst snd]; lia|].
    destruct (assign_returns bg n (runewise.mkRuneBigram (ToUpper x) (ToUpper y)))
      as (bg' & -> & Hbg'); [lia|]. cbn [bind].
    eexists; split; [reflexivity|]. cbn [fst snd]. unfold len in *. lia.
  - cbn [fst snd bind] in *.
    destruct (slice_prefix bg n) as [-> Hlen]; [lia|]. cbn [bind].
    eexists. now rewrite Hlen.
Qed.

Lemma bytewise_bigram_eqb_eq (x y : bytewise.byteBigram) :
  bytewise.bigram_eqb x y = true <-> x = y.
Proof.
  unfold bytewise.bigram_eqb. destruct x as [xa xb], y as [ya yb]. cbn.
  rewrite andb_true_iff, !Z.eqb_eq. split; [intros [-> ->]; done|].
  intros H. now injection H.
Qed.

Lemma runewise_bigram_eqb_eq (x y : runewise.runeBigram) :
  runewise.bigram_eqb x y = true <-> x = y.
Proof.
  unfold runewise.bigram_eqb. destruct x as [xa xb], y as [ya yb]. cbn.
  rewrite andb_true_iff, !Z.eqb_eq. split; [intros [-> ->]; done|].
  intros H. now injection H.
Qed.

Lemma bytewise_WhiteSimilarity_ratio (a b : list Z)
  (aPairs bPairs : list bytewise.byteBigram) :
  bytewise.asciiUpperWordLetterPairs a = Ok (aPairs, len aPairs) ->
  bytewise.asciiUpperWordLetterPairs b = Ok (bPairs, len bPairs) ->
  bytewise.WhiteSimilarity a b =
  if len aPairs + len bPairs =? 0 then Err InsufficientContent
  else Ok (f64_div
             (f64_mul (f64_of_int 2)
                (f64_count (sentinel_matches bytewise.bigram_eqb bytewise.zeroBigram
                              aPairs bPairs)))
             (f64_of_int (len aPairs + len bPairs))).
Proof.
  intros Ha Hb. unfold bytewise.WhiteSimilarity. rewrite Ha, Hb. cbn [bind].
  destruct (len aPairs + len bPairs =? 0); [done|].
  unfold for_loop. rewrite Z.sub_0_r. unfold len at 1. rewrite Nat2Z.id.
  destruct (white_outer_loop bytewise.bigram_eqb bytewise.zeroBigram [] aPairs bPairs
              (f64_of_int 0)) as (slots' & Hloop).
  cbn [app length] in Hloop. change (Z.of_nat 0) with 0 in Hloop.
  rewrite Hloop. reflexivity.
Qed.

Lemma runewise_WhiteSimilarity_ratio (IsSpace : Z -> bool) (ToUpper : Z -> Z)
  (a b : list Z) (aPairs bPairs : list runewise.runeBigram) :
  runewise.upperWordLetterPairs IsSpace ToUpper a = Ok (aPairs, len aPairs) ->
  runewise.upperWordLetterPairs IsSpace ToUpper b = Ok (bPairs, len bPairs) ->
  runewise.WhiteSimilarity IsSpace ToUpper a b =
  if len aPairs + len bPairs =? 0 then Err InsufficientContent
  else Ok (f64_div
             (f64_mul (f64_of_int 2)
                (f64_count (sentinel_matches runewise.bigram_eqb runewise.zeroBigram
                              aPairs bPairs)))
             (f64_of_int (len aPairs + len bPairs))).
Proof.
  intros Ha Hb. unfold runewise.WhiteSimilarity. rewrite Ha, Hb. cbn [bind].
  destruct (len aPairs + len bPairs =? 0); [done|].
  unfold for_loop. rewrite Z.sub_0_r. unfold len at 1. rewrite Nat2Z.id.
  destruct (white_outer_loop runewise.bigram_eqb runewise.zeroBigram [] aPairs bPairs
              (f64_of_int 0)) as (slots' & Hloop).
  cbn [app length] in Hloop. change (Z.of_nat 0) with 0 in Hloop.
  rewrite Hloop. reflexivity.
Qed.

Lemma sentinel_matches_intersection {B : Type} (eqb : B -> B -> bool) (zero : B)
  (xs ys : list B) :
  (forall x y, eqb x y = true <-> x = y) ->
  zero ∉ xs ->
  Z.of_nat (sentinel_matches eqb zero xs ys) = greedy_intersection eqb xs ys.
Proof.
  intros Heqb Hzero. unfold greedy_intersection.
  rewrite <- (sentinel_matches_greedy eqb zero xs _ Heqb Hzero).
  rewrite map_map. cbn [snd fst]. now rewrite map_id.
Qed.

(** C2.  WhiteSimilarity never panics: with the filtered bigram lists
    [aPairs] and [bPairs] of its inputs it fails when both are empty and
    otherwise returns 2 * intersection / (lenA + lenB), where intersection
    counts the matches of its loops.  When the zero bigram is not among
    [aPairs], these are the matches of the greedy one-to-one matching, and
    2 * intersection <= lenA + lenB.  The loops mark a consumed slot of
    [bPairs] with the zero bigram, which is also the bigram of two NUL
    units: on three NUL units against two, a one-to-one matching has 1
    pair, the second bigram of a matches the consumed slot again, and the
    call returns 2 * 2 / 3, which is above 1. *)
Theorem WhiteSimilarity_rematches_consumed_slot :
  (forall a b : list Z, exists aPairs bPairs,
     bytewise.asciiUpperWordLetterPairs a = Ok (aPairs, len aPairs) /\
     bytewise.asciiUpperWordLetterPairs b = Ok (bPairs, len bPairs) /\
     bytewise.WhiteSimilarity a b =
       (if len aPairs + len bPairs =? 0 then Err InsufficientContent
        else Ok (f64_div
                   (f64_mul (f64_of_int 2)
                      (f64_count (sentinel_matches bytewise.bigram_eqb
                                    bytewise.zeroBigram aPairs bPairs)))
                   (f64_of_int (len aPairs + len bPairs)))) /\
     (bytewise.zeroBigram ∉ aPairs ->
      Z.of_nat (sentinel_matches bytewise.bigram_eqb bytewise.zeroBigram
                  aPairs bPairs) =
        greedy_intersection bytewise.bigram_eqb aPairs bPairs /\
      0 <= 2 * greedy_intersection bytewise.bigram_eqb aPairs bPairs
        <= len aPairs + len bPairs)) /\
  (forall (IsSpace : Z -> bool) (ToUpper : Z -> Z) (a b : list Z),
   exists aPairs bPairs,
     runewise.upperWordLetterPairs IsSpace ToUpper a = Ok (aPairs, len aPairs) /\
     runewise.upperWordLetterPairs IsSpace ToUpper b = Ok (bPairs, len bPairs) /\
     runewise.WhiteSimilarity IsSpace ToUpper a b =
       (if len aPairs + len bPairs =? 0 then Err InsufficientContent
        else Ok (f64_div
                   (f64_mul (f64_of_int 2)
                      (f64_count (sentinel_matches runewise.bigram_eqb
                                    runewise.zeroBigram aPairs bPairs)))
                   (f64_of_int (len aPairs + len bPairs)))) /\
     (runewise.zeroBigram ∉ aPairs ->
      Z.of_nat (sentinel_matches runewise.bigram_eqb runewise.zeroBigram
                  aPairs bPairs) =
        greedy_intersection runewise.bigram_eqb aPairs bPairs /\
      0 <= 2 * greedy_intersection runewise.bigram_eqb aPairs bPairs
        <= len aPairs + len bPairs)) /\
  bytewise.asciiUpperWordLetterPairs [0; 0; 0] =
    Ok ([bytewise.zeroBigram; bytewise.zeroBigram], 2) /\
  bytewise.asciiUpperWordLetterPairs [0; 0] = Ok ([bytewise.zeroBigram], 1) /\
  greedy_intersection bytewise.bigram_eqb
    [bytewise.zeroBigram; bytewise.zeroBigram] [bytewise.zeroBigram] = 1 /\
  sentinel_matches bytewise.bigram_eqb bytewise.zeroBigram
    [bytewise.zeroBigram; bytewise.zeroBigram] [bytewise.zeroBigram] = 2%nat /\
  bytewise.WhiteSimilarity [0; 0; 0] [0; 0] =
    Ok (f64_div (f64_mul (f64_of_int 2) (f64_of_int 2)) (f64_of_int (2 + 1))) /\
  runewise.WhiteSimilarity ascii_IsSpace ascii_ToUpper [0; 0; 0] [0; 0] =
    Ok (f64_div (f64_mul (f64_of_int 2) (f64_of_int 2)) (f64_of_int (2 + 1))) /\
  f64_ratio (f64_div (f64_mul (f64_of_int 2) (f64_of_int 2)) (f64_of_int (2 + 1))) =
    Some (6004799503160661, 2 ^ 52) /\
  f64_ltb (f64_of_int 1)
    (f64_div (f64_mul (f64_of_int 2) (f64_of_int 2)) (f64_of_int (2 + 1))) = true.
Proof.
  split; [|split; [|repeat apply conj; vm_compute; reflexivity]].
  - intros a b.
    destruct (asciiUpperWordLetterPairs_returns a) as (aPairs & Ha).
    destruct (asciiUpperWordLetterPairs_returns b) as (bPairs & Hb).
    exists aPairs, bPairs. split; [done|]. split; [done|].
    split; [now apply bytewise_WhiteSimilarity_ratio|].
    intros Hzero. split.
    + apply sentinel_matches_intersection; [apply bytewise_bigram_eqb_eq|done].
    + pose proof (greedy_intersection_bounds bytewise.bigram_eqb aPairs bPairs). lia.
  - intros IsSpace ToUpper a b.
    destruct (upperWordLetterPairs_returns IsSpace ToUpper a) as (aPairs & Ha).
    destruct (upperWordLetterPairs_returns IsSpace ToUpper b) as (bPairs & Hb).
    exists aPairs, bPairs. split; [done|]. split; [done|].
    split; [now apply runewise_WhiteSimilarity_ratio|].
    intros Hzero. split.
    + apply sentinel_matches_intersection; [apply runewise_bigram_eqb_eq|done].
    + pose proof (greedy_intersection_bounds runewise.bigram_eqb aPairs bPairs). lia.
Qed.

Lemma WhiteSimilarity_rematches_consumed_slot_witness :
  exists aPairs bPairs,
    bytewise.asciiUpperWordLetterPairs (bytes "Healed") = Ok (aPairs, len aPairs) /\
    bytewise.asciiUpperWordLetterPairs (bytes "Sealed") = Ok (bPairs, len bPairs) /\
    Z.of_nat (sentinel_matches bytewise.bigram_eqb bytewise.zeroBigram
                aPairs bPairs) =
      greedy_intersection bytewise.bigram_eqb aPairs bPairs /\
    0 <= 2 * greedy_intersection bytewise.bigram_eqb aPairs bPairs
      <= len aPairs + len bPairs.
Proof.
  destruct (proj1 WhiteSimilarity_rematches_consumed_slot
              (bytes "Healed") (bytes "Sealed"))
    as (aPairs & bPairs & Ha & Hb & _ & Hgreedy).
  exists aPairs, bPairs. split; [exact Ha|]. split; [exact Hb|].
  apply Hgreedy.
  assert (E : Ok (aPairs, len aPairs) =
              Ok ([bytewise.mkByteBigram 72 69; bytewise.mkByteBigram 69 65;
                   bytewise.mkByteBigram 65 76; bytewise.mkByteBigram 76 69;
                   bytewise.mkByteBigram 69 68], 5)).
  { rewrite <- Ha. vm_compute. reflexivity. }
  injection E as -> _.
  rewrite !not_elem_of_cons. repeat split; try discriminate.
  apply not_elem_of_nil.
Defined.

(** On the inputs of the tests of the package, the embedding over the store
    and the embedding over values give the same results. *)
Lemma store_embedding_on_tests :
  runewise_store.on_runes runewise_store.HammingDistance
    (bytes "toned") (bytes "roses") =
  runewise.HammingDistance (bytes "toned") (bytes "roses") /\
  runewise_store.on_runes runewise_store.DiceCoefficient
    (bytes "night") (bytes "nacht") =
  runewise.DiceCoefficient (bytes "night") (bytes "nacht") /\
  runewise_store.on_runes (runewise_store.WhiteSimilarity ascii_IsSpace ascii_ToUpper)
    (bytes "FRENCH REPUBLIC") (bytes "REPUBLIC OF FRANCE") =
  runewise.WhiteSimilarity ascii_IsSpace ascii_ToUpper
    (bytes "FRENCH REPUBLIC") (bytes "REPUBLIC OF FRANCE") /\
  runewise_store.on_runes (runewise_store.WhiteSimilarity ascii_IsSpace ascii_ToUpper)
    [0; 0; 0] [0; 0] =
  runewise.WhiteSimilarity ascii_IsSpace ascii_ToUpper [0; 0; 0] [0; 0] /\
  runewise_store.on_runes runewise_store.LevenshteinDistance
    (bytes "kitten") (bytes "sitting") =
  runewise.LevenshteinDistance (bytes "kitten") (bytes "sitting") /\
  runewise_store.on_runes runewise_store.DamerauLevenshteinDistance
    (bytes "azertyuiopqsdfghjklmwxcvbn") (bytes "qwertyuiopasdfghjkl;zxcvbnm") =
  runewise.DamerauLevenshteinDistance
    (bytes "azertyuiopqsdfghjklmwxcvbn") (bytes "qwertyuiopasdfghjkl;zxcvbnm") /\
  runewise_store.on_runes runewise_store.DamerauLevenshteinDistance [0] [0] =
  runewise.DamerauLevenshteinDistance [0] [0] /\
  runewise_store.on_runes runewise_store.JaroSimilarity
    (bytes "dixon") (bytes "dicksonx") =
  runewise.JaroSimilarity (bytes "dixon") (bytes "dicksonx") /\
  runewise_store.on_runes runewise_store.JaroSimilarity
    (bytes "abcd") (bytes "aaxx") =
  runewise.JaroSimilarity (bytes "abcd") (bytes "aaxx") /\
  runewise_store.on_runes runewise_store.JaroWinklerSimilarity
    (bytes "martha") (bytes "marhta") =
  runewise.JaroWinklerSimilarity (bytes "martha") (bytes "marhta").
Proof. repeat apply conj; vm_compute; reflexivity. Qed.

(** ** The store embedding refines the value embedding *)

Section refinement.

Implicit Types (h : gmap store.loc (list store.cell)) (s : store.slice).

Lemma sim_ret {A B : Type} h (v : A) (w : B) (Q : A -> B -> gmap store.loc (list store.cell) -> Prop) :
  Q v w h -> sim h (store.ret v) (Ok w) Q.
Proof. done. Qed.

Lemma sim_err {A B : Type} h (e : error) (Q : A -> B -> gmap store.loc (list store.cell) -> Prop) :
  sim h (store.lift (Err e)) (Err e) Q.
Proof. done. Qed.

Lemma sim_bind {A A' B B' : Type} h (m : store.M A) (p : result A')
  (k : A -> store.M B) (k' : A' -> result B')
  (Q : A -> A' -> gmap store.loc (list store.cell) -> Prop)
  (R : B -> B' -> gmap store.loc (list store.cell) -> Prop) :
  sim h m p Q ->
  (forall v w h', Q v w h' -> sim h' (k v) (k' w) R) ->
  sim h (store.mbind m k) (bind p k') R.
Proof.
  unfold sim at 1. intros Hm Hk. unfold sim, store.mbind.
  destruct (m h) as [[v|e|] h'], p as [w|e'|]; cbn [bind]; try done.
  now apply Hk.
Qed.

Lemma sim_weaken {A B : Type} h (m : store.M A) (p : result B)
  (Q R : A -> B -> gmap store.loc (list store.cell) -> Prop) :
  sim h m p Q -> (forall v w h', Q v w h' -> R v w h') -> sim h m p R.
Proof.
  unfold sim. intros Hm HQR.
  destruct (m h) as [[v|e|] h'], p as [w|e'|]; try done. now apply HQR.
Qed.

Lemma sim_result {A : Type} h (m : store.M A) (p : result A)
  (Q : A -> A -> gmap store.loc (list store.cell) -> Prop) :
  sim h m p Q -> (forall v w h', Q v w h' -> v = w) -> (m h).1 = p.
Proof.
  unfold sim. intros Hm HQ.
  destruct (m h) as [[v|e|] h'], p as [w|e'|]; cbn [fst]; try done.
  - f_equal. eapply HQ, Hm.
  - now subst.
Qed.

(** Reading a slice whose units are known. *)
Lemma read_units h s (cells : list store.cell) (i : Z) :
  store.units h s = Some cells -> store.read s i h = (index cells i, h).
Proof.
  unfold store.units, store.read. destruct (h !! store.base s) as [arr|]; [|done].
  destruct (Z.leb_spec 0 (store.off s)), (Z.leb_spec 0 (store.slen s)); cbn [andb]; try done.
  destruct (Nat.leb_spec (Z.to_nat (store.off s + store.slen s)) (length arr)); [|done].
  intros Hc. injection Hc as <-. unfold index.
  destruct (Z.leb_spec 0 i), (Z.ltb_spec i 0); try lia; cbn [andb]; [|done].
  destruct (Z.ltb_spec i (store.slen s)).
  - rewrite lookup_take_lt, lookup_drop by lia.
    replace (Z.to_nat (store.off s) + Z.to_nat i)%nat with (Z.to_nat (store.off s + i)) by lia.
    now destruct (arr !! Z.to_nat (store.off s + i)).
  - rewrite lookup_take_ge by lia. done.
Qed.

Lemma index_fmap {A B : Type} (f : A -> B) (l : list A) (i : Z) :
  index (f <$> l) i = (x <- index l i ;; Ok (f x)).
Proof. apply index_map. Qed.

Lemma assign_fmap {A B : Type} (f : A -> B) (l : list A) (i : Z) (v : A) :
  assign (f <$> l) i (f v) = (l' <- assign l i v ;; Ok (f <$> l')).
Proof.
  unfold assign. destruct (i <? 0); [done|]. rewrite length_fmap.
  destruct (Z.to_nat i <? length l)%nat; [|done]. cbn [bind].
  now rewrite list_fmap_insert.
Qed.

(** Writing to a slice whose units are known. *)
Lemma write_units h s (cells : list store.cell) (i : Z) (c : store.cell) :
  store.units h s = Some cells ->
  match assign cells i c with
  | Ok cells' =>
      exists arr, store.write s i c h = (Ok tt, <[store.base s := arr]> h) /\
                  store.units (<[store.base s := arr]> h) s = Some cells'
  | _ => store.write s i c h = (Panic, h)
  end.
Proof.
  unfold store.units, store.write. destruct (h !! store.base s) as [arr|] eqn:Harr; [|done].
  destruct (Z.leb_spec 0 (store.off s)), (Z.leb_spec 0 (store.slen s)); cbn [andb]; try done.
  destruct (Nat.leb_spec (Z.to_nat (store.off s + store.slen s)) (length arr)); [|done].
  intros Hc. injection Hc as <-. unfold assign.
  rewrite length_take, length_drop.
  destruct (Z.leb_spec 0 i), (Z.ltb_spec i 0); try lia; cbn [andb]; [|done].
  destruct (Z.ltb_spec i (store.slen s)).
  - destruct (Nat.ltb_spec (Z.to_nat i)
               (Z.to_nat (store.slen s) `min` (length arr - Z.to_nat (store.off s)))); [|lia].
    destruct (Nat.ltb_spec (Z.to_nat (store.off s + i)) (length arr)); [|lia].
    eexists. split; [reflexivity|].
    rewrite lookup_insert_eq.
    destruct (Z.leb_spec 0 (store.off s)), (Z.leb_spec 0 (store.slen s)); try lia. cbn [andb].
    rewrite length_insert.
    destruct (Nat.leb_spec (Z.to_nat (store.off s + store.slen s)) (length arr)); [|lia].
    f_equal.
    replace (Z.to_nat (store.off s + i)) with (Z.to_nat (store.off s) + Z.to_nat i)%nat by lia.
    rewrite drop_insert_ge by lia.
    replace (Z.to_nat (store.off s) + Z.to_nat i - Z.to_nat (store.off s))%nat
      with (Z.to_nat i) by lia.
    now rewrite take_insert_lt by lia.
  - destruct (Nat.ltb_spec (Z.to_nat i)
               (Z.to_nat (store.slen s) `min` (length arr - Z.to_nat (store.off s)))); [lia|done].
Qed.

Lemma units_insert_ne h s s' (arr : list store.cell) :
  store.base s' <> store.base s -> store.units (<[store.base s := arr]> h) s' = store.units h s'.
Proof. intros Hne. unfold store.units. now rewrite lookup_insert_ne. Qed.

Lemma units_base h s (cells : list store.cell) :
  store.units h s = Some cells -> is_Some (h !! store.base s).
Proof. unfold store.units. destruct (h !! store.base s); [eauto|done]. Qed.

Variable h0 : gmap store.loc (list store.cell).

Lemma owns_extends h G : owns h0 h G -> h0 ⊆ h.
Proof. now intros [H _]. Qed.

Lemma owns_input h G s (cells : list store.cell) :
  owns h0 h G -> store.units h0 s = Some cells -> store.units h s = Some cells.
Proof. intros [Hsub _]. now apply units_kept. Qed.

Lemma owns_lookup h G (k : nat) s (cells : list store.cell) :
  owns h0 h G -> G !! k = Some (s, cells) ->
  store.units h s = Some cells /\ h0 !! store.base s = None.
Proof.
  intros (_ & _ & HG) Hk.
  exact (proj1 (Forall_lookup _ _) HG k (s, cells) Hk).
Qed.

Lemma owns_perm h G G' : owns h0 h G -> G ≡ₚ G' -> owns h0 h G'.
Proof.
  intros (Hsub & Hnd & HG) Hperm. split; [done|]. split.
  - now rewrite <- Hperm.
  - now rewrite <- Hperm.
Qed.

Lemma owns_write h G (k : nat) s (cells cells' : list store.cell) (arr : list store.cell) :
  owns h0 h G -> G !! k = Some (s, cells) ->
  store.units (<[store.base s := arr]> h) s = Some cells' ->
  owns h0 (<[store.base s := arr]> h) (<[k := (s, cells')]> G).
Proof.
  intros (Hsub & Hnd & HG) Hk Hs.
  destruct (proj1 (Forall_lookup _ _) HG k (s, cells) Hk) as [_ Hloc].
  cbn [fst snd] in Hloc.
  split; [now apply insert_subseteq_r|]. split.
  - rewrite !list_fmap_insert. cbn [fst].
    rewrite list_insert_id; [done|].
    now rewrite !list_lookup_fmap, Hk.
  - apply Forall_lookup. intros j [s' c'] Hj.
    destruct (decide (j = k)) as [->|Hne].
    + rewrite list_lookup_insert_eq in Hj by (now apply lookup_lt_Some in Hk).
      injection Hj as <- <-. done.
    + rewrite list_lookup_insert_ne in Hj by done.
      destruct (proj1 (Forall_lookup _ _) HG j (s', c') Hj) as [Hu Hl].
      cbn [fst snd] in *. split; [|done].
      rewrite units_insert_ne; [done|].
      intros Heq. apply Hne.
      apply (proj1 (NoDup_alt _) Hnd j k (store.base s)).
      * now rewrite !list_lookup_fmap, Hj, <- Heq.
      * now rewrite !list_lookup_fmap, Hk.
Qed.

Lemma owns_make h G (zero : store.cell) (n : Z) :
  owns h0 h G -> 0 <= n ->
  exists s h',
    store.make zero n h = (Ok s, h') /\ (store.off s = 0 /\ store.slen s = n /\ store.scap s = n) /\
    owns h0 h' ((s, replicate (Z.to_nat n) zero) :: G).
Proof.
  intros (Hsub & Hnd & HG) Hn. unfold store.make.
  destruct (Z.ltb_spec n 0); [lia|].
  set (l := fresh (dom h)).
  assert (Hl : h !! l = None) by (apply not_elem_of_dom, is_fresh).
  assert (Hl0 : h0 !! l = None) by (eapply lookup_weaken_None; eauto).
  eexists _, _. split; [reflexivity|]. split; [done|].
  split; [now apply insert_subseteq_r|]. split.
  - cbn [fmap list_fmap fst store.base]. constructor; [|done].
    intros Hin. apply list_elem_of_fmap in Hin as (s' & Hb & Hin).
    apply list_elem_of_fmap in Hin as ([s'' c] & -> & Hin).
    cbn [fst] in Hb.
    destruct (proj1 (Forall_forall _ _) HG _ Hin) as [Hu _]. cbn [fst snd] in Hu.
    apply units_base in Hu as [arr Harr]. rewrite <- Hb in Harr. congruence.
  - constructor; cbn [fst snd store.base].
    + split; [|done]. unfold store.units. cbn [store.base store.off store.slen]. rewrite lookup_insert_eq.
      rewrite length_replicate.
      destruct (Z.leb_spec 0 n); [|lia]. cbn [andb].
      destruct (Nat.leb_spec (Z.to_nat (0 + n)) (Z.to_nat n)); [|lia].
      rewrite drop_0, take_ge by (rewrite length_replicate; lia). done.
    + apply Forall_forall. intros [s' c] Hin.
      destruct (proj1 (Forall_forall _ _) HG _ Hin) as [Hu Hloc].
      cbn [fst snd] in *. split; [|done].
      unfold store.units in *. rewrite lookup_insert_ne; [done|].
      intros Heq. rewrite <- Heq, Hl in Hu. done.
Qed.

Lemma units_len h s (cells : list store.cell) :
  store.units h s = Some cells -> store.slen s = len cells.
Proof.
  unfold store.units, len. destruct (h !! store.base s) as [arr|]; [|done].
  destruct (Z.leb_spec 0 (store.off s)), (Z.leb_spec 0 (store.slen s)); cbn [andb]; try done.
  destruct (Nat.leb_spec (Z.to_nat (store.off s + store.slen s)) (length arr)); [|done].
  intros Hc. injection Hc as <-. rewrite length_take, length_drop. lia.
Qed.

Lemma ints_len h s (l : list Z) : store.units h s = Some (store.CInt <$> l) -> store.slen s = len l.
Proof. intros H. rewrite (units_len h s _ H). unfold len. now rewrite length_fmap. Qed.

Lemma bigrams_len h s (l : list runewise.runeBigram) :
  store.units h s = Some (store.CBigram <$> l) -> store.slen s = len l.
Proof. intros H. rewrite (units_len h s _ H). unfold len. now rewrite length_fmap. Qed.

Lemma sim_lift {A : Type} h (r : result A) :
  sim h (store.lift r) r (fun v w h' => v = w /\ h' = h).
Proof. unfold sim, store.lift. now destruct r. Qed.

Lemma sim_read_int h s (l : list Z) (i : Z) :
  store.units h s = Some (store.CInt <$> l) ->
  sim h (store.read_int s i) (index l i) (fun v w h' => v = w /\ h' = h).
Proof.
  intros Hs. unfold sim, store.read_int, store.mbind. rewrite (read_units h s _ i Hs).
  rewrite index_fmap. destruct (index l i); done.
Qed.

Lemma sim_read_bigram h s (l : list runewise.runeBigram) (i : Z) :
  store.units h s = Some (store.CBigram <$> l) ->
  sim h (store.read_bigram s i) (index l i) (fun v w h' => v = w /\ h' = h).
Proof.
  intros Hs. unfold sim, store.read_bigram, store.mbind. rewrite (read_units h s _ i Hs).
  rewrite index_fmap. destruct (index l i); done.
Qed.

Lemma sim_write_int h G (k : nat) s (l : list Z) (i v : Z) :
  owns h0 h G -> G !! k = Some (s, store.CInt <$> l) ->
  sim h (store.write_int s i v) (assign l i v)
    (fun _ l' h' => owns h0 h' (<[k := (s, store.CInt <$> l')]> G)).
Proof.
  intros HG Hk. destruct (owns_lookup h G k s _ HG Hk) as [Hu _].
  pose proof (write_units h s _ i (store.CInt v) Hu) as Hw.
  rewrite assign_fmap in Hw. unfold sim, store.write_int.
  destruct (assign l i v) as [l'|e|] eqn:Has; cbn [bind] in Hw.
  - destruct Hw as (arr & -> & Hu'). now apply owns_write with (cells := store.CInt <$> l).
  - unfold assign in Has. destruct (i <? 0); [done|]. now destruct (_ <? _)%nat.
  - now rewrite Hw.
Qed.

Lemma sim_write_bigram h G (k : nat) s (l : list runewise.runeBigram) (i : Z)
  (v : runewise.runeBigram) :
  owns h0 h G -> G !! k = Some (s, store.CBigram <$> l) ->
  sim h (store.write_bigram s i v) (assign l i v)
    (fun _ l' h' => owns h0 h' (<[k := (s, store.CBigram <$> l')]> G)).
Proof.
  intros HG Hk. destruct (owns_lookup h G k s _ HG Hk) as [Hu _].
  pose proof (write_units h s _ i (store.CBigram v) Hu) as Hw.
  rewrite assign_fmap in Hw. unfold sim, store.write_bigram.
  destruct (assign l i v) as [l'|e|] eqn:Has; cbn [bind] in Hw.
  - destruct Hw as (arr & -> & Hu'). now apply owns_write with (cells := store.CBigram <$> l).
  - unfold assign in Has. destruct (i <? 0); [done|]. now destruct (_ <? _)%nat.
  - now rewrite Hw.
Qed.

Lemma sim_make {A B : Type} h G (zero : store.cell) (n : Z) (k : store.slice -> store.M A)
  (p : result B) (R : A -> B -> gmap store.loc (list store.cell) -> Prop) :
  owns h0 h G -> 0 <= n ->
  (forall s h', store.off s = 0 /\ store.slen s = n /\ store.scap s = n ->
     owns h0 h' ((s, replicate (Z.to_nat n) zero) :: G) -> sim h' (k s) p R) ->
  sim h (store.mbind (store.make zero n) k) p R.
Proof.
  intros HG Hn Hk.
  destruct (owns_make h G zero n HG Hn) as (s & h' & Hm & Hs & HG').
  unfold sim, store.mbind. rewrite Hm. now apply Hk.
Qed.

Lemma sim_for_range {S T : Type} (Inv : S -> T -> gmap store.loc (list store.cell) -> Prop)
  (body_s : Z -> S -> store.M S) (body_p : Z -> T -> result T) :
  (forall i x y h, Inv x y h -> sim h (body_s i x) (body_p i y) Inv) ->
  forall n i x y h, Inv x y h ->
    sim h (store.for_range n i body_s x) (for_range n i body_p y) Inv.
Proof.
  intros Hbody n. induction n as [|n IH]; intros i x y h Hinv;
    cbn [store.for_range for_range].
  - now apply sim_ret.
  - eapply sim_bind; [now apply Hbody|]. intros x' y' h' Hinv'. now apply IH.
Qed.

Lemma sim_for_loop {S T : Type} (Inv : S -> T -> gmap store.loc (list store.cell) -> Prop)
  (lo hi : Z) (body_s : Z -> S -> store.M S) (body_p : Z -> T -> result T) x y h :
  (forall i x y h, Inv x y h -> sim h (body_s i x) (body_p i y) Inv) ->
  Inv x y h ->
  sim h (store.for_loop lo hi body_s x) (for_loop lo hi body_p y) Inv.
Proof. intros Hbody Hinv. now apply sim_for_range. Qed.

Lemma sim_for_loop_brk {S T : Type} (Inv : S -> T -> gmap store.loc (list store.cell) -> Prop)
  (lo hi : Z) (body_s : Z -> S -> store.M (flow S)) (body_p : Z -> T -> result (flow T))
  x y h :
  (forall i x y h, Inv x y h ->
     sim h (body_s i x) (body_p i y)
       (fun r r' h' => match r, r' with
                       | Continue x', Continue y' => Inv x' y' h'
                       | Break x', Break y' => Inv x' y' h'
                       | _, _ => False
                       end)) ->
  Inv x y h ->
  sim h (store.for_loop_brk lo hi body_s x) (for_loop_brk lo hi body_p y) Inv.
Proof.
  intros Hbody. unfold store.for_loop_brk, for_loop_brk.
  generalize (Z.to_nat (hi - lo)) as n. intros n. revert lo x y h.
  induction n as [|n IH]; intros lo x y h Hinv;
    cbn [store.for_range_brk for_range_brk].
  - now apply sim_ret.
  - eapply sim_bind; [now apply Hbody|].
    intros [x'|x'] [y'|y'] h' Hinv'; try done; first [now apply IH|now apply sim_ret].
Qed.

Lemma sim_while_loop {S T : Type} (Inv : S -> T -> gmap store.loc (list store.cell) -> Prop)
  (fuel : nat) (cond_s : S -> bool) (cond_p : T -> bool)
  (body_s : S -> store.M S) (body_p : T -> result T) x y h :
  (forall x y h, Inv x y h -> cond_s x = cond_p y) ->
  (forall x y h, Inv x y h -> sim h (body_s x) (body_p y) Inv) ->
  Inv x y h ->
  sim h (store.while_loop fuel cond_s body_s x)
    (while_loop fuel cond_p body_p y) Inv.
Proof.
  intros Hcond Hbody. revert x y h.
  induction fuel as [|fuel IH]; intros x y h Hinv;
    cbn [store.while_loop while_loop].
  - now apply sim_ret.
  - rewrite (Hcond x y h Hinv). destruct (cond_p y); [|now apply sim_ret].
    eapply sim_bind; [now apply Hbody|]. intros x' y' h' Hinv'. now apply IH.
Qed.

Lemma owns_units h G s (cells : list store.cell) :
  owns h0 h G -> (s, cells) ∈ G -> store.units h s = Some cells.
Proof.
  intros HG Hin. apply list_elem_of_lookup in Hin as [k Hk].
  now destruct (owns_lookup h G k s cells HG Hk).
Qed.

Lemma sim_reslice h G s (l : list runewise.runeBigram) (hi : Z) :
  owns h0 h ((s, store.CBigram <$> l) :: G) -> store.off s = 0 -> store.scap s = store.slen s ->
  sim h (store.reslice s 0 hi) (slice l 0 hi)
    (fun s' l' h' => owns h0 h' ((s', store.CBigram <$> l') :: G)).
Proof.
  intros HG Hoff Hcap.
  assert (Hu : store.units h s = Some (store.CBigram <$> l))
    by (eapply owns_units; [exact HG|apply list_elem_of_here]).
  pose proof (bigrams_len h s l Hu) as Hlen.
  unfold store.reslice, slice. rewrite Hcap, Hlen.
  destruct ((0 <=? 0) && (0 <=? hi) && (hi <=? len l)) eqn:Hc; [|done].
  apply sim_ret. rewrite Hoff, !Z.sub_0_r. change (Z.to_nat 0) with 0%nat.
  rewrite drop_0, fmap_take.
  assert (0 <= hi <= len l) as Hhi by lia.
  destruct HG as (Hsub & Hnd & Hall). split; [exact Hsub|]. split; [exact Hnd|].
  apply Forall_cons in Hall as [[_ Hloc] Hall]. apply Forall_cons. split; [|exact Hall].
  cbn [fst snd store.base] in *. split; [|exact Hloc].
  revert Hu. unfold store.units. cbn [store.base store.off store.slen].
  destruct (h !! store.base s) as [arr|]; [|done].
  rewrite Hoff, Hlen. change (Z.to_nat 0) with 0%nat. rewrite !drop_0.
  change (0 <=? 0) with true. cbn [andb].
  destruct (Z.leb_spec 0 (len l)); [|unfold len in *; lia].
  destruct (Z.leb_spec 0 hi); [|lia].
  rewrite !Z.add_0_l.
  destruct (Nat.leb_spec (Z.to_nat (len l)) (length arr)); [|done].
  destruct (Nat.leb_spec (Z.to_nat hi) (length arr)); [|lia].
  intros Hc'. injection Hc' as Hc'. f_equal. rewrite <- Hc'.
  rewrite take_take. f_equal. lia.
Qed.

Lemma sim_bind_l {A B B' : Type} h (m : store.M A) (k : A -> store.M B) (p : result B')
  (P : A -> gmap store.loc (list store.cell) -> Prop)
  (R : B -> B' -> gmap store.loc (list store.cell) -> Prop) :
  sim h m (Ok tt) (fun v _ h' => P v h') ->
  (forall v h', P v h' -> sim h' (k v) p R) ->
  sim h (store.mbind m k) p R.
Proof.
  unfold sim, store.mbind. intros Hm Hk.
  destruct (m h) as [[v|e|] h']; try done. now apply Hk.
Qed.

Lemma sim_ok {A B : Type} h (m : store.M A) (p : result B) (w : B)
  (Q : A -> B -> gmap store.loc (list store.cell) -> Prop) :
  sim h m p Q -> p = Ok w -> sim h m (Ok tt) (fun v _ h' => Q v w h').
Proof. intros Hm ->. exact Hm. Qed.

Lemma run_read_int h s (l : list Z) (i x : Z) :
  store.units h s = Some (store.CInt <$> l) -> index l i = Ok x ->
  sim h (store.read_int s i) (Ok tt) (fun v _ h' => v = x /\ h' = h).
Proof. intros Hs Hi. exact (sim_ok _ _ _ _ _ (sim_read_int h s l i Hs) Hi). Qed.

Lemma run_lift {A : Type} h (r : result A) (x : A) :
  r = Ok x -> sim h (store.lift r) (Ok tt) (fun v _ h' => v = x /\ h' = h).
Proof. intros Hr. exact (sim_ok _ _ _ _ _ (sim_lift h r) Hr). Qed.

Lemma run_write_int h G (k : nat) s (l l' : list Z) (i v : Z) :
  owns h0 h G -> G !! k = Some (s, store.CInt <$> l) -> assign l i v = Ok l' ->
  sim h (store.write_int s i v) (Ok tt)
    (fun _ _ h' => owns h0 h' (<[k := (s, store.CInt <$> l')]> G)).
Proof.
  intros HG Hk Hl. exact (sim_ok _ _ _ _ _ (sim_write_int h G k s l i v HG Hk) Hl).
Qed.

(** A loop of the store alone, with an invariant that follows the loop
    variable. *)
Lemma run_for_range {St : Type} (Inv : Z -> St -> gmap store.loc (list store.cell) -> Prop)
  (body : Z -> St -> store.M St) (n : nat) :
  forall (lo : Z) (x : St) h,
    (forall i x h, lo <= i < lo + Z.of_nat n -> Inv i x h ->
       sim h (body i x) (Ok tt) (fun x' _ h' => Inv (i + 1) x' h')) ->
    Inv lo x h ->
    sim h (store.for_range n lo body x) (Ok tt)
      (fun x' _ h' => Inv (lo + Z.of_nat n) x' h').
Proof.
  induction n as [|n IH]; intros lo x h Hbody Hinv; cbn [store.for_range].
  - apply sim_ret. now rewrite Z.add_0_r.
  - eapply sim_bind_l; [apply Hbody; [lia|exact Hinv]|].
    intros x' h' Hinv'. eapply sim_weaken.
    + apply IH; [|exact Hinv']. intros i y h1 Hi. apply Hbody. lia.
    + intros y [] h1 Hy. cbv beta in Hy.
      now replace (lo + Z.of_nat (S n)) with (lo + 1 + Z.of_nat n) by lia.
Qed.

Lemma fill_from_keys_sim h G (m : gmap Z bool) s (l : list Z) :
  owns h0 h ((s, store.CInt <$> l) :: G) ->
  sim h (runewise_store.fill_from_keys m s) (runewise.fill_from_keys m l)
    (fun _ l' h' => owns h0 h' ((s, store.CInt <$> l') :: G)).
Proof.
  intros HG. unfold runewise_store.fill_from_keys, runewise.fill_from_keys.
  eapply sim_bind.
  { apply (sim_for_loop
             (fun (x : Z) (y : list Z * Z) h' =>
                x = y.2 /\ owns h0 h' ((s, store.CInt <$> y.1) :: G))); [|split; [done|exact HG]].
    intros n c [l1 c'] h1 [Heq HG1]. cbn [fst snd] in Heq, HG1. subst c'.
    eapply sim_bind; [apply sim_lift|]. intros kv ? ? [<- ->].
    eapply sim_bind.
    { eapply (sim_write_int _ _ 0%nat); [exact HG1|reflexivity]. }
    intros [] l2 h2 HG2. now apply sim_ret. }
  intros c [l1 c'] h1 [_ HG1]. now apply sim_ret.
Qed.

Lemma sort_Ints_run h G s (l : list Z) :
  owns h0 h ((s, store.CInt <$> l) :: G) ->
  sim h (runewise_store.sort_Ints s) (Ok tt)
    (fun _ _ h' => owns h0 h' ((s, store.CInt <$> runewise.sort_Ints l) :: G)).
Proof.
  intros HG. unfold runewise_store.sort_Ints, runewise.sort_Ints.
  assert (Hu : store.units h s = Some (store.CInt <$> l))
    by (eapply owns_units; [exact HG|apply list_elem_of_here]).
  rewrite (ints_len h s l Hu). unfold store.for_loop.
  rewrite !Z.sub_0_r. unfold len. rewrite !Nat2Z.id.
  eapply sim_bind_l.
  { apply (run_for_range
             (fun k acc h' => h' = h /\ acc = take (Z.to_nat k) l)); [|done].
    intros i acc h1 Hi [-> ->].
    destruct (index_in_range l i) as (x & Hx & Hix); [unfold len; lia|].
    eapply sim_bind_l; [exact (run_read_int _ _ _ _ _ Hu Hix)|].
    intros v h1 [-> ->]. apply sim_ret. split; [done|].
    replace (Z.to_nat (i + 1)) with (S (Z.to_nat i)) by lia.
    symmetry. now apply take_S_r. }
  intros acc h1 [-> ->]. rewrite Z.add_0_l, Nat2Z.id, firstn_all.
  set (sorted := merge_sort Z.le l).
  assert (Hlen : length sorted = length l)
    by (unfold sorted; now rewrite merge_sort_Permutation).
  eapply sim_bind_l.
  { apply (run_for_range
             (fun k (_ : unit) h' =>
                owns h0 h' ((s, store.CInt <$> (take (Z.to_nat k) sorted
                                          ++ drop (Z.to_nat k) l)) :: G))); [|exact HG].
    intros i [] h1 Hi HG1.
    destruct (index_in_range sorted i) as (x & Hx & Hix); [unfold len; lia|].
    destruct (index_in_range l i) as (y & Hy & _); [unfold len; lia|].
    eapply sim_bind_l; [exact (run_lift _ _ _ Hix)|].
    intros v h2 [-> ->].
    eapply sim_weaken.
    { eapply (run_write_int _ _ 0%nat); [exact HG1|reflexivity|].
      apply (assign_at _ i (Z.to_nat i)); [lia|].
      rewrite length_app, length_take, length_drop. lia. }
    intros [] [] h2 HG2. cbn [insert list_insert] in HG2.
    replace (Z.to_nat (i + 1)) with (S (Z.to_nat i)) by lia.
    rewrite (take_S_r sorted _ x Hx), <- app_assoc. cbn [app].
    rewrite insert_app_r_alt in HG2 by (rewrite length_take; lia).
    rewrite length_take, Nat.min_l, Nat.sub_diag in HG2 by lia.
    rewrite (drop_S l y _ Hy) in HG2. exact HG2. }
  intros [] h1 HG1. apply sim_ret.
  rewrite Z.add_0_l, Nat2Z.id, <- Hlen, firstn_all, Hlen, drop_all, app_nil_r in HG1.
  exact HG1.
Qed.

(** *** The metrics *)

Ltac solve_elem :=
  first [ apply list_elem_of_here | apply list_elem_of_further; solve_elem ].

Ltac sim_units :=
  first [ eapply owns_input; [eassumption|eassumption]
        | eapply owns_units; [eassumption|solve_elem] ].

Ltac sim_read :=
  eapply sim_bind;
  [ first [apply sim_read_int|apply sim_read_bigram]; sim_units
  | intros ? ? ? [<- ->] ].

Ltac sim_write_at k :=
  first [ eapply (sim_write_int _ _ k); [eassumption|reflexivity]
        | eapply (sim_write_bigram _ _ k); [eassumption|reflexivity] ].

Ltac sim_write H :=
  eapply sim_bind;
  [ first [sim_write_at 0%nat|sim_write_at 1%nat|sim_write_at 2%nat|sim_write_at 3%nat]
  | intros [] ? ? H; cbn [insert list_insert] in H ].

Section metrics.

Variables (a b : store.slice) (la lb : list Z).
Hypothesis Ha : store.units h0 a = Some (store.CInt <$> la).
Hypothesis Hb : store.units h0 b = Some (store.CInt <$> lb).

Lemma HammingDistance_sim h G :
  owns h0 h G ->
  sim h (runewise_store.HammingDistance a b) (runewise.HammingDistance la lb)
    (fun v w h' => v = w /\ owns h0 h' G).
Proof.
  intros HG. unfold runewise_store.HammingDistance, runewise.HammingDistance.
  rewrite (ints_len h0 a la Ha), (ints_len h0 b lb Hb).
  destruct (negb (len la =? len lb)); [apply sim_err|].
  apply (sim_for_loop (fun v w h' => v = w /\ owns h0 h' G)); [|done].
  intros i d d' h1 [<- HG1]. sim_read. sim_read. now apply sim_ret.
Qed.

Lemma DiceCoefficient_sim h G :
  owns h0 h G ->
  sim h (runewise_store.DiceCoefficient a b) (runewise.DiceCoefficient la lb)
    (fun v w h' => v = w /\ owns h0 h' G).
Proof.
  intros HG. unfold runewise_store.DiceCoefficient, runewise.DiceCoefficient.
  rewrite (ints_len h0 a la Ha), (ints_len h0 b lb Hb). cbv zeta.
  destruct (_ && _); [apply sim_err|].
  eapply sim_bind.
  { apply (sim_for_loop (fun v w h' => v = w /\ owns h0 h' G)); [|done].
    intros i [aSet tot] ? h1 [<- HG1]. sim_read. sim_read.
    destruct (negb _); now apply sim_ret. }
  intros [aSet tot] ? h1 [<- HG1].
  eapply sim_bind.
  { apply (sim_for_loop (fun v w h' => v = w /\ owns h0 h' G)); [|done].
    intros i [[bSet tot'] shared] ? h2 [<- HG2]. sim_read. sim_read.
    destruct (negb _); [|now apply sim_ret].
    destruct (map_get _ _); now apply sim_ret. }
  intros [[bSet tot'] shared] ? h2 [<- HG2]. now apply sim_ret.
Qed.

Lemma clampedSharedPrefixLength_sim h G (maxPrefixLength : Z) :
  owns h0 h G ->
  sim h (runewise_store.clampedSharedPrefixLength a b maxPrefixLength)
    (runewise.clampedSharedPrefixLength la lb maxPrefixLength)
    (fun v w h' => v = w /\ owns h0 h' G).
Proof.
  intros HG.
  unfold runewise_store.clampedSharedPrefixLength, runewise.clampedSharedPrefixLength.
  rewrite (ints_len h0 a la Ha), (ints_len h0 b lb Hb). cbv zeta.
  apply (sim_for_loop_brk (fun v w h' => v = w /\ owns h0 h' G)); [|done].
  intros i c ? h1 [<- HG1]. sim_read. sim_read.
  destruct (negb _); now apply sim_ret.
Qed.

End metrics.

Section unicode.

Variable IsSpace : Z -> bool.
Variable ToUpper : Z -> Z.

Lemma upperWordLetterPairs_sim h G (runes : store.slice) (l : list Z) :
  store.units h0 runes = Some (store.CInt <$> l) ->
  owns h0 h G ->
  sim h (runewise_store.upperWordLetterPairs IsSpace ToUpper runes)
    (runewise.upperWordLetterPairs IsSpace ToUpper l)
    (fun v w h' => v.2 = w.2 /\ owns h0 h' ((v.1, store.CBigram <$> w.1) :: G)).
Proof.
  intros Hr HG.
  unfold runewise_store.upperWordLetterPairs, runewise.upperWordLetterPairs.
  rewrite (ints_len h0 runes l Hr). cbv zeta.
  destruct (Z.ltb_spec (len l - 1) 1) as [Hlim|Hlim].
  - eapply sim_make; [exact HG|lia|]. intros s h1 _ HG1.
    apply sim_ret. cbn [fst snd]. split; [done|]. exact HG1.
  - eapply sim_make; [exact HG|lia|]. intros s h1 (Hoff & Hlen & Hcap) HG1.
    unfold runewise_store.zeroBigram in HG1. rewrite <- fmap_replicate in HG1.
    unfold make.
    eapply sim_bind.
    { apply (sim_while_loop
               (fun (x : Z * Z) (y : Z * Z * list runewise.runeBigram) h' =>
                  x = (y.1.1, y.1.2) /\ owns h0 h' ((s, store.CBigram <$> y.2) :: G))).
      - intros [i n] [[i' n'] bg] h' [Heq _]. cbn [fst snd] in Heq. now inversion Heq.
      - intros [i n] [[i' n'] bg] h' [Heq HG']. cbn [fst snd] in Heq, HG'.
        inversion Heq; subst i' n'. clear Heq.
        sim_read. sim_read.
        destruct (IsSpace _); [now apply sim_ret|].
        destruct (IsSpace _); [now apply sim_ret|].
        sim_write HG2. now apply sim_ret.
      - cbn [fst snd]. split; [done|]. exact HG1. }
    intros [i n] [[i' n'] bg] h' [Heq HG']. cbn [fst snd] in Heq, HG'.
    inversion Heq; subst i' n'. clear Heq.
    eapply sim_bind; [apply (sim_reslice _ G); [exact HG'|exact Hoff|lia]|].
    intros s' bg' h2 HG2. now apply sim_ret.
Qed.

Lemma WhiteSimilarity_sim h G (a b : store.slice) (la lb : list Z) :
  store.units h0 a = Some (store.CInt <$> la) ->
  store.units h0 b = Some (store.CInt <$> lb) ->
  owns h0 h G ->
  sim h (runewise_store.WhiteSimilarity IsSpace ToUpper a b)
    (runewise.WhiteSimilarity IsSpace ToUpper la lb)
    (fun v w h' => v = w /\ exists G', owns h0 h' G').
Proof.
  intros Ha Hb HG. unfold runewise_store.WhiteSimilarity, runewise.WhiteSimilarity.
  eapply sim_bind; [apply upperWordLetterPairs_sim; [exact Ha|exact HG]|].
  intros [aPairs aLen] [aPairs' aLen'] h1 [Heq HG1]. cbn [fst snd] in Heq, HG1. subst aLen'.
  eapply sim_bind; [apply upperWordLetterPairs_sim; [exact Hb|exact HG1]|].
  intros [bPairs bLen] [bPairs' bLen'] h2 [Heq HG2]. cbn [fst snd] in Heq, HG2. subst bLen'.
  cbv zeta. destruct (_ =? 0); [apply sim_err|].
  rewrite (bigrams_len h2 aPairs aPairs') by sim_units.
  eapply sim_bind.
  { apply (sim_for_loop
             (fun (x : float64) (y : float64 * list runewise.runeBigram) h' =>
                x = y.1 /\
                owns h0 h' ((bPairs, store.CBigram <$> y.2) :: (aPairs, store.CBigram <$> aPairs') :: G))).
    - intros k x [x' bp] h3 (Heq & HG3). cbn [fst snd] in Heq, HG3. subst x'.
      sim_read.
      rewrite (bigrams_len h3 bPairs bp) by sim_units.
      apply (sim_for_loop_brk
             (fun (x : float64) (y : float64 * list runewise.runeBigram) h' =>
                x = y.1 /\
                owns h0 h' ((bPairs, store.CBigram <$> y.2) :: (aPairs, store.CBigram <$> aPairs') :: G)));
        [|done].
      intros j y [y' bp'] h4 (Heq & HG4). cbn [fst snd] in Heq, HG4. subst y'.
      sim_read.
      destruct (runewise.bigram_eqb _ _); [|now apply sim_ret].
      sim_write HG5. now apply sim_ret.
    - cbn [fst snd]. done. }
  intros x [x' bp] h3 (Heq & HG3). cbn [fst snd] in Heq. subst x'.
  apply sim_ret. split; [done|]. eexists. exact HG3.
Qed.

End unicode.

Ltac ints_in H :=
  unfold runewise_store.zeroInt, runewise_store.zeroRune in H;
  rewrite <- !fmap_replicate in H.

Ltac sim_write_last :=
  eapply sim_weaken;
  [ first [sim_write_at 0%nat|sim_write_at 1%nat|sim_write_at 2%nat|sim_write_at 3%nat]
  | intros [] ? ? ?; cbn [insert list_insert] in *; try eassumption ].

Lemma LevenshteinDistance_sim h G (a b : store.slice) (la lb : list Z) :
  store.units h0 a = Some (store.CInt <$> la) ->
  store.units h0 b = Some (store.CInt <$> lb) ->
  owns h0 h G ->
  sim h (runewise_store.LevenshteinDistance a b) (runewise.LevenshteinDistance la lb)
    (fun v w h' => v = w /\ exists G', owns h0 h' G').
Proof.
  intros Ha Hb HG.
  unfold runewise_store.LevenshteinDistance, runewise.LevenshteinDistance.
  rewrite (ints_len h0 a la Ha), (ints_len h0 b lb Hb). cbv zeta.
  destruct (len la =? 0); [apply sim_ret; eauto|].
  destruct (len lb =? 0); [apply sim_ret; eauto|].
  assert (0 <= len lb + 1) by (unfold len; lia).
  eapply sim_make; [exact HG|done|]. intros prevRow h1 _ HG1.
  eapply sim_make; [exact HG1|done|]. intros currRow h2 _ HG2.
  ints_in HG2. unfold make.
  eapply sim_bind.
  { apply (sim_for_loop
             (fun (_ : unit) (y : list Z) h' =>
                owns h0 h' ((currRow, store.CInt <$> replicate (Z.to_nat (len lb + 1)) 0)
                            :: (prevRow, store.CInt <$> y) :: G))); [|exact HG2].
    intros i [] y h3 HG3. sim_write_last. }
  intros [] prow h3 HG3.
  eapply sim_bind.
  { apply (sim_for_loop
             (fun (x : store.slice * store.slice) (y : list Z * list Z) h' =>
                owns h0 h' ((x.2, store.CInt <$> y.2) :: (x.1, store.CInt <$> y.1) :: G)));
      [|exact HG3].
    intros i [p c] [pl cl] h4 HG4. cbn [fst snd] in HG4.
    sim_write HG5.
    eapply sim_bind.
    { apply (sim_for_loop
               (fun (_ : unit) (y : list Z) h' =>
                  owns h0 h' ((c, store.CInt <$> y) :: (p, store.CInt <$> pl) :: G))); [|exact HG5].
      intros j [] y h6 HG6. do 5 sim_read. sim_write_last. }
    intros [] cl' h6 HG6. apply sim_ret. cbn [fst snd].
    eapply owns_perm; [exact HG6|apply perm_swap]. }
  intros [p c] [pl cl] h4 HG4. cbn [fst snd] in HG4.
  eapply sim_weaken; [apply sim_read_int; sim_units|].
  intros v w h' [<- ->]. eauto.
Qed.

Ltac sim_make_next H :=
  eapply sim_make; [eassumption|unfold len; lia|]; intros ? ? _ H.

(** The three rows of the Damerau-Levenshtein table, once the shorter input
    is in first position. *)
Ltac damerau_rows G :=
  let HG1 := fresh "HG" in let HG2 := fresh "HG" in let HG3 := fresh "HG" in
  eapply sim_make; [eassumption|unfold len; lia|]; intros tranRow ? _ HG1;
  eapply sim_make; [eassumption|unfold len; lia|]; intros prevRow ? _ HG2;
  eapply sim_make; [eassumption|unfold len; lia|]; intros currRow ? _ HG3;
  ints_in HG3; unfold make;
  eapply sim_bind;
  [ match type of HG3 with
    | owns _ _ ((_, ?c0) :: _ :: (_, ?t0) :: _) =>
        apply (sim_for_loop
                 (fun (_ : unit) (y : list Z) h' =>
                    owns h0 h' ((currRow, c0) :: (prevRow, store.CInt <$> y)
                                :: (tranRow, t0) :: G)))
    end;
      [|eassumption];
    intros ? [] ? ? ?; sim_write_last
  | intros [] ? ? ?;
    eapply sim_bind;
    [ apply (sim_for_loop
               (fun (x : store.slice * store.slice * store.slice * Z) (y : list Z * list Z * list Z * Z) h' =>
                  x.2 = y.2 /\
                  owns h0 h' ((x.1.2, store.CInt <$> y.1.2) :: (x.1.1.2, store.CInt <$> y.1.1.2)
                              :: (x.1.1.1, store.CInt <$> y.1.1.1) :: G)));
        [|split; [done|eassumption]];
      let Heq := fresh "Heq" in let HG5 := fresh "HG" in let HG6 := fresh "HG" in
      intros ? [[[t p] c] prevB] [[[tl pl] cl] ?] ? [Heq HG5];
      cbn [fst snd] in Heq, HG5; subst;
      sim_read; sim_write HG6;
      eapply sim_bind;
      [ apply (sim_for_loop
                 (fun (x : Z) (y : list Z * Z) h' =>
                    x = y.2 /\
                    owns h0 h' ((c, store.CInt <$> y.1) :: (p, store.CInt <$> pl)
                                :: (t, store.CInt <$> tl) :: G)));
          [|split; [done|eassumption]];
        let Heq' := fresh "Heq" in let HG7 := fresh "HG" in let HG8 := fresh "HG" in
        intros ? ? [? ?] h7 [Heq' HG7]; cbn [fst snd] in Heq', HG7; subst;
        do 4 sim_read;
        eapply sim_bind with (Q := fun v w h' => v = w /\ h' = h7);
        [ destruct (_ && _); [|now apply sim_ret]; sim_read; now apply sim_ret
        | intros ? ? ? [<- ->]; sim_write HG8; now apply sim_ret ]
      | let Heq' := fresh "Heq" in let HG7 := fresh "HG" in
        intros ? [? ?] ? [Heq' HG7]; cbn [fst snd] in Heq', HG7; subst;
        apply sim_ret; cbn [fst snd]; split; [done|];
        eapply owns_perm; [eassumption|];
        etrans; [apply perm_skip, perm_swap|apply perm_swap] ]
    | let Heq := fresh "Heq" in let HG5 := fresh "HG" in
      intros [[[? ?] ?] ?] [[[? ?] ?] ?] ? [Heq HG5];
      cbn [fst snd] in Heq, HG5;
      eapply sim_weaken; [apply sim_read_int; sim_units|];
      intros ? ? ? [<- ->]; eauto ] ].

Lemma DamerauLevenshteinDistance_sim h G (a b : store.slice) (la lb : list Z) :
  store.units h0 a = Some (store.CInt <$> la) ->
  store.units h0 b = Some (store.CInt <$> lb) ->
  owns h0 h G ->
  sim h (runewise_store.DamerauLevenshteinDistance a b)
    (runewise.DamerauLevenshteinDistance la lb)
    (fun v w h' => v = w /\ exists G', owns h0 h' G').
Proof.
  intros Ha Hb HG.
  unfold runewise_store.DamerauLevenshteinDistance, runewise.DamerauLevenshteinDistance.
  rewrite (ints_len h0 a la Ha), (ints_len h0 b lb Hb). cbv zeta.
  destruct (len la =? 0); [apply sim_ret; eauto|].
  destruct (len lb =? 0); [apply sim_ret; eauto|].
  destruct (len la >? len lb); cbv beta iota zeta; damerau_rows G.
Qed.

(** The matching and counting loops of Jaro, once the longer input is in
    first position. *)
Ltac jaro_loops G :=
  let HG1 := fresh "HG" in
  eapply sim_make; [eassumption|unfold len; lia|]; intros aCommon ? _ HG1;
  ints_in HG1; unfold make;
  eapply sim_bind;
  [ apply (sim_for_loop
             (fun (x : Z * gmap Z bool) (y : list Z * Z * gmap Z bool) h' =>
                x = (y.1.2, y.2) /\ 0 <= y.1.2 /\
                owns h0 h' ((aCommon, store.CInt <$> y.1.1) :: G)));
      [|split; [done|split; [done|eassumption]]];
    let Heq := fresh "Heq" in let Hn := fresh "Hn" in let HG2 := fresh "HG" in
    intros ? [? ?] [[? ?] ?] ? (Heq & Hn & HG2);
    cbn [fst snd] in Heq, Hn, HG2; injection Heq as -> ->;
    sim_read;
    eapply sim_bind;
    [ apply (sim_for_loop
               (fun (x : Z * gmap Z bool * bool) (y : list Z * Z * gmap Z bool * bool) h' =>
                  x = (y.1.1.2, y.1.2, y.2) /\ 0 <= y.1.1.2 /\
                  owns h0 h' ((aCommon, store.CInt <$> y.1.1.1) :: G)));
        [|split; [done|split; [done|eassumption]]];
      let Heq1 := fresh "Heq" in let Hn1 := fresh "Hn" in let HG3 := fresh "HG" in
      intros ? [[? ?] ?] [[[? ?] ?] ?] ? (Heq1 & Hn1 & HG3);
      cbn [fst snd] in Heq1, Hn1, HG3; injection Heq1 as -> -> ->;
      sim_read;
      destruct (negb (_ =? _)); [now apply sim_ret|];
      eapply sim_bind with
        (Q := fun (x : Z * bool) (y : list Z * Z * bool) h' =>
                x = (y.1.2, y.2) /\ 0 <= y.1.2 /\
                owns h0 h' ((aCommon, store.CInt <$> y.1.1) :: G));
      [ destruct (negb _);
        [ let HG4 := fresh "HG" in
          sim_write HG4; apply sim_ret; cbn [fst snd];
          split; [done|split; [lia|exact HG4]]
        | now apply sim_ret ]
      | let Heq2 := fresh "Heq" in let Hn2 := fresh "Hn" in let HG4 := fresh "HG" in
        intros [? ?] [[? ?] ?] ? (Heq2 & Hn2 & HG4);
        cbn [fst snd] in Heq2, Hn2, HG4; injection Heq2 as -> ->;
        now apply sim_ret ]
    | let Heq1 := fresh "Heq" in let Hn1 := fresh "Hn" in let HG3 := fresh "HG" in
      intros [[? ?] ?] [[[? ?] ?] ?] ? (Heq1 & Hn1 & HG3);
      cbn [fst snd] in Heq1, Hn1, HG3; injection Heq1 as -> -> ->;
      now apply sim_ret ]
  | let Heq := fresh "Heq" in let Hn := fresh "Hn" in let HG2 := fresh "HG" in
    let HG3 := fresh "HG" in let HG4 := fresh "HG" in let HG5 := fresh "HG" in
    intros [? ?] [[? ?] ?] ? (Heq & Hn & HG2);
    cbn [fst snd] in Heq, Hn, HG2; injection Heq as -> ->;
    eapply sim_make; [eassumption|exact Hn|]; intros bIndices ? _ HG3;
    ints_in HG3;
    eapply sim_bind; [apply fill_from_keys_sim; exact HG3|];
    intros [] ? ? HG4;
    eapply sim_bind_l; [apply sort_Ints_run; exact HG4|];
    intros [] ? HG5;
    eapply sim_bind;
    [ match type of HG5 with
      | owns _ _ ?G5 =>
          apply (sim_for_loop (fun (x y : Z) h' => x = y /\ owns h0 h' G5))
      end;
        [|split; [done|exact HG5]];
      intros ? ? ? ? [<- ?]; do 3 sim_read; now apply sim_ret
    | intros ? ? ? [<- ?]; apply sim_ret; split; [done|eauto] ] ].

Lemma jaroMatchesAndHalfTranspositions_sim h G (a b : store.slice) (la lb : list Z) :
  store.units h0 a = Some (store.CInt <$> la) ->
  store.units h0 b = Some (store.CInt <$> lb) ->
  owns h0 h G ->
  sim h (runewise_store.jaroMatchesAndHalfTranspositions a b)
    (runewise.jaroMatchesAndHalfTranspositions la lb)
    (fun v w h' => v = w /\ exists G', owns h0 h' G').
Proof.
  intros Ha Hb HG.
  unfold runewise_store.jaroMatchesAndHalfTranspositions,
    runewise.jaroMatchesAndHalfTranspositions.
  rewrite (ints_len h0 a la Ha), (ints_len h0 b lb Hb). cbv zeta.
  destruct (_ || _); [apply sim_ret; eauto|].
  destruct (len la <? len lb); cbv beta iota zeta;
    rewrite ?(ints_len h0 a la Ha), ?(ints_len h0 b lb Hb); jaro_loops G.
Qed.

Lemma JaroSimilarity_sim h G (a b : store.slice) (la lb : list Z) :
  store.units h0 a = Some (store.CInt <$> la) ->
  store.units h0 b = Some (store.CInt <$> lb) ->
  owns h0 h G ->
  sim h (runewise_store.JaroSimilarity a b) (runewise.JaroSimilarity la lb)
    (fun v w h' => v = w /\ exists G', owns h0 h' G').
Proof.
  intros Ha Hb HG. unfold runewise_store.JaroSimilarity, runewise.JaroSimilarity.
  rewrite (ints_len h0 a la Ha), (ints_len h0 b lb Hb).
  eapply sim_bind; [now apply (jaroMatchesAndHalfTranspositions_sim h G)|].
  intros [m t] ? h1 [<- HG1]. destruct (m =? 0); now apply sim_ret.
Qed.

Lemma JaroWinklerSimilarityParametric_sim h G (a b : store.slice) (la lb : list Z)
  (prefixScale : float64) (maxPrefixLength : Z) (boostThreshold : float64) :
  store.units h0 a = Some (store.CInt <$> la) ->
  store.units h0 b = Some (store.CInt <$> lb) ->
  owns h0 h G ->
  sim h
    (runewise_store.JaroWinklerSimilarityParametric a b prefixScale maxPrefixLength
       boostThreshold)
    (runewise.JaroWinklerSimilarityParametric la lb prefixScale maxPrefixLength
       boostThreshold)
    (fun v w h' => v = w /\ exists G', owns h0 h' G').
Proof.
  intros Ha Hb HG.
  unfold runewise_store.JaroWinklerSimilarityParametric,
    runewise.JaroWinklerSimilarityParametric.
  eapply sim_bind; [now apply (JaroSimilarity_sim h G)|].
  intros j ? h1 [<- [G1 HG1]]. destruct (f64_ltb j boostThreshold).
  - apply sim_ret. eauto.
  - eapply sim_bind; [now apply (clampedSharedPrefixLength_sim a b la lb Ha Hb h1 G1)|].
    intros c ? h2 [<- HG2]. apply sim_ret. eauto.
Qed.

End refinement.

(** Every metric of package runewise computes, over the store, the result
    it computes over the values of its two inputs, whatever else the store
    holds and whether or not the two inputs share an array. *)
Theorem store_embedding_refines_values (IsSpace : Z -> bool) (ToUpper : Z -> Z)
  (h : gmap store.loc (list store.cell)) (a b : store.slice) (la lb : list Z) :
  store.units h a = Some (store.CInt <$> la) ->
  store.units h b = Some (store.CInt <$> lb) ->
  (runewise_store.HammingDistance a b h).1 = runewise.HammingDistance la lb /\
  (runewise_store.DiceCoefficient a b h).1 = runewise.DiceCoefficient la lb /\
  (runewise_store.WhiteSimilarity IsSpace ToUpper a b h).1
    = runewise.WhiteSimilarity IsSpace ToUpper la lb /\
  (runewise_store.LevenshteinDistance a b h).1 = runewise.LevenshteinDistance la lb /\
  (runewise_store.DamerauLevenshteinDistance a b h).1
    = runewise.DamerauLevenshteinDistance la lb /\
  (runewise_store.JaroSimilarity a b h).1 = runewise.JaroSimilarity la lb /\
  (runewise_store.JaroWinklerSimilarity a b h).1
    = runewise.JaroWinklerSimilarity la lb /\
  (forall prefixScale maxPrefixLength boostThreshold,
     (runewise_store.JaroWinklerSimilarityParametric a b prefixScale maxPrefixLength
        boostThreshold h).1
     = runewise.JaroWinklerSimilarityParametric la lb prefixScale maxPrefixLength
         boostThreshold).
Proof.
  intros Ha Hb.
  assert (HG : owns h h []).
  { split; [done|]. split; [apply NoDup_nil_2|apply Forall_nil_2]. }
  repeat apply conj; intros;
    (eapply sim_result;
     [ first [ now apply (HammingDistance_sim h a b la lb Ha Hb h [])
             | now apply (DiceCoefficient_sim h a b la lb Ha Hb h [])
             | now apply (WhiteSimilarity_sim h IsSpace ToUpper h [] a b la lb)
             | now apply (LevenshteinDistance_sim h h [] a b la lb)
             | now apply (DamerauLevenshteinDistance_sim h h [] a b la lb)
             | now apply (JaroSimilarity_sim h h [] a b la lb)
             | now apply (JaroWinklerSimilarityParametric_sim h h [] a b la lb) ]
     | now intros v w h' [-> _] ]).
Qed.

(** ** HammingDistance: bounds, identity, triangle inequality *)

Lemma differing_indices_bound (a b : list Z) :
  (length (differing_indices a b) <= length a)%nat.
Proof.
  unfold differing_indices.
  etrans; [apply length_filter|]. now rewrite length_seq.
Qed.

Lemma differing_indices_nil (a b : list Z) :
  length a = length b -> differing_indices a b = [] <-> a = b.
Proof.
  intros Hlen. split.
  - intros Hnil. apply list_eq. intros i.
    destruct (decide (i < length a)%nat) as [Hi|Hi].
    + destruct (decide (a !! i = b !! i)) as [E|E]; [done|].
      assert (Hin : i ∈ differing_indices a b).
      { unfold differing_indices. apply list_elem_of_filter. split; [done|].
        apply elem_of_seq. lia. }
      rewrite Hnil in Hin. now apply elem_of_nil in Hin.
    + rewrite !lookup_ge_None_2 by lia. done.
  - intros ->. apply differing_indices_self.
Qed.

(** HammingDistance of the three packages, on inputs of one length: the
    result lies between 0 and the length, and it is 0 exactly when the two
    inputs are equal. *)
Theorem HammingDistance_bounds_zero_iff_equal (a b : list Z) :
  length a = length b ->
  exists d,
    stralgo.HammingDistance a b = Ok d /\
    bytewise.HammingDistance a b = Ok d /\
    runewise.HammingDistance a b = Ok d /\
    0 <= d <= len a /\
    (d = 0 <-> a = b).
Proof.
  intros Hlen. exists (Z.of_nat (length (differing_indices a b))).
  change bytewise.HammingDistance with stralgo.HammingDistance.
  change runewise.HammingDistance with stralgo.HammingDistance.
  rewrite hamming_count, decide_True by done.
  repeat split; try done.
  - lia.
  - pose proof (differing_indices_bound a b). unfold len. lia.
  - intros H0. apply differing_indices_nil; [done|].
    destruct (differing_indices a b); [done|simpl in H0; lia].
  - intros Heq. apply (differing_indices_nil a b Hlen) in Heq. now rewrite Heq.
Qed.

Lemma HammingDistance_bounds_zero_iff_equal_witness :
  exists d,
    stralgo.HammingDistance (bytes "toned") (bytes "roses") = Ok d /\
    bytewise.HammingDistance (bytes "toned") (bytes "roses") = Ok d /\
    runewise.HammingDistance (bytes "toned") (bytes "roses") = Ok d /\
    0 <= d <= len (bytes "toned") /\
    (d = 0 <-> bytes "toned" = bytes "roses").
Proof.
  apply (HammingDistance_bounds_zero_iff_equal (bytes "toned") (bytes "roses")).
  reflexivity.
Defined.

Lemma differing_count_triangle (a b c : list Z) (l : list nat) :
  (length (filter (fun i => a !! i ≠ c !! i) l) <=
   length (filter (fun i => a !! i ≠ b !! i) l) +
   length (filter (fun i => b !! i ≠ c !! i) l))%nat.
Proof.
  induction l as [|i l IH]; [done|].
  rewrite !filter_cons.
  destruct (decide (a !! i ≠ c !! i)) as [Hac|Hac],
           (decide (a !! i ≠ b !! i)) as [Hab|Hab],
           (decide (b !! i ≠ c !! i)) as [Hbc|Hbc]; simpl; try lia.
  exfalso. apply Hac. apply dec_stable in Hab. apply dec_stable in Hbc. congruence.
Qed.

(** HammingDistance satisfies the triangle inequality: when the distances
    from [a] to [b] and from [b] to [c] are defined, so is the distance from
    [a] to [c], and it is at most their sum. *)
Theorem HammingDistance_triangle (a b c : list Z) (dab dbc : Z) :
  stralgo.HammingDistance a b = Ok dab ->
  stralgo.HammingDistance b c = Ok dbc ->
  exists dac,
    stralgo.HammingDistance a c = Ok dac /\
    bytewise.HammingDistance a c = Ok dac /\
    runewise.HammingDistance a c = Ok dac /\
    dac <= dab + dbc.
Proof.
  change bytewise.HammingDistance with stralgo.HammingDistance.
  change runewise.HammingDistance with stralgo.HammingDistance.
  rewrite !hamming_count.
  destruct (decide (length a = length b)) as [Hab|]; [|done].
  destruct (decide (length b = length c)) as [Hbc|]; [|done].
  intros [= <-] [= <-].
  rewrite decide_True by congruence.
  eexists. repeat split.
  pose proof (differing_count_triangle a b c (seq 0 (length a))) as Htri.
  unfold differing_indices. rewrite <- Hab. lia.
Qed.

Lemma HammingDistance_triangle_witness :
  exists dac,
    stralgo.HammingDistance (bytes "karolin") (bytes "kerstin") = Ok dac /\
    bytewise.HammingDistance (bytes "karolin") (bytes "kerstin") = Ok dac /\
    runewise.HammingDistance (bytes "karolin") (bytes "kerstin") = Ok dac /\
    dac <= 3 + 4.
Proof.
  apply (HammingDistance_triangle (bytes "karolin") (bytes "kathrin") (bytes "kerstin"));
    reflexivity.
Defined.

(** ** LeeDistance: errors, symmetry, bounds over the alphabet *)

Lemma for_range_ext {S : Type} (n : nat) (i : Z) (f g : Z -> S -> result S) (s : S) :
  (forall j s, f j s = g j s) -> for_range n i f s = for_range n i g s.
Proof.
  intros Hfg. revert i s. induction n as [|n IH]; intros i s; [done|].
  cbn [for_range]. rewrite Hfg. destruct (g i s); cbn [bind]; auto.
Qed.

Lemma index_Ok_or_Panic {A : Type} (l : list A) (i : Z) :
  (exists x, index l i = Ok x) \/ index l i = Panic.
Proof.
  unfold index. destruct (i <? 0); [now right|].
  destruct (l !! Z.to_nat i); [left; eauto|now right].
Qed.

(** The loop of LeeDistance on inputs of one length: it returns, and an
    invariant of the running sum that each term keeps holds of the result. *)
Lemma lee_loop_inv (I : nat -> Z -> Prop) (a b : list Z) (q : Z) :
  length a = length b ->
  I O 0 ->
  (forall k x y d, a !! k = Some x -> b !! k = Some y -> I k d ->
     I (S k) (d + Z.min (Z.abs (x - y)) (q - Z.abs (x - y)))) ->
  exists d,
    for_loop 0 (len a)
      (fun i d =>
         ai <- index a i ;;
         bi <- index b i ;;
         let diff := ai - bi in
         let diff := if diff <? 0 then - diff else diff in
         let qDiff := q - diff in
         Ok (if diff <? qDiff then d + diff else d + qDiff)) 0 = Ok d /\
    I (length a) d.
Proof.
  intros Hlen H0 Hstep. unfold for_loop, len. rewrite Z.sub_0_r, Nat2Z.id.
  apply for_range_inv; [exact H0|].
  intros k d Hk Hd.
  destruct (lookup_lt_is_Some_2 a k) as [x Hx]; [lia|].
  destruct (lookup_lt_is_Some_2 b k) as [y Hy]; [lia|].
  rewrite Z.add_0_l, (index_lookup _ _ _ Hx), (index_lookup _ _ _ Hy). cbn [bind].
  eexists. split; [reflexivity|].
  specialize (Hstep k x y d Hx Hy Hd). cbv zeta.
  destruct (Z.ltb_spec (x - y) 0);
    match goal with
    | |- context [?u <? ?v] => destruct (Z.ltb_spec u v)
    end;
    match goal with
    | H : I _ ?t |- I _ ?t' => replace t' with t by lia; exact H
    end.
Qed.

(** LeeDistance returns a value exactly when [q >= 2] and the inputs have
    one length.  The alphabet size is tested first: with [q < 2] the error
    is InvalidAlphabetSize whatever the lengths, and with [q >= 2] inputs of
    different lengths give LengthMismatch. *)
Theorem LeeDistance_returns_iff (a b : list Z) (q : Z) :
  (returns (stralgo.LeeDistance a b q) <-> 2 <= q /\ length a = length b) /\
  (q < 2 -> stralgo.LeeDistance a b q = Err InvalidAlphabetSize) /\
  (2 <= q -> length a <> length b -> stralgo.LeeDistance a b q = Err LengthMismatch).
Proof.
  assert (Hq : q < 2 -> stralgo.LeeDistance a b q = Err InvalidAlphabetSize).
  { intros H. unfold stralgo.LeeDistance. destruct (Z.ltb_spec q 2); [done|lia]. }
  assert (Hl : 2 <= q -> length a <> length b ->
               stralgo.LeeDistance a b q = Err LengthMismatch).
  { intros H Hne. unfold stralgo.LeeDistance, len.
    destruct (Z.ltb_spec q 2); [lia|].
    destruct (Z.eqb_spec (Z.of_nat (length a)) (Z.of_nat (length b))); [lia|done]. }
  split; [|split; [exact Hq|exact Hl]].
  split.
  - intros [d Hd].
    destruct (Z.lt_ge_cases q 2) as [H|H]; [rewrite Hq in Hd by done; discriminate|].
    destruct (decide (length a = length b)) as [E|E]; [done|].
    rewrite Hl in Hd by (done || lia). discriminate.
  - intros [H Hlen]. unfold stralgo.LeeDistance.
    destruct (Z.ltb_spec q 2); [lia|].
    unfold len at 1 2. rewrite Hlen, Z.eqb_refl. cbn [negb].
    destruct (lee_loop_inv (fun _ _ => True) a b q Hlen) as (d & Hd & _); [done..|].
    now exists d.
Qed.

Lemma LeeDistance_returns_iff_witness :
  stralgo.LeeDistance (bytes "ab") (bytes "abc") 1 = Err InvalidAlphabetSize /\
  stralgo.LeeDistance (bytes "ab") (bytes "abc") 2 = Err LengthMismatch.
Proof.
  split.
  - apply (proj1 (proj2 (LeeDistance_returns_iff (bytes "ab") (bytes "abc") 1))). lia.
  - apply (proj2 (proj2 (LeeDistance_returns_iff (bytes "ab") (bytes "abc") 2)));
      [lia|discriminate].
Defined.

(** LeeDistance is symmetric in its two strings, errors included, and with
    [q >= 2] it is 0 on a string against itself. *)
Theorem LeeDistance_symmetric_zero_on_self (a b : list Z) (q : Z) :
  stralgo.LeeDistance a b q = stralgo.LeeDistance b a q /\
  (2 <= q -> stralgo.LeeDistance a a q = Ok 0).
Proof.
  split.
  - unfold stralgo.LeeDistance. destruct (q <? 2); [done|].
    rewrite (Z.eqb_sym (len b)).
    destruct (Z.eqb_spec (len a) (len b)) as [Hlen|]; [|done]. cbn [negb].
    rewrite Hlen. unfold for_loop. apply for_range_ext. intros j d.
    destruct (index_Ok_or_Panic a j) as [[x ->]| ->],
             (index_Ok_or_Panic b j) as [[y ->]| ->]; cbn [bind]; try done.
    f_equal. cbv zeta.
    destruct (Z.ltb_spec (x - y) 0), (Z.ltb_spec (y - x) 0);
      repeat match goal with
             | |- context [?u <? ?v] => destruct (Z.ltb_spec u v)
             end; lia.
  - intros Hq. unfold stralgo.LeeDistance.
    destruct (Z.ltb_spec q 2); [lia|]. rewrite Z.eqb_refl. cbn [negb].
    destruct (lee_loop_inv (fun _ d => d = 0) a a q) as (d & Hd & ->);
      [done..| |exact Hd].
    intros k x y d Hx Hy ->. assert (x = y) as -> by congruence.
    rewrite Z.sub_diag. cbn [Z.abs]. lia.
Qed.

Lemma LeeDistance_symmetric_zero_on_self_witness :
  stralgo.LeeDistance (bytes "lee") (bytes "lee") 7 = Ok 0.
Proof.
  apply (proj2 (LeeDistance_symmetric_zero_on_self (bytes "lee") (bytes "lee") 7)). lia.
Defined.

(** On strings over the alphabet of the byte values below [q], LeeDistance
    lies between HammingDistance and [q / 2] times HammingDistance; for
    [q = 2] and [q = 3] the two distances are equal. *)
Theorem LeeDistance_between_Hamming_multiples (a b : list Z) (q : Z) :
  2 <= q -> length a = length b ->
  (forall x, x ∈ a -> 0 <= x < q) ->
  (forall y, y ∈ b -> 0 <= y < q) ->
  exists l h,
    stralgo.LeeDistance a b q = Ok l /\
    stralgo.HammingDistance a b = Ok h /\
    h <= l <= q / 2 * h /\
    (q <= 3 -> l = h).
Proof.
  intros Hq Hlen Ha Hb.
  set (h := fun k => Z.of_nat (length (filter (fun i => a !! i ≠ b !! i) (seq 0 k)))).
  assert (Hhalf : 2 * (q / 2) <= q < 2 * (q / 2) + 2).
  { pose proof (Z.div_mod q 2). pose proof (Z.mod_pos_bound q 2). lia. }
  unfold stralgo.LeeDistance. destruct (Z.ltb_spec q 2); [lia|].
  unfold len at 1 2. rewrite Hlen, Z.eqb_refl. cbn [negb].
  destruct (lee_loop_inv (fun k d => h k <= d <= q / 2 * h k) a b q Hlen)
    as (l & Hl & Hbound).
  - unfold h. cbn. lia.
  - intros k x y d Hx Hy Hd. unfold h in *.
    rewrite seq_S, filter_app, length_app. cbn [plus]. rewrite filter_cons, Hx, Hy.
    pose proof (Ha x (list_elem_of_lookup_2 _ _ _ Hx)).
    pose proof (Hb y (list_elem_of_lookup_2 _ _ _ Hy)).
    rewrite filter_nil.
    set (c := length (filter (fun i => a !! i ≠ b !! i) (seq 0 k))) in *.
    destruct (decide (Some x ≠ Some y)) as [Hne|He].
    + assert (x <> y) by congruence. cbn [length].
      assert (1 <= Z.min (Z.abs (x - y)) (q - Z.abs (x - y)) <= q / 2) by lia.
      rewrite Nat2Z.inj_add. change (Z.of_nat 1) with 1. lia.
    + apply dec_stable in He. injection He as ->.
      rewrite Z.sub_diag. cbn [Z.abs length]. rewrite Nat.add_0_r. lia.
  - exists l, (h (length a)). split; [exact Hl|]. split.
    + rewrite hamming_count, decide_True by done. reflexivity.
    + split; [exact Hbound|]. intros Hq3.
      assert (q / 2 = 1) by lia. lia.
Qed.

Lemma LeeDistance_between_Hamming_multiples_witness :
  exists l h,
    stralgo.LeeDistance [0; 1; 2; 2] [2; 1; 0; 1] 3 = Ok l /\
    stralgo.HammingDistance [0; 1; 2; 2] [2; 1; 0; 1] = Ok h /\
    h <= l <= 3 / 2 * h /\
    (3 <= 3 -> l = h).
Proof.
  apply (LeeDistance_between_Hamming_multiples [0; 1; 2; 2] [2; 1; 0; 1] 3);
    [lia|reflexivity| |];
    intros x Hx; apply list_elem_of_In in Hx; simpl in Hx;
    repeat (destruct Hx as [<-|Hx]; [lia|]); destruct Hx.
Defined.

(** LeeDistance does not keep to the alphabet: bytes that differ by more
    than [q] add the negative term [q - diff], so that on non-empty strings
    whose bytes differ by more than [q] at every index the result is
    negative. *)
Theorem LeeDistance_negative_outside_alphabet (a b : list Z) (q : Z) :
  2 <= q -> length a = length b -> a <> [] ->
  (forall k x y, a !! k = Some x -> b !! k = Some y -> q < Z.abs (x - y)) ->
  exists d, stralgo.LeeDistance a b q = Ok d /\ d < 0.
Proof.
  intros Hq Hlen Hne Hfar.
  unfold stralgo.LeeDistance. destruct (Z.ltb_spec q 2); [lia|].
  unfold len at 1 2. rewrite Hlen, Z.eqb_refl. cbn [negb].
  destruct (lee_loop_inv (fun k d => d <= - Z.of_nat k) a b q Hlen)
    as (d & Hd & Hbound).
  - cbn. lia.
  - intros k x y d Hx Hy Hk. specialize (Hfar k x y Hx Hy). lia.
  - exists d. split; [exact Hd|]. destruct a; [done|]. cbn [length] in Hbound. lia.
Qed.

Lemma LeeDistance_negative_outside_alphabet_witness :
  exists d, stralgo.LeeDistance (bytes "a") (bytes "d") 2 = Ok d /\ d < 0.
Proof.
  apply (LeeDistance_negative_outside_alphabet (bytes "a") (bytes "d") 2);
    [lia|reflexivity|discriminate|].
  intros k x y Hx Hy. destruct k as [|k]; [|discriminate].
  injection Hx as <-. injection Hy as <-. vm_compute. reflexivity.
Defined.

(** ** LevenshteinDistance, runewise: bounds, identity, comparison with
    HammingDistance *)

Lemma subst_cost_range (a b : list Z) (i j : nat) : 0 <= subst_cost a b i j <= 1.
Proof.
  unfold subst_cost. destruct (a !! i), (b !! j); try lia.
  destruct (_ =? _); lia.
Qed.

Lemma lev_dp_0_r (a b : list Z) (i : nat) : lev_dp a b i 0 = Z.of_nat i.
Proof. now destruct i. Qed.

Lemma lev_dp_bounds (a b : list Z) (i j : nat) :
  Z.abs (Z.of_nat i - Z.of_nat j) <= lev_dp a b i j <= Z.max (Z.of_nat i) (Z.of_nat j).
Proof.
  revert j. induction i as [|i IHi]; intros j.
  - cbn [lev_dp]. lia.
  - induction j as [|j IHj]; [rewrite lev_dp_0_r; lia|].
    rewrite lev_dp_S_S, min3_Zmin.
    pose proof (subst_cost_range a b i j).
    pose proof (IHi (S j)). pose proof (IHi j). lia.
Qed.

Lemma lev_dp_diag_zero (a b : list Z) (i : nat) :
  lev_dp a b i i = 0 -> forall k, (k < i)%nat -> is_Some (a !! k) /\ a !! k = b !! k.
Proof.
  induction i as [|i IH]; intros Hz k Hk; [lia|].
  rewrite lev_dp_S_S, min3_Zmin in Hz.
  pose proof (lev_dp_bounds a b (S i) i). pose proof (lev_dp_bounds a b i (S i)).
  pose proof (lev_dp_bounds a b i i). pose proof (subst_cost_range a b i i) as Hc.
  assert (lev_dp a b i i = 0 /\ subst_cost a b i i = 0) as [Hi Hci] by lia.
  destruct (decide (k = i)) as [->|Hne]; [|apply IH; [done|lia]].
  unfold subst_cost in Hci.
  destruct (a !! i) as [x|], (b !! i) as [y|]; try discriminate.
  destruct (Z.eqb_spec x y) as [->|]; [eauto|discriminate].
Qed.

Lemma lev_dp_diag_le (a b : list Z) (i : nat) :
  (i <= length a)%nat -> (i <= length b)%nat ->
  lev_dp a b i i <= Z.of_nat (length (filter (fun k => a !! k ≠ b !! k) (seq 0 i))).
Proof.
  induction i as [|i IH]; intros Ha Hb; [done|].
  rewrite lev_dp_S_S, min3_Zmin, seq_S, filter_app, length_app, filter_cons, filter_nil.
  cbn [plus]. specialize (IH ltac:(lia) ltac:(lia)).
  destruct (lookup_lt_is_Some_2 a i) as [x Hx]; [lia|].
  destruct (lookup_lt_is_Some_2 b i) as [y Hy]; [lia|].
  unfold subst_cost. rewrite Hx, Hy.
  destruct (Z.eqb_spec x y) as [->|Hne].
  - rewrite decide_False by (intros H; now apply H). cbn [length]. lia.
  - rewrite decide_True by congruence. cbn [length]. lia.
Qed.

Lemma lev_dp_diag_self (a : list Z) (i : nat) :
  (i <= length a)%nat -> lev_dp a a i i = 0.
Proof.
  intros Hi.
  assert (filter (fun k => a !! k ≠ a !! k) (seq 0 i) = []) as Hnil.
  { induction (seq 0 i) as [|k l IH]; [done|].
    rewrite filter_cons, decide_False by (intros H'; now apply H'). exact IH. }
  pose proof (lev_dp_diag_le a a i Hi Hi) as Hle.
  pose proof (lev_dp_bounds a a i i).
  rewrite Hnil in Hle. cbn [length] in Hle. lia.
Qed.

(** The runewise LevenshteinDistance returns on every pair of inputs; the
    distance is at least the difference of the lengths and at most the
    greater length, and it is 0 exactly when the two inputs are equal. *)
Theorem LevenshteinDistance_bounds_zero_iff_equal (a b : list Z) :
  exists d,
    runewise.LevenshteinDistance a b = Ok d /\
    Z.abs (len a - len b) <= d <= Z.max (len a) (len b) /\
    (d = 0 <-> a = b).
Proof.
  exists (levenshtein a b). split; [apply runewise_Levenshtein_is_dp|].
  unfold levenshtein, len.
  pose proof (lev_dp_bounds a b (length a) (length b)) as Hb.
  split; [exact Hb|]. split.
  - intros Hz. assert (Hlen : length a = length b) by lia.
    rewrite <- Hlen in Hz. apply list_eq. intros k.
    destruct (decide (k < length a)%nat) as [Hk|Hk].
    + now destruct (lev_dp_diag_zero a b (length a) Hz k Hk).
    + rewrite !lookup_ge_None_2 by lia. done.
  - intros ->. now apply lev_dp_diag_self.
Qed.

(** Where HammingDistance is defined, on inputs of one length, the runewise
    LevenshteinDistance is at most the HammingDistance. *)
Theorem LevenshteinDistance_le_HammingDistance (a b : list Z) (h : Z) :
  runewise.HammingDistance a b = Ok h ->
  exists d, runewise.LevenshteinDistance a b = Ok d /\ d <= h.
Proof.
  change runewise.HammingDistance with stralgo.HammingDistance.
  rewrite hamming_count.
  destruct (decide (length a = length b)) as [Hlen|]; [|done].
  intros [= <-]. exists (levenshtein a b).
  split; [apply runewise_Levenshtein_is_dp|].
  unfold levenshtein, differing_indices. rewrite <- Hlen.
  apply lev_dp_diag_le; lia.
Qed.

Lemma LevenshteinDistance_le_HammingDistance_witness :
  exists d,
    runewise.LevenshteinDistance (bytes "abcde") (bytes "bcdea") = Ok d /\ d <= 5.
Proof.
  apply (LevenshteinDistance_le_HammingDistance (bytes "abcde") (bytes "bcdea")).
  reflexivity.
Defined.

(** ** LevenshteinDistance, bytewise: what the rows hold *)

Lemma bytewise_lev_inner_loop (a b : list Z) (i : nat) (x y : Z)
  (prevRow currRow : list Z) (z : Z) :
  a !! i = Some x -> b !! i = Some y ->
  0 <= z <= Z.of_nat i ->
  length prevRow = S (length b) ->
  (forall k, (k <= length b)%nat ->
     prevRow !! k = Some (Z.max (Z.of_nat i) (Z.of_nat k) - Z.min z (Z.of_nat k))) ->
  length currRow = S (length b) ->
  currRow !! O = Some (Z.of_nat (S i)) ->
  exists row,
    for_loop 0 (len b) (fun j currRow =>
      ai <- index a (Z.of_nat i) ;;
      bi <- index b (Z.of_nat i) ;;
      let cost := if ai =? bi then 0 else 1 in
      cj <- index currRow j ;;
      pj1 <- index prevRow (j + 1) ;;
      pj <- index prevRow j ;;
      assign currRow (j + 1) (min3 (cj + 1) (pj1 + 1) (pj + cost))) currRow
    = Ok row /\
    length row = S (length b) /\
    forall k, (k <= length b)%nat ->
      row !! k = Some (Z.max (Z.of_nat (S i)) (Z.of_nat k)
                       - Z.min (z + (if x =? y then 1 else 0)) (Z.of_nat k)).
Proof.
  intros Hx Hy Hz Hplen Hprev Hclen Hc0.
  unfold for_loop, len. rewrite Z.sub_0_r, Nat2Z.id.
  set (E := fun k : nat => Z.max (Z.of_nat (S i)) (Z.of_nat k)
                           - Z.min (z + (if x =? y then 1 else 0)) (Z.of_nat k)).
  match goal with
  | |- exists row, for_range _ _ ?body _ = _ /\ _ =>
      destruct (for_range_inv
        (fun j (row : list Z) => length row = S (length b) /\
           forall k, (k <= j)%nat -> row !! k = Some (E k))
        (length b) 0 body currRow) as (row & Hrow & Hlen & Hrow')
  end.
  - split; [done|]. intros k Hk. replace k with O by lia. rewrite Hc0.
    unfold E. f_equal. destruct (x =? y); lia.
  - intros j row Hj [Hlen Hrow].
    exists (<[S j := E (S j)]> row). split; [|split].
    + rewrite (index_at a _ i x), (index_at b _ i y) by (done || lia).
      cbn [bind].
      rewrite (index_at row _ j (E j)) by (lia || apply Hrow; lia).
      rewrite (index_at prevRow (0 + Z.of_nat j + 1) (S j) _
                 ltac:(lia) (Hprev (S j) ltac:(lia))).
      rewrite (index_at prevRow (0 + Z.of_nat j) j _
                 ltac:(lia) (Hprev j ltac:(lia))).
      cbn [bind]. rewrite (assign_at row _ (S j)) by lia.
      do 2 f_equal. unfold E. rewrite min3_Zmin.
      destruct (x =? y); lia.
    + now rewrite length_insert.
    + intros k Hk. destruct (decide (k = S j)) as [->|Hne].
      * apply list_lookup_insert_eq. lia.
      * rewrite list_lookup_insert_ne by done. apply Hrow. lia.
  - exists row. auto.
Qed.

Lemma for_range_app {St : Type} (n m : nat) (i : Z) (body : Z -> St -> result St)
  (s : St) :
  for_range (n + m) i body s =
  (s' <- for_range n i body s ;; for_range m (i + Z.of_nat n) body s').
Proof.
  revert i s. induction n as [|n IH]; intros i s.
  - cbn [plus for_range bind]. f_equal. lia.
  - cbn [plus for_range]. destruct (body i s) as [s1| |]; cbn [bind]; try done.
    rewrite IH. f_equal. replace (i + 1 + Z.of_nat n) with (i + Z.of_nat (S n)) by lia.
    reflexivity.
Qed.

(** The rows of the bytewise program after [n] of them, [n] at most the
    length of both strings. *)
Lemma bytewise_lev_rows (a b : list Z) (n : nat) :
  (n <= length a)%nat -> (n <= length b)%nat ->
  exists prevRow currRow,
    for_range n 0 (fun i '(prevRow, currRow) =>
        currRow <- assign currRow 0 (i + 1) ;;
        currRow <- for_loop 0 (len b) (fun j currRow =>
                     ai <- index a i ;;
                     bi <- index b i ;;
                     let cost := if ai =? bi then 0 else 1 in
                     cj <- index currRow j ;;
                     pj1 <- index prevRow (j + 1) ;;
                     pj <- index prevRow j ;;
                     assign currRow (j + 1)
                       (min3 (cj + 1) (pj1 + 1) (pj + cost))) currRow ;;
        Ok (currRow, prevRow))
      (seqZ 0 (Z.of_nat (S (length b))), make 0 (len b + 1))
    = Ok (prevRow, currRow) /\
    length prevRow = S (length b) /\ length currRow = S (length b) /\
    forall k, (k <= length b)%nat ->
      prevRow !! k =
      Some (Z.max (Z.of_nat n) (Z.of_nat k)
            - Z.min (Z.of_nat (length (filter (fun k => a !! k = b !! k) (seq 0 n))))
                    (Z.of_nat k)).
Proof.
  intros Ha Hb.
  set (zc := fun i : nat =>
               Z.of_nat (length (filter (fun k => a !! k = b !! k) (seq 0 i)))).
  assert (Hzc : forall i, 0 <= zc i <= Z.of_nat i).
  { intros i. unfold zc.
    pose proof (length_filter (fun k => a !! k = b !! k) (seq 0 i)) as Hf.
    rewrite length_seq in Hf. lia. }
  match goal with
  | |- exists p c, for_range _ _ ?body ?s0 = _ /\ _ =>
      destruct (for_range_inv
        (fun i (st : list Z * list Z) =>
           length st.1 = S (length b) /\ length st.2 = S (length b) /\
           forall k, (k <= length b)%nat ->
             st.1 !! k = Some (Z.max (Z.of_nat i) (Z.of_nat k)
                               - Z.min (zc i) (Z.of_nat k)))
        n 0 body s0) as ([prevRow currRow] & Hrun & Hplen & Hclen & Hprev)
  end.
  - cbn [fst snd]. split; [now rewrite length_seqZ, Nat2Z.id|].
    split; [unfold make, len; rewrite length_replicate; lia|].
    intros k Hk. rewrite lookup_seqZ_lt by lia. f_equal. unfold zc. cbn. lia.
  - intros i [prevRow currRow] Hi (Hplen & Hclen & Hprev). cbn [fst snd] in *.
    destruct (lookup_lt_is_Some_2 a i) as [x Hx]; [lia|].
    destruct (lookup_lt_is_Some_2 b i) as [y Hy]; [lia|].
    rewrite Z.add_0_l. replace (Z.of_nat i + 1) with (Z.of_nat (S i)) by lia.
    rewrite (assign_at currRow _ O (Z.of_nat (S i))) by lia. cbn [bind].
    destruct (bytewise_lev_inner_loop a b i x y prevRow
                (<[O := Z.of_nat (S i)]> currRow) (zc i))
      as (row & Hrow & Hlen & Hrow'); try done.
    { now rewrite length_insert. }
    { apply list_lookup_insert_eq. lia. }
    cbv zeta in Hrow. rewrite Hrow. cbn [bind]. exists (row, prevRow). split; [done|].
    cbn [fst snd]. split; [done|]. split; [done|].
    intros k Hk. rewrite (Hrow' k Hk). do 3 f_equal.
    unfold zc. rewrite seq_S, filter_app, length_app, filter_cons, filter_nil.
    cbn [plus]. rewrite Hx, Hy. destruct (Z.eqb_spec x y) as [->|Hne].
    + rewrite decide_True by done. cbn [length]. lia.
    + rewrite decide_False by congruence. cbn [length]. lia.
  - exists prevRow, currRow. auto.
Qed.

Lemma init_row_seqZ (n : nat) :
  for_loop 0 (Z.of_nat n) (fun h prevRow => assign prevRow h h) (make 0 (Z.of_nat n))
  = Ok (seqZ 0 (Z.of_nat n)).
Proof.
  destruct (init_row n) as (row & -> & Hlen & Hrow). f_equal.
  apply list_eq. intros k. destruct (decide (k < n)%nat) as [Hk|Hk].
  - rewrite Hrow by lia. symmetry. apply lookup_seqZ. lia.
  - rewrite lookup_ge_None_2 by lia. symmetry. apply lookup_seqZ_ge. lia.
Qed.

(** The bytewise LevenshteinDistance compares [a[i]] with [b[i]] in every
    column of row [i].  When [a] is not longer than [b] it returns the
    difference of the lengths plus the number of indices at which [a]
    differs from the prefix of [b] of its length, so that on strings of one
    length it returns their HammingDistance; when [b] is not empty and
    shorter than [a], reading [b[i]] in row [len b] panics. *)
Theorem LevenshteinDistance_bytewise_is_prefix_Hamming (a b : list Z) :
  (len a <= len b ->
   bytewise.LevenshteinDistance a b =
   Ok (len b - len a
       + Z.of_nat (length (differing_indices a (take (length a) b))))) /\
  (length a = length b ->
   bytewise.LevenshteinDistance a b = bytewise.HammingDistance a b) /\
  (0 < len b < len a -> bytewise.LevenshteinDistance a b = Panic).
Proof.
  assert (Hdiff : forall n, (n <= length a)%nat -> (n <= length b)%nat ->
    Z.of_nat n =
    Z.of_nat (length (filter (fun k => a !! k = b !! k) (seq 0 n))) +
    Z.of_nat (length (filter (fun k => a !! k ≠ take (length a) b !! k) (seq 0 n)))).
  { induction n as [|n IH]; intros Hna Hnb; [done|].
    rewrite seq_S, !filter_app, !length_app, !filter_cons, !filter_nil. cbn [plus].
    rewrite lookup_take_lt by lia.
    destruct (decide (a !! n = b !! n)) as [E|E].
    - rewrite decide_False by (intros H; now apply H). cbn [length]. lia.
    - rewrite decide_True by done. cbn [length]. lia. }
  assert (Hle : len a <= len b ->
    bytewise.LevenshteinDistance a b =
    Ok (len b - len a
        + Z.of_nat (length (differing_indices a (take (length a) b))))).
  { unfold len. intros Hlen. unfold bytewise.LevenshteinDistance.
    destruct (decide (a = [])) as [->|Ha].
    { change (len (@nil Z) =? 0) with true. cbv iota. f_equal.
      unfold len, differing_indices. cbn. lia. }
    rewrite (len_eqb_0 a Ha).
    destruct (decide (b = [])) as [->|Hb].
    { destruct a; [done|]. cbn [length] in Hlen. lia. }
    rewrite (len_eqb_0 b Hb).
    destruct ((len a =? len b) && bool_decide (a = b)) eqn:Heq.
    { apply andb_true_iff in Heq as [_ Heq]. apply bool_decide_eq_true in Heq.
      subst b. rewrite firstn_all, differing_indices_self. cbn. f_equal. lia. }
    unfold len.
    replace (Z.of_nat (length b) + 1) with (Z.of_nat (S (length b))) by lia.
    rewrite init_row_seqZ. cbn [bind].
    unfold for_loop at 1. rewrite Z.sub_0_r, Nat2Z.id.
    destruct (bytewise_lev_rows a b (length a)) as (p & c & Hrun & _ & _ & Hp);
      [lia..|].
    unfold len in Hrun.
    replace (Z.of_nat (length b) + 1) with (Z.of_nat (S (length b))) in Hrun by lia.
    rewrite Hrun. cbn [bind].
    rewrite (index_at p _ (length b) _ eq_refl (Hp (length b) ltac:(lia))).
    f_equal. unfold differing_indices.
    pose proof (Hdiff (length a) ltac:(lia) ltac:(lia)) as Hd.
    pose proof (length_filter (fun k => a !! k = b !! k) (seq 0 (length a))) as Hf.
    rewrite length_seq in Hf. lia. }
  split; [exact Hle|]. split.
  - intros Hlen. rewrite Hle by (unfold len; lia).
    change bytewise.HammingDistance with stralgo.HammingDistance.
    rewrite hamming_count, decide_True by done.
    rewrite Hlen, firstn_all. unfold len. rewrite Hlen. f_equal. lia.
  - unfold len. intros Hlen. unfold bytewise.LevenshteinDistance.
    assert (Ha : a <> []) by (intros ->; cbn in Hlen; lia).
    assert (Hb : b <> []) by (intros ->; cbn in Hlen; lia).
    rewrite (len_eqb_0 a Ha), (len_eqb_0 b Hb).
    unfold len at 1 2.
    destruct (Z.eqb_spec (Z.of_nat (length a)) (Z.of_nat (length b))); [lia|].
    cbn [andb]. unfold len.
    replace (Z.of_nat (length b) + 1) with (Z.of_nat (S (length b))) by lia.
    rewrite init_row_seqZ. cbn [bind].
    unfold for_loop at 1. rewrite Z.sub_0_r, Nat2Z.id.
    replace (length a) with (length b + S (length a - S (length b)))%nat at 1 by lia.
    rewrite for_range_app.
    destruct (bytewise_lev_rows a b (length b)) as (p & c & Hrun & _ & Hc & _);
      [lia..|].
    unfold len in Hrun.
    replace (Z.of_nat (length b) + 1) with (Z.of_nat (S (length b))) in Hrun by lia.
    rewrite Hrun. cbn [bind for_range].
    rewrite Z.add_0_l.
    rewrite (assign_at c _ O) by lia. cbn [bind].
    unfold for_loop. rewrite Z.sub_0_r, Nat2Z.id.
    destruct (length b) as [|m] eqn:Hm; [lia|]. cbn [for_range].
    destruct (lookup_lt_is_Some_2 a (S m)) as [x Hx]; [lia|].
    rewrite (index_at a _ (S m) x eq_refl Hx). cbn [bind].
    rewrite index_out_of_range; [done|]. right. unfold len. lia.
Qed.

Lemma LevenshteinDistance_bytewise_is_prefix_Hamming_witness :
  bytewise.LevenshteinDistance (bytes "abc") (bytes "bcdab") =
    Ok (len (bytes "bcdab") - len (bytes "abc")
        + Z.of_nat (length (differing_indices (bytes "abc")
                              (take (length (bytes "abc")) (bytes "bcdab"))))) /\
  bytewise.LevenshteinDistance (bytes "abc") (bytes "bcd") =
    bytewise.HammingDistance (bytes "abc") (bytes "bcd") /\
  bytewise.LevenshteinDistance (bytes "abc") (bytes "ab") = Panic.
Proof.
  split; [|split].
  - apply (proj1 (LevenshteinDistance_bytewise_is_prefix_Hamming
                    (bytes "abc") (bytes "bcdab"))). vm_compute. discriminate.
  - apply (proj1 (proj2 (LevenshteinDistance_bytewise_is_prefix_Hamming
                           (bytes "abc") (bytes "bcd")))). reflexivity.
  - apply (proj2 (proj2 (LevenshteinDistance_bytewise_is_prefix_Hamming
                           (bytes "abc") (bytes "ab")))). vm_compute. done.
Defined.

(** ** The bigram lists of WhiteSimilarity *)

Lemma asciiUpperOrSpace_snd (b : Z) :
  (bytewise.asciiUpperOrSpace b).2 = ascii_IsSpace b.
Proof.
  unfold bytewise.asciiUpperOrSpace, ascii_IsSpace.
  destruct (Z.leb_spec b 127) as [Hb|Hb].
  - destruct (Z.leb_spec 97 b), (Z.leb_spec b 122); cbn [andb snd];
      repeat match goal with
             | |- context [?u =? ?v] => destruct (Z.eqb_spec u v); try lia
             end; reflexivity.
  - cbn [snd].
    repeat match goal with
           | |- context [?u =? ?v] => destruct (Z.eqb_spec u v); try lia
           end; reflexivity.
Qed.

Lemma asciiUpperOrSpace_fst (b : Z) :
  (bytewise.asciiUpperOrSpace b).1 = ascii_ToUpper b.
Proof.
  unfold bytewise.asciiUpperOrSpace, ascii_ToUpper.
  destruct (Z.leb_spec b 127) as [Hb|Hb].
  - destruct (Z.leb_spec 97 b), (Z.leb_spec b 122); cbn [andb fst]; try reflexivity;
      match goal with |- context [if ?c then (b, true) else _] => destruct c end;
      reflexivity.
  - destruct (Z.leb_spec 97 b), (Z.leb_spec b 122); cbn [andb fst]; try lia;
      reflexivity.
Qed.

(** asciiUpperOrSpace: a byte is reported as white space exactly when it is
    one of the six ASCII white-space bytes; the cases 0x85 and 0xA0 of its
    switch are behind the test [b <= unicode.MaxASCII] and never apply.
    Only the bytes 'a' to 'z' are changed, to 'A' to 'Z', and the byte
    returned is classified as the byte given. *)
Theorem asciiUpperOrSpace_ascii_only (b : Z) :
  (bytewise.asciiUpperOrSpace b).2 = ascii_IsSpace b /\
  (bytewise.asciiUpperOrSpace b).1 = ascii_ToUpper b /\
  bytewise.asciiUpperOrSpace (bytewise.asciiUpperOrSpace b).1
    = bytewise.asciiUpperOrSpace b /\
  bytewise.asciiUpperOrSpace 133 = (133, false) /\
  bytewise.asciiUpperOrSpace 160 = (160, false).
Proof.
  split; [apply asciiUpperOrSpace_snd|].
  split; [apply asciiUpperOrSpace_fst|].
  split; [apply asciiUpperOrSpace_upper|].
  split; reflexivity.
Qed.

Section word_pairs.

Context {B : Type} (isSpace : Z -> bool) (mk : Z -> Z -> B).

Lemma word_pairs_snoc (l : list Z) (x y : Z) :
  last l = Some x ->
  word_pairs isSpace mk (l ++ [y]) =
  word_pairs isSpace mk l ++ (if isSpace x || isSpace y then [] else [mk x y]).
Proof.
  induction l as [|x1 [|x2 l] IH]; intros Hlast; [done| |].
  - injection Hlast as ->. cbn. now destruct (isSpace x || isSpace y).
  - specialize (IH Hlast). cbn [app] in *.
    change (word_pairs isSpace mk (x1 :: x2 :: l ++ [y]))
      with (if isSpace x1 || isSpace x2 then word_pairs isSpace mk (x2 :: l ++ [y])
            else mk x1 x2 :: word_pairs isSpace mk (x2 :: l ++ [y])).
    change (word_pairs isSpace mk (x1 :: x2 :: l))
      with (if isSpace x1 || isSpace x2 then word_pairs isSpace mk (x2 :: l)
            else mk x1 x2 :: word_pairs isSpace mk (x2 :: l)).
    rewrite IH. now destruct (isSpace x1 || isSpace x2).
Qed.

(** The bigrams whose first unit is at an index below [i]. *)
Lemma word_pairs_take_S (s : list Z) (i : nat) (x y : Z) :
  s !! i = Some x -> s !! S i = Some y ->
  word_pairs isSpace mk (take (S (S i)) s) =
  word_pairs isSpace mk (take (S i) s)
  ++ (if isSpace x || isSpace y then [] else [mk x y]).
Proof.
  intros Hx Hy. rewrite (take_S_r s (S i) y Hy).
  apply word_pairs_snoc. rewrite (take_S_r s i x Hx). apply last_snoc.
Qed.

Lemma word_pairs_length (s : list Z) :
  (length (word_pairs isSpace mk s) <= length s - 1)%nat.
Proof.
  induction s as [|x [|y s] IH]; [done..|].
  change (word_pairs isSpace mk (x :: y :: s))
    with (if isSpace x || isSpace y then word_pairs isSpace mk (y :: s)
          else mk x y :: word_pairs isSpace mk (y :: s)).
  cbn [length] in *. destruct (isSpace x || isSpace y); cbn [length]; lia.
Qed.

Lemma word_pairs_nil (s : list Z) :
  word_pairs isSpace mk s = [] <->
  forall i x y, s !! i = Some x -> s !! S i = Some y ->
                isSpace x = true \/ isSpace y = true.
Proof.
  induction s as [|x [|y s] IH].
  - split; [|done]. intros _ i x y Hx. done.
  - split; [|done]. intros _ i x' y Hx Hy. destruct i; done.
  - change (word_pairs isSpace mk (x :: y :: s))
      with (if isSpace x || isSpace y then word_pairs isSpace mk (y :: s)
            else mk x y :: word_pairs isSpace mk (y :: s)).
    destruct (isSpace x || isSpace y) eqn:Hsp.
    + rewrite IH. split.
      * intros H [|i] x' y' Hx Hy.
        -- injection Hx as <-. injection Hy as <-. now apply orb_true_iff.
        -- now apply (H i).
      * intros H i x' y' Hx Hy. now apply (H (S i)).
    + split; [done|]. intros H.
      destruct (H O x y eq_refl eq_refl) as [E|E]; rewrite E in Hsp;
        [done|now rewrite orb_true_r in Hsp].
Qed.

End word_pairs.

Lemma while_loop_total {S : Type} (I : S -> Prop) (mu : S -> nat) (cond : S -> bool)
  (body : S -> result S) (fuel : nat) (s : S) :
  I s -> (mu s <= fuel)%nat ->
  (forall s, I s -> cond s = true ->
     exists s', body s = Ok s' /\ I s' /\ (mu s' < mu s)%nat) ->
  exists s', while_loop fuel cond body s = Ok s' /\ I s' /\ cond s' = false.
Proof.
  intros Hs Hmu Hbody. revert s Hs Hmu.
  induction fuel as [|fuel IH]; intros s Hs Hmu; cbn [while_loop].
  - exists s. split; [done|]. split; [done|].
    destruct (cond s) eqn:Hc; [|done].
    destruct (Hbody s Hs Hc) as (s' & _ & _ & Hlt). lia.
  - destruct (cond s) eqn:Hc; [|eauto].
    destruct (Hbody s Hs Hc) as (s' & -> & Hs' & Hlt). cbn [bind].
    apply IH; [done|lia].
Qed.

Lemma take_word_pairs_app {B : Type} (P bg : list B) (n : nat) :
  take n bg = P -> length P = n -> (n < length bg)%nat ->
  forall x, take (S n) (<[n := x]> bg) = P ++ [x].
Proof.
  intros HP Hn Hlt x.
  rewrite (take_S_r _ _ x) by (apply list_lookup_insert_eq; lia).
  rewrite take_insert_ge by lia. now rewrite HP.
Qed.

Lemma upperWordLetterPairs_is_word_pairs (IsSpace : Z -> bool) (ToUpper : Z -> Z)
  (s : list Z) :
  runewise.upperWordLetterPairs IsSpace ToUpper s =
  Ok (upper_word_pairs IsSpace ToUpper s, len (upper_word_pairs IsSpace ToUpper s)).
Proof.
  unfold runewise.upperWordLetterPairs, upper_word_pairs.
  set (mk := fun x y => runewise.mkRuneBigram (ToUpper x) (ToUpper y)).
  set (wp := word_pairs IsSpace mk).
  destruct (Z.ltb_spec (len s - 1) 1) as [Hl|Hl].
  { destruct s as [|x [|y s]]; [done..|]. unfold len in Hl. cbn [length] in Hl. lia. }
  set (limit := len s - 1) in *.
  match goal with
  | |- bind (while_loop ?fuel ?cond ?body ?s0) _ = _ =>
      destruct (while_loop_total
        (fun st : Z * Z * list runewise.runeBigram =>
           0 <= st.1.2 <= st.1.1 /\ st.1.2 <= limit /\ 0 <= st.1.1 <= limit + 1 /\
           len st.2 = limit /\
           st.1.2 = len (wp (take (S (Z.to_nat st.1.1)) s)) /\
           take (Z.to_nat st.1.2) st.2 = wp (take (S (Z.to_nat st.1.1)) s))
        (fun st => Z.to_nat (limit - st.1.1))
        cond body fuel s0) as ([[i n] bg] & -> & Hinv & Hc)
  end.
  - cbn [fst snd]. unfold make, len. rewrite length_replicate.
    destruct s as [|x s]; [unfold limit, len in Hl; cbn in Hl; lia|].
    change (Z.to_nat 0) with 0%nat. unfold wp. cbn [take word_pairs length].
    change (Z.of_nat 0) with 0. repeat split; (lia || done).
  - cbn [fst snd]. lia.
  - intros [[i n] bg] (Hn & Hn' & Hi & Hbg & Hcnt & Htake) Hc. cbn [fst snd] in *.
    apply Z.ltb_lt in Hc.
    destruct (index_in_range s i) as (x & Hx & ->); [unfold limit in *; lia|].
    destruct (index_in_range s (i + 1)) as (y & Hy & ->); [unfold limit in *; lia|].
    cbn [bind].
    replace (Z.to_nat (i + 1)) with (S (Z.to_nat i)) in Hy by lia.
    pose proof (word_pairs_take_S IsSpace mk s (Z.to_nat i) x y Hx Hy) as Hstep.
    fold wp in Hstep.
    destruct (IsSpace y) eqn:Hsy.
    { rewrite orb_true_r, app_nil_r in Hstep.
      eexists. split; [reflexivity|]. cbn [fst snd].
      assert (Hskip : wp (take (S (Z.to_nat (i + 1 + 1))) s)
                      = wp (take (S (Z.to_nat i)) s)).
      { rewrite <- Hstep.
        replace (Z.to_nat (i + 1 + 1)) with (S (S (Z.to_nat i))) by lia.
        destruct (s !! S (S (Z.to_nat i))) as [z|] eqn:Hz.
        - pose proof (word_pairs_take_S IsSpace mk s (S (Z.to_nat i)) y z Hy Hz) as H2.
          fold wp in H2. rewrite H2, Hsy. cbn [orb]. now rewrite app_nil_r.
        - apply lookup_ge_None_1 in Hz. now rewrite !take_ge by lia. }
      rewrite Hskip. repeat split; try lia. exact Htake. }
    destruct (IsSpace x) eqn:Hsx.
    { cbn [orb] in Hstep. rewrite app_nil_r in Hstep.
      eexists. split; [reflexivity|]. cbn [fst snd].
      replace (Z.to_nat (i + 1)) with (S (Z.to_nat i)) by lia.
      rewrite Hstep. repeat split; try lia. exact Htake. }
    cbn [orb] in Hstep.
    rewrite (assign_at bg n (Z.to_nat n)) by (unfold len in *; lia). cbn [bind].
    eexists. split; [reflexivity|]. cbn [fst snd].
    replace (Z.to_nat (i + 1)) with (S (Z.to_nat i)) by lia.
    rewrite Hstep. unfold len in *. rewrite length_insert, length_app. cbn [length].
    repeat split; try lia.
    replace (Z.to_nat (n + 1)) with (S (Z.to_nat n)) by lia.
    apply take_word_pairs_app; (done || lia).
  - destruct Hinv as (Hn & Hn' & Hi & Hbg & Hcnt & Htake). cbn [fst snd bind] in *.
    apply Z.ltb_ge in Hc.
    assert (Hall : take (S (Z.to_nat i)) s = s).
    { apply take_ge. unfold limit, len in *. lia. }
    rewrite Hall in *.
    destruct (slice_prefix bg n) as [-> _]; [lia|]. cbn [bind].
    now rewrite Htake, Hcnt.
Qed.

Lemma asciiUpperWordLetterPairs_is_word_pairs (s : list Z) :
  bytewise.asciiUpperWordLetterPairs s =
  Ok (ascii_word_pairs s, len (ascii_word_pairs s)).
Proof.
  unfold bytewise.asciiUpperWordLetterPairs, ascii_word_pairs.
  set (sp := fun b => (bytewise.asciiUpperOrSpace b).2).
  set (mk := fun x y => bytewise.mkByteBigram (bytewise.asciiUpperOrSpace x).1
                                              (bytewise.asciiUpperOrSpace y).1).
  set (wp := word_pairs sp mk).
  destruct (Z.ltb_spec (len s - 1) 1) as [Hl|Hl].
  { destruct s as [|x [|y s]]; [done..|]. unfold len in Hl. cbn [length] in Hl. lia. }
  set (limit := len s - 1) in *.
  match goal with
  | |- bind (while_loop ?fuel ?cond ?body ?s0) _ = _ =>
      destruct (while_loop_total
        (fun st : Z * Z * list bytewise.byteBigram =>
           0 <= st.1.2 <= st.1.1 /\ st.1.2 <= limit /\ 0 <= st.1.1 <= limit + 1 /\
           len st.2 = limit /\
           st.1.2 = len (wp (take (S (Z.to_nat st.1.1)) s)) /\
           take (Z.to_nat st.1.2) st.2 = wp (take (S (Z.to_nat st.1.1)) s))
        (fun st => Z.to_nat (limit - st.1.1))
        cond body fuel s0) as ([[i n] bg] & -> & Hinv & Hc)
  end.
  - cbn [fst snd]. unfold make, len. rewrite length_replicate.
    destruct s as [|x s]; [unfold limit, len in Hl; cbn in Hl; lia|].
    change (Z.to_nat 0) with 0%nat. unfold wp. cbn [take word_pairs length].
    change (Z.of_nat 0) with 0. repeat split; (lia || done).
  - cbn [fst snd]. lia.
  - intros [[i n] bg] (Hn & Hn' & Hi & Hbg & Hcnt & Htake) Hc. cbn [fst snd] in *.
    apply Z.ltb_lt in Hc.
    destruct (index_in_range s i) as (x & Hx & Hix); [unfold limit in *; lia|].
    destruct (index_in_range s (i + 1)) as (y & Hy & ->); [unfold limit in *; lia|].
    cbn [bind].
    replace (Z.to_nat (i + 1)) with (S (Z.to_nat i)) in Hy by lia.
    pose proof (word_pairs_take_S sp mk s (Z.to_nat i) x y Hx Hy) as Hstep.
    fold wp in Hstep. unfold sp at 1 2 in Hstep. unfold mk in Hstep.
    destruct (bytewise.asciiUpperOrSpace y) as [uy [|]] eqn:Hsy; cbn [fst snd] in Hstep.
    { rewrite orb_true_r, app_nil_r in Hstep.
      eexists. split; [reflexivity|]. cbn [fst snd].
      assert (Hskip : wp (take (S (Z.to_nat (i + 1 + 1))) s)
                      = wp (take (S (Z.to_nat i)) s)).
      { rewrite <- Hstep.
        replace (Z.to_nat (i + 1 + 1)) with (S (S (Z.to_nat i))) by lia.
        destruct (s !! S (S (Z.to_nat i))) as [z|] eqn:Hz.
        - pose proof (word_pairs_take_S sp mk s (S (Z.to_nat i)) y z Hy Hz) as H2.
          fold wp in H2. unfold sp at 1 in H2. rewrite Hsy in H2. cbn [snd orb] in H2.
          now rewrite H2, app_nil_r.
        - apply lookup_ge_None_1 in Hz. now rewrite !take_ge by lia. }
      rewrite Hskip. repeat split; try lia. exact Htake. }
    rewrite Hix. cbn [bind].
    destruct (bytewise.asciiUpperOrSpace x) as [ux [|]] eqn:Hsx; cbn [fst snd] in Hstep.
    { cbn [orb] in Hstep. rewrite app_nil_r in Hstep.
      eexists. split; [reflexivity|]. cbn [fst snd].
      replace (Z.to_nat (i + 1)) with (S (Z.to_nat i)) by lia.
      rewrite Hstep. repeat split; try lia. exact Htake. }
    cbn [orb] in Hstep.
    rewrite (assign_at bg n (Z.to_nat n)) by (unfold len in *; lia). cbn [bind].
    eexists. split; [reflexivity|]. cbn [fst snd].
    replace (Z.to_nat (i + 1)) with (S (Z.to_nat i)) by lia.
    rewrite Hstep. unfold len in *. rewrite length_insert, length_app. cbn [length].
    repeat split; try lia.
    replace (Z.to_nat (n + 1)) with (S (Z.to_nat n)) by lia.
    apply take_word_pairs_app; (done || lia).
  - destruct Hinv as (Hn & Hn' & Hi & Hbg & Hcnt & Htake). cbn [fst snd bind] in *.
    apply Z.ltb_ge in Hc.
    assert (Hall : take (S (Z.to_nat i)) s = s).
    { apply take_ge. unfold limit, len in *. lia. }
    rewrite Hall in *.
    destruct (slice_prefix bg n) as [-> _]; [lia|]. cbn [bind].
    now rewrite Htake, Hcnt.
Qed.

(** The bigram list that WhiteSimilarity builds from an input holds, in
    order, one bigram for each pair of adjacent units of which neither is
    white space, made of the two units in upper case; the count returned
    with it is its length, at most the number of adjacent pairs.  The
    [i++] of the loop on a white-space second unit skips only a pair that
    begins with that unit. *)
Theorem WordLetterPairs_adjacent_without_space (s : list Z) :
  bytewise.asciiUpperWordLetterPairs s =
    Ok (ascii_word_pairs s, len (ascii_word_pairs s)) /\
  (forall (IsSpace : Z -> bool) (ToUpper : Z -> Z),
     runewise.upperWordLetterPairs IsSpace ToUpper s =
       Ok (upper_word_pairs IsSpace ToUpper s,
           len (upper_word_pairs IsSpace ToUpper s)) /\
     len (upper_word_pairs IsSpace ToUpper s) <= Z.max (len s - 1) 0) /\
  len (ascii_word_pairs s) <= Z.max (len s - 1) 0.
Proof.
  split; [apply asciiUpperWordLetterPairs_is_word_pairs|]. split.
  - intros IsSpace ToUpper. split; [apply upperWordLetterPairs_is_word_pairs|].
    unfold upper_word_pairs, len.
    pose proof (word_pairs_length IsSpace
                  (fun x y => runewise.mkRuneBigram (ToUpper x) (ToUpper y)) s). lia.
  - unfold ascii_word_pairs, len.
    match goal with
    | |- Z.of_nat (length (word_pairs ?sp ?mk s)) <= _ =>
        pose proof (word_pairs_length sp mk s)
    end. lia.
Qed.

(** WhiteSimilarity fails, with InsufficientContent, exactly when neither
    input has two adjacent units that are both not white space; on every
    other pair of inputs it returns a ratio. *)
Theorem WhiteSimilarity_error_iff_no_word_pair (a b : list Z) :
  (forall IsSpace ToUpper,
     let no_pair (s : list Z) :=
       forall i x y, s !! i = Some x -> s !! S i = Some y ->
                     IsSpace x = true \/ IsSpace y = true in
     (runewise.WhiteSimilarity IsSpace ToUpper a b = Err InsufficientContent
        <-> no_pair a /\ no_pair b) /\
     (~ (no_pair a /\ no_pair b) ->
        returns (runewise.WhiteSimilarity IsSpace ToUpper a b))) /\
  (let no_pair (s : list Z) :=
     forall i x y, s !! i = Some x -> s !! S i = Some y ->
                   ascii_IsSpace x = true \/ ascii_IsSpace y = true in
   (bytewise.WhiteSimilarity a b = Err InsufficientContent
      <-> no_pair a /\ no_pair b) /\
   (~ (no_pair a /\ no_pair b) -> returns (bytewise.WhiteSimilarity a b))).
Proof.
  split.
  - intros IsSpace ToUpper no_pair.
    pose proof (runewise_WhiteSimilarity_ratio IsSpace ToUpper a b _ _
                  (upperWordLetterPairs_is_word_pairs IsSpace ToUpper a)
                  (upperWordLetterPairs_is_word_pairs IsSpace ToUpper b)) as Hr.
    assert (Hnp : forall s, no_pair s <-> upper_word_pairs IsSpace ToUpper s = []).
    { intros s. symmetry. apply word_pairs_nil. }
    assert (Hz : len (upper_word_pairs IsSpace ToUpper a)
                 + len (upper_word_pairs IsSpace ToUpper b) = 0
                 <-> no_pair a /\ no_pair b).
    { rewrite !Hnp. unfold len.
      destruct (upper_word_pairs IsSpace ToUpper a),
               (upper_word_pairs IsSpace ToUpper b); cbn [length];
        split; try lia; try done; intros [? ?]; done. }
    rewrite Hr.
    destruct (Z.eqb_spec (len (upper_word_pairs IsSpace ToUpper a)
                          + len (upper_word_pairs IsSpace ToUpper b)) 0) as [E|E].
    + split; [split; [intros _; now apply Hz|done]|].
      intros Hn. exfalso. apply Hn. now apply Hz.
    + split; [split; [done|]|].
      * intros Hn. apply Hz in Hn. done.
      * intros _. eexists. reflexivity.
  - intros no_pair.
    pose proof (bytewise_WhiteSimilarity_ratio a b _ _
                  (asciiUpperWordLetterPairs_is_word_pairs a)
                  (asciiUpperWordLetterPairs_is_word_pairs b)) as Hr.
    assert (Hnp : forall s, no_pair s <-> ascii_word_pairs s = []).
    { intros s. unfold ascii_word_pairs. rewrite word_pairs_nil. unfold no_pair.
      split; intros H i x y Hx Hy; specialize (H i x y Hx Hy);
        rewrite !asciiUpperOrSpace_snd in *; exact H. }
    assert (Hz : len (ascii_word_pairs a) + len (ascii_word_pairs b) = 0
                 <-> no_pair a /\ no_pair b).
    { rewrite !Hnp. unfold len.
      destruct (ascii_word_pairs a), (ascii_word_pairs b); cbn [length];
        split; try lia; try done; intros [? ?]; done. }
    rewrite Hr.
    destruct (Z.eqb_spec (len (ascii_word_pairs a) + len (ascii_word_pairs b)) 0)
      as [E|E].
    + split; [split; [intros _; now apply Hz|done]|].
      intros Hn. exfalso. apply Hn. now apply Hz.
    + split; [split; [done|]|].
      * intros Hn. apply Hz in Hn. done.
      * intros _. eexists. reflexivity.
Qed.

Lemma WhiteSimilarity_error_iff_no_word_pair_witness :
  bytewise.WhiteSimilarity (bytes "a b") (bytes " ") = Err InsufficientContent /\
  returns (bytewise.WhiteSimilarity (bytes "ab") (bytes " ")).
Proof.
  destruct (WhiteSimilarity_error_iff_no_word_pair (bytes "a b") (bytes " "))
    as [_ [Herr _]].
  destruct (WhiteSimilarity_error_iff_no_word_pair (bytes "ab") (bytes " "))
    as [_ [_ Hret]].
  split.
  - apply Herr. split; intros i x y Hx Hy;
      repeat (destruct i as [|i]; [injection Hx as <-; injection Hy as <-; auto|]);
      discriminate.
  - apply Hret. intros [H _].
    destruct (H O 97 98 eq_refl eq_refl) as [E|E]; discriminate E.
Defined.

(** ** DamerauLevenshteinDistance: the rows against the Levenshtein table *)

Lemma min3_le (x y z x' y' z' : Z) :
  x <= x' -> y <= y' -> z <= z' -> min3 x y z <= min3 x' y' z'.
Proof. rewrite !min3_Zmin. lia. Qed.

Lemma min3_ge (x y z l : Z) : l <= x -> l <= y -> l <= z -> l <= min3 x y z.
Proof. rewrite min3_Zmin. lia. Qed.

(** With the shorter input first and no NUL unit, the program returns an
    entry between the difference of the lengths and the Levenshtein
    distance. *)
Lemma DamerauLevenshtein_bounds_le (a b : list Z) :
  a <> [] -> b <> [] -> len a <= len b -> 0 ∉ a -> 0 ∉ b ->
  exists d, runewise.DamerauLevenshteinDistance a b = Ok d /\
            len b - len a <= d <= levenshtein a b.
Proof.
  intros Ha Hb Hlen Hnula Hnulb. unfold runewise.DamerauLevenshteinDistance.
  rewrite (len_eqb_0 a Ha), (len_eqb_0 b Hb).
  destruct (Z.gtb_spec (len a) (len b)); [lia|].
  unfold len in *.
  replace (Z.of_nat (length a) + 1) with (Z.of_nat (S (length a))) by lia.
  destruct (init_row (S (length a))) as (row0 & -> & Hlen0 & Hrow0). cbn [bind].
  unfold for_loop at 1.
  set (n := length a) in *.
  set (bound := fun (i : nat) (row : list Z) (upto : nat) =>
         forall j, (j <= upto)%nat ->
           exists v, row !! j = Some v /\
             Z.abs (Z.of_nat i - Z.of_nat j) <= v <= lev_dp b a i j).
  set (lower := fun (i : Z) (row : list Z) =>
         forall j, (j <= n)%nat ->
           exists v, row !! j = Some v /\ Z.abs (i - Z.of_nat j) <= v).
  match goal with
  | |- exists d, bind (for_range ?N ?i0 ?body ?s0) _ = _ /\ _ =>
      destruct (for_range_inv
        (fun k (st : list Z * list Z * list Z * Z) =>
           length st.1.1.1 = S n /\ length st.1.1.2 = S n /\ length st.1.2 = S n /\
           (k = O -> st.2 = 0) /\
           (forall k', k = S k' -> b !! k' = Some st.2) /\
           bound k st.1.1.2 n /\
           (k <> O -> lower (Z.of_nat k - 1) st.1.1.1))
        N i0 body s0)
        as ([[[tran prev] curr] prevB] & -> & Ht & Hp & Hc & _ & _ & Hprev & _)
  end.
  - cbn [fst snd]. unfold make. rewrite !length_replicate.
    repeat split; try lia; try done.
    intros j Hj. exists (Z.of_nat j). split; [apply Hrow0; lia|].
    cbn [lev_dp]. lia.
  - intros k [[[tran prev] curr] prevB] Hk (Ht & Hp & Hc & HB0 & HB & Hprev & Htran).
    cbn [fst snd] in *.
    set (i := 1 + Z.of_nat k).
    assert (Hi : 1 <= i <= Z.of_nat (length b)) by lia.
    destruct (index_in_range b (i - 1)) as (currB & HcurrB & ->);
      [unfold len; lia|]. cbn [bind].
    replace (Z.to_nat (i - 1)) with k in HcurrB by lia.
    assert (HcurrB0 : currB <> 0).
    { intros ->. apply Hnulb. eapply list_elem_of_lookup_2. exact HcurrB. }
    rewrite (assign_at curr 0 O i) by lia. cbn [bind].
    replace (if i - Z.of_nat (length b) - 1 <? 1 then 1
             else i - Z.of_nat (length b) - 1) with 1
      by (destruct (Z.ltb_spec (i - Z.of_nat (length b) - 1) 1); lia).
    replace (if i + Z.of_nat (length b) + 1 >? Z.of_nat n
             then Z.of_nat n else i + Z.of_nat (length b) + 1)
      with (Z.of_nat n)
      by (destruct (Z.gtb_spec (i + Z.of_nat (length b) + 1) (Z.of_nat n)); lia).
    unfold for_loop.
    match goal with
    | |- exists s', bind (for_range ?N ?i0 ?body ?s0) _ = _ /\ _ =>
        destruct (for_range_inv
          (fun j (st : list Z * Z) =>
             length st.1 = S n /\ (j = O -> st.2 = 0) /\
             (forall j', j = S j' -> a !! j' = Some st.2) /\
             bound (S k) st.1 j)
          N i0 body s0) as ([curr1 prevA] & -> & Hc1 & _ & _ & Hcurr1)
    end.
    + cbn [fst snd]. rewrite length_insert. repeat split; try done.
      intros j Hj. replace j with O by lia. exists i.
      split; [apply list_lookup_insert_eq; lia|].
      rewrite lev_dp_0_r. lia.
    + intros j' [curr1 prevA] Hj' (Hc1 & HA0 & HA & Hcurr). cbn [fst snd] in *.
      set (j := 1 + Z.of_nat j').
      assert (Hj : 1 <= j <= Z.of_nat n) by lia.
      destruct (index_in_range a (j - 1)) as (currA & HcurrA & ->); [unfold len; lia|].
      replace (Z.to_nat (j - 1)) with j' in HcurrA by lia.
      assert (HcurrA0 : currA <> 0).
      { intros ->. apply Hnula. eapply list_elem_of_lookup_2. exact HcurrA. }
      cbn [bind].
      destruct (Hcurr j' ltac:(lia)) as (cj1 & Hcj1 & Bcj1).
      destruct (Hprev (S j') ltac:(lia)) as (pj & Hpj & Bpj).
      destruct (Hprev j' ltac:(lia)) as (pj1 & Hpj1 & Bpj1).
      rewrite (index_at curr1 (j - 1) j' cj1 ltac:(lia) Hcj1).
      rewrite (index_at prev j (S j') pj ltac:(lia) Hpj).
      rewrite (index_at prev (j - 1) j' pj1 ltac:(lia) Hpj1).
      cbn [bind].
      set (cost := if currA =? currB then 0 else 1).
      assert (Hcost : cost = subst_cost b a k j').
      { unfold cost, subst_cost. rewrite HcurrB, HcurrA. now rewrite Z.eqb_sym. }
      assert (Hm3 : Z.abs (Z.of_nat (S k) - Z.of_nat (S j'))
                    <= min3 (cj1 + 1) (pj + 1) (pj1 + cost)
                    <= lev_dp b a (S k) (S j')).
      { split.
        - pose proof (subst_cost_range b a k j'). apply min3_ge; lia.
        - rewrite lev_dp_S_S. apply min3_le; lia. }
      assert (Hentry : exists entry,
        (if (currA =? prevB) && (currB =? prevA)
         then
           tj2 <- index tran (j - 2) ;;
           Ok (if tj2 + cost <? min3 (cj1 + 1) (pj + 1) (pj1 + cost)
               then tj2 + cost
               else min3 (cj1 + 1) (pj + 1) (pj1 + cost))
         else Ok (min3 (cj1 + 1) (pj + 1) (pj1 + cost))) = Ok entry /\
        Z.abs (Z.of_nat (S k) - Z.of_nat (S j')) <= entry <= lev_dp b a (S k) (S j')).
      { destruct ((currA =? prevB) && (currB =? prevA)) eqn:Hcond; [|eauto].
        apply andb_true_iff in Hcond as [Hcp1 Hcp2].
        apply Z.eqb_eq in Hcp1. apply Z.eqb_eq in Hcp2.
        destruct j' as [|j'']; [rewrite HA0 in Hcp2 by done; congruence|].
        destruct k as [|k']; [rewrite HB0 in Hcp1 by done; congruence|].
        destruct (Htran ltac:(done) j'' ltac:(lia)) as (tj2 & Htj2 & Btj2).
        rewrite (index_at tran (j - 2) j'' tj2 ltac:(lia) Htj2). cbn [bind].
        eexists. split; [reflexivity|].
        pose proof (subst_cost_range b a (S k') (S j'')).
        destruct (Z.ltb_spec (tj2 + cost) (min3 (cj1 + 1) (pj + 1) (pj1 + cost))); lia. }
      destruct Hentry as (entry & Hentry & Bentry).
      fold cost. rewrite Hentry. cbn [bind].
      rewrite (assign_at curr1 j (S j') entry) by lia. cbn [bind].
      eexists. split; [reflexivity|]. cbn [fst snd].
      rewrite length_insert. split; [done|]. split; [done|].
      split; [intros j0 [= <-]; exact HcurrA|].
      intros j0 Hj0. destruct (decide (j0 = S j')) as [->|Hne].
      * exists entry. split; [apply list_lookup_insert_eq; lia|done].
      * destruct (Hcurr j0 ltac:(lia)) as (v & Hv & Bv). exists v.
        split; [|done]. now rewrite list_lookup_insert_ne.
    + cbn [bind fst snd] in *. eexists. split; [reflexivity|]. cbn [fst snd].
      repeat split; try done.
      * intros k' [= <-]. exact HcurrB.
      * replace (S k) with (k + 1)%nat by lia.
        intros j Hj. replace (k + 1)%nat with (S k) by lia. apply Hcurr1.
        replace (Z.to_nat (Z.of_nat n + 1 - 1)) with n by lia. exact Hj.
      * intros _ j Hj. destruct (Hprev j Hj) as (v & Hv & Bv).
        exists v. split; [done|]. lia.
  - cbn [bind fst snd] in *.
    replace (Z.to_nat (Z.of_nat (length b) + 1 - 1)) with (length b) in Hprev by lia.
    destruct (Hprev n ltac:(lia)) as (d & Hd & Bd).
    exists d. split; [now apply index_at with (k := n)|].
    rewrite levenshtein_sym. unfold levenshtein. fold n. lia.
Qed.

(** On inputs without NUL units, DamerauLevenshteinDistance (both forms)
    returns a distance that is at least the difference of the lengths and
    at most the Levenshtein distance: counting a transposition of adjacent
    units never costs more.  It is 0 on equal inputs. *)
Theorem DamerauLevenshteinDistance_at_most_Levenshtein (a b : list Z) :
  0 ∉ a -> 0 ∉ b ->
  exists d l,
    runewise.DamerauLevenshteinDistance a b = Ok d /\
    bytewise.DamerauLevenshteinDistance a b = Ok d /\
    runewise.LevenshteinDistance a b = Ok l /\
    Z.abs (len a - len b) <= d <= l /\
    (a = b -> d = 0).
Proof.
  intros Ha0 Hb0.
  change bytewise.DamerauLevenshteinDistance with runewise.DamerauLevenshteinDistance.
  rewrite runewise_Levenshtein_is_dp.
  assert (Hd : exists d, runewise.DamerauLevenshteinDistance a b = Ok d /\
                         Z.abs (len a - len b) <= d <= levenshtein a b).
  { destruct (decide (a = [])) as [->|Ha].
    { exists (len b). split; [done|]. unfold levenshtein, len. cbn. lia. }
    destruct (decide (b = [])) as [->|Hb].
    { exists (len a). unfold runewise.DamerauLevenshteinDistance.
      rewrite (len_eqb_0 a Ha). split; [done|].
      rewrite levenshtein_nil_r. unfold len. cbn. lia. }
    destruct (Z.le_gt_cases (len a) (len b)) as [Hle|Hgt].
    - destruct (DamerauLevenshtein_bounds_le a b) as (d & Hd & Bd); try done.
      exists d. split; [done|]. lia.
    - rewrite DamerauLevenshtein_swap by (done || lia).
      destruct (DamerauLevenshtein_bounds_le b a) as (d & Hd & Bd); try done; [lia|].
      exists d. split; [done|]. rewrite levenshtein_sym. lia. }
  destruct Hd as (d & Hd & Bd). exists d, (levenshtein a b).
  repeat split; try done; try lia.
  intros ->. unfold levenshtein in Bd. rewrite lev_dp_diag_self in Bd by lia. lia.
Qed.

Lemma DamerauLevenshteinDistance_at_most_Levenshtein_witness :
  exists d l,
    runewise.DamerauLevenshteinDistance (bytes "abcd") (bytes "bacd") = Ok d /\
    bytewise.DamerauLevenshteinDistance (bytes "abcd") (bytes "bacd") = Ok d /\
    runewise.LevenshteinDistance (bytes "abcd") (bytes "bacd") = Ok l /\
    Z.abs (len (bytes "abcd") - len (bytes "bacd")) <= d <= l /\
    (bytes "abcd" = bytes "bacd" -> d = 0).
Proof.
  apply (DamerauLevenshteinDistance_at_most_Levenshtein (bytes "abcd") (bytes "bacd"));
    intros H; vm_compute in H; apply list_elem_of_In in H; simpl in H;
    repeat (destruct H as [H|H]; [discriminate H|]); destruct H.
Defined.

(** ** float64: sums of small integers are exact *)

Lemma iter_pos_nat {A : Type} (f : A -> A) (n : positive) (x : A) :
  SpecFloat.iter_pos f n x = Nat.iter (Pos.to_nat n) f x.
Proof.
  revert x. induction n as [n IH|n IH|]; intros x; cbn [SpecFloat.iter_pos].
  - rewrite !IH, Pos2Nat.inj_xI, <- Nat.iter_add, <- Nat.iter_succ_r.
    f_equal. lia.
  - rewrite !IH, Pos2Nat.inj_xO, <- Nat.iter_add. f_equal. lia.
  - reflexivity.
Qed.

Lemma Pos_iter_nat {A : Type} (f : A -> A) (x : A) (p : positive) :
  Pos.iter f x p = Nat.iter (Pos.to_nat p) f x.
Proof. exact (Pos2Nat.inj_iter p f x). Qed.

Lemma Zpos_iter_xO (k : nat) (p : positive) :
  Z.pos (Nat.iter k xO p) = Z.pos p * 2 ^ Z.of_nat k.
Proof.
  induction k as [|k IH]; [cbn; lia|].
  rewrite Nat.iter_succ, Pos2Z.inj_xO, IH, Nat2Z.inj_succ, Z.pow_succ_r by lia. lia.
Qed.

Lemma digits2_pos_nat_iter_xO (k : nat) (p : positive) :
  Z.pos (digits2_pos (Nat.iter k xO p)) = Z.pos (digits2_pos p) + Z.of_nat k.
Proof.
  induction k as [|k IH]; [cbn; lia|].
  rewrite Nat.iter_succ. cbn [digits2_pos]. rewrite Pos2Z.inj_succ, IH. lia.
Qed.

Lemma shr_iter_exact (j : nat) (q : positive) :
  Nat.iter j shr_1 {| shr_m := Z.pos (Nat.iter j xO q); shr_r := false; shr_s := false |}
  = {| shr_m := Z.pos q; shr_r := false; shr_s := false |}.
Proof.
  induction j as [|j IH]; [reflexivity|].
  rewrite Nat.iter_succ_r, (Nat.iter_succ j). cbn [shr_1 orb]. exact IH.
Qed.

(** A mantissa of 53 digits followed by [j] zero digits is rounded to
    itself. *)
Lemma binary_round_aux_canonical (sx : bool) (q : positive) (j : nat) (e : Z) :
  Z.pos (digits2_pos q) = 53 -> -1074 <= e <= 971 ->
  binary_round_aux 53 1024 sx (Z.pos (Nat.iter j xO q)) (e - Z.of_nat j) loc_Exact
  = S754_finite sx q e.
Proof.
  intros Hd He. unfold binary_round_aux, shr_fexp. cbn [Zdigits2].
  rewrite digits2_pos_nat_iter_xO, Hd.
  assert (Hf : fexp 53 1024 (53 + Z.of_nat j + (e - Z.of_nat j)) = e).
  { unfold fexp, emin. lia. }
  rewrite Hf. cbn [shr_record_of_loc].
  assert (Hshr : shr {| shr_m := Z.pos (Nat.iter j xO q); shr_r := false;
                        shr_s := false |}
                   (e - Z.of_nat j) (e - (e - Z.of_nat j))
                 = ({| shr_m := Z.pos q; shr_r := false; shr_s := false |}, e)).
  { unfold shr. replace (e - (e - Z.of_nat j)) with (Z.of_nat j) by lia.
    destruct j as [|j].
    - cbn [Z.of_nat Nat.iter]. f_equal. lia.
    - change (Z.of_nat (S j)) with (Z.pos (Pos.of_succ_nat j)). cbv iota.
      rewrite iter_pos_nat, SuccNat2Pos.id_succ, shr_iter_exact.
      f_equal. lia. }
  rewrite Hshr. cbn [shr_m loc_of_shr_record round_nearest_even Zdigits2].
  rewrite Hd.
  assert (Hf' : fexp 53 1024 (53 + e) = e) by (unfold fexp, emin; lia).
  rewrite Hf', Z.sub_diag. cbn [shr shr_record_of_loc shr_m].
  destruct (Z.leb_spec e (1024 - 53)); [reflexivity|lia].
Qed.

(** The float64 of a positive integer of at most 53 digits, scaled by a
    power of two. *)
Lemma binary_round_scaled (sx : bool) (p : positive) (k : nat) (e : Z) :
  let d := Z.pos (digits2_pos p) in
  d <= 53 -> -1074 <= e + d - 53 <= 971 ->
  binary_round 53 1024 sx (Nat.iter k xO p) (e - Z.of_nat k)
  = S754_finite sx (Nat.iter (Z.to_nat (53 - d)) xO p) (e + d - 53).
Proof.
  intros d Hd He. unfold binary_round.
  rewrite digits2_pos_nat_iter_xO. fold d.
  assert (Hf : fexp 53 1024 (d + Z.of_nat k + (e - Z.of_nat k)) = e + d - 53).
  { unfold fexp, emin. lia. }
  rewrite Hf. unfold shl_align.
  set (q := Nat.iter (Z.to_nat (53 - d)) xO p).
  assert (Hq : Z.pos (digits2_pos q) = 53).
  { unfold q. rewrite digits2_pos_nat_iter_xO. fold d. lia. }
  destruct (e + d - 53 - (e - Z.of_nat k)) as [|s|s] eqn:Hs.
  - (* the mantissa has 53 digits *)
    assert (Hk : Z.to_nat (53 - d) = k) by lia.
    pose proof (binary_round_aux_canonical sx q O (e + d - 53) Hq He) as H.
    change (Nat.iter 0 xO q) with q in H. change (Z.of_nat 0) with 0 in H.
    rewrite Z.sub_0_r in H.
    unfold q in H at 1. rewrite Hk in H.
    replace (e - Z.of_nat k) with (e + d - 53) by lia. exact H.
  - (* more than 53 digits: the low ones are zero *)
    pose proof (binary_round_aux_canonical sx q (Pos.to_nat s) (e + d - 53) Hq He) as H.
    assert (Hk : k = (Pos.to_nat s + Z.to_nat (53 - d))%nat) by lia.
    replace (Nat.iter k xO p) with (Nat.iter (Pos.to_nat s) xO q)
      by (unfold q; rewrite Hk; symmetry; apply Nat.iter_add).
    replace (e - Z.of_nat k) with (e + d - 53 - Z.of_nat (Pos.to_nat s)) by lia.
    exact H.
  - (* fewer than 53 digits: shifted left *)
    pose proof (binary_round_aux_canonical sx q O (e + d - 53) Hq He) as H.
    change (Nat.iter 0 xO q) with q in H. change (Z.of_nat 0) with 0 in H.
    rewrite Z.sub_0_r in H.
    rewrite Pos_iter_nat.
    replace (Nat.iter (Pos.to_nat s) xO (Nat.iter k xO p)) with q; [exact H|].
    unfold q. rewrite <- Nat.iter_add. f_equal. lia.
Qed.

Lemma Zpos_digits_le_53 (p : positive) :
  Z.pos p < 2 ^ 53 -> Z.pos (digits2_pos p) <= 53.
Proof.
  intros Hp. pose proof (digits2_pos_lower p) as Hd.
  destruct (Z.le_gt_cases (Z.pos (digits2_pos p)) 53) as [|Hgt]; [done|].
  assert (2 ^ 53 <= 2 ^ (Z.pos (digits2_pos p) - 1))
    by (apply Z.pow_le_mono_r; lia).
  lia.
Qed.

(** An integer below [2^53] given with a scale: [n * 2^k] at exponent
    [-k] is the float64 of [n]. *)
Lemma binary_normalize_scaled (n : Z) (k : nat) :
  0 <= n < 2 ^ 53 ->
  binary_normalize 53 1024 (n * 2 ^ Z.of_nat k) (- Z.of_nat k) false = f64_of_int n.
Proof.
  intros Hn. unfold f64_of_int. destruct n as [|p|p]; [reflexivity| |lia].
  rewrite <- Zpos_iter_xO. unfold binary_normalize.
  pose proof (Zpos_digits_le_53 p ltac:(lia)) as Hd.
  pose proof (binary_round_scaled false p k 0) as H1.
  pose proof (binary_round_scaled false p O 0) as H2.
  cbv zeta in H1, H2. change (Nat.iter 0 xO p) with p in H2.
  change (Z.of_nat 0) with 0 in H2.
  rewrite Z.sub_0_l in H1. rewrite Z.sub_0_r in H2.
  rewrite H1, H2 by lia. reflexivity.
Qed.

Lemma f64_of_int_value (n : Z) :
  0 < n < 2 ^ 53 ->
  exists m e, f64_of_int n = S754_finite false m e /\
              -52 <= e <= 0 /\ Z.pos m = n * 2 ^ (- e).
Proof.
  intros Hn. destruct n as [|p|p]; try lia.
  pose proof (Zpos_digits_le_53 p ltac:(lia)) as Hd.
  pose proof (binary_round_scaled false p O 0) as H.
  cbv zeta in H. change (Nat.iter 0 xO p) with p in H.
  change (Z.of_nat 0) with 0 in H. rewrite Z.sub_0_r in H.
  unfold f64_of_int, binary_normalize. rewrite H by lia.
  eexists _, _. split; [reflexivity|].
  assert (1 <= Z.pos (digits2_pos p)) by lia.
  split; [lia|]. rewrite Zpos_iter_xO. f_equal. f_equal. lia.
Qed.

Lemma shl_align_value (m : positive) (e e' : Z) :
  e' <= e -> Z.pos (shl_align m e e').1 = Z.pos m * 2 ^ (e - e').
Proof.
  intros He. unfold shl_align. destruct (e' - e) as [|s|s] eqn:Hs; try lia.
  - cbn [fst]. replace (e - e') with 0 by lia. lia.
  - cbn [fst]. rewrite Pos_iter_nat, Zpos_iter_xO. f_equal. f_equal. lia.
Qed.

(** The sum of two positive integers is exact up to [2^53]. *)
Lemma f64_add_of_int (n1 n2 : Z) :
  0 < n1 -> 0 < n2 -> n1 + n2 < 2 ^ 53 ->
  f64_add (f64_of_int n1) (f64_of_int n2) = f64_of_int (n1 + n2).
Proof.
  intros H1 H2 H12.
  destruct (f64_of_int_value n1) as (m1 & e1 & -> & He1 & Hm1); [lia|].
  destruct (f64_of_int_value n2) as (m2 & e2 & -> & He2 & Hm2); [lia|].
  unfold f64_add, SFadd. cbv zeta. cbn [cond_Zopp].
  rewrite !shl_align_value by lia. rewrite Hm1, Hm2.
  set (ez := Z.min e1 e2).
  rewrite <- !Z.mul_assoc, <- !Z.pow_add_r by lia.
  replace (- e1 + (e1 - ez)) with (- ez) by lia.
  replace (- e2 + (e2 - ez)) with (- ez) by lia.
  rewrite <- Z.mul_add_distr_r.
  replace ez with (- Z.of_nat (Z.to_nat (- ez))) at 2 by lia.
  replace (- ez) with (Z.of_nat (Z.to_nat (- ez))) at 1 by lia.
  apply binary_normalize_scaled. lia.
Qed.

Lemma f64_count_of_int (k : nat) :
  Z.of_nat k < 2 ^ 53 -> f64_count k = f64_of_int (Z.of_nat k).
Proof.
  induction k as [|k IH]; intros Hk; [reflexivity|].
  unfold f64_count in *. rewrite Nat.iter_succ, IH by lia.
  destruct k as [|k]; [reflexivity|].
  rewrite f64_add_of_int by lia. f_equal. lia.
Qed.

(** Twice a positive integer below [2^52] is exact. *)
Lemma f64_mul_2_of_int (n : Z) :
  0 < n < 2 ^ 52 ->
  f64_mul (f64_of_int 2) (f64_of_int n) = f64_of_int (2 * n).
Proof.
  intros Hn. destruct n as [|p|p]; try lia.
  pose proof (Zpos_digits_le_53 p ltac:(lia)) as Hd.
  pose proof (Zpos_digits_le_53 (xO p) ltac:(lia)) as Hd2.
  cbn [digits2_pos] in Hd2. rewrite Pos2Z.inj_succ in Hd2.
  set (d := Z.pos (digits2_pos p)) in *.
  assert (1 <= d) by (unfold d; lia).
  pose proof (binary_round_scaled false p O 0) as Hp.
  pose proof (binary_round_scaled false (xO p) O 0) as H2p.
  cbv zeta in Hp, H2p. change (Nat.iter 0 xO p) with p in Hp.
  change (Nat.iter 0 xO (xO p)) with (xO p) in H2p.
  change (Z.of_nat 0) with 0 in Hp, H2p. cbn [digits2_pos] in H2p.
  rewrite Pos2Z.inj_succ in H2p. fold d in Hp, H2p.
  rewrite Z.sub_0_r in Hp, H2p.
  change (2 * Z.pos p) with (Z.pos (xO p)).
  unfold f64_of_int at 2 3. unfold binary_normalize.
  rewrite Hp, H2p by lia.
  set (q := Nat.iter (Z.to_nat (53 - d)) xO p).
  assert (Hq : Z.pos (digits2_pos q) = 53).
  { unfold q. rewrite digits2_pos_nat_iter_xO. fold d. lia. }
  replace (Nat.iter (Z.to_nat (53 - Z.succ d)) xO (xO p)) with q.
  2:{ unfold q. replace (Z.to_nat (53 - d)) with (S (Z.to_nat (53 - Z.succ d))) by lia.
      now rewrite Nat.iter_succ_r. }
  change (f64_of_int 2) with (S754_finite false (Nat.iter 52 xO 1%positive) (-51)).
  unfold f64_mul, SFmul. cbn [xorb].
  replace (Nat.iter 52 xO 1 * q)%positive with (Nat.iter 52 xO q).
  2:{ apply Pos2Z.inj. rewrite Pos2Z.inj_mul, !Zpos_iter_xO. lia. }
  pose proof (binary_round_aux_canonical false q 52 (0 + Z.succ d - 53) Hq ltac:(lia))
    as Hround.
  replace (-51 + (0 + d - 53)) with (0 + Z.succ d - 53 - Z.of_nat 52) by lia.
  exact Hround.
Qed.

(** ** WhiteSimilarity on two inputs with the same bigrams *)

Section full_matching.

Context {B : Type} (eqb : B -> B -> bool) (zero : B).
Hypothesis Heqb : forall x y, eqb x y = true <-> x = y.

Lemma mark_first_elem (x : B) (slots : list B) :
  x ∈ slots ->
  exists l1 l2, slots = l1 ++ x :: l2 /\
                mark_first eqb zero x slots = Some (l1 ++ zero :: l2).
Proof.
  induction slots as [|y slots IH]; intros Hin; [now apply elem_of_nil in Hin|].
  cbn [mark_first]. destruct (eqb x y) eqn:E.
  - apply Heqb in E as <-. now exists [], slots.
  - apply elem_of_cons in Hin as [->|Hin].
    + assert (eqb y y = true) by now apply Heqb. congruence.
    + destruct (IH Hin) as (l1 & l2 & -> & ->). now exists (y :: l1), l2.
Qed.

(** When the slots hold every bigram of [xs] as many times as [xs] does,
    each bigram of [xs] finds a slot. *)
Lemma sentinel_matches_submseteq (xs slots : list B) :
  xs ⊆+ slots -> sentinel_matches eqb zero xs slots = length xs.
Proof.
  revert slots. induction xs as [|x xs IH]; intros slots Hsub; [done|].
  cbn [sentinel_matches length].
  assert (Hin : x ∈ slots).
  { apply submseteq_cons_l in Hsub as (k & Hk & _). rewrite Hk. apply list_elem_of_here. }
  destruct (mark_first_elem x slots Hin) as (l1 & l2 & -> & ->).
  f_equal. apply IH.
  rewrite <- Permutation_middle in Hsub.
  apply (submseteq_app_inv_l _ _ [x]) in Hsub.
  rewrite <- Permutation_middle. now apply submseteq_cons.
Qed.

End full_matching.

Lemma f64_ratio_one (n : Z) :
  0 < n < 2 ^ 52 ->
  f64_div (f64_mul (f64_of_int 2) (f64_count (Z.to_nat n))) (f64_of_int (n + n))
  = f64_of_int 1.
Proof.
  intros Hn. rewrite f64_count_of_int by lia. rewrite Z2Nat.id by lia.
  rewrite f64_mul_2_of_int by lia. replace (n + n) with (2 * n) by lia.
  destruct (f64_of_int_finite (2 * n)) as (m & e & ->); [lia|].
  apply f64_div_self.
Qed.

(** WhiteSimilarity returns 1.0 whenever the bigram lists of the two inputs
    hold the same bigrams the same number of times, in any order, as on an
    input against itself or against its words in another order (inputs of
    at most [2^52] units with at least one bigram). *)
Theorem WhiteSimilarity_one_on_same_bigrams (a b : list Z) :
  len a <= 2 ^ 52 ->
  (forall IsSpace ToUpper,
     upper_word_pairs IsSpace ToUpper a <> [] ->
     upper_word_pairs IsSpace ToUpper a ≡ₚ upper_word_pairs IsSpace ToUpper b ->
     runewise.WhiteSimilarity IsSpace ToUpper a b = Ok (f64_of_int 1)) /\
  (ascii_word_pairs a <> [] ->
   ascii_word_pairs a ≡ₚ ascii_word_pairs b ->
   bytewise.WhiteSimilarity a b = Ok (f64_of_int 1)).
Proof.
  intros Hlen. split.
  - intros IsSpace ToUpper Hne Hperm.
    rewrite (runewise_WhiteSimilarity_ratio IsSpace ToUpper a b _ _
               (upperWordLetterPairs_is_word_pairs IsSpace ToUpper a)
               (upperWordLetterPairs_is_word_pairs IsSpace ToUpper b)).
    pose proof (word_pairs_length IsSpace
                  (fun x y => runewise.mkRuneBigram (ToUpper x) (ToUpper y)) a) as Hn.
    fold (upper_word_pairs IsSpace ToUpper a) in Hn.
    rewrite (sentinel_matches_submseteq _ _ runewise_bigram_eqb_eq)
      by now apply Permutation_submseteq.
    unfold len in *. rewrite <- (Permutation_length Hperm).
    set (n := length (upper_word_pairs IsSpace ToUpper a)) in *.
    assert (0 < n)%nat.
    { unfold n. destruct (upper_word_pairs IsSpace ToUpper a); [done|cbn; lia]. }
    destruct (Z.eqb_spec (Z.of_nat n + Z.of_nat n) 0); [lia|].
    f_equal. rewrite <- (Nat2Z.id n) at 1. apply f64_ratio_one. lia.
  - intros Hne Hperm.
    rewrite (bytewise_WhiteSimilarity_ratio a b _ _
               (asciiUpperWordLetterPairs_is_word_pairs a)
               (asciiUpperWordLetterPairs_is_word_pairs b)).
    assert (Hn : (length (ascii_word_pairs a) <= length a - 1)%nat)
      by apply word_pairs_length.
    rewrite (sentinel_matches_submseteq _ _ bytewise_bigram_eqb_eq)
      by now apply Permutation_submseteq.
    unfold len in *. rewrite <- (Permutation_length Hperm).
    set (n := length (ascii_word_pairs a)) in *.
    assert (0 < n)%nat.
    { unfold n. destruct (ascii_word_pairs a); [done|cbn; lia]. }
    destruct (Z.eqb_spec (Z.of_nat n + Z.of_nat n) 0); [lia|].
    f_equal. rewrite <- (Nat2Z.id n) at 1. apply f64_ratio_one. lia.
Qed.

Lemma WhiteSimilarity_one_on_same_bigrams_witness :
  runewise.WhiteSimilarity ascii_IsSpace ascii_ToUpper
    (bytes "ab cd") (bytes "CD  ab") = Ok (f64_of_int 1) /\
  bytewise.WhiteSimilarity (bytes "ab cd") (bytes "CD  ab") = Ok (f64_of_int 1).
Proof.
  destruct (WhiteSimilarity_one_on_same_bigrams (bytes "ab cd") (bytes "CD  ab"))
    as [Hr Hb]; [vm_compute; discriminate|].
  split.
  - apply Hr; [vm_compute; discriminate|]. vm_compute. apply perm_swap.
  - apply Hb; [vm_compute; discriminate|]. vm_compute. apply perm_swap.
Defined.

(** ** JaroWinklerSimilarity on empty and on equal inputs *)

Lemma commonPrefixLength_self (a : list Z) : commonPrefixLength a a = len a.
Proof.
  unfold len. induction a as [|x a IH]; [done|].
  cbn [commonPrefixLength length]. rewrite Z.eqb_refl, IH. lia.
Qed.

(** JaroWinklerSimilarity returns 0.0 when either input is empty, and 1.0
    on a non-empty input against itself: the prefix bonus is a multiple of
    [1 - 1.0]. *)
Theorem JaroWinklerSimilarity_empty_and_self :
  (forall a b, a = [] \/ b = [] ->
     runewise.JaroWinklerSimilarity a b = Ok (f64_of_int 0)) /\
  (forall a, a <> [] -> len a < 2 ^ 53 ->
     runewise.JaroWinklerSimilarity a a = Ok (f64_of_int 1)).
Proof.
  split.
  - intros a b Hab.
    assert (Hj : runewise.JaroSimilarity a b = Ok (f64_of_int 0)).
    { unfold runewise.JaroSimilarity, runewise.jaroMatchesAndHalfTranspositions.
      destruct Hab as [-> | ->]; [done|].
      cbn [len length Z.of_nat]. now rewrite orb_true_r. }
    unfold runewise.JaroWinklerSimilarity, runewise.JaroWinklerSimilarityParametric.
    rewrite Hj. reflexivity.
  - intros a Ha Hlen.
    unfold runewise.JaroWinklerSimilarity, runewise.JaroWinklerSimilarityParametric.
    rewrite (JaroSimilarity_self a Ha Hlen). cbn [bind].
    change (f64_ltb (f64_of_int 1) runewise.WinklerBoostThreshold) with false.
    cbv iota. rewrite clampedSharedPrefixLength_min, commonPrefixLength_self.
    cbn [bind]. f_equal.
    assert (Hc : 1 <= Z.min (len a) (Z.max runewise.WinklerMaxPrefixLength 0) <= 4).
    { unfold runewise.WinklerMaxPrefixLength, len.
      destruct a; [done|]. cbn [length]. lia. }
    set (c := Z.min (len a) (Z.max runewise.WinklerMaxPrefixLength 0)) in *.
    assert (c = 1 \/ c = 2 \/ c = 3 \/ c = 4) as [-> | [-> | [-> | ->]]] by lia;
      vm_compute; reflexivity.
Qed.

Lemma JaroWinklerSimilarity_empty_and_self_witness :
  runewise.JaroWinklerSimilarity [] (bytes "martha") = Ok (f64_of_int 0) /\
  runewise.JaroWinklerSimilarity (bytes "martha") (bytes "martha") = Ok (f64_of_int 1).
Proof.
  destruct JaroWinklerSimilarity_empty_and_self as [Hempty Hself].
  split.
  - apply Hempty. now left.
  - apply Hself; [discriminate|vm_compute; reflexivity].
Defined.

(** ** DiceCoefficient: the ratio of the sets of distinct bigrams *)

Lemma for_range_foldl {St K : Type} (l : list K) (step : St -> K -> St)
  (body : Z -> St -> result St) (i0 : Z) (s : St) :
  (forall k x s, l !! k = Some x -> body (i0 + Z.of_nat k) s = Ok (step s x)) ->
  for_range (length l) i0 body s = Ok (foldl step s l).
Proof.
  revert i0 s. induction l as [|x l IH]; intros i0 s Hbody; [done|].
  cbn [length for_range foldl].
  pose proof (Hbody O x s eq_refl) as H0. rewrite Z.add_0_r in H0. rewrite H0.
  cbn [bind]. apply IH. intros k y s' Hy.
  rewrite <- (Hbody (S k) y s' Hy). f_equal. lia.
Qed.

Lemma f64_count_S (c : nat) :
  f64_add (f64_count c) (f64_of_int 1) = f64_count (S c).
Proof. unfold f64_count. now rewrite Nat.iter_succ. Qed.

Lemma holds_empty `{Countable K} : holds (∅ : gmap K bool) (∅ : gset K).
Proof. intros k. unfold map_get. rewrite lookup_empty. cbn. set_solver. Qed.

Lemma holds_insert `{Countable K} (m : gmap K bool) (X : gset K) (k : K) :
  holds m X -> holds (<[k := true]> m) (X ∪ {[k]}).
Proof.
  intros Hm k'. unfold map_get. destruct (decide (k' = k)) as [->|Hne].
  - rewrite lookup_insert_eq. cbn. set_solver.
  - rewrite lookup_insert_ne by done. specialize (Hm k'). unfold map_get in Hm.
    set_solver.
Qed.

Lemma holds_get `{Countable K} (m : gmap K bool) (X : gset K) (k : K) :
  holds m X -> map_get m k = bool_decide (k ∈ X).
Proof.
  intros Hm. specialize (Hm k). destruct (map_get m k).
  - symmetry. apply bool_decide_eq_true. now apply Hm.
  - symmetry. apply bool_decide_eq_false. intros Hin. apply Hm in Hin. done.
Qed.

(** The first loop: the distinct bigrams of [a] are counted. *)
Lemma dice_first_loop `{Countable K} (ks : list K) (m : gmap K bool) (X : gset K) (c : nat) :
  holds m X ->
  exists m',
    foldl (fun (st : gmap K bool * float64) (k : K) =>
             let '(aSet, totalBigrams) := st in
             if negb (map_get aSet k)
             then (<[k := true]> aSet, f64_add totalBigrams (f64_of_int 1))
             else (aSet, totalBigrams)) (m, f64_count c) ks
    = (m', f64_count (c + size (list_to_set ks ∖ X))) /\
    holds m' (X ∪ list_to_set ks).
Proof.
  revert m X c. induction ks as [|k ks IH]; intros m X c Hm.
  - exists m. cbn [foldl list_to_set].
    replace (∅ ∖ X) with (∅ : gset K) by set_solver.
    rewrite size_empty, Nat.add_0_r. split; [done|].
    now replace (X ∪ ∅) with X by set_solver.
  - cbn [foldl list_to_set]. rewrite (holds_get m X k Hm).
    destruct (decide (k ∈ X)) as [Hin|Hin].
    + rewrite bool_decide_eq_true_2 by done. cbn [negb].
      destruct (IH m X c Hm) as (m' & -> & Hm'). exists m'. split.
      * do 2 f_equal. f_equal. f_equal. set_solver.
      * now replace (X ∪ ({[k]} ∪ list_to_set ks)) with (X ∪ list_to_set ks)
          by set_solver.
    + rewrite bool_decide_eq_false_2 by done. cbn [negb]. rewrite f64_count_S.
      destruct (IH _ _ (S c) (holds_insert m X k Hm)) as (m' & -> & Hm').
      exists m'. split.
      * do 2 f_equal.
        replace (({[k]} ∪ list_to_set ks) ∖ X)
          with ({[k]} ∪ (list_to_set ks ∖ (X ∪ {[k]})) : gset K).
        2:{ apply set_eq. intros x. destruct (decide (x = k)); set_solver. }
        assert (Hdisj : ({[k]} : gset K) ## list_to_set ks ∖ (X ∪ {[k]}))
          by set_solver.
        rewrite (size_union _ _ Hdisj), size_singleton. lia.
      * now replace (X ∪ ({[k]} ∪ list_to_set ks)) with (X ∪ {[k]} ∪ list_to_set ks)
          by set_solver.
Qed.

(** The second loop: the distinct bigrams of [b] are counted, and those
    of them that [a] has. *)
Lemma dice_second_loop `{Countable K} (aSet : gmap K bool) (A : gset K) (ks : list K)
  (m : gmap K bool) (X : gset K) (c d : nat) :
  holds aSet A -> holds m X ->
  exists m',
    foldl (fun (st : gmap K bool * float64 * float64) (k : K) =>
             let '(bSet, totalBigrams, sharedBigrams) := st in
             if negb (map_get bSet k)
             then
               if map_get aSet k
               then (<[k := true]> bSet, f64_add totalBigrams (f64_of_int 1),
                     f64_add sharedBigrams (f64_of_int 1))
               else (<[k := true]> bSet, f64_add totalBigrams (f64_of_int 1),
                     sharedBigrams)
             else (bSet, totalBigrams, sharedBigrams))
          (m, f64_count c, f64_count d) ks
    = (m', f64_count (c + size (list_to_set ks ∖ X)),
       f64_count (d + size ((list_to_set ks ∖ X) ∩ A))) /\
    holds m' (X ∪ list_to_set ks).
Proof.
  intros HA. revert m X c d. induction ks as [|k ks IH]; intros m X c d Hm.
  - exists m. cbn [foldl list_to_set].
    replace (∅ ∖ X) with (∅ : gset K) by set_solver.
    replace (∅ ∩ A) with (∅ : gset K) by set_solver.
    rewrite size_empty, !Nat.add_0_r. split; [done|].
    now replace (X ∪ ∅) with X by set_solver.
  - cbn [foldl list_to_set]. rewrite (holds_get m X k Hm), (holds_get aSet A k HA).
    destruct (decide (k ∈ X)) as [Hin|Hin].
    + rewrite bool_decide_eq_true_2 by done. cbn [negb].
      destruct (IH m X c d Hm) as (m' & -> & Hm'). exists m'. split.
      * replace (({[k]} ∪ list_to_set ks) ∖ X) with (list_to_set ks ∖ X : gset K)
          by set_solver. reflexivity.
      * now replace (X ∪ ({[k]} ∪ list_to_set ks)) with (X ∪ list_to_set ks)
          by set_solver.
    + rewrite bool_decide_eq_false_2 by done. cbn [negb].
      assert (Hsplit : ({[k]} ∪ list_to_set ks) ∖ X
                       = ({[k]} ∪ (list_to_set ks ∖ (X ∪ {[k]})) : gset K)).
      { apply set_eq. intros x. destruct (decide (x = k)); set_solver. }
      assert (Hdisj : ({[k]} : gset K) ## list_to_set ks ∖ (X ∪ {[k]}))
        by set_solver.
      assert (Hdisj' : ({[k]} : gset K) ## (list_to_set ks ∖ (X ∪ {[k]})) ∩ A)
        by set_solver.
      destruct (decide (k ∈ A)) as [HinA|HinA].
      * rewrite bool_decide_eq_true_2 by done. rewrite !f64_count_S.
        destruct (IH _ _ (S c) (S d) (holds_insert m X k Hm)) as (m' & -> & Hm').
        exists m'. split.
        -- rewrite Hsplit. f_equal; [f_equal|]; f_equal.
           ++ rewrite (size_union _ _ Hdisj), size_singleton. lia.
           ++ replace (({[k]} ∪ list_to_set ks ∖ (X ∪ {[k]})) ∩ A)
                with ({[k]} ∪ (list_to_set ks ∖ (X ∪ {[k]})) ∩ A : gset K)
                by set_solver.
              rewrite (size_union _ _ Hdisj'), size_singleton. lia.
        -- now replace (X ∪ ({[k]} ∪ list_to_set ks))
             with (X ∪ {[k]} ∪ list_to_set ks) by set_solver.
      * rewrite bool_decide_eq_false_2 by done. rewrite f64_count_S.
        destruct (IH _ _ (S c) d (holds_insert m X k Hm)) as (m' & -> & Hm').
        exists m'. split.
        -- rewrite Hsplit. f_equal; [f_equal|]; f_equal.
           ++ rewrite (size_union _ _ Hdisj), size_singleton. lia.
           ++ f_equal. f_equal. set_solver.
        -- now replace (X ∪ ({[k]} ∪ list_to_set ks))
             with (X ∪ {[k]} ∪ list_to_set ks) by set_solver.
Qed.

Lemma size_list_to_set_le `{Countable K} (l : list K) :
  (size (list_to_set l : gset K) <= length l)%nat.
Proof.
  induction l as [|x l IH]; [cbn [list_to_set]; now rewrite size_empty|].
  cbn [list_to_set length]. rewrite size_union_alt, size_singleton.
  pose proof (subseteq_size (list_to_set l ∖ {[x]}) (list_to_set l : gset K)
                ltac:(set_solver)). lia.
Qed.


Lemma length_tail_list {A : Type} (l : list A) : length (tail l) = (length l - 1)%nat.
Proof. destruct l; cbn; lia. Qed.

Lemma length_rune_bigrams (a : list Z) :
  length (rune_bigrams a) = Z.to_nat (len a - 1 - 0).
Proof.
  unfold rune_bigrams, len. rewrite length_zip_with, length_tail_list. lia.
Qed.

Lemma length_byte_bigrams (a : list Z) :
  length (byte_bigrams a) = Z.to_nat (len a - 1 - 0).
Proof.
  unfold byte_bigrams, len. rewrite length_zip_with, length_tail_list. lia.
Qed.

Lemma lookup_bigrams {B : Type} (mk : Z -> Z -> B) (a : list Z) (k : nat) (x : B) :
  zip_with mk a (tail a) !! k = Some x ->
  exists y z, a !! k = Some y /\ a !! S k = Some z /\ x = mk y z.
Proof.
  rewrite lookup_zip_with_Some, lookup_tail. intros (y & z & -> & Hy & Hz). eauto.
Qed.

Lemma slice_two (a : list Z) (k : nat) (y z : Z) :
  a !! k = Some y -> a !! S k = Some z ->
  slice a (0 + Z.of_nat k) (0 + Z.of_nat k + 2) = Ok [y; z].
Proof.
  intros Hy Hz. unfold slice, len.
  pose proof (lookup_lt_Some _ _ _ Hz).
  destruct (Z.leb_spec 0 (0 + Z.of_nat k)); [|lia].
  destruct (Z.leb_spec (0 + Z.of_nat k) (0 + Z.of_nat k + 2)); [|lia].
  destruct (Z.leb_spec (0 + Z.of_nat k + 2) (Z.of_nat (length a))); [|lia].
  cbn [andb]. f_equal.
  replace (Z.to_nat (0 + Z.of_nat k + 2 - (0 + Z.of_nat k))) with 2%nat by lia.
  replace (Z.to_nat (0 + Z.of_nat k)) with k by lia.
  rewrite (drop_S a y k Hy). cbn [take]. f_equal.
  rewrite (drop_S a z (S k) Hz). reflexivity.
Qed.

Lemma runewise_Dice_is_ratio (a b : list Z) :
  2 <= len a \/ 2 <= len b ->
  runewise.DiceCoefficient a b =
  Ok (dice_ratio (list_to_set (rune_bigrams a)) (list_to_set (rune_bigrams b))).
Proof.
  intros Hlen. unfold runewise.DiceCoefficient. cbv zeta.
  destruct (Z.ltb_spec (len a - 1) 1), (Z.ltb_spec (len b - 1) 1);
    cbn [andb]; try lia.
  all: unfold for_loop; rewrite <- !length_rune_bigrams.
  all: rewrite (for_range_foldl (rune_bigrams a)
         (fun (st : gmap runewise.runeBigram bool * float64) k =>
            let '(aSet, totalBigrams) := st in
            if negb (map_get aSet k)
            then (<[k := true]> aSet, f64_add totalBigrams (f64_of_int 1))
            else (aSet, totalBigrams)));
    [|intros k x [aSet t] Hx;
      destruct (lookup_bigrams _ a k x Hx) as (y & z & Hy & Hz & ->);
      rewrite (index_at a _ k y), (index_at a _ (S k) z) by (done || lia);
      cbn [bind]; now destruct (negb _)].
  all: destruct (dice_first_loop (rune_bigrams a) ∅ ∅ 0 holds_empty)
         as (aSet & Hfa & HA);
    change (f64_count 0) with (f64_of_int 0) in Hfa; rewrite Hfa; cbn [bind].
  all: rewrite (for_range_foldl (rune_bigrams b)
         (fun (st : gmap runewise.runeBigram bool * float64 * float64) k =>
            let '(bSet, totalBigrams, sharedBigrams) := st in
            if negb (map_get bSet k)
            then
              if map_get aSet k
              then (<[k := true]> bSet, f64_add totalBigrams (f64_of_int 1),
                    f64_add sharedBigrams (f64_of_int 1))
              else (<[k := true]> bSet, f64_add totalBigrams (f64_of_int 1),
                    sharedBigrams)
            else (bSet, totalBigrams, sharedBigrams)));
    [|intros k x [[bSet t] sh] Hx;
      destruct (lookup_bigrams _ b k x Hx) as (y & z & Hy & Hz & ->);
      rewrite (index_at b _ k y), (index_at b _ (S k) z) by (done || lia);
      cbn [bind]; destruct (negb _); [|done]; now destruct (map_get aSet _)].
  all: destruct (dice_second_loop aSet _ (rune_bigrams b) ∅ ∅
                   (0 + size (list_to_set (rune_bigrams a) ∖ (∅ : gset _))) 0
                   HA holds_empty) as (bSet & Hfb & _);
    change (f64_count 0) with (f64_of_int 0) in Hfb; rewrite Hfb; cbn [bind].
  all: unfold dice_ratio;
    rewrite !difference_empty_L, (left_id_L ∅ (∪)), (comm_L (∩)); reflexivity.
Qed.

Lemma bytewise_Dice_is_ratio (a b : list Z) :
  2 <= len a \/ 2 <= len b ->
  bytewise.DiceCoefficient a b =
  Ok (dice_ratio (list_to_set (byte_bigrams a)) (list_to_set (byte_bigrams b))).
Proof.
  intros Hlen. unfold bytewise.DiceCoefficient. cbv zeta.
  destruct (Z.ltb_spec (len a - 1) 1), (Z.ltb_spec (len b - 1) 1);
    cbn [andb]; try lia.
  all: unfold for_loop; rewrite <- !length_byte_bigrams.
  all: rewrite (for_range_foldl (byte_bigrams a)
         (fun (st : gmap (list Z) bool * float64) k =>
            let '(aSet, totalBigrams) := st in
            if negb (map_get aSet k)
            then (<[k := true]> aSet, f64_add totalBigrams (f64_of_int 1))
            else (aSet, totalBigrams)));
    [|intros k x [aSet t] Hx;
      destruct (lookup_bigrams _ a k x Hx) as (y & z & Hy & Hz & ->);
      rewrite (slice_two a k y z Hy Hz); cbn [bind]; now destruct (negb _)].
  all: destruct (dice_first_loop (byte_bigrams a) ∅ ∅ 0 holds_empty)
         as (aSet & Hfa & HA);
    change (f64_count 0) with (f64_of_int 0) in Hfa; rewrite Hfa; cbn [bind].
  all: rewrite (for_range_foldl (byte_bigrams b)
         (fun (st : gmap (list Z) bool * float64 * float64) k =>
            let '(bSet, totalBigrams, sharedBigrams) := st in
            if negb (map_get bSet k)
            then
              if map_get aSet k
              then (<[k := true]> bSet, f64_add totalBigrams (f64_of_int 1),
                    f64_add sharedBigrams (f64_of_int 1))
              else (<[k := true]> bSet, f64_add totalBigrams (f64_of_int 1),
                    sharedBigrams)
            else (bSet, totalBigrams, sharedBigrams)));
    [|intros k x [[bSet t] sh] Hx;
      destruct (lookup_bigrams _ b k x Hx) as (y & z & Hy & Hz & ->);
      rewrite (slice_two b k y z Hy Hz); cbn [bind];
      destruct (negb _); [|done]; now destruct (map_get aSet _)].
  all: destruct (dice_second_loop aSet _ (byte_bigrams b) ∅ ∅
                   (0 + size (list_to_set (byte_bigrams a) ∖ (∅ : gset _))) 0
                   HA holds_empty) as (bSet & Hfb & _);
    change (f64_count 0) with (f64_of_int 0) in Hfb; rewrite Hfb; cbn [bind].
  all: unfold dice_ratio;
    rewrite !difference_empty_L, (left_id_L ∅ (∪)), (comm_L (∩)); reflexivity.
Qed.

Lemma dice_ratio_comm `{Countable K} (A B : gset K) : dice_ratio A B = dice_ratio B A.
Proof.
  unfold dice_ratio. rewrite (comm_L (∩) A B), (Nat.add_comm (size A)). reflexivity.
Qed.

(** DiceCoefficient, where it does not fail, returns the Sorensen-Dice
    ratio of the sets of distinct bigrams of its inputs: twice the number of
    bigrams in both sets, over the sum of the sizes of the two sets.  A
    bigram that an input repeats counts once. *)
Theorem DiceCoefficient_is_set_ratio (a b : list Z) :
  2 <= len a \/ 2 <= len b ->
  runewise.DiceCoefficient a b =
    Ok (dice_ratio (list_to_set (rune_bigrams a)) (list_to_set (rune_bigrams b))) /\
  bytewise.DiceCoefficient a b =
    Ok (dice_ratio (list_to_set (byte_bigrams a)) (list_to_set (byte_bigrams b))).
Proof.
  intros Hlen. split.
  - now apply runewise_Dice_is_ratio.
  - now apply bytewise_Dice_is_ratio.
Qed.

Lemma DiceCoefficient_is_set_ratio_witness :
  runewise.DiceCoefficient (bytes "night") (bytes "nacht") =
    Ok (dice_ratio (list_to_set (rune_bigrams (bytes "night")))
                   (list_to_set (rune_bigrams (bytes "nacht")))) /\
  bytewise.DiceCoefficient (bytes "night") (bytes "nacht") =
    Ok (dice_ratio (list_to_set (byte_bigrams (bytes "night")))
                   (list_to_set (byte_bigrams (bytes "nacht")))).
Proof.
  apply (DiceCoefficient_is_set_ratio (bytes "night") (bytes "nacht")).
  left. vm_compute. discriminate.
Defined.

(** DiceCoefficient does not depend on the order of its two arguments,
    the error included. *)
Theorem DiceCoefficient_symmetric (a b : list Z) :
  runewise.DiceCoefficient a b = runewise.DiceCoefficient b a /\
  bytewise.DiceCoefficient a b = bytewise.DiceCoefficient b a.
Proof.
  destruct (decide (2 <= len a \/ 2 <= len b)) as [Hlen|Hlen].
  - rewrite !runewise_Dice_is_ratio, !bytewise_Dice_is_ratio by tauto.
    split; f_equal; apply dice_ratio_comm.
  - unfold runewise.DiceCoefficient, bytewise.DiceCoefficient. cbv zeta.
    destruct (Z.ltb_spec (len a - 1) 1), (Z.ltb_spec (len b - 1) 1);
      cbn [andb]; try lia. done.
Qed.

Lemma bigram_set_size `{Countable K} (mk : Z -> Z -> K) (a : list Z) :
  (size (list_to_set (zip_with mk a (tail a)) : gset K) <= length a - 1)%nat /\
  (2 <= len a -> (0 < size (list_to_set (zip_with mk a (tail a)) : gset K))%nat).
Proof.
  split.
  - etrans; [apply size_list_to_set_le|]. rewrite length_zip_with, length_tail_list. lia.
  - intros Hlen. destruct a as [|x [|y a]]; try (unfold len in Hlen; cbn in Hlen; lia).
    cbn [tail zip_with list_to_set].
    assert (Hin : mk x y ∈ ({[mk x y]} ∪ list_to_set (zip_with mk (y :: a) a) : gset K))
      by set_solver.
    destruct (size _) eqn:Hs; [|lia]. apply size_empty_inv in Hs. set_solver.
Qed.

Lemma dice_ratio_same `{Countable K} (A : gset K) :
  (0 < size A)%nat -> Z.of_nat (size A) < 2 ^ 52 ->
  dice_ratio A A = f64_of_int 1.
Proof.
  intros Hpos Hlt. unfold dice_ratio.
  replace (A ∩ A) with A by set_solver.
  rewrite (f64_count_of_int (size A + size A)) by lia.
  rewrite Nat2Z.inj_add. rewrite <- (Nat2Z.id (size A)) at 1.
  apply f64_ratio_one. lia.
Qed.

Lemma dice_ratio_disjoint `{Countable K} (A B : gset K) :
  A ∩ B = ∅ -> (0 < size A + size B)%nat -> Z.of_nat (size A + size B) < 2 ^ 53 ->
  dice_ratio A B = f64_of_int 0.
Proof.
  intros Hdisj Hpos Hlt. unfold dice_ratio. rewrite Hdisj, size_empty.
  rewrite (f64_count_of_int (size A + size B)) by done.
  destruct (f64_of_int_finite (Z.of_nat (size A + size B))) as (m & e & ->); [lia|].
  reflexivity.
Qed.

(** DiceCoefficient returns 1.0 when the two inputs have the same set of
    distinct bigrams, so on an input of two units or more against itself,
    and 0.0 when they have no bigram in common (inputs of at most [2^52]
    units). *)
Theorem DiceCoefficient_one_and_zero (a b : list Z) :
  2 <= len a -> len a <= 2 ^ 52 -> len b <= 2 ^ 52 ->
  ((list_to_set (rune_bigrams a) : gset _) = list_to_set (rune_bigrams b) ->
   runewise.DiceCoefficient a b = Ok (f64_of_int 1)) /\
  ((list_to_set (byte_bigrams a) : gset _) = list_to_set (byte_bigrams b) ->
   bytewise.DiceCoefficient a b = Ok (f64_of_int 1)) /\
  ((list_to_set (rune_bigrams a) : gset _) ∩ list_to_set (rune_bigrams b) = ∅ ->
   runewise.DiceCoefficient a b = Ok (f64_of_int 0)) /\
  ((list_to_set (byte_bigrams a) : gset _) ∩ list_to_set (byte_bigrams b) = ∅ ->
   bytewise.DiceCoefficient a b = Ok (f64_of_int 0)) /\
  runewise.DiceCoefficient a a = Ok (f64_of_int 1) /\
  bytewise.DiceCoefficient a a = Ok (f64_of_int 1).
Proof.
  intros Ha Hla Hlb.
  destruct (bigram_set_size runewise.mkRuneBigram a) as [Hra Hra'].
  destruct (bigram_set_size runewise.mkRuneBigram b) as [Hrb _].
  destruct (bigram_set_size (fun x y => [x; y]) a) as [Hba Hba'].
  destruct (bigram_set_size (fun x y => [x; y]) b) as [Hbb _].
  fold (rune_bigrams a) in Hra, Hra'. fold (rune_bigrams b) in Hrb.
  fold (byte_bigrams a) in Hba, Hba'. fold (byte_bigrams b) in Hbb.
  specialize (Hra' Ha). specialize (Hba' Ha). unfold len in *.
  assert (Hsame_r : runewise.DiceCoefficient a a = Ok (f64_of_int 1)).
  { rewrite runewise_Dice_is_ratio by (unfold len; lia). f_equal.
    apply dice_ratio_same; lia. }
  assert (Hsame_b : bytewise.DiceCoefficient a a = Ok (f64_of_int 1)).
  { rewrite bytewise_Dice_is_ratio by (unfold len; lia). f_equal.
    apply dice_ratio_same; lia. }
  repeat split; try done.
  - intros Heq. rewrite runewise_Dice_is_ratio by (unfold len; lia). f_equal.
    rewrite <- Heq. apply dice_ratio_same; lia.
  - intros Heq. rewrite bytewise_Dice_is_ratio by (unfold len; lia). f_equal.
    rewrite <- Heq. apply dice_ratio_same; lia.
  - intros Hdisj. rewrite runewise_Dice_is_ratio by (unfold len; lia). f_equal.
    apply dice_ratio_disjoint; [done|lia|lia].
  - intros Hdisj. rewrite bytewise_Dice_is_ratio by (unfold len; lia). f_equal.
    apply dice_ratio_disjoint; [done|lia|lia].
Qed.

Lemma DiceCoefficient_one_and_zero_witness :
  runewise.DiceCoefficient (bytes "abab") (bytes "aba") = Ok (f64_of_int 1) /\
  bytewise.DiceCoefficient (bytes "abab") (bytes "aba") = Ok (f64_of_int 1) /\
  runewise.DiceCoefficient (bytes "ab") (bytes "ba") = Ok (f64_of_int 0) /\
  bytewise.DiceCoefficient (bytes "ab") (bytes "ba") = Ok (f64_of_int 0).
Proof.
  destruct (DiceCoefficient_one_and_zero (bytes "abab") (bytes "aba"))
    as (H1 & H2 & _); [vm_compute; discriminate..|].
  destruct (DiceCoefficient_one_and_zero (bytes "ab") (bytes "ba"))
    as (_ & _ & H3 & H4 & _); [vm_compute; discriminate..|].
  split; [|split; [|split]].
  - apply H1. apply set_eq. intros x. cbn. set_solver.
  - apply H2. apply set_eq. intros x. cbn. set_solver.
  - apply H3. apply set_eq. intros x. cbn. set_solver.
  - apply H4. apply set_eq. intros x. cbn. set_solver.
Defined.

(** ** JaroSimilarity: the matches counted, and where the call panics *)

Lemma jaro_hits_elem (a b : list Z) (i : nat) (j : Z) :
  j ∈ jaro_hits a b i -> 0 <= j < len b /\ b !! Z.to_nat j = a !! i.
Proof.
  unfold jaro_hits. destruct (a !! i) as [x|]; [|intros H; inversion H].
  rewrite list_elem_of_filter. intros [Hb Hj]. unfold jaro_window in Hj.
  apply elem_of_seqZ in Hj. split; [|done].
  apply lookup_lt_Some in Hb. unfold len. lia.
Qed.

Lemma jaro_matched_units_S (a b : list Z) (n : nat) :
  jaro_matched_units a b (S n) =
  jaro_matched_units a b n ++
    (if decide (jaro_hits a b n = []) then [] else option_list (a !! n)).
Proof.
  unfold jaro_matched_units. rewrite seq_S, omap_app. cbn [plus omap list_omap].
  f_equal. destruct (decide _); [done|]. now destruct (a !! n).
Qed.

Lemma jaro_matched_positions_S (a b : list Z) (n : nat) :
  jaro_matched_positions a b (S n) =
  jaro_matched_positions a b n ∪ list_to_set (jaro_hits a b n).
Proof.
  unfold jaro_matched_positions.
  rewrite seq_S, bind_app, list_to_set_app_L. cbn [plus].
  f_equal. cbn. now rewrite app_nil_r.
Qed.

Lemma jaro_matched_units_length (a b : list Z) (n : nat) :
  (length (jaro_matched_units a b n) <= n)%nat.
Proof.
  induction n as [|n IH]; [done|]. rewrite jaro_matched_units_S, length_app.
  destruct (decide _); cbn [length]; [lia|]. destruct (a !! n); cbn; lia.
Qed.

Lemma jaro_matched_positions_range (a b : list Z) (n : nat) (j : Z) :
  j ∈ jaro_matched_positions a b n -> 0 <= j < len b.
Proof.
  induction n as [|n IH].
  - unfold jaro_matched_positions. cbn. set_solver.
  - rewrite jaro_matched_positions_S, elem_of_union, elem_of_list_to_set.
    intros [H|H]; [auto|]. now apply jaro_hits_elem in H.
Qed.

(** The loop over the window of one unit of [a]. *)
Lemma jaro_inner_loop (a b : list Z) (i : nat) (x : Z) (matchMax : Z)
  (aCommon : list Z) (num : nat) (bM : gmap Z bool) :
  a !! i = Some x -> (num < length aCommon)%nat ->
  matchMax = Z.max (Z.quot (len a) 2 - 1) 0 ->
  let from := if Z.of_nat i - matchMax <? 0 then 0 else Z.of_nat i - matchMax in
  let to := if Z.of_nat i + matchMax >=? len b then len b - 1
            else Z.of_nat i + matchMax in
  exists bM',
    for_loop from (to + 1)
      (fun j '(aCommon, numAMatched, bMatchedIndices, aMatched) =>
         bj <- index b j ;;
         if negb (x =? bj)
         then Ok (aCommon, numAMatched, bMatchedIndices, aMatched)
         else
           st <- (if negb aMatched
                  then
                    aCommon <- assign aCommon numAMatched x ;;
                    Ok (aCommon, numAMatched + 1, true)
                  else Ok (aCommon, numAMatched, aMatched)) ;;
           let '(aCommon, numAMatched, aMatched) := st in
           let bMatchedIndices :=
             match bMatchedIndices !! j with
             | Some _ => bMatchedIndices
             | None => <[j := true]> bMatchedIndices
             end in
           Ok (aCommon, numAMatched, bMatchedIndices, aMatched))
      (aCommon, Z.of_nat num, bM, false) =
    Ok (if decide (jaro_hits a b i = [])
        then (aCommon, Z.of_nat num, bM', false)
        else (<[num := x]> aCommon, Z.of_nat num + 1, bM', true)) /\
    dom bM' = dom bM ∪ list_to_set (jaro_hits a b i).
Proof.
  intros Hx Hnum HM from to.
  assert (Hfrom : from = Z.max (Z.of_nat i - matchMax) 0).
  { subst from. destruct (Z.ltb_spec (Z.of_nat i - matchMax) 0); lia. }
  assert (Hto : to = Z.min (Z.of_nat i + matchMax) (len b - 1)).
  { subst to. destruct (Z.geb_spec (Z.of_nat i + matchMax) (len b)); lia. }
  clearbody from to.
  set (hits k := filter (fun j => b !! Z.to_nat j = Some x) (seqZ from (Z.of_nat k))).
  assert (Hhits : jaro_hits a b i = hits (Z.to_nat (to + 1 - from))).
  { unfold jaro_hits, jaro_window, hits. rewrite Hx, <- HM, <- Hfrom, <- Hto.
    f_equal. unfold seqZ. now rewrite Nat2Z.id. }
  rewrite Hhits. unfold for_loop.
  match goal with
  | |- exists bM', for_range ?n ?i0 ?body ?s0 = _ /\ _ =>
      destruct (for_range_inv
        (fun k (st : list Z * Z * gmap Z bool * bool) =>
           exists bm,
             st = (if decide (hits k = [])
                   then (aCommon, Z.of_nat num, bm, false)
                   else (<[num := x]> aCommon, Z.of_nat num + 1, bm, true)) /\
             dom bm = dom bM ∪ list_to_set (hits k))
        n i0 body s0) as (st & Hrun & bm & -> & Hdom)
  end.
  - exists bM. split; [done|]. unfold hits. cbn. set_solver.
  - intros k st Hk (bm & -> & Hdom).
    set (j := from + Z.of_nat k).
    assert (Hj : 0 <= j < len b) by lia.
    destruct (index_in_range b j Hj) as (y & Hy & ->). cbn [bind].
    assert (HS : hits (S k) =
                 hits k ++ (if decide (b !! Z.to_nat j = Some x) then [j] else [])).
    { unfold hits. rewrite Nat2Z.inj_succ, <- Z.add_1_r, seqZ_app by lia.
      rewrite filter_app. f_equal. }
    assert (Hbm : dom (match bm !! j with
                       | Some _ => bm
                       | None => <[j := true]> bm
                       end) = dom bm ∪ {[j]}).
    { destruct (bm !! j) eqn:Ebm.
      - assert (j ∈ dom bm) by (apply elem_of_dom; eauto). set_solver.
      - rewrite dom_insert_L. set_solver. }
    destruct (Z.eqb_spec x y) as [<-|Hne]; cbn [negb].
    + rewrite decide_True in HS by done.
      eexists. split.
      * destruct (decide (hits k = [])); cbn [negb bind].
        -- rewrite (assign_at aCommon _ num x) by (done || lia). cbn [bind].
           reflexivity.
        -- reflexivity.
      * eexists. split.
        -- rewrite (decide_False (P := hits (S k) = [])).
           2:{ rewrite HS. now destruct (hits k). }
           now destruct (decide (hits k = [])).
        -- rewrite HS, list_to_set_app_L.
           destruct (decide (hits k = [])); cbn [fst snd]; rewrite Hbm, Hdom;
             set_solver.
    + rewrite decide_False in HS by congruence. rewrite app_nil_r in HS.
      rewrite HS.
      destruct (decide (hits k = [])); (eexists; split; [reflexivity|]);
        now exists bm.
  - exists bm. now rewrite Hrun.
Qed.
(** [for s, _ := range bMatchedIndices { bIndices[c] = s; c++ }]: the keys
    fill the first slots of the slice; with more keys than slots, the write
    after the last slot panics. *)
Lemma fill_from_keys_prefix (m : gmap Z bool) (l : list Z) (n : nat) :
  (n <= length (map_to_list m))%nat -> (n <= length l)%nat ->
  for_range n 0 (fun n '(bIndices, c) =>
      kv <- index (map_to_list m) n ;;
      let s := kv.1 in
      bIndices <- assign bIndices c s ;;
      Ok (bIndices, c + 1)) (l, 0)
  = Ok (take n (map_to_list m).*1 ++ drop n l, Z.of_nat n).
Proof.
  intros Hn Hl. set (kl := map_to_list m) in *.
  match goal with
  | |- for_range ?N ?i0 ?body ?s0 = _ =>
      destruct (for_range_inv
        (fun c (st : list Z * Z) =>
           st = (take c kl.*1 ++ drop c l, Z.of_nat c))
        N i0 body s0) as (st & -> & ->); [done| |done]
  end.
  intros c st Hc ->.
  destruct (lookup_lt_is_Some_2 kl c) as [kv Hkv]; [lia|].
  destruct (lookup_lt_is_Some_2 l c) as [y Hy]; [lia|].
  rewrite (index_at kl _ c kv) by (done || lia). cbn [bind].
  assert (Htake : length (take c kl.*1) = c).
  { rewrite length_take, length_fmap. lia. }
  rewrite (assign_at _ _ c kv.1); [|done|].
  2:{ rewrite length_app, length_drop, Htake. lia. }
  cbn [bind]. eexists. split; [reflexivity|]. f_equal; [|lia].
  rewrite insert_app_r_alt by lia. rewrite Htake, Nat.sub_diag.
  rewrite (drop_S l y c Hy). cbn [insert list_insert].
  rewrite (take_S_r kl.*1 c kv.1), <- app_assoc; [done|].
  now rewrite list_lookup_fmap, Hkv.
Qed.

Lemma fill_from_keys_slots (m : gmap Z bool) (l : list Z) :
  let keys := (map_to_list m).*1 in
  ((length keys <= length l)%nat ->
     runewise.fill_from_keys m l = Ok (keys ++ drop (length keys) l)) /\
  ((length l < length keys)%nat -> runewise.fill_from_keys m l = Panic).
Proof.
  intros keys. unfold runewise.fill_from_keys, for_loop, len.
  rewrite Z.sub_0_r, Nat2Z.id.
  assert (Hk : length keys = length (map_to_list m)).
  { unfold keys. now rewrite length_fmap. }
  split; intros Hlen.
  - rewrite fill_from_keys_prefix by lia. cbn [bind fst].
    rewrite <- Hk. fold keys. now rewrite take_ge by lia.
  - replace (length (map_to_list m))
      with (length l + S (length (map_to_list m) - length l - 1))%nat by lia.
    rewrite for_range_app, fill_from_keys_prefix by lia. cbn [bind for_range].
    destruct (lookup_lt_is_Some_2 (map_to_list m) (length l)) as [kv Hkv]; [lia|].
    rewrite Z.add_0_l.
    rewrite (index_at (map_to_list m) _ (length l) kv) by done. cbn [bind].
    unfold assign.
    destruct (Z.ltb_spec (Z.of_nat (length l)) 0); [done|].
    rewrite Nat2Z.id, drop_all, app_nil_r, length_take, length_fmap.
    destruct (Nat.ltb_spec (length l) (length l `min` length (map_to_list m))); [lia|done].
Qed.

Lemma Sorted_zeros_app (k : nat) (l : list Z) :
  Sorted Z.le l -> (forall j, j ∈ l -> 0 <= j) -> Sorted Z.le (replicate k 0 ++ l).
Proof.
  intros Hs Hl. induction k as [|k IH]; [done|].
  cbn [replicate app]. constructor; [done|].
  destruct k; cbn [replicate app].
  - destruct l as [|y l]; constructor. apply Hl. left.
  - constructor. lia.
Qed.

(** [sort.Ints] on the slice of the keys, followed by the slots left at 0. *)
Lemma sort_Ints_padded (keys : list Z) (P : gset Z) (k : nat) :
  keys ≡ₚ elements P -> (forall j, j ∈ P -> 0 <= j) ->
  runewise.sort_Ints (keys ++ replicate k 0) =
  replicate k 0 ++ merge_sort Z.le (elements P).
Proof.
  intros Hperm Hpos. unfold runewise.sort_Ints.
  apply (Sorted_unique Z.le).
  - apply Sorted_merge_sort. intros x y. lia.
  - apply Sorted_zeros_app.
    + apply Sorted_merge_sort. intros x y. lia.
    + intros j. rewrite merge_sort_Permutation, elem_of_elements. apply Hpos.
  - rewrite !merge_sort_Permutation, Hperm. apply Permutation_app_comm.
Qed.

Lemma keys_elements_dom (m : gmap Z bool) : (map_to_list m).*1 ≡ₚ elements (dom m).
Proof.
  apply NoDup_Permutation.
  - apply NoDup_fst_map_to_list.
  - apply NoDup_elements.
  - intros j. rewrite elem_of_elements, elem_of_dom, list_elem_of_fmap. split.
    + intros ([k v] & -> & Hkv). apply elem_of_map_to_list in Hkv. cbn. eauto.
    + intros [v Hv]. exists (j, v). split; [done|]. now apply elem_of_map_to_list.
Qed.

(** The loop that counts the half-transpositions. *)
Lemma jaro_trans_loop (b aCommon units idx : list Z) :
  length idx = length units ->
  (forall k u, units !! k = Some u -> aCommon !! k = Some u) ->
  (forall j, j ∈ idx -> 0 <= j < len b) ->
  for_loop 0 (len units) (fun k transCount =>
    ak <- index aCommon k ;;
    bk <- index idx k ;;
    bbk <- index b bk ;;
    Ok (if negb (ak =? bbk) then transCount + 1 else transCount)) 0
  = Ok (len (filter (fun p : Z * Z => b !! Z.to_nat p.2 <> Some p.1)
                    (zip units idx))).
Proof.
  intros Hlen Hac Hidx. unfold for_loop, len. rewrite Z.sub_0_r, Nat2Z.id.
  match goal with
  | |- for_range ?N ?i0 ?body ?s0 = _ =>
      destruct (for_range_inv
        (fun k (t : Z) =>
           t = Z.of_nat (length (filter (fun p : Z * Z => b !! Z.to_nat p.2 <> Some p.1)
                                        (take k (zip units idx)))))
        N i0 body s0) as (t & -> & ->); [done| |]
  end.
  - intros k t Hk ->.
    destruct (lookup_lt_is_Some_2 units k) as [u Hu]; [done|].
    destruct (lookup_lt_is_Some_2 idx k) as [j Hj]; [lia|].
    destruct (Hidx j) as [Hj0 Hjb]; [eapply list_elem_of_lookup_2, Hj|].
    destruct (lookup_lt_is_Some_2 b (Z.to_nat j)) as [y Hy]; [unfold len in Hjb; lia|].
    rewrite Z.add_0_l.
    rewrite (index_at aCommon _ k u) by auto. cbn [bind].
    rewrite (index_at idx _ k j) by auto. cbn [bind].
    rewrite (index_at b j (Z.to_nat j) y) by (done || lia). cbn [bind].
    eexists. split; [reflexivity|].
    rewrite (take_S_r (zip units idx) k (u, j)).
    2:{ apply lookup_zip_with_Some. eauto. }
    rewrite filter_app, length_app, filter_cons, filter_nil. cbn [fst snd].
    rewrite Hy. destruct (Z.eqb_spec u y) as [->|Hne]; cbn [negb].
    + rewrite decide_False by (intros H; now apply H). cbn [length]. lia.
    + rewrite decide_True by congruence. cbn [length]. lia.
  - now rewrite take_ge by (rewrite length_zip_with; lia).
Qed.

(** The loop over the units of [a]. *)
Lemma jaro_outer_loop (a b : list Z) (matchMax : Z) :
  matchMax = Z.max (Z.quot (len a) 2 - 1) 0 ->
  exists (aCommon : list Z) (bM : gmap Z bool),
    for_loop 0 (len a) (fun i '(aCommon, numAMatched, bMatchedIndices) =>
      aRune <- index a i ;;
      let from := i - matchMax in
      let from := if from <? 0 then 0 else from in
      let to := i + matchMax in
      let to := if to >=? len b then len b - 1 else to in
      let aMatched := false in
      st <- for_loop from (to + 1)
              (fun j '(aCommon, numAMatched, bMatchedIndices, aMatched) =>
                 bj <- index b j ;;
                 if negb (aRune =? bj)
                 then Ok (aCommon, numAMatched, bMatchedIndices, aMatched)
                 else
                   st <- (if negb aMatched
                          then
                            aCommon <- assign aCommon numAMatched aRune ;;
                            Ok (aCommon, numAMatched + 1, true)
                          else Ok (aCommon, numAMatched, aMatched)) ;;
                   let '(aCommon, numAMatched, aMatched) := st in
                   let bMatchedIndices :=
                     match bMatchedIndices !! j with
                     | Some _ => bMatchedIndices
                     | None => <[j := true]> bMatchedIndices
                     end in
                   Ok (aCommon, numAMatched, bMatchedIndices, aMatched))
              (aCommon, numAMatched, bMatchedIndices, aMatched) ;;
      let '(aCommon, numAMatched, bMatchedIndices, _) := st in
      Ok (aCommon, numAMatched, bMatchedIndices))
      (make 0 (len a), 0, (∅ : gmap Z bool))
    = Ok (aCommon, len (jaro_matched_units a b (length a)), bM) /\
    (forall k u, jaro_matched_units a b (length a) !! k = Some u ->
                 aCommon !! k = Some u) /\
    dom bM = jaro_matched_positions a b (length a).
Proof.
  intros HM. unfold for_loop at 1. rewrite Z.sub_0_r. unfold len at 1.
  rewrite Nat2Z.id.
  match goal with
  | |- exists aCommon bM, for_range ?N ?i0 ?body ?s0 = _ /\ _ =>
      destruct (for_range_inv
        (fun i (st : list Z * Z * gmap Z bool) =>
           let '(ac, num, bm) := st in
           length ac = length a /\
           num = len (jaro_matched_units a b i) /\
           take (length (jaro_matched_units a b i)) ac = jaro_matched_units a b i /\
           dom bm = jaro_matched_positions a b i)
        N i0 body s0) as ([[ac num] bm] & Hrun & Hlen & -> & Hac & Hdom)
  end.
  - split; [|split; [done|split; [done|]]].
    + unfold make, len. now rewrite length_replicate, Nat2Z.id.
    + unfold jaro_matched_positions. cbn. set_solver.
  - intros i [[ac num] bm] Hi (Hlen & -> & Hac & Hdom).
    destruct (lookup_lt_is_Some_2 a i) as [x Hx]; [done|].
    rewrite Z.add_0_l.
    rewrite (index_at a _ i x) by (done || lia). cbn [bind].
    pose proof (jaro_matched_units_length a b i) as Hle.
    destruct (jaro_inner_loop a b i x matchMax ac
                (length (jaro_matched_units a b i)) bm Hx ltac:(lia) HM)
      as (bm' & Hinner & Hdom').
    cbv zeta in Hinner. fold (len (jaro_matched_units a b i)) in Hinner.
    rewrite Hinner. cbn [bind].
    rewrite jaro_matched_units_S, jaro_matched_positions_S, Hx.
    destruct (decide (jaro_hits a b i = [])) as [Hnil|Hnil].
    + eexists. split; [reflexivity|]. rewrite app_nil_r.
      split; [done|]. split; [done|]. split; [done|]. now rewrite Hdom', Hdom.
    + eexists. split; [reflexivity|]. change (option_list (Some x)) with [x].
      split; [now rewrite length_insert|].
      split; [unfold len; rewrite length_app; cbn [length]; lia|].
      split; [|now rewrite Hdom', Hdom].
      rewrite length_app. cbn [length].
      replace (length (jaro_matched_units a b i) + 1)%nat
        with (S (length (jaro_matched_units a b i))) by lia.
      rewrite (take_S_r _ _ x) by (apply list_lookup_insert_eq; lia).
      now rewrite take_insert_ge, Hac by lia.
  - exists ac, bm. split; [now rewrite Hrun|]. split; [|done].
    intros k u Hu. rewrite <- Hac in Hu. apply lookup_take_Some in Hu. tauto.
Qed.

(** jaroMatchesAndHalfTranspositions on a longer (or as long) input [a]
    and a shorter input [b]: the matches are the units of [a] with a hit,
    and the call panics when [b] has more hit positions than that. *)
Lemma jaroMatches_window (a b : list Z) :
  a <> [] -> b <> [] -> (length b <= length a)%nat ->
  runewise.jaroMatchesAndHalfTranspositions a b =
  if decide (size (jaro_matched_positions a b (length a))
             <= length (jaro_matched_units a b (length a)))%nat
  then Ok (len (jaro_matched_units a b (length a)), jaro_half_transpositions a b)
  else Panic.
Proof.
  intros Ha Hb Hlen. unfold runewise.jaroMatchesAndHalfTranspositions.
  rewrite (len_eqb_0 a Ha), (len_eqb_0 b Hb). cbn [orb].
  destruct (Z.ltb_spec (len a) (len b)) as [Hlt|_]; [unfold len in Hlt; lia|].
  set (matchMax := if Z.quot (len a) 2 - 1 <? 0 then 0 else Z.quot (len a) 2 - 1).
  assert (HM : matchMax = Z.max (Z.quot (len a) 2 - 1) 0).
  { subst matchMax. destruct (Z.ltb_spec (Z.quot (len a) 2 - 1) 0); lia. }
  clearbody matchMax.
  destruct (jaro_outer_loop a b matchMax HM) as (ac & bm & Hrun & Hac & Hdom).
  cbv zeta in Hrun. rewrite Hrun. cbn [bind].
  set (units := jaro_matched_units a b (length a)) in *.
  set (P := jaro_matched_positions a b (length a)) in *.
  pose proof (keys_elements_dom bm) as Hkeys. rewrite Hdom in Hkeys.
  assert (Hsize : length (map_to_list bm).*1 = size P).
  { now rewrite Hkeys. }
  destruct (fill_from_keys_slots bm (make 0 (len units))) as [Hfill Hpanic].
  unfold make, len in Hfill, Hpanic |- *.
  rewrite Nat2Z.id, length_replicate, Hsize in Hfill, Hpanic.
  rewrite Nat2Z.id.
  destruct (decide (size P <= length units)%nat) as [Hle|Hgt].
  - rewrite Hfill by done. cbn [bind].
    rewrite drop_replicate, (sort_Ints_padded _ P) by
      (done || (intros j Hj; now apply jaro_matched_positions_range in Hj)).
    fold (len units).
    change (replicate (length units - size P) 0 ++ merge_sort Z.le (elements P))
      with (jaro_indices a b).
    rewrite (jaro_trans_loop b ac units (jaro_indices a b)); [done| |done|].
    + unfold jaro_indices. fold units. fold P.
      rewrite length_app, length_replicate, merge_sort_Permutation.
      change (length (elements P)) with (size P). lia.
    + intros j. unfold jaro_indices. fold units. fold P.
      rewrite elem_of_app, merge_sort_Permutation, elem_of_elements.
      intros [Hj|Hj].
      * apply elem_of_replicate in Hj as [-> _]. unfold len.
        destruct b; [done|]. cbn [length]. lia.
      * now apply jaro_matched_positions_range in Hj.
  - now rewrite Hpanic by lia.
Qed.
Lemma jaro_half_transpositions_bounds (a b : list Z) :
  0 <= jaro_half_transpositions a b <= len (jaro_matched_units a b (length a)).
Proof.
  unfold jaro_half_transpositions, len. split; [lia|].
  apply inj_le. etrans; [apply length_filter|].
  rewrite length_zip_with. lia.
Qed.

Lemma JaroSimilarity_of_matches (a b : list Z) :
  (forall mt, runewise.jaroMatchesAndHalfTranspositions a b = Ok mt ->
              returns (runewise.JaroSimilarity a b)) /\
  (runewise.jaroMatchesAndHalfTranspositions a b = Panic ->
   runewise.JaroSimilarity a b = Panic).
Proof.
  unfold runewise.JaroSimilarity. split.
  - intros [m t] ->. cbn [bind]. destruct (m =? 0); eexists; reflexivity.
  - now intros ->.
Qed.

(** The matches that jaroMatchesAndHalfTranspositions counts, for a longer
    (or as long) first input [a]: one for each unit of [a] that occurs in
    its window of [b].  The call returns exactly when the positions of [b]
    so hit are not more than these units; otherwise copying the positions
    into [bIndices] panics, and so does JaroSimilarity. *)
Theorem jaroMatchesAndHalfTranspositions_counts_window_hits (a b : list Z) :
  a <> [] -> b <> [] -> (length b <= length a)%nat ->
  ((size (jaro_matched_positions a b (length a))
    <= length (jaro_matched_units a b (length a)))%nat ->
   runewise.jaroMatchesAndHalfTranspositions a b =
     Ok (len (jaro_matched_units a b (length a)), jaro_half_transpositions a b) /\
   0 <= jaro_half_transpositions a b
     <= len (jaro_matched_units a b (length a)) /\
   len (jaro_matched_units a b (length a)) <= len a /\
   returns (runewise.JaroSimilarity a b)) /\
  ((length (jaro_matched_units a b (length a))
    < size (jaro_matched_positions a b (length a)))%nat ->
   runewise.jaroMatchesAndHalfTranspositions a b = Panic /\
   runewise.JaroSimilarity a b = Panic).
Proof.
  intros Ha Hb Hlen. pose proof (jaroMatches_window a b Ha Hb Hlen) as Hw.
  destruct (JaroSimilarity_of_matches a b) as [Hret Hpanic].
  split; intros Hsize.
  - rewrite decide_True in Hw by done. split; [done|].
    split; [apply jaro_half_transpositions_bounds|].
    split; [|now apply (Hret _ Hw)].
    pose proof (jaro_matched_units_length a b (length a)).
    unfold len. lia.
  - rewrite decide_False in Hw by lia. auto.
Qed.

Lemma jaroMatchesAndHalfTranspositions_counts_window_hits_witness :
  runewise.jaroMatchesAndHalfTranspositions (bytes "martha") (bytes "marhta")
    = Ok (6, 2) /\
  runewise.JaroSimilarity (bytes "abcd") (bytes "aaxx") = Panic.
Proof.
  split.
  - apply (jaroMatchesAndHalfTranspositions_counts_window_hits
             (bytes "martha") (bytes "marhta")); [done|done|vm_compute; lia|].
    vm_compute. lia.
  - apply (jaroMatchesAndHalfTranspositions_counts_window_hits
             (bytes "abcd") (bytes "aaxx")); [done|done|vm_compute; lia|].
    vm_compute. lia.
Defined.

(** *** The order of the arguments *)

Lemma f64_add_comm (x y : float64) : f64_add x y = f64_add y x.
Proof.
  unfold f64_add, SFadd.
  destruct x as [sx|sx| |sx mx ex], y as [sy|sy| |sy my ey]; try reflexivity.
  - destruct sx, sy; reflexivity.
  - destruct sx, sy; reflexivity.
  - cbv zeta. now rewrite Z.min_comm, Z.add_comm.
Qed.

Lemma commonPrefixLength_comm (a b : list Z) :
  commonPrefixLength a b = commonPrefixLength b a.
Proof.
  revert b. induction a as [|x a IH]; intros [|y b]; cbn [commonPrefixLength]; try done.
  rewrite (Z.eqb_sym y x). destruct (x =? y); [|done]. now rewrite IH.
Qed.

Lemma jaroMatches_swap (a b : list Z) :
  length a <> length b ->
  runewise.jaroMatchesAndHalfTranspositions a b =
  runewise.jaroMatchesAndHalfTranspositions b a.
Proof.
  intros Hne. unfold runewise.jaroMatchesAndHalfTranspositions.
  rewrite (orb_comm (len b =? 0)).
  destruct ((len a =? 0) || (len b =? 0)); [done|].
  unfold len.
  destruct (Z.ltb_spec (Z.of_nat (length a)) (Z.of_nat (length b))),
           (Z.ltb_spec (Z.of_nat (length b)) (Z.of_nat (length a)));
    try reflexivity; lia.
Qed.

(** On inputs of different lengths the Jaro family does not depend on the
    order of its two arguments, panics included: the longer input is always
    the one whose units are looked up in the windows of the other.  On
    inputs of one length no exchange takes place and the order matters:
    "aaxx" against "abcd" returns a value, "abcd" against "aaxx" panics. *)
Theorem JaroSimilarity_order_of_arguments :
  (forall a b : list Z, length a <> length b ->
     runewise.JaroSimilarity a b = runewise.JaroSimilarity b a /\
     runewise.JaroWinklerSimilarity a b = runewise.JaroWinklerSimilarity b a /\
     forall prefixScale maxPrefixLength boostThreshold,
       runewise.JaroWinklerSimilarityParametric a b prefixScale maxPrefixLength
         boostThreshold =
       runewise.JaroWinklerSimilarityParametric b a prefixScale maxPrefixLength
         boostThreshold) /\
  returns (runewise.JaroSimilarity (bytes "aaxx") (bytes "abcd")) /\
  runewise.JaroSimilarity (bytes "abcd") (bytes "aaxx") = Panic.
Proof.
  split; [|split; [eexists|]; vm_compute; reflexivity].
  intros a b Hne.
  assert (HJ : runewise.JaroSimilarity a b = runewise.JaroSimilarity b a).
  { unfold runewise.JaroSimilarity. rewrite (jaroMatches_swap a b Hne).
    destruct (runewise.jaroMatchesAndHalfTranspositions b a) as [[m t]| |];
      cbn [bind]; try reflexivity.
    destruct (m =? 0); [reflexivity|].
    now rewrite (f64_add_comm (f64_div _ (f64_of_int (len a)))). }
  assert (HP : forall ps mp bt,
    runewise.JaroWinklerSimilarityParametric a b ps mp bt =
    runewise.JaroWinklerSimilarityParametric b a ps mp bt).
  { intros ps mp bt. unfold runewise.JaroWinklerSimilarityParametric.
    rewrite HJ, !clampedSharedPrefixLength_min, (commonPrefixLength_comm a b).
    reflexivity. }
  split; [exact HJ|]. split; [apply HP|exact HP].
Qed.

Lemma JaroSimilarity_order_of_arguments_witness :
  runewise.JaroSimilarity (bytes "dixon") (bytes "dicksonx") =
  runewise.JaroSimilarity (bytes "dicksonx") (bytes "dixon").
Proof.
  destruct JaroSimilarity_order_of_arguments as [H _].
  apply (H (bytes "dixon") (bytes "dicksonx")). vm_compute. lia.
Defined.
(** *** One unit against its copies *)

Lemma filter_none {A : Type} (P : A -> Prop) `{forall x, Decision (P x)} (l : list A) :
  (forall x, x ∈ l -> ~ P x) -> filter P l = [].
Proof.
  induction l as [|x l IH]; intros Hl; [done|].
  rewrite filter_cons, decide_False by (apply Hl; left).
  apply IH. intros y Hy. apply Hl. now right.
Qed.

Lemma jaro_hits_copies (x : Z) (n i : nat) :
  (i < n)%nat ->
  jaro_hits (replicate n x) [x] i =
  if decide (Z.of_nat i <= Z.max (Z.of_nat n / 2 - 1) 0) then [0] else [].
Proof.
  intros Hi. unfold jaro_hits, jaro_window, len.
  rewrite lookup_replicate_2, length_replicate by done. cbn [length].
  rewrite Z.quot_div_nonneg by lia.
  set (M := Z.max (Z.of_nat n / 2 - 1) 0).
  change (Z.of_nat 1 - 1) with 0.
  rewrite (Z.min_r (Z.of_nat i + M) 0) by lia.
  destruct (decide (Z.of_nat i <= M)) as [Hle|Hgt].
  - rewrite (Z.max_r (Z.of_nat i - M) 0) by lia.
    change (seqZ 0 (0 + 1 - 0)) with [0].
    now rewrite filter_cons_True.
  - unfold seqZ. now rewrite Z2Nat.nonpos by lia.
Qed.

Lemma jaro_matched_units_copies (x : Z) (n k : nat) :
  (k <= n)%nat ->
  jaro_matched_units (replicate n x) [x] k =
  replicate (k `min` Z.to_nat (Z.max (Z.of_nat n / 2 - 1) 0 + 1)) x.
Proof.
  induction k as [|k IH]; intros Hk; [done|].
  rewrite jaro_matched_units_S, IH, jaro_hits_copies, lookup_replicate_2 by lia.
  set (M := Z.max (Z.of_nat n / 2 - 1) 0).
  destruct (decide (Z.of_nat k <= M)) as [Hle|Hgt].
  - rewrite decide_False by done. change (option_list (Some x)) with [x].
    rewrite <- replicate_S_end. f_equal. lia.
  - rewrite decide_True, app_nil_r by done. f_equal. lia.
Qed.

Lemma jaro_matched_positions_copies (x : Z) (n k : nat) :
  (k < n)%nat -> jaro_matched_positions (replicate n x) [x] (S k) = {[0]}.
Proof.
  induction k as [|k IH]; intros Hk.
  - rewrite jaro_matched_positions_S, jaro_hits_copies by lia.
    rewrite decide_True by lia. unfold jaro_matched_positions. cbn. set_solver.
  - rewrite jaro_matched_positions_S, IH, jaro_hits_copies by lia.
    destruct (decide _); cbn; set_solver.
Qed.

Lemma jaroMatches_copies (x : Z) (n : nat) :
  (1 <= n)%nat ->
  runewise.jaroMatchesAndHalfTranspositions (replicate n x) [x] =
  Ok (Z.max 1 (Z.of_nat n / 2), 0).
Proof.
  intros Hn.
  rewrite jaroMatches_window;
    [|destruct n; [lia|done]|done|rewrite length_replicate; cbn; lia].
  rewrite length_replicate.
  assert (HP : jaro_matched_positions (replicate n x) [x] n = {[0]}).
  { destruct n; [lia|]. apply jaro_matched_positions_copies. lia. }
  assert (HT : jaro_half_transpositions (replicate n x) [x] = 0).
  { unfold jaro_half_transpositions, jaro_indices.
    rewrite length_replicate, HP, filter_none; [done|].
    intros [u j] Hin. cbn [fst snd].
    assert (Hu : u = x).
    { apply elem_of_zip_l in Hin.
      rewrite jaro_matched_units_copies in Hin by done.
      now apply elem_of_replicate_inv in Hin. }
    assert (Hj : j = 0).
    { apply elem_of_zip_r in Hin.
      rewrite elem_of_app, merge_sort_Permutation, elem_of_elements in Hin.
      destruct Hin as [Hin|Hin]; [now apply elem_of_replicate_inv in Hin|].
      now apply elem_of_singleton in Hin. }
    subst. intros Hneq. now apply Hneq. }
  rewrite HT, HP, size_singleton, jaro_matched_units_copies by done.
  rewrite length_replicate.
  pose proof (Z.div_pos (Z.of_nat n) 2 ltac:(lia) ltac:(lia)) as Hdiv.
  assert (Z.of_nat n / 2 <= Z.of_nat n).
  { apply Z.div_le_upper_bound; lia. }
  rewrite decide_True by lia. unfold len. rewrite length_replicate.
  do 2 f_equal. lia.
Qed.

(** The matches counted are not bounded by the length of the shorter
    input.  One unit against [n] copies of it gives [n / 2] matches (1 for
    [n] below 2), in either order of the arguments: every copy whose window
    reaches the position 0 counts.  With four copies JaroSimilarity is above
    1.0. *)
Theorem JaroSimilarity_one_unit_against_copies (x : Z) :
  (forall n : nat, (1 <= n)%nat ->
     runewise.jaroMatchesAndHalfTranspositions [x] (replicate n x) =
       Ok (Z.max 1 (Z.of_nat n / 2), 0) /\
     runewise.jaroMatchesAndHalfTranspositions (replicate n x) [x] =
       Ok (Z.max 1 (Z.of_nat n / 2), 0)) /\
  exists r, runewise.JaroSimilarity [x] [x; x; x; x] = Ok r /\
            f64_ltb (f64_of_int 1) r = true.
Proof.
  split.
  - intros n Hn. split; [|now apply jaroMatches_copies].
    destruct (decide (n = 1%nat)) as [->|Hne]; [now apply (jaroMatches_copies x 1)|].
    rewrite jaroMatches_swap by (rewrite length_replicate; cbn; lia).
    now apply jaroMatches_copies.
  - unfold runewise.JaroSimilarity.
    rewrite (jaroMatches_swap [x] [x; x; x; x]) by (cbn; lia).
    change [x; x; x; x] with (replicate 4 x).
    rewrite (jaroMatches_copies x 4) by lia. cbn [bind].
    eexists. split; [reflexivity|]. vm_compute. reflexivity.
Qed.

Lemma JaroSimilarity_one_unit_against_copies_witness :
  runewise.jaroMatchesAndHalfTranspositions (bytes "a") (bytes "aaaaaaaa") = Ok (4, 0).
Proof.
  destruct (JaroSimilarity_one_unit_against_copies 97) as [H _].
  apply (H 8%nat). lia.
Defined.

(** *** The metrics on slices that share an array *)

Lemma store_embedding_refines_values_witness :
  let h : gmap store.loc (list store.cell) :=
    {[ 1%positive := [store.CInt 107; store.CInt 105; store.CInt 116; store.CInt 116] ]} in
  (runewise_store.LevenshteinDistance
     (store.mkSlice 1%positive 0 4 4) (store.mkSlice 1%positive 1 2 3) h).1
  = runewise.LevenshteinDistance [107; 105; 116; 116] [105; 116].
Proof.
  intros h.
  destruct (store_embedding_refines_values ascii_IsSpace ascii_ToUpper h
              (store.mkSlice 1%positive 0 4 4) (store.mkSlice 1%positive 1 2 3)
              [107; 105; 116; 116] [105; 116])
    as (_ & _ & _ & H & _); [vm_compute; reflexivity|vm_compute; reflexivity|].
  exact H.
Defined.

(** ** LevenshteinDistance: the triangle inequality *)

Lemma subst_cost_triangle (a b c : list Z) (i j k : nat) :
  subst_cost a c i k <= subst_cost a b i j + subst_cost b c j k.
Proof.
  unfold subst_cost.
  destruct (a !! i) as [x|], (b !! j) as [y|], (c !! k) as [z|]; try lia;
    repeat match goal with
           | |- context [?u =? ?v] => destruct (Z.eqb_spec u v)
           end; lia.
Qed.

Lemma lev_dp_triangle (a b c : list Z) (n : nat) :
  forall i j k, (i + j + k <= n)%nat ->
  lev_dp a c i k <= lev_dp a b i j + lev_dp b c j k.
Proof.
  induction n as [|n IH]; intros i j k Hn.
  - assert (i = O /\ j = O /\ k = O) as (-> & -> & ->) by lia. cbn. lia.
  - destruct i as [|i].
    { pose proof (lev_dp_bounds b c j k).
      change (lev_dp a c 0 k) with (Z.of_nat k).
      change (lev_dp a b 0 j) with (Z.of_nat j). lia. }
    destruct k as [|k].
    { pose proof (lev_dp_bounds a b (S i) j). rewrite !lev_dp_0_r. lia. }
    destruct j as [|j].
    { pose proof (lev_dp_bounds a c (S i) (S k)). rewrite lev_dp_0_r.
      change (lev_dp b c 0 (S k)) with (Z.of_nat (S k)). lia. }
    pose proof (IH i (S j) (S k) ltac:(lia)) as H1.
    pose proof (IH (S i) (S j) k ltac:(lia)) as H2.
    pose proof (IH (S i) j (S k) ltac:(lia)) as H3.
    pose proof (IH (S i) j k ltac:(lia)) as H4.
    pose proof (IH i j (S k) ltac:(lia)) as H5.
    pose proof (IH i j k ltac:(lia)) as H6.
    pose proof (subst_cost_triangle a b c i j k) as Hc.
    pose proof (subst_cost_range a b i j) as Hab.
    pose proof (subst_cost_range b c j k) as Hbc.
    rewrite (lev_dp_S_S a c i k) in *.
    rewrite (lev_dp_S_S a b i j) in *.
    rewrite (lev_dp_S_S b c j k) in *.
    rewrite !min3_Zmin in *. lia.
Qed.

(** The runewise LevenshteinDistance satisfies the triangle inequality:
    the distance from [a] to [c] is at most the distance from [a] to [b]
    plus the distance from [b] to [c].  With the symmetry and the zero
    exactly on equal inputs, it is a metric on the sequences of runes. *)
Theorem LevenshteinDistance_triangle (a b c : list Z) :
  exists dac dab dbc,
    runewise.LevenshteinDistance a c = Ok dac /\
    runewise.LevenshteinDistance a b = Ok dab /\
    runewise.LevenshteinDistance b c = Ok dbc /\
    runewise.LevenshteinDistance c a = Ok dac /\
    dac <= dab + dbc.
Proof.
  exists (levenshtein a c), (levenshtein a b), (levenshtein b c).
  rewrite !runewise_Levenshtein_is_dp, (levenshtein_sym c a).
  repeat split. unfold levenshtein.
  apply (lev_dp_triangle a b c (length a + length b + length c)). lia.
Qed.

(** ** EqualWithin *)

Lemma binary_normalize_opp_abs (m e : Z) (s1 s2 : bool) :
  SFabs (binary_normalize 53 1024 (- m) e s1) = SFabs (binary_normalize 53 1024 m e s2).
Proof.
  assert (H : forall p, SFabs (binary_round 53 1024 true p e)
                        = SFabs (binary_round 53 1024 false p e)).
  { intros p. unfold binary_round.
    destruct (shl_align p e _) as [mz ez]. unfold binary_round_aux.
    destruct (shr_fexp 53 1024 (Z.pos mz) ez loc_Exact) as [mrs' e'].
    destruct (shr_fexp 53 1024 _ e' loc_Exact) as [mrs'' e''].
    destruct (shr_m mrs''); try reflexivity.
    destruct (e'' <=? 1024 - 53); reflexivity. }
  destruct m as [|p|p]; cbn [Z.opp binary_normalize]; [reflexivity| |].
  - apply H.
  - symmetry. apply H.
Qed.

Lemma f64_sub_abs_comm (a b : float64) :
  SFabs (f64_sub a b) = SFabs (f64_sub b a).
Proof.
  unfold f64_sub, SFsub.
  destruct a as [sa|sa| |sa ma ea], b as [sb|sb| |sb mb eb]; try reflexivity.
  - destruct sa, sb; reflexivity.
  - destruct sa, sb; reflexivity.
  - cbv zeta. rewrite (Z.min_comm eb ea).
    rewrite <- (binary_normalize_opp_abs _ _ false false). f_equal. f_equal. lia.
Qed.

Lemma f64_sub_self_finite (a : float64) :
  (exists s m e, a = S754_finite s m e) \/ (exists s, a = S754_zero s) ->
  f64_sub a a = S754_zero false.
Proof.
  intros [(s & m & e & ->)|(s & ->)]; unfold f64_sub, SFsub.
  - cbv zeta. now rewrite Z.sub_diag.
  - now destruct s.
Qed.

(** EqualWithin, the comparison of the tests of the float results: it does
    not depend on the order of the two values; it accepts every pair of
    which one value is NaN, and every pair when [delta] is NaN, so that a
    test made with it cannot reject a NaN result; and it accepts a finite
    value against itself for every [delta] that is not negative. *)
Theorem EqualWithin_symmetric_accepts_NaN (a b delta : float64) :
  EqualWithin a b delta = EqualWithin b a delta /\
  EqualWithin S754_nan b delta = true /\
  EqualWithin a S754_nan delta = true /\
  EqualWithin a b S754_nan = true /\
  ((exists s m e, a = S754_finite s m e) \/ (exists s, a = S754_zero s) ->
   EqualWithin a a delta = negb (f64_ltb delta (S754_zero false))).
Proof.
  unfold EqualWithin. split; [now rewrite f64_sub_abs_comm|].
  split; [now destruct b as [[]|[]| |], delta|].
  split; [now destruct a as [[]|[]| |], delta|].
  split; [now destruct delta|].
  intros Ha. rewrite (f64_sub_self_finite a Ha). cbn [SFabs].
  now destruct (f64_ltb delta (S754_zero false)).
Qed.

Lemma EqualWithin_symmetric_accepts_NaN_witness :
  EqualWithin (f64_of_int 3) (f64_of_int 3) (f64_of_int 0) = true.
Proof.
  destruct (EqualWithin_symmetric_accepts_NaN (f64_of_int 3) (f64_of_int 3) (f64_of_int 0))
    as (_ & _ & _ & _ & H).
  rewrite H; [reflexivity|]. left. vm_compute. eauto.
Defined.

(** ** The root package with DiceCoefficient *)

(** DiceCoefficient of the root package: it fails, with the error of a
    too short input, exactly when both strings have fewer than two bytes;
    otherwise it returns the Sorensen-Dice ratio of the sets of distinct
    two-byte substrings of the strings.  It does not depend on the order of
    its arguments, and it is the DiceCoefficient of package bytewise. *)
Theorem DiceCoefficient_root_is_set_ratio (a b : list Z) :
  (stralgo_dice.DiceCoefficient a b = Err InsufficientLength
     <-> len a < 2 /\ len b < 2) /\
  (2 <= len a \/ 2 <= len b ->
   stralgo_dice.DiceCoefficient a b =
     Ok (dice_ratio (list_to_set (byte_bigrams a)) (list_to_set (byte_bigrams b)))) /\
  stralgo_dice.DiceCoefficient a b = stralgo_dice.DiceCoefficient b a /\
  stralgo_dice.DiceCoefficient a b = bytewise.DiceCoefficient a b /\
  stralgo_dice.HammingDistance a b = bytewise.HammingDistance a b.
Proof.
  assert (Hbw : forall x y, stralgo_dice.DiceCoefficient x y
                            = bytewise.DiceCoefficient x y) by reflexivity.
  assert (Hshort : forall x y, len x < 2 -> len y < 2 ->
            stralgo_dice.DiceCoefficient x y = Err InsufficientLength).
  { intros x y Hx Hy. unfold stralgo_dice.DiceCoefficient.
    destruct (Z.ltb_spec (len x - 1) 1), (Z.ltb_spec (len y - 1) 1);
      try lia. reflexivity. }
  split; [|split; [|split; [|split; [apply Hbw|reflexivity]]]].
  - split.
    + intros Herr.
      destruct (Z.lt_ge_cases (len a) 2), (Z.lt_ge_cases (len b) 2); try done.
      all: rewrite Hbw, bytewise_Dice_is_ratio in Herr by lia; discriminate.
    + intros [Ha Hb]. now apply Hshort.
  - intros Hlen. rewrite Hbw. now apply bytewise_Dice_is_ratio.
  - destruct (Z.lt_ge_cases (len a) 2), (Z.lt_ge_cases (len b) 2).
    + now rewrite !Hshort.
    + rewrite !Hbw, !bytewise_Dice_is_ratio by lia. f_equal. apply dice_ratio_comm.
    + rewrite !Hbw, !bytewise_Dice_is_ratio by lia. f_equal. apply dice_ratio_comm.
    + rewrite !Hbw, !bytewise_Dice_is_ratio by lia. f_equal. apply dice_ratio_comm.
Qed.

Lemma DiceCoefficient_root_is_set_ratio_witness :
  stralgo_dice.DiceCoefficient (bytes "night") (bytes "nacht") =
  Ok (dice_ratio (list_to_set (byte_bigrams (bytes "night")))
                 (list_to_set (byte_bigrams (bytes "nacht")))).
Proof.
  destruct (DiceCoefficient_root_is_set_ratio (bytes "night") (bytes "nacht"))
    as (_ & H & _).
  apply H. left. vm_compute. discriminate.
Defined.

(** ** The package over strings *)

Lemma copy_prefix (rs l : list Z) (n : nat) :
  (n <= length rs)%nat -> (n <= length l)%nat ->
  for_range n 0 (fun k '(runes, c) =>
      r <- index rs k ;;
      runes <- assign runes c r ;;
      Ok (runes, c + 1)) (l, 0)
  = Ok (take n rs ++ drop n l, Z.of_nat n).
Proof.
  intros Hn Hl.
  match goal with
  | |- for_range ?N ?i0 ?body ?s0 = _ =>
      destruct (for_range_inv
        (fun c (st : list Z * Z) => st = (take c rs ++ drop c l, Z.of_nat c))
        N i0 body s0) as (st & -> & ->); [done| |done]
  end.
  intros c st Hc ->.
  destruct (lookup_lt_is_Some_2 rs c) as [r Hr]; [lia|].
  destruct (lookup_lt_is_Some_2 l c) as [y Hy]; [lia|].
  rewrite (index_at rs _ c r) by (done || lia). cbn [bind].
  assert (Htake : length (take c rs) = c) by (rewrite length_take; lia).
  rewrite (assign_at _ _ c r); [|done|].
  2:{ rewrite length_app, length_drop, Htake. lia. }
  cbn [bind]. eexists. split; [reflexivity|]. f_equal; [|lia].
  rewrite insert_app_r_alt by lia. rewrite Htake, Nat.sub_diag.
  rewrite (drop_S l y c Hy). cbn [insert list_insert].
  now rewrite (take_S_r rs c r), <- app_assoc.
Qed.

Section strings.

Variable range_runes : list Z -> list Z.
Variable strings_ToUpper : list Z -> list Z.
Variable IsSpace : Z -> bool.

(** A rune takes at least one byte of the string. *)
Hypothesis range_runes_length : forall s, (length (range_runes s) <= length s)%nat.

Lemma runeSlice_runes (s : list Z) :
  runewise_string.runeSlice range_runes s = Ok (range_runes s, len (range_runes s)).
Proof.
  unfold runewise_string.runeSlice, for_loop, len.
  rewrite Z.sub_0_r, Nat2Z.id.
  pose proof (range_runes_length s) as Hlen.
  rewrite copy_prefix; [|done|unfold make; rewrite length_replicate; lia].
  cbn [bind]. unfold slice.
  rewrite take_ge by done.
  replace ((0 <=? 0) && (0 <=? Z.of_nat (length (range_runes s)))
           && (Z.of_nat (length (range_runes s))
               <=? len (range_runes s ++ drop (length (range_runes s))
                                              (make 0 (Z.of_nat (length s))))))
    with true.
  2:{ symmetry. unfold len. rewrite length_app.
      rewrite !andb_true_iff, !Z.leb_le. lia. }
  cbn [bind]. rewrite Z.sub_0_r, Nat2Z.id.
  change (Z.to_nat 0) with 0%nat.
  now rewrite drop_0, take_app_length.
Qed.

Lemma word_pairs_cons2 {B : Type} (isSpace : Z -> bool) (mk : Z -> Z -> B)
  (x y : Z) (t : list Z) :
  word_pairs isSpace mk (x :: y :: t) =
  if isSpace x || isSpace y then word_pairs isSpace mk (y :: t)
  else mk x y :: word_pairs isSpace mk (y :: t).
Proof. reflexivity. Qed.

Lemma upper_word_pairs_map (ToUpper : Z -> Z) (s : list Z) :
  (forall r, IsSpace (ToUpper r) = IsSpace r) ->
  upper_word_pairs IsSpace (fun r => r) (ToUpper <$> s)
  = upper_word_pairs IsSpace ToUpper s.
Proof.
  intros Hsp. unfold upper_word_pairs.
  induction s as [|x s IH]; [done|]. destruct s as [|y s]; [done|].
  change (ToUpper <$> x :: y :: s) with (ToUpper x :: ToUpper y :: (ToUpper <$> s)).
  change (ToUpper <$> y :: s) with (ToUpper y :: (ToUpper <$> s)) in IH.
  rewrite !word_pairs_cons2, !Hsp, IH. reflexivity.
Qed.

Lemma wordLetterPairs_is_upperWordLetterPairs (s : list Z) :
  runewise_string.wordLetterPairs range_runes IsSpace s =
  runewise.upperWordLetterPairs IsSpace (fun r => r) (range_runes s).
Proof.
  unfold runewise_string.wordLetterPairs. rewrite runeSlice_runes. reflexivity.
Qed.

(** The functions over strings return what the functions over [[]rune]
    return on the runes of the strings: [runeSlice] returns the runes that
    the [range] over the string yields, with their number, and
    HammingDistance, DiceCoefficient and LevenshteinDistance go on as the
    later forms do.  The early return of LevenshteinDistance on equal
    strings agrees with the distance 0 that the table gives. *)
Theorem string_form_is_rune_form_on_runes (a b : list Z) :
  runewise_string.runeSlice range_runes a = Ok (range_runes a, len (range_runes a)) /\
  runewise_string.HammingDistance range_runes a b =
    runewise.HammingDistance (range_runes a) (range_runes b) /\
  runewise_string.DiceCoefficient range_runes a b =
    runewise.DiceCoefficient (range_runes a) (range_runes b) /\
  runewise_string.LevenshteinDistance range_runes a b =
    runewise.LevenshteinDistance (range_runes a) (range_runes b).
Proof.
  split; [apply runeSlice_runes|]. split; [|split].
  - unfold runewise_string.HammingDistance. rewrite !runeSlice_runes. reflexivity.
  - unfold runewise_string.DiceCoefficient. rewrite !runeSlice_runes. reflexivity.
  - unfold runewise_string.LevenshteinDistance. rewrite !runeSlice_runes.
    cbn [bind].
    destruct ((len (range_runes a) =? len (range_runes b)) && bool_decide (a = b))
      eqn:Heq; [|reflexivity].
    apply andb_true_iff in Heq as [_ Heq]. apply bool_decide_eq_true in Heq.
    subst b. rewrite runewise_Levenshtein_is_dp. unfold levenshtein.
    rewrite lev_dp_diag_self by done.
    unfold len. destruct (range_runes a); reflexivity.
Qed.

(** WhiteSimilarity over strings upper-cases the strings before it looks
    for white space, the form over [[]rune] upper-cases the runes of the
    bigrams it has found.  When strings.ToUpper maps the runes of a string
    one by one and a rune in upper case is white space exactly when the
    rune is, the two forms return the same result. *)
Theorem WhiteSimilarity_string_form_is_rune_form (ToUpper : Z -> Z) (a b : list Z) :
  (forall s, range_runes (strings_ToUpper s) = ToUpper <$> range_runes s) ->
  (forall r, IsSpace (ToUpper r) = IsSpace r) ->
  runewise_string.WhiteSimilarity range_runes strings_ToUpper IsSpace a b =
    runewise.WhiteSimilarity IsSpace ToUpper (range_runes a) (range_runes b) /\
  runewise_string.wordLetterPairs range_runes IsSpace (strings_ToUpper a) =
    runewise.upperWordLetterPairs IsSpace ToUpper (range_runes a).
Proof.
  intros Hup Hsp.
  assert (Hpairs : forall s,
    runewise_string.wordLetterPairs range_runes IsSpace (strings_ToUpper s) =
    runewise.upperWordLetterPairs IsSpace ToUpper (range_runes s)).
  { intros s. rewrite wordLetterPairs_is_upperWordLetterPairs, Hup.
    rewrite !upperWordLetterPairs_is_word_pairs.
    now rewrite upper_word_pairs_map. }
  split; [|apply Hpairs].
  unfold runewise_string.WhiteSimilarity, runewise.WhiteSimilarity.
  now rewrite !Hpairs.
Qed.

End strings.

Lemma string_form_is_rune_form_on_runes_witness :
  runewise_string.LevenshteinDistance (fun s => s) (bytes "kitten") (bytes "sitting")
  = runewise.LevenshteinDistance (bytes "kitten") (bytes "sitting").
Proof.
  destruct (string_form_is_rune_form_on_runes (fun s => s) ltac:(intros s; lia)
              (bytes "kitten") (bytes "sitting")) as (_ & _ & _ & H).
  exact H.
Defined.

Lemma WhiteSimilarity_string_form_is_rune_form_witness :
  runewise_string.WhiteSimilarity (fun s => s) (fmap ascii_ToUpper) ascii_IsSpace
    (bytes "Healed") (bytes "Sealed")
  = runewise.WhiteSimilarity ascii_IsSpace ascii_ToUpper (bytes "Healed") (bytes "Sealed").
Proof.
  refine (proj1 (WhiteSimilarity_string_form_is_rune_form (fun s => s)
                   (fmap ascii_ToUpper) ascii_IsSpace ltac:(intros s; lia)
                   ascii_ToUpper (bytes "Healed") (bytes "Sealed") _ _)).
  - reflexivity.
  - intros r. unfold ascii_IsSpace, ascii_ToUpper.
    destruct (Z.leb_spec 97 r), (Z.leb_spec r 122); cbn [andb]; try reflexivity.
    repeat match goal with
           | |- context [?u =? ?v] => destruct (Z.eqb_spec u v); try lia
           end; reflexivity.
Defined.

(** ** JaroWinklerSimilarityParametric: the formula, and the panic *)

(** C5.  JaroWinklerSimilarityParametric does not return on every pair of
    inputs: it calls JaroSimilarity first, and where JaroSimilarity panics,
    as on "abcd" and "aaxx", it panics for every parameter triple, and so
    does JaroWinklerSimilarity.  Where JaroSimilarity returns [j], the call
    returns [j] when [j < boostThreshold] and otherwise
    [j + min(commonPrefixLength, maxPrefixLength) * prefixScale * (1 - j)]
    for every [maxPrefixLength >= 0]; a negative [maxPrefixLength] counts
    as 0, where the formula of the doc comment gives a negative bonus: on
    "a" and "b" with the maximal prefix length -1 and the threshold 0 the
    code returns 0 and the formula -0.1.  JaroWinklerSimilarity is the
    function at the doubles nearest to 0.1 and 0.7 and at the maximal
    prefix length 4. *)
Theorem JaroWinklerSimilarityParametric_panics_where_Jaro_panics :
  (forall (a b : list Z) (prefixScale : float64) (maxPrefixLength : Z)
          (boostThreshold j : float64),
     runewise.JaroSimilarity a b = Ok j ->
     runewise.JaroWinklerSimilarityParametric a b prefixScale maxPrefixLength
       boostThreshold =
     Ok (JaroWinkler_formula j (commonPrefixLength a b) prefixScale
           (Z.max maxPrefixLength 0) boostThreshold) /\
     (0 <= maxPrefixLength ->
      runewise.JaroWinklerSimilarityParametric a b prefixScale maxPrefixLength
        boostThreshold =
      Ok (JaroWinkler_formula j (commonPrefixLength a b) prefixScale
            maxPrefixLength boostThreshold))) /\
  (forall (a b : list Z) (prefixScale : float64) (maxPrefixLength : Z)
          (boostThreshold : float64),
     runewise.JaroSimilarity a b = Panic ->
     runewise.JaroWinklerSimilarityParametric a b prefixScale maxPrefixLength
       boostThreshold = Panic) /\
  (forall (prefixScale : float64) (maxPrefixLength : Z) (boostThreshold : float64),
     runewise.JaroWinklerSimilarityParametric (bytes "abcd") (bytes "aaxx")
       prefixScale maxPrefixLength boostThreshold = Panic) /\
  runewise.JaroWinklerSimilarity (bytes "abcd") (bytes "aaxx") = Panic /\
  runewise.JaroSimilarity [97] [98] = Ok (f64_of_int 0) /\
  commonPrefixLength [97] [98] = 0 /\
  runewise.JaroWinklerSimilarityParametric [97] [98]
    runewise.WinklerPrefixScale (-1) (f64_of_int 0) = Ok (f64_of_int 0) /\
  JaroWinkler_formula (f64_of_int 0) 0 runewise.WinklerPrefixScale (-1) (f64_of_int 0) =
    S754_finite true 7205759403792794 (-56) /\
  (forall a b : list Z,
     runewise.JaroWinklerSimilarity a b =
     runewise.JaroWinklerSimilarityParametric a b
       (f64_div (f64_of_int 1) (f64_of_int 10)) 4
       (f64_div (f64_of_int 7) (f64_of_int 10))).
Proof.
  assert (Hok : forall a b ps mp bt j,
    runewise.JaroSimilarity a b = Ok j ->
    runewise.JaroWinklerSimilarityParametric a b ps mp bt =
    Ok (JaroWinkler_formula j (commonPrefixLength a b) ps (Z.max mp 0) bt)).
  { intros a b ps mp bt j Hj.
    unfold runewise.JaroWinklerSimilarityParametric, JaroWinkler_formula.
    rewrite Hj. cbn [bind]. destruct (f64_ltb j bt); [done|].
    now rewrite clampedSharedPrefixLength_min. }
  assert (Hpanic : forall a b ps mp bt,
    runewise.JaroSimilarity a b = Panic ->
    runewise.JaroWinklerSimilarityParametric a b ps mp bt = Panic).
  { intros a b ps mp bt Hj. unfold runewise.JaroWinklerSimilarityParametric.
    now rewrite Hj. }
  assert (HJ : runewise.JaroSimilarity (bytes "abcd") (bytes "aaxx") = Panic)
    by (vm_compute; reflexivity).
  split; [|split; [exact Hpanic|split; [|split]]].
  - intros a b ps mp bt j Hj. split; [now apply Hok|].
    intros Hmp. rewrite (Hok a b ps mp bt j Hj). now rewrite Z.max_l.
  - intros ps mp bt. now apply Hpanic.
  - now apply Hpanic.
  - split; [vm_compute; reflexivity|]. split; [reflexivity|].
    split; [vm_compute; reflexivity|]. split; [vm_compute; reflexivity|].
    intros a b. reflexivity.
Qed.

Lemma JaroWinklerSimilarityParametric_panics_where_Jaro_panics_witness :
  runewise.JaroSimilarity (bytes "martha") (bytes "martha") = Ok (f64_of_int 1) /\
  runewise.JaroWinklerSimilarityParametric (bytes "martha") (bytes "martha")
    runewise.WinklerPrefixScale 4 runewise.WinklerBoostThreshold =
  Ok (JaroWinkler_formula (f64_of_int 1)
        (commonPrefixLength (bytes "martha") (bytes "martha"))
        runewise.WinklerPrefixScale 4 runewise.WinklerBoostThreshold).
Proof.
  assert (HJ : runewise.JaroSimilarity (bytes "martha") (bytes "martha")
               = Ok (f64_of_int 1)) by (vm_compute; reflexivity).
  split; [exact HJ|].
  destruct JaroWinklerSimilarityParametric_panics_where_Jaro_panics as [H _].
  destruct (H (bytes "martha") (bytes "martha") runewise.WinklerPrefixScale 4
              runewise.WinklerBoostThreshold (f64_of_int 1) HJ) as [_ H4].
  apply H4. lia.
Defined.

(** ** WhiteSimilarity: the upper-cased bigram lists *)

Lemma word_pairs_step {B : Type} (isSpace : Z -> bool) (mk : Z -> Z -> B)
  (x y : Z) (t : list Z) :
  word_pairs isSpace mk (x :: y :: t) =
  if isSpace x || isSpace y then word_pairs isSpace mk (y :: t)
  else mk x y :: word_pairs isSpace mk (y :: t).
Proof. reflexivity. Qed.

Lemma word_pairs_ext {B : Type} (sp1 sp2 : Z -> bool) (mk1 mk2 : Z -> Z -> B)
  (s : list Z) :
  (forall x, sp1 x = sp2 x) -> (forall x y, mk1 x y = mk2 x y) ->
  word_pairs sp1 mk1 s = word_pairs sp2 mk2 s.
Proof.
  intros Hsp Hmk. induction s as [|x s IH]; [done|]. destruct s as [|y s]; [done|].
  now rewrite !word_pairs_step, !Hsp, Hmk, IH.
Qed.

(** The bigrams of upper-cased units are the bigrams of the upper-cased
    input, when upper-casing keeps white space apart. *)
Lemma word_pairs_map {B : Type} (isSpace : Z -> bool) (mk : Z -> Z -> B)
  (up : Z -> Z) (s : list Z) :
  (forall r, isSpace (up r) = isSpace r) ->
  word_pairs isSpace (fun x y => mk (up x) (up y)) s =
  word_pairs isSpace mk (map up s).
Proof.
  intros Hsp. induction s as [|x s IH]; [done|]. destruct s as [|y s]; [done|].
  change (map up (x :: y :: s)) with (up x :: up y :: map up s).
  change (map up (y :: s)) with (up y :: map up s) in IH.
  now rewrite !word_pairs_step, !Hsp, IH.
Qed.

(** The members of the bigram list: the adjacent pairs of units of which
    neither is white space. *)
Lemma word_pairs_elem {B : Type} (isSpace : Z -> bool) (mk : Z -> Z -> B)
  (s : list Z) (bg : B) :
  bg ∈ word_pairs isSpace mk s <->
  exists i x y, s !! i = Some x /\ s !! S i = Some y /\
                isSpace x = false /\ isSpace y = false /\ bg = mk x y.
Proof.
  induction s as [|x s IH].
  - split; [intros H; inversion H|]. now intros (i & x & y & Hx & _).
  - destruct s as [|y s].
    + split; [intros H; inversion H|].
      intros (i & x' & y' & Hx & Hy & _). now destruct i.
    + rewrite word_pairs_step.
      assert (Hstep : (exists i x0 y0, (x :: y :: s) !! i = Some x0 /\
                         (x :: y :: s) !! S i = Some y0 /\
                         isSpace x0 = false /\ isSpace y0 = false /\ bg = mk x0 y0)
                      <->
                      (isSpace x = false /\ isSpace y = false /\ bg = mk x y) \/
                      (exists i x0 y0, (y :: s) !! i = Some x0 /\
                         (y :: s) !! S i = Some y0 /\
                         isSpace x0 = false /\ isSpace y0 = false /\ bg = mk x0 y0)).
      { split.
        - intros (i & x0 & y0 & Hx & Hy & Hsx & Hsy & ->). destruct i as [|i].
          + left. cbn in Hx, Hy. now simplify_eq.
          + right. exists i, x0, y0. auto.
        - intros [(Hsx & Hsy & ->)|(i & x0 & y0 & Hx & Hy & Hsx & Hsy & ->)].
          + exists O, x, y. auto.
          + exists (S i), x0, y0. auto. }
      rewrite Hstep, <- IH.
      destruct (isSpace x) eqn:Ex; cbn [orb].
      * split; [auto|]. now intros [(Hf & _)|H].
      * destruct (isSpace y) eqn:Ey.
        -- split; [auto|]. now intros [(_ & Hf & _)|H].
        -- rewrite elem_of_cons. split.
           ++ intros [->|H]; auto.
           ++ intros [(_ & _ & ->)|H]; auto.
Qed.

Lemma asciiUpperWordLetterPairs_upper_pairs (s : list Z) :
  bytewise.asciiUpperWordLetterPairs s =
  Ok (ascii_upper_pairs s, len (ascii_upper_pairs s)).
Proof.
  rewrite asciiUpperWordLetterPairs_is_word_pairs.
  unfold ascii_word_pairs, ascii_upper_pairs.
  rewrite (word_pairs_ext _ ascii_IsSpace _
             (fun x y => bytewise.mkByteBigram (ascii_ToUpper x) (ascii_ToUpper y)));
    [done|apply asciiUpperOrSpace_snd|].
  intros x y. now rewrite !asciiUpperOrSpace_fst.
Qed.

Lemma bytewise_WhiteSimilarity_white_ratio (a b : list Z) :
  bytewise.WhiteSimilarity a b =
  white_ratio bytewise.bigram_eqb bytewise.zeroBigram
    (ascii_upper_pairs a) (ascii_upper_pairs b).
Proof.
  apply bytewise_WhiteSimilarity_ratio; apply asciiUpperWordLetterPairs_upper_pairs.
Qed.

Lemma runewise_WhiteSimilarity_white_ratio (IsSpace : Z -> bool) (ToUpper : Z -> Z)
  (a b : list Z) :
  runewise.WhiteSimilarity IsSpace ToUpper a b =
  white_ratio runewise.bigram_eqb runewise.zeroBigram
    (upper_word_pairs IsSpace ToUpper a) (upper_word_pairs IsSpace ToUpper b).
Proof.
  apply runewise_WhiteSimilarity_ratio; apply upperWordLetterPairs_is_word_pairs.
Qed.

(** C9.  WhiteSimilarity is case-insensitive because of what it matches.
    For every input, the bigram list that it builds holds, in order, one
    bigram for each pair of adjacent units of which neither is white
    space, made of the two units in upper case: a bigram with a white-space
    unit is discarded.  The result is computed from the two lists so built
    and from nothing else: the error when both are empty, and otherwise
    twice the number of matches over the sum of their lengths.  Hence two
    pairs of inputs that are equal after upper-casing give the same result
    (bytewise for the ASCII upper-casing, runewise for any [unicode.ToUpper]
    that keeps white space apart).  On "Healed " and "HEALed" both lists are
    HE, EA, AL, LE, ED, the bigram with the trailing space being discarded,
    and the result is 1.0. *)
Theorem WhiteSimilarity_case_insensitive :
  (forall s : list Z,
     bytewise.asciiUpperWordLetterPairs s =
       Ok (ascii_upper_pairs s, len (ascii_upper_pairs s))) /\
  (forall (IsSpace : Z -> bool) (ToUpper : Z -> Z) (s : list Z),
     runewise.upperWordLetterPairs IsSpace ToUpper s =
       Ok (upper_word_pairs IsSpace ToUpper s,
           len (upper_word_pairs IsSpace ToUpper s))) /\
  (forall (s : list Z) (bg : bytewise.byteBigram),
     bg ∈ ascii_upper_pairs s <->
     exists i x y, s !! i = Some x /\ s !! S i = Some y /\
                   ascii_IsSpace x = false /\ ascii_IsSpace y = false /\
                   bg = bytewise.mkByteBigram (ascii_ToUpper x) (ascii_ToUpper y)) /\
  (forall (IsSpace : Z -> bool) (ToUpper : Z -> Z) (s : list Z)
          (bg : runewise.runeBigram),
     bg ∈ upper_word_pairs IsSpace ToUpper s <->
     exists i x y, s !! i = Some x /\ s !! S i = Some y /\
                   IsSpace x = false /\ IsSpace y = false /\
                   bg = runewise.mkRuneBigram (ToUpper x) (ToUpper y)) /\
  (forall a b : list Z,
     bytewise.WhiteSimilarity a b =
     white_ratio bytewise.bigram_eqb bytewise.zeroBigram
       (ascii_upper_pairs a) (ascii_upper_pairs b)) /\
  (forall (IsSpace : Z -> bool) (ToUpper : Z -> Z) (a b : list Z),
     runewise.WhiteSimilarity IsSpace ToUpper a b =
     white_ratio runewise.bigram_eqb runewise.zeroBigram
       (upper_word_pairs IsSpace ToUpper a) (upper_word_pairs IsSpace ToUpper b)) /\
  (forall a a' b b' : list Z,
     map ascii_ToUpper a = map ascii_ToUpper a' ->
     map ascii_ToUpper b = map ascii_ToUpper b' ->
     ascii_upper_pairs a = ascii_upper_pairs a' /\
     ascii_upper_pairs b = ascii_upper_pairs b' /\
     bytewise.WhiteSimilarity a b = bytewise.WhiteSimilarity a' b') /\
  (forall (IsSpace : Z -> bool) (ToUpper : Z -> Z),
     (forall r, IsSpace (ToUpper r) = IsSpace r) ->
     forall a a' b b' : list Z,
       map ToUpper a = map ToUpper a' ->
       map ToUpper b = map ToUpper b' ->
       upper_word_pairs IsSpace ToUpper a = upper_word_pairs IsSpace ToUpper a' /\
       upper_word_pairs IsSpace ToUpper b = upper_word_pairs IsSpace ToUpper b' /\
       runewise.WhiteSimilarity IsSpace ToUpper a b =
       runewise.WhiteSimilarity IsSpace ToUpper a' b') /\
  ascii_upper_pairs (bytes "Healed ") =
    [bytewise.mkByteBigram 72 69; bytewise.mkByteBigram 69 65;
     bytewise.mkByteBigram 65 76; bytewise.mkByteBigram 76 69;
     bytewise.mkByteBigram 69 68] /\
  ascii_upper_pairs (bytes "HEALed") = ascii_upper_pairs (bytes "Healed ") /\
  bytewise.WhiteSimilarity (bytes "Healed ") (bytes "HEALed") = Ok (f64_of_int 1) /\
  runewise.WhiteSimilarity ascii_IsSpace ascii_ToUpper
    (bytes "Healed ") (bytes "HEALed") = Ok (f64_of_int 1).
Proof.
  split; [exact asciiUpperWordLetterPairs_upper_pairs|].
  split; [exact upperWordLetterPairs_is_word_pairs|].
  split; [intros s bg; apply word_pairs_elem|].
  split; [intros IsSpace ToUpper s bg; apply word_pairs_elem|].
  split; [exact bytewise_WhiteSimilarity_white_ratio|].
  split; [exact runewise_WhiteSimilarity_white_ratio|].
  split; [|split; [|repeat apply conj; vm_compute; reflexivity]].
  - intros a a' b b' Ha Hb.
    assert (Hp : forall s s', map ascii_ToUpper s = map ascii_ToUpper s' ->
                              ascii_upper_pairs s = ascii_upper_pairs s').
    { intros s s' Hs. unfold ascii_upper_pairs.
      rewrite !(word_pairs_map ascii_IsSpace bytewise.mkByteBigram ascii_ToUpper)
        by apply ascii_IsSpace_ToUpper.
      now rewrite Hs. }
    split; [now apply Hp|]. split; [now apply Hp|].
    now rewrite !bytewise_WhiteSimilarity_white_ratio, (Hp a a'), (Hp b b').
  - intros IsSpace ToUpper Hsp a a' b b' Ha Hb.
    assert (Hp : forall s s', map ToUpper s = map ToUpper s' ->
              upper_word_pairs IsSpace ToUpper s = upper_word_pairs IsSpace ToUpper s').
    { intros s s' Hs. unfold upper_word_pairs.
      rewrite !(word_pairs_map IsSpace runewise.mkRuneBigram ToUpper) by apply Hsp.
      now rewrite Hs. }
    split; [now apply Hp|]. split; [now apply Hp|].
    now rewrite !runewise_WhiteSimilarity_white_ratio, (Hp a a'), (Hp b b').
Qed.

Lemma WhiteSimilarity_case_insensitive_witness :
  bytewise.WhiteSimilarity (bytes "Healed ") (bytes "HEALed") =
  bytewise.WhiteSimilarity (bytes "hEALED ") (bytes "healed") /\
  runewise.WhiteSimilarity ascii_IsSpace ascii_ToUpper (bytes "Healed ") (bytes "HEALed") =
  runewise.WhiteSimilarity ascii_IsSpace ascii_ToUpper (bytes "hEALED ") (bytes "healed").
Proof.
  destruct WhiteSimilarity_case_insensitive
    as (_ & _ & _ & _ & _ & _ & Hb & Hr & _).
  split.
  - apply (Hb (bytes "Healed ") (bytes "hEALED ") (bytes "HEALed") (bytes "healed"));
      reflexivity.
  - apply (Hr ascii_IsSpace ascii_ToUpper ascii_IsSpace_ToUpper
             (bytes "Healed ") (bytes "hEALED ") (bytes "HEALed") (bytes "healed"));
      reflexivity.
Defined.
